(** * FiniteElementSpace (fem/fespace.cpp): a shallow embedding

    The development follows the layout of the C++ file: machine integers,
    signed DOFs and the component maps first, then the marker utilities, the
    dependency matrix and the conforming interpolation, the order masks of
    variable-order spaces, the entity DOF look-ups, the refinement operator
    and finally [Update].

    Conventions.
    - [int] values are integers of [Z]; arithmetic that the C++ code performs
      on [int] goes through [int_wrap], the two's complement wrap-around of a
      32-bit register.
    - [Array<T>] is a [list T]; reads and writes by index use stdpp's list
      look-up and insert.  An index outside the array is undefined behaviour
      in C++ (an assertion in debug builds); each definition says what the
      model does there.
    - [double] values are modelled by exact numbers (rationals, or an
      arbitrary commutative ring where only the ring structure matters):
      rounding is not part of the model. *)

From Stdlib Require Import ZArith List Bool Lia QArith Qabs Ring.
From stdpp Require Import base list gmap.

Local Open Scope Z_scope.

(** ** Machine integers *)

Definition INT_MAX : Z := 2147483647.
Definition INT_MIN : Z := -2147483648.

(** The value a 32-bit two's complement register holds for [z]. *)
Definition int_wrap (z : Z) : Z := (z + 2147483648) mod 4294967296 - 2147483648.

Definition int_range (z : Z) : Prop := INT_MIN <= z <= INT_MAX.

Definition int_add (a b : Z) : Z := int_wrap (a + b).
Definition int_sub (a b : Z) : Z := int_wrap (a - b).
Definition int_mul (a b : Z) : Z := int_wrap (a * b).

(** ** Arrays and outcomes *)

(** [Array<T>] store [a[i] = v]; an index outside the array leaves the
    model unchanged (undefined behaviour in the source). *)
Definition array_set {A} (a : list A) (i : Z) (v : A) : list A :=
  if (0 <=? i) && (i <? Z.of_nat (length a)) then <[Z.to_nat i := v]> a else a.

(** [Array<T>] read [a[i]]; [d] is returned outside the array. *)
Definition array_get {A} (d : A) (a : list A) (i : Z) : A :=
  if 0 <=? i then nth (Z.to_nat i) a d else d.

(** How a call ends: a normal return, a fatal abort ([MFEM_ABORT], a failed
    [MFEM_VERIFY]), or a C++ exception leaving the function
    ([std::out_of_range] from [std::map::at]). *)
Inductive result (A : Type) : Type :=
| Normal (a : A)
| Aborted
| Thrown.
Arguments Normal {A} a.
Arguments Aborted {A}.
Arguments Thrown {A}.

#[export] Instance result_ret : MRet result := fun A a => Normal a.

#[export] Instance result_bind : MBind result := fun A B k r =>
  match r with
  | Normal a => k a
  | Aborted => Aborted
  | Thrown => Thrown
  end.

(** ** The collaborators of a space: geometry, tables, matrices, mesh, basis *)

Inductive Geometry : Type :=
| POINT | SEGMENT | TRIANGLE | SQUARE | TETRAHEDRON | CUBE | PRISM | INVALID.

#[export] Instance Geometry_eq_dec : EqDecision Geometry.
Proof. solve_decision. Defined.

(** [Geometry::NumVerts] *)
Definition NumVerts (g : Geometry) : Z :=
  match g with
  | POINT => 1 | SEGMENT => 2 | TRIANGLE => 3 | SQUARE => 4
  | TETRAHEDRON => 4 | CUBE => 8 | PRISM => 6 | INVALID => 0
  end.

(** Modelled from the spec: the class [Table] (general/table) is not part of
    the sources at hand.  A variant table is "a two-level index: row i lists
    variant start offsets, with one trailing sentinel row holding the
    end-of-table offset".  [tab_I] holds the position in [tab_J] at which
    each row starts (one more entry than rows), [tab_J] the entries of all
    rows one after the other; [Size] is the number of rows, [-1] for a table
    that was never built. *)
Record Table : Type := {
  Size : Z;
  tab_I : list Z;
  tab_J : list Z
}.

(** [Table()] *)
Definition Table_empty : Table := {| Size := -1; tab_I := []; tab_J := [] |}.

(** [table.GetRow(i + 1) - table.GetRow(i)]: the number of entries of row [i]. *)
Definition Table_RowSize (t : Table) (i : Z) : Z :=
  array_get 0 (tab_I t) (i + 1) - array_get 0 (tab_I t) i.

(** [table.GetRow(i)[k]]; for [k] equal to the size of the row this is the
    first entry of the next row. *)
Definition Table_at (t : Table) (i k : Z) : Z :=
  array_get 0 (tab_J t) (array_get 0 (tab_I t) i + k).

(** The whole row, as [table.GetRow(i, row)] copies it. *)
Definition Table_GetRow (t : Table) (i : Z) : list Z :=
  map (Table_at t i) (seqZ 0 (Table_RowSize t i)).


(** ** The mesh and the basis catalogue, as a space consults them *)

(** One master entity of a non-conforming list with the range of its slaves
    in the list's slave array ([NCMesh::Master]). *)
Record Master : Type := {
  master_index : Z;
  slaves_begin : Z;
  slaves_end : Z
}.

(** [NCMesh::NCList]: masters, and slaves by their entity index. *)
Record NCList : Type := {
  masters : list Master;
  slaves : list Z
}.

Inductive Operation : Type := NONE | REFINE | DEREFINE | REBALANCE.

(** [Embedding]: the parent of a fine element and the index of the
    reference transformation that places it inside the parent. *)
Record Embedding : Type := {
  parent : Z;
  matrix : Z
}.

(** What the space reads from its [Mesh] (an external collaborator): counts,
    incidence, the non-conforming master/slave lists, and the version
    counter [GetSequence]. *)
Record Mesh : Type := {
  GetSequence : Z;
  GetLastOperation : Operation;
  Dimension : Z;
  mesh_Conforming : bool;
  GetNE : Z;
  GetNEdges : Z;
  GetNFaces : Z;
  GetElementEdges : Z -> list Z;
  GetElementFaces : Z -> list Z;
  GetFaceEdges : Z -> list Z * list Z;   (* edges and their orientations *)
  GetFaceVertices : Z -> list Z;
  GetEdgeVertices : Z -> list Z;
  GetFaceGeometry : Z -> Geometry;
  GetEdgeList : NCList;
  GetFaceList : NCList;
  embeddings : list Embedding   (* GetRefinementTransforms().embeddings *)
}.

(** A mesh without entities, at version [seq]. *)
Definition empty_mesh (seq : Z) : Mesh := {|
  GetSequence := seq; GetLastOperation := NONE; Dimension := 2;
  mesh_Conforming := false; GetNE := 0; GetNEdges := 0; GetNFaces := 0;
  GetElementEdges := fun _ => []; GetElementFaces := fun _ => [];
  GetFaceEdges := fun _ => ([], []); GetFaceVertices := fun _ => [];
  GetEdgeVertices := fun _ => []; GetFaceGeometry := fun _ => INVALID;
  GetEdgeList := {| masters := []; slaves := [] |};
  GetFaceList := {| masters := []; slaves := [] |};
  embeddings := []
|}.

(** What the space reads from its [FiniteElementCollection]. *)
Record FiniteElementCollection : Type := {
  DefaultOrder : Z;
  GetNumDof : Geometry -> Z -> Z;
  GetDofOrdering : Geometry -> Z -> Z -> list Z
}.

Inductive Ordering_Type := byNODES | byVDIM.

(** Modelled from the spec: the class [SparseMatrix] (linalg/sparsemat) is an
    external collaborator, not part of the sources at hand.  A dependency row
    is "a sparse weighted list of (master DOF, coefficient) pairs"; a matrix
    is the array of its rows. *)
Definition SparseRow : Type := list (Z * Q).
Definition SparseMatrix : Type := list SparseRow.

(** ** The state of a [FiniteElementSpace]

    The members of the class that the modelled methods read or write.
    Pointers that may be [NULL] are options; [NURBSext] records whether the
    pointer is set; [Th] whether a transformation operator is held. *)
Record FiniteElementSpace : Type := {
  vdim : Z;
  ordering : Ordering_Type;
  ndofs : Z;
  nvdofs : Z;
  nedofs : Z;
  nfdofs : Z;
  nbdofs : Z;
  elem_order : list Z;
  var_edge_dofs : Table;
  var_face_dofs : Table;
  ndof_to_geom_order : Geometry -> gmap Z Z;
  elem_dof : option Table;
  bdr_elem_dof : option Table;
  face_dof : option Table;
  NURBSext : bool;
  cP : option SparseMatrix;
  cR : option SparseMatrix;
  cQ : option SparseMatrix;
  cP_is_set : bool;
  Th : bool;
  sequence : Z;
  orders_changed : bool;
  relaxed_hp : bool
}.

(** [FiniteElementSpace::FiniteElementSpace()], the default constructor. *)
Definition FiniteElementSpace_default : FiniteElementSpace := {|
  vdim := 0; ordering := byNODES;
  ndofs := 0; nvdofs := 0; nedofs := 0; nfdofs := 0; nbdofs := 0;
  elem_order := [];
  var_edge_dofs := Table_empty; var_face_dofs := Table_empty;
  ndof_to_geom_order := fun _ => ∅;
  elem_dof := None; bdr_elem_dof := None; face_dof := None;
  NURBSext := false;
  cP := None; cR := None; cQ := None; cP_is_set := false;
  Th := false;
  sequence := 0; orders_changed := false; relaxed_hp := false
|}.

(** [cP = ...; cR = ...; cQ = ...;] with [cP_is_set] set. *)
Definition set_conforming (fes : FiniteElementSpace)
  (P R Q : option SparseMatrix) (is_set : bool) : FiniteElementSpace := {|
  vdim := vdim fes; ordering := ordering fes;
  ndofs := ndofs fes; nvdofs := nvdofs fes; nedofs := nedofs fes;
  nfdofs := nfdofs fes; nbdofs := nbdofs fes;
  elem_order := elem_order fes;
  var_edge_dofs := var_edge_dofs fes; var_face_dofs := var_face_dofs fes;
  ndof_to_geom_order := ndof_to_geom_order fes;
  elem_dof := elem_dof fes; bdr_elem_dof := bdr_elem_dof fes;
  face_dof := face_dof fes;
  NURBSext := NURBSext fes;
  cP := P; cR := R; cQ := Q; cP_is_set := is_set;
  Th := Th fes;
  sequence := sequence fes; orders_changed := orders_changed fes;
  relaxed_hp := relaxed_hp fes
|}.

(** [sequence = s;] *)
Definition set_sequence (fes : FiniteElementSpace) (s : Z)
  : FiniteElementSpace := {|
  vdim := vdim fes; ordering := ordering fes;
  ndofs := ndofs fes; nvdofs := nvdofs fes; nedofs := nedofs fes;
  nfdofs := nfdofs fes; nbdofs := nbdofs fes;
  elem_order := elem_order fes;
  var_edge_dofs := var_edge_dofs fes; var_face_dofs := var_face_dofs fes;
  ndof_to_geom_order := ndof_to_geom_order fes;
  elem_dof := elem_dof fes; bdr_elem_dof := bdr_elem_dof fes;
  face_dof := face_dof fes;
  NURBSext := NURBSext fes;
  cP := cP fes; cR := cR fes; cQ := cQ fes; cP_is_set := cP_is_set fes;
  Th := Th fes;
  sequence := s; orders_changed := orders_changed fes;
  relaxed_hp := relaxed_hp fes
|}.

(** [elem_dof = t;] *)
Definition set_elem_dof (fes : FiniteElementSpace) (t : option Table)
  : FiniteElementSpace := {|
  vdim := vdim fes; ordering := ordering fes;
  ndofs := ndofs fes; nvdofs := nvdofs fes; nedofs := nedofs fes;
  nfdofs := nfdofs fes; nbdofs := nbdofs fes;
  elem_order := elem_order fes;
  var_edge_dofs := var_edge_dofs fes; var_face_dofs := var_face_dofs fes;
  ndof_to_geom_order := ndof_to_geom_order fes;
  elem_dof := t; bdr_elem_dof := bdr_elem_dof fes;
  face_dof := face_dof fes;
  NURBSext := NURBSext fes;
  cP := cP fes; cR := cR fes; cQ := cQ fes; cP_is_set := cP_is_set fes;
  Th := Th fes;
  sequence := sequence fes; orders_changed := orders_changed fes;
  relaxed_hp := relaxed_hp fes
|}.

(** [vdim], [ordering] and [ndofs] as the constructor and [Construct] leave
    them; used to write down small spaces. *)
Definition set_layout (fes : FiniteElementSpace) (vd : Z) (o : Ordering_Type)
  (n : Z) : FiniteElementSpace := {|
  vdim := vd; ordering := o;
  ndofs := n; nvdofs := nvdofs fes; nedofs := nedofs fes;
  nfdofs := nfdofs fes; nbdofs := nbdofs fes;
  elem_order := elem_order fes;
  var_edge_dofs := var_edge_dofs fes; var_face_dofs := var_face_dofs fes;
  ndof_to_geom_order := ndof_to_geom_order fes;
  elem_dof := elem_dof fes; bdr_elem_dof := bdr_elem_dof fes;
  face_dof := face_dof fes;
  NURBSext := NURBSext fes;
  cP := cP fes; cR := cR fes; cQ := cQ fes; cP_is_set := cP_is_set fes;
  Th := Th fes;
  sequence := sequence fes; orders_changed := orders_changed fes;
  relaxed_hp := relaxed_hp fes
|}.

(** [IsVariableOrder()]: the space holds per-element orders
    ([if (elem_order.Size()) // already a variable-order space]). *)
Definition IsVariableOrder (fes : FiniteElementSpace) : bool :=
  0 <? Z.of_nat (length (elem_order fes)).

(** ** Signed DOFs

    A signed DOF [d >= 0] stands for DOF [d] as stored, [-1-d] for the same
    DOF with flipped orientation. *)

(** [const int dof = (sdof < 0) ? -1-sdof : sdof;] in
    [ReorderElementToDofTable]; the same expression is the body of the
    header's [DecodeDof]. *)
Definition DecodeDof (sdof : Z) : Z :=
  if sdof <? 0 then int_sub (-1) sdof else sdof.

(** [-1-new_dof], the flipped encoding written back by
    [ReorderElementToDofTable]. *)
Definition FlipDof (dof : Z) : Z := int_sub (-1) dof.

(** [FiniteElementSpace::AdjustVDofs]: every negative entry [j] is replaced
    by [-1-j]. *)
Definition AdjustVDofs (vdofs : list Z) : list Z :=
  map (fun j => if j <? 0 then int_sub (-1) j else j) vdofs.

(** [FiniteElementSpace::ReorderElementToDofTable] on the connection array
    [J] of [elem_dof]: DOFs are renumbered in the order of their first
    occurrence, the sign of every entry is kept.  The state of the loop is
    [(dof_marker, dof_counter)]; the result is the new [J]. *)
Fixpoint ReorderLoop (J : list Z) (dof_marker : list Z) (dof_counter : Z)
  : list Z :=
  match J with
  | [] => []
  | sdof :: rest =>
      let dof := DecodeDof sdof in
      let new_dof := array_get (-1) dof_marker dof in
      let '(new_dof, dof_marker, dof_counter) :=
        if new_dof <? 0
        then (dof_counter, array_set dof_marker dof dof_counter,
              int_add dof_counter 1)
        else (new_dof, dof_marker, dof_counter) in
      (if sdof <? 0 then FlipDof new_dof else new_dof)
        :: ReorderLoop rest dof_marker dof_counter
  end.

Definition ReorderElementToDofTable (fes : FiniteElementSpace) (J : list Z)
  : list Z :=
  ReorderLoop J (replicate (Z.to_nat (ndofs fes)) (-1)) 0.

(** ** Component maps *)

(** Modelled from the spec: [Ordering::Map] is defined in the header
    fespace.hpp, which is not part of the sources at hand.  Node-major
    ordering keeps the [ndofs] values of one component together
    ([dof + ndofs*vd]), component-major ordering keeps the [vdim] components
    of one DOF together ([vd + vdim*dof]); a flipped DOF [-1-d] is mapped to
    the flipped image of [d]. *)
Definition Ordering_Map (o : Ordering_Type) (ndofs vdim dof vd : Z) : Z :=
  match o with
  | byNODES =>
      if 0 <=? dof then int_add dof (int_mul ndofs vd)
      else int_sub dof (int_mul ndofs vd)
  | byVDIM =>
      if 0 <=? dof then int_add vd (int_mul vdim dof)
      else int_sub (-1) (int_add vd (int_mul vdim (int_sub (-1) dof)))
  end.

(** [FiniteElementSpace::DofToVDof(dof, vd, ndofs)]; the header declares
    [ndofs = -1] as the default of the last argument. *)
Definition DofToVDof (fes : FiniteElementSpace) (dof vd ndofs_arg : Z) : Z :=
  if vdim fes =? 1 then dof
  else
    let ndofs_arg := if ndofs_arg <? 0 then ndofs fes else ndofs_arg in
    match ordering fes with
    | byNODES => Ordering_Map byNODES ndofs_arg (vdim fes) dof vd
    | byVDIM => Ordering_Map byVDIM ndofs_arg (vdim fes) dof vd
    end.

(** [FiniteElementSpace::DofsToVDofs(vd, dofs, ndofs)]. *)
Definition DofsToVDofs (fes : FiniteElementSpace) (vd : Z) (dofs : list Z)
  (ndofs_arg : Z) : list Z :=
  if vdim fes =? 1 then dofs
  else
    let ndofs_arg := if ndofs_arg <? 0 then ndofs fes else ndofs_arg in
    match ordering fes with
    | byNODES => map (fun d => Ordering_Map byNODES ndofs_arg (vdim fes) d vd) dofs
    | byVDIM => map (fun d => Ordering_Map byVDIM ndofs_arg (vdim fes) d vd) dofs
    end.

(** ** Marker arrays and index lists *)

(** The second loop of [MarkerToList], started at index [i] of the array:
    [if (marker[i]) { list.Append(i); }].  The first loop only counts the
    marked entries to reserve capacity. *)
Fixpoint MarkerToList_from (i : Z) (marker : list Z) : list Z :=
  match marker with
  | [] => []
  | m :: rest =>
      if m =? 0 then MarkerToList_from (i + 1) rest
      else i :: MarkerToList_from (i + 1) rest
  end.

Definition MarkerToList (marker : list Z) : list Z := MarkerToList_from 0 marker.

(** [ListToMarker(list, marker_size, marker, mark_val)]: the marker is
    resized to [marker_size], zeroed, and [marker[list[i]] = mark_val] is
    stored for every entry of the list, in order. *)
Definition ListToMarker (lst : list Z) (marker_size : Z) (mark_val : Z)
  : list Z :=
  fold_left (fun marker i => array_set marker i mark_val) lst
    (replicate (Z.to_nat marker_size) 0).


(** What the round trip computes at one entry: a zero stays zero, anything
    else becomes [mark_val]. *)
Definition remark (mark_val m : Z) : Z := if m =? 0 then 0 else mark_val.

(** ** Sparse matrices and the dependency matrix *)

(** Modelled from the spec: the methods of [SparseMatrix] used while a matrix
    is assembled.  [Add(i, j, val)] creates the entry [(i, j)] if row [i] has
    none for column [j] and adds [val] to it; [RowSize(i)] is the number of
    entries of row [i]. *)

(** [SparseMatrix(nrows)], without entries. *)
Definition SpEmpty (nrows : Z) : SparseMatrix := replicate (Z.to_nat nrows) [].

Definition SpGetRow (m : SparseMatrix) (i : Z) : SparseRow := array_get [] m i.

Definition SpRowSize (m : SparseMatrix) (i : Z) : Z :=
  Z.of_nat (length (SpGetRow m i)).

Fixpoint row_add (r : SparseRow) (j : Z) (val : Q) : SparseRow :=
  match r with
  | [] => [(j, val)]
  | (c, a) :: r' =>
      if c =? j then (c, (a + val)%Q) :: r' else (c, a) :: row_add r' j val
  end.

(** [Add(i, j, val)]; a row index outside the matrix is refused by the
    library, the model leaves the matrix unchanged. *)
Definition SpAdd (m : SparseMatrix) (i j : Z) (val : Q) : SparseMatrix :=
  array_set m i (row_add (SpGetRow m i) j val).

(** [AddRow(i, cols, srow)]: [Add(i, cols[k], srow[k])] for every [k]. *)
Definition SpAddRow (m : SparseMatrix) (i : Z) (row : SparseRow)
  : SparseMatrix :=
  fold_left (fun m '(j, val) => SpAdd m i j val) row m.

(** [srow *= a] on a row copied out of a matrix by [GetRow]. *)
Definition row_scale (a : Q) (row : SparseRow) : SparseRow :=
  map (fun '(j, val) => (j, (val * a)%Q)) row.

(** The two methods [AddDependencies] calls on its first argument. *)
Class DependencyMatrix (M : Type) := {
  RowSize : M -> Z -> Z;
  Add : M -> Z -> Z -> Q -> M
}.

(** Modelled from the spec: the dependency matrix is addressed by signed
    DOFs.  A dependency row belongs to a DOF, and for a signed DOF "value
    [-1-d] means stored with flipped sign/orientation": [RowSize(i)] and
    [Add(i, j, val)] work on the row and the column of the DOFs that the
    signed indices decode to, and the value enters with the opposite sign
    where exactly one of the two indices is flipped. *)
Definition SpRowSize_signed (m : SparseMatrix) (i : Z) : Z :=
  SpRowSize m (DecodeDof i).

Definition SpAdd_signed (m : SparseMatrix) (i j : Z) (val : Q)
  : SparseMatrix :=
  SpAdd m (DecodeDof i) (DecodeDof j)
    (if xorb (i <? 0) (j <? 0) then (- val)%Q else val).

#[export] Instance SparseMatrix_deps : DependencyMatrix SparseMatrix :=
  {| RowSize := SpRowSize_signed; Add := SpAdd_signed |}.

(** A matrix together with the log of the [Add] calls made on it, oldest
    first: the entries a caller has recorded. *)
Definition Logged (M : Type) : Type := (M * list (Z * Z * Q))%type.

#[export] Instance Logged_deps {M} `{DependencyMatrix M}
  : DependencyMatrix (Logged M) :=
  {| RowSize := fun m i => RowSize (fst m) i;
     Add := fun m i j val => (Add (fst m) i j val, snd m ++ [(i, j, val)]) |}.

(** [std::abs(coef) > 1e-12] *)
Definition dependency_threshold : Q := 1 # 1000000000000.

Definition above_threshold (coef : Q) : bool :=
  negb (Qle_bool (Qabs coef) dependency_threshold).

(** [DenseMatrix], read by [I(i, j)]. *)
Definition DenseMatrix : Type := Z -> Z -> Q.

(** The body of the inner loop of [AddDependencies], for column [j] of row
    [i] of [I]. *)
Definition AddDependencies_entry {M} `{DependencyMatrix M}
  (master_dofs : list Z) (I : DenseMatrix) (i sdof : Z) (deps : M) (j : Z)
  : M :=
  let coef := I i j in
  if above_threshold coef then
    let mdof := array_get 0 master_dofs j in
    if negb (mdof =? sdof) && negb (mdof =? int_sub (-1) sdof)
    then Add deps sdof mdof coef
    else deps
  else deps.

(** The body of the outer loop, for the slave index [i]. *)
Definition AddDependencies_row {M} `{DependencyMatrix M}
  (master_dofs slave_dofs : list Z) (I : DenseMatrix) (deps : M) (i : Z) : M :=
  let sdof := array_get 0 slave_dofs i in
  if RowSize deps sdof =? 0 then
    fold_left (AddDependencies_entry master_dofs I i sdof)
      (seqZ 0 (Z.of_nat (length master_dofs))) deps
  else deps.

(** [FiniteElementSpace::AddDependencies(deps, master_dofs, slave_dofs, I,
    skipfirst)] *)
Definition AddDependencies {M} `{DependencyMatrix M}
  (deps : M) (master_dofs slave_dofs : list Z) (I : DenseMatrix)
  (skipfirst : Z) : M :=
  fold_left (AddDependencies_row master_dofs slave_dofs I)
    (seqZ skipfirst (Z.of_nat (length slave_dofs) - skipfirst)) deps.

(** The test the inner loop of [AddDependencies] applies to column [j] for
    the slave DOF [sdof] of row [i]: the coefficient is above the threshold
    and the master DOF is neither [sdof] nor its sign-flipped twin. *)
Definition dependency_kept (master_dofs : list Z) (I : DenseMatrix)
  (i sdof j : Z) : bool :=
  above_threshold (I i j)
  && negb (array_get 0 master_dofs j =? sdof)
  && negb (array_get 0 master_dofs j =? FlipDof sdof).

(** The entries row [i] of [I] contributes for the slave DOF [sdof], in the
    order of the master DOFs. *)
Definition kept_entries (master_dofs : list Z) (I : DenseMatrix) (i sdof : Z)
  (js : list Z) : list (Z * Z * Q) :=
  flat_map (fun j => if dependency_kept master_dofs I i sdof j
                     then [(sdof, array_get 0 master_dofs j, I i j)] else [])
    js.

(** A small transfer matrix used to exercise [AddDependencies]: slave rows
    0 and 2 interpolate the two master DOFs, row 1 has one entry below the
    threshold. *)
Definition example_transfer : DenseMatrix := fun i j =>
  if i =? 1 then (if j =? 0 then 1 # 10000000000000 else 1)%Q
  else (1 # 2)%Q.

(** ** The conforming interpolation *)

(** [FiniteElementSpace::DofFinalizable]: are all constraining DOFs of [dof]
    finalized? *)
Definition DofFinalizable (dof : Z) (finalized : list bool)
  (deps : SparseMatrix) : bool :=
  forallb (fun '(dep, _) => array_get false finalized dep) (SpGetRow deps dof).

(** The variables of the finalization loop of
    [BuildConformingInterpolation]. *)
Record Resolution : Type := {
  res_cP : SparseMatrix;
  res_finalized : list bool;
  res_n_finalized : Z;
  res_finished : bool
}.

(** The body of [for (int dof = 0; dof < ndofs; dof++)]: a DOF that is not
    finalized and whose masters all are gets its row of [cP], the
    combination of the rows of its masters. *)
Definition finalize_dof (deps : SparseMatrix) (st : Resolution) (dof : Z)
  : Resolution :=
  if negb (array_get false (res_finalized st) dof)
     && DofFinalizable dof (res_finalized st) deps
  then
    {| res_cP :=
         fold_left
           (fun P '(dep_col, dep_coef) =>
              SpAddRow P dof (row_scale dep_coef (SpGetRow P dep_col)))
           (SpGetRow deps dof) (res_cP st);
       res_finalized := array_set (res_finalized st) dof true;
       res_n_finalized := int_add (res_n_finalized st) 1;
       res_finished := false |}
  else st.

(** One pass of the [do { ... } while (!finished)] loop. *)
Definition finalize_pass (deps : SparseMatrix) (n : Z) (st : Resolution)
  : Resolution :=
  fold_left (finalize_dof deps) (seqZ 0 n)
    {| res_cP := res_cP st; res_finalized := res_finalized st;
       res_n_finalized := res_n_finalized st; res_finished := true |}.

(** The [do]-[while] loop; [None] when [fuel] passes did not reach the end. *)
Fixpoint finalize_loop (fuel : nat) (deps : SparseMatrix) (n : Z)
  (st : Resolution) : option Resolution :=
  match fuel with
  | O => None
  | S fuel =>
      let st := finalize_pass deps n st in
      if res_finished st then Some st else finalize_loop fuel deps n st
  end.

(** [n_true_dofs]: the DOFs whose dependency row stayed empty. *)
Definition count_true_dofs (deps : SparseMatrix) (n : Z) : Z :=
  fold_left (fun c i => if SpRowSize deps i =? 0 then int_add c 1 else c)
    (seqZ 0 n) 0.

(** The variables of the loop that puts the identity into [cP] for the true
    DOFs and initialises [cR] and [cQ]. *)
Record TrueDofs : Type := {
  td_cP : SparseMatrix;
  td_cR_J : list Z;
  td_cQ : option SparseMatrix;
  td_finalized : list bool;
  td_true_dof : Z
}.

Definition init_true_dof (deps sped : SparseMatrix) (st : TrueDofs) (i : Z)
  : TrueDofs :=
  if SpRowSize deps i =? 0 then
    {| td_cP := SpAdd (td_cP st) i (td_true_dof st) 1;
       td_cR_J := array_set (td_cR_J st) (td_true_dof st) i;
       td_cQ :=
         match td_cQ st with
         | Some Qm =>
             Some (if negb (SpRowSize sped i =? 0)
                   then SpAddRow Qm (td_true_dof st) (SpGetRow sped i)
                   else SpAdd Qm (td_true_dof st) i 1)
         | None => None
         end;
       td_finalized := array_set (td_finalized st) i true;
       td_true_dof := int_add (td_true_dof st) 1 |}
  else st.

Definition init_true_dofs (variable_order : bool) (deps sped : SparseMatrix)
  (n n_true_dofs : Z) : TrueDofs :=
  fold_left (init_true_dof deps sped) (seqZ 0 n)
    {| td_cP := SpEmpty n;
       td_cR_J := replicate (Z.to_nat n_true_dofs) 0;
       td_cQ := if variable_order then Some (SpEmpty n_true_dofs) else None;
       td_finalized := replicate (Z.to_nat n) false;
       td_true_dof := 0 |}.

(** The state in which the finalization loop starts. *)
Definition resolution_start (variable_order : bool) (deps sped : SparseMatrix)
  (n : Z) : Resolution :=
  let n_true_dofs := count_true_dofs deps n in
  let td := init_true_dofs variable_order deps sped n n_true_dofs in
  {| res_cP := td_cP td; res_finalized := td_finalized td;
     res_n_finalized := n_true_dofs; res_finished := false |}.

(** [SetRow(row, cols, srow)] on a matrix under assembly. *)
Definition SpSetRow (m : SparseMatrix) (i : Z) (row : SparseRow)
  : SparseMatrix := array_set m i row.

Section Conforming.

(** The first part of [BuildConformingInterpolation] walks the master/slave
    lists of the non-conforming mesh and the variant tables, asks the basis
    catalogue for local transfer matrices and feeds them to
    [AddDependencies]; it ends with [deps.Finalize(); sped.Finalize();].
    Mesh and catalogue are external, so the two finalized matrices are taken
    as a function of the space. *)
Variable collect_dependencies : FiniteElementSpace -> SparseMatrix * SparseMatrix.

(** [SparseMatrix::Finalize], external. *)
Variable Finalize : SparseMatrix -> SparseMatrix.

Variable mesh : Mesh.

(** [FiniteElementSpace::MakeVDimMatrix] on a matrix with [width] columns. *)
Definition MakeVDimMatrix (fes : FiniteElementSpace) (mat : SparseMatrix)
  (width : Z) : SparseMatrix :=
  if vdim fes =? 1 then mat
  else
    let height := Z.of_nat (length mat) in
    Finalize
      (fold_left
         (fun vmat i =>
            let row := SpGetRow mat i in
            fold_left
              (fun vmat vd =>
                 let vdofs := DofsToVDofs fes vd (map fst row) width in
                 SpSetRow vmat (DofToVDof fes i vd height)
                   (zip vdofs (map snd row)))
              (seqZ 0 (vdim fes)) vmat)
         (seqZ 0 height) (SpEmpty (int_mul (vdim fes) height))).

(** [FiniteElementSpace::BuildConformingInterpolation], from the point where
    the dependencies are collected.  [None] stands for a finalization loop
    that is still running after [fuel] passes. *)
Definition BuildConformingInterpolation (fuel : nat)
  (fes : FiniteElementSpace) : option (result FiniteElementSpace) :=
  if cP_is_set fes then Some (Normal fes)
  else
    let fes := set_conforming fes (cP fes) (cR fes) (cQ fes) true in
    let '(deps, sped) := collect_dependencies fes in
    let n := ndofs fes in
    let n_true_dofs := count_true_dofs deps n in
    if n_true_dofs =? n then
      (* cP = cR = cQ = NULL; will be treated as identities *)
      Some (Normal (set_conforming fes None None None true))
    else
      let td := init_true_dofs (IsVariableOrder fes) deps sped n n_true_dofs in
      match finalize_loop fuel deps n
              (resolution_start (IsVariableOrder fes) deps sped n) with
      | None => None
      | Some st =>
          if negb (res_n_finalized st =? n) then Some Aborted
          else
            let P := Finalize (res_cP st) in
            let R := map (fun j => [(j, 1%Q)]) (td_cR_J td) in
            let Qm := option_map Finalize (td_cQ td) in
            Some (Normal
              (if 1 <? vdim fes then
                 set_conforming fes
                   (Some (MakeVDimMatrix fes P n_true_dofs))
                   (Some (MakeVDimMatrix fes R n))
                   (option_map (fun m => MakeVDimMatrix fes m n) Qm) true
               else set_conforming fes (Some P) (Some R) Qm true))
      end.

(** [Conforming()]: the mesh has no non-conforming extension. *)
Definition Conforming : bool := mesh_Conforming mesh.

(** [FiniteElementSpace::GetConformingProlongation]: the space after the
    call and the pointer returned. *)
Definition GetConformingProlongation (fuel : nat) (fes : FiniteElementSpace)
  : option (result (FiniteElementSpace * option SparseMatrix)) :=
  if Conforming then Some (Normal (fes, None))
  else
    built ← (if negb (cP_is_set fes)
             then BuildConformingInterpolation fuel fes
             else Some (Normal fes));
    Some (fes ← built; Normal (fes, cP fes)).

(** [FiniteElementSpace::GetConformingRestriction] *)
Definition GetConformingRestriction (fuel : nat) (fes : FiniteElementSpace)
  : option (result (FiniteElementSpace * option SparseMatrix)) :=
  if Conforming then Some (Normal (fes, None))
  else
    built ← (if negb (cP_is_set fes)
             then BuildConformingInterpolation fuel fes
             else Some (Normal fes));
    Some (fes ← built; Normal (fes, cR fes)).

(** [FiniteElementSpace::GetConformingRestrictionInterpolation] *)
Definition GetConformingRestrictionInterpolation (fuel : nat)
  (fes : FiniteElementSpace)
  : option (result (FiniteElementSpace * option SparseMatrix)) :=
  if Conforming then Some (Normal (fes, None))
  else if negb (IsVariableOrder fes) then Some (Normal (fes, cR fes))
  else
    built ← (if negb (cP_is_set fes)
             then BuildConformingInterpolation fuel fes
             else Some (Normal fes));
    Some (fes ← built; Normal (fes, cQ fes)).

(** [FiniteElementSpace::GetNConformingDofs]; [P->Width()] is passed in for
    the case that [P] is not [NULL]. *)
Definition GetNConformingDofs (fuel : nat) (fes : FiniteElementSpace)
  (P_Width : Z) : option (result Z) :=
  r ← GetConformingProlongation fuel fes;
  Some ('(fes, P) ← r;
        Normal (match P with
                | Some _ => Z.quot P_Width (vdim fes)
                | None => ndofs fes
                end)).

(** [FiniteElementSpace::ConvertToConformingVDofs]: [cdofs] after the call;
    [BooleanMultTranspose] of the library is passed in. *)
Definition ConvertToConformingVDofs
  (BooleanMultTranspose : SparseMatrix -> list Z -> list Z)
  (fuel : nat) (fes : FiniteElementSpace) (dofs : list Z)
  : option (result (list Z)) :=
  r ← GetConformingProlongation fuel fes;
  Some ('(fes, _) ← r;
        Normal (match cP fes with
                | Some P => BooleanMultTranspose P dofs
                | None => dofs
                end)).

End Conforming.

(** Three small dependency matrices over three DOFs: a chain (DOF 1 hangs
    on DOF 0, DOF 2 on DOFs 0 and 1), a cycle (DOFs 1 and 2 constrain each
    other), and no constraints at all. *)
Definition chain_deps : SparseMatrix :=
  [[]; [(0, 1%Q)]; [(1, (1 # 2)%Q); (0, (1 # 2)%Q)]].

Definition cyclic_deps : SparseMatrix :=
  [[]; [(2, 1%Q)]; [(1, 1%Q)]].

Definition no_deps : SparseMatrix := [[]; []; []].

(** A scalar space with three DOFs on which nothing has been built yet. *)
Definition three_dof_space : FiniteElementSpace :=
  set_layout FiniteElementSpace_default 1 byNODES 3.

(** ** Order masks of variable-order spaces *)

Section VarOrders.

(** The number of bits of [VarOrderBits] (the type is declared in the header;
    [MaxVarOrder] is this width minus one). *)
Variable width : Z.

(** A value as a [VarOrderBits] register holds it. *)
Definition bits_wrap (z : Z) : Z := z mod 2 ^ width.

(** [VarOrderBits(1) << order] *)
Definition order_bit (order : Z) : Z := bits_wrap (Z.shiftl 1 order).

(** The loop of [MinOrder], entered with the running [order] and what is
    left of [bits]; a register of [width] bits is zero after at most [width]
    shifts, which is as many iterations as [fuel] allows. *)
Fixpoint MinOrder_from (fuel : nat) (order bits : Z) : Z :=
  match fuel with
  | O => 0
  | S fuel =>
      if bits =? 0 then 0
      else if negb (Z.land bits 1 =? 0) then order
      else MinOrder_from fuel (order + 1) (Z.shiftr bits 1)
  end.

(** [FiniteElementSpace::MinOrder] *)
Definition MinOrder (bits : Z) : Z := MinOrder_from (Z.to_nat width) 0 bits.

(** The variables of [CalcEdgeFaceVarOrders]. *)
Record Orders : Type := {
  edge_orders : list Z;
  face_orders : list Z;
  orders_done : bool
}.

(** [orders[i] |= mask] *)
Definition or_into (orders : list Z) (i mask : Z) : list Z :=
  array_set orders i (Z.lor (array_get 0 orders i) mask).

Variable mesh : Mesh.

(** Initial edge and face orders, as required by the incident elements: the
    body of the loop over the elements. *)
Definition init_element_orders (elem_order : list Z) (st : Orders) (i : Z)
  : Orders :=
  let mask := order_bit (array_get 0 elem_order i) in
  let edges :=
    fold_left (fun eo e => or_into eo e mask) (GetElementEdges mesh i)
      (edge_orders st) in
  let faces :=
    if 2 <? Dimension mesh
    then fold_left (fun fo f => or_into fo f mask) (GetElementFaces mesh i)
           (face_orders st)
    else face_orders st in
  {| edge_orders := edges; face_orders := faces;
     orders_done := orders_done st |}.

(** Propagation from the slave edges of one master edge. *)
Definition propagate_edge_master (st : Orders) (master : Master) : Orders :=
  let slave_orders :=
    fold_left
      (fun so i =>
         Z.lor so (array_get 0 (edge_orders st)
                     (array_get 0 (slaves (GetEdgeList mesh)) i)))
      (seqZ (slaves_begin master) (slaves_end master - slaves_begin master))
      0 in
  let min_order := MinOrder slave_orders in
  if min_order <? MinOrder (array_get 0 (edge_orders st) (master_index master))
  then {| edge_orders :=
            or_into (edge_orders st) (master_index master)
              (order_bit min_order);
          face_orders := face_orders st;
          orders_done := false |}
  else st.

(** Propagation from the slave faces of one master face, and from the edges
    of those slave faces. *)
Definition propagate_face_master (st : Orders) (master : Master) : Orders :=
  let slave_orders :=
    fold_left
      (fun so i =>
         let slave := array_get 0 (slaves (GetFaceList mesh)) i in
         let so := Z.lor so (array_get 0 (face_orders st) slave) in
         fold_left (fun so e => Z.lor so (array_get 0 (edge_orders st) e))
           (fst (GetFaceEdges mesh slave)) so)
      (seqZ (slaves_begin master) (slaves_end master - slaves_begin master))
      0 in
  let min_order := MinOrder slave_orders in
  if min_order <? MinOrder (array_get 0 (face_orders st) (master_index master))
  then {| edge_orders := edge_orders st;
          face_orders :=
            or_into (face_orders st) (master_index master)
              (order_bit min_order);
          orders_done := false |}
  else st.

(** The edges of face [i] take over the orders of the face. *)
Definition push_face_to_edges (st : Orders) (i : Z) : Orders :=
  {| edge_orders :=
       fold_left
         (fun eo e => or_into eo e (array_get 0 (face_orders st) i))
         (fst (GetFaceEdges mesh i)) (edge_orders st);
     face_orders := face_orders st;
     orders_done := orders_done st |}.

(** One pass of the [do { ... } while (!done)] loop. *)
Definition propagate_pass (st : Orders) : Orders :=
  let st := {| edge_orders := edge_orders st; face_orders := face_orders st;
               orders_done := true |} in
  let st := fold_left propagate_edge_master (masters (GetEdgeList mesh)) st in
  let st := fold_left propagate_face_master (masters (GetFaceList mesh)) st in
  fold_left push_face_to_edges (seqZ 0 (GetNFaces mesh)) st.

(** The [do]-[while] loop; [None] when [fuel] passes did not reach the end. *)
Fixpoint propagate_loop (fuel : nat) (st : Orders) : option Orders :=
  match fuel with
  | O => None
  | S fuel =>
      let st := propagate_pass st in
      if orders_done st then Some st else propagate_loop fuel st
  end.

(** The masks before the loop. *)
Definition initial_orders (elem_order : list Z) : Orders :=
  fold_left (init_element_orders elem_order) (seqZ 0 (GetNE mesh))
    {| edge_orders := replicate (Z.to_nat (GetNEdges mesh)) 0;
       face_orders := replicate (Z.to_nat (GetNFaces mesh)) 0;
       orders_done := false |}.

(** [FiniteElementSpace::CalcEdgeFaceVarOrders(edge_orders, face_orders)]:
    the two arrays at the return. *)
Definition CalcEdgeFaceVarOrders (fuel : nat) (fes : FiniteElementSpace)
  : option (list Z * list Z) :=
  let st := initial_orders (elem_order fes) in
  if relaxed_hp fes then Some (edge_orders st, face_orders st)
  else
    st ← propagate_loop fuel st;
    Some (edge_orders st, face_orders st).

(** The number of orders a mask supports, and the number of orders all
    masks of a state support together. *)
Definition popcount (m : Z) : Z :=
  Z.of_nat (length (filter (fun k => Z.testbit m k = true) (seqZ 0 width))).

Definition total_orders (st : Orders) : Z :=
  foldr (fun m s => popcount m + s) 0 (edge_orders st)
  + foldr (fun m s => popcount m + s) 0 (face_orders st).

End VarOrders.

(** Every order of mask [a] is an order of mask [b]. *)
Definition mask_le (a b : Z) : Prop :=
  forall k, Z.testbit a k = true -> Z.testbit b k = true.

(** Masks only grow from [st] to [st']. *)
Definition orders_grow (st st' : Orders) : Prop :=
  Forall2 mask_le (edge_orders st) (edge_orders st') /\
  Forall2 mask_le (face_orders st) (face_orders st').

(** ** Entity DOF look-up *)

(** Modelled from the spec: [EncodeDof] is defined in the header.  A local
    index [idx >= 0] of an entity whose block starts at [entity_base] is DOF
    [entity_base + idx]; a flipped local index [-1-i] gives the flipped
    encoding of DOF [entity_base + i]. *)
Definition EncodeDof (entity_base idx : Z) : Z :=
  if 0 <=? idx then int_add entity_base idx
  else int_sub (-1) (int_add entity_base (int_sub (-1) idx)).

(** [FiniteElementSpace::FindDofs]: the start of the block of [ndof] DOFs in
    row [row] of a variant table; a fatal error if the row has none.
    [remaining] counts the variants still to be looked at, [beg] is the
    position of the current one. *)
Fixpoint FindDofs_from (t : Table) (row : Z) (ndof : Z) (remaining : nat)
  (beg : Z) : result Z :=
  match remaining with
  | O => Aborted
  | S remaining =>
      if int_sub (Table_at t row (beg + 1)) (Table_at t row beg) =? ndof
      then Normal (Table_at t row beg)
      else FindDofs_from t row ndof remaining (beg + 1)
  end.

Definition FindDofs (t : Table) (row ndof : Z) : result Z :=
  FindDofs_from t row ndof (Z.to_nat (Table_RowSize t row)) 0.

(** [FindEdgeDof(edge, ndof)], declared in the header as
    [FindDofs(var_edge_dofs, edge, ndof)]. *)
Definition FindEdgeDof (fes : FiniteElementSpace) (edge ndof : Z) : result Z :=
  FindDofs (var_edge_dofs fes) edge ndof.

Section EntityDofs.

Variable mesh : Mesh.
Variable fec : FiniteElementCollection.

(** [for (i ...) for (j = 0; j < nv; j++) dofs.Append(V[i]*nv + j);] *)
Definition vertex_dofs (V : list Z) (nv : Z) : list Z :=
  flat_map (fun v => map (fun j => int_add (int_mul v nv) j) (seqZ 0 nv)) V.

(** [FiniteElementSpace::GetEdgeDofs(edge, dofs, variant)]: the value
    returned and the array [dofs] after the call. *)
Definition GetEdgeDofs (fes : FiniteElementSpace) (edge : Z) (dofs : list Z)
  (variant : Z) : Z * list Z :=
  let fill (p ne base : Z) : Z * list Z :=
    let nv := GetNumDof fec POINT p in
    let V := if nv =? 0 then [] else GetEdgeVertices mesh edge in
    (p,
     vertex_dofs (map (array_get 0 V) (seqZ 0 (if nv =? 0 then 0 else 2))) nv
     ++ map (fun j => int_add (int_add (nvdofs fes) base) j) (seqZ 0 ne)) in
  if IsVariableOrder fes then
    if Table_RowSize (var_edge_dofs fes) edge <=? variant
    then (-1, dofs) (* past last edge DOFs *)
    else
      let base := Table_at (var_edge_dofs fes) edge variant in
      let ne := int_sub (Table_at (var_edge_dofs fes) edge (variant + 1)) base in
      let p := int_add ne 1 in
      fill p ne base
  else
    if 0 <? variant then (-1, dofs)
    else
      let p := DefaultOrder fec in
      let ne := GetNumDof fec SEGMENT p in
      fill p ne (int_mul edge ne).

(** [BuildNURBSFaceToDofTable()] when [face_dof] is not built yet: the table
    it builds from the boundary elements of the mesh, or the fatal error
    "non-matching face and boundary elements detected!". *)
Variable BuildNURBSFaceToDofTable : result Table.

(** The edge DOFs inside [GetFaceDofs]: for every edge of the face, its
    block of [ne] DOFs in the order and with the signs the edge orientation
    prescribes. *)
Fixpoint face_edge_dofs (fes : FiniteElementSpace) (p ne : Z)
  (E Eo : list Z) : result (list Z) :=
  match E with
  | [] => Normal []
  | e :: E' =>
      ebase ← (if IsVariableOrder fes then FindEdgeDof fes e ne
               else Normal (int_mul e ne));
      let ind := GetDofOrdering fec SEGMENT p (array_get 0 Eo 0) in
      rest ← face_edge_dofs fes p ne E' (tail Eo);
      Normal (map (fun j => EncodeDof (int_add (nvdofs fes) ebase)
                              (array_get 0 ind j)) (seqZ 0 ne)
              ++ rest)
  end.

(** The part of [GetFaceDofs] below the choice of the variant ("for 1D, 2D
    and 3D faces"): vertex DOFs, edge DOFs and the [nf] DOFs of the face's
    own block at [fbase]; [p] is returned. *)
Definition face_dofs_fill (fes : FiniteElementSpace) (face p nf fbase : Z)
  : result (Z * list Z) :=
  let nv := GetNumDof fec POINT p in
  let ne := if 1 <? Dimension mesh then GetNumDof fec SEGMENT p else 0 in
  let V := if nv =? 0 then [] else GetFaceVertices mesh face in
  let '(E, Eo) := if ne =? 0 then ([], []) else GetFaceEdges mesh face in
  edofs ← (if ne =? 0 then Normal [] else face_edge_dofs fes p ne E Eo);
  Normal
    (p,
     (if nv =? 0 then [] else vertex_dofs V nv)
     ++ edofs
     ++ map (fun j => int_add (int_add (int_add (nvdofs fes) (nedofs fes))
                                 fbase) j) (seqZ 0 nf)).

(** [FiniteElementSpace::GetFaceDofs(face, dofs, variant)]: how the call
    ends, and on a normal return the value returned and the array [dofs]
    after the call. *)
Definition GetFaceDofs (fes : FiniteElementSpace) (face : Z) (dofs : list Z)
  (variant : Z) : result (Z * list Z) :=
  (* If face_dof is already built, use it.  If it is not and we have a
     NURBS space, build the face_dof and use it. *)
  let table : option (result Table) :=
    match face_dof fes with
    | Some t => if (variant =? 0) || NURBSext fes then Some (Normal t) else None
    | None => if NURBSext fes then Some BuildNURBSFaceToDofTable else None
    end in
  match table with
  | Some built =>
      t ← built; Normal (DefaultOrder fec, Table_GetRow t face)
  | None =>
      let fgeom :=
        if 2 <? Dimension mesh then GetFaceGeometry mesh face else INVALID in
      if 0 <? Size (var_face_dofs fes) then (* variable orders or mixed faces *)
        if Table_RowSize (var_face_dofs fes) face <=? variant
        then Normal (-1, dofs) (* past last face DOFs *)
        else
          let fbase := Table_at (var_face_dofs fes) face variant in
          let nf :=
            int_sub (Table_at (var_face_dofs fes) face (variant + 1)) fbase in
          match ndof_to_geom_order fes fgeom !! nf with
          | Some p => face_dofs_fill fes face p nf fbase
          | None => Thrown (* std::out_of_range *)
          end
      else
        if 0 <? variant then Normal (-1, dofs)
        else
          let p := DefaultOrder fec in
          let nf := if 2 <? Dimension mesh then GetNumDof fec fgeom p else 0 in
          face_dofs_fill fes face p nf (int_mul face nf)
  end.

(** [FiniteElementSpace::GetEdgeOrder(edge, variant)] *)
Definition GetEdgeOrder (fes : FiniteElementSpace) (edge variant : Z)
  : result Z :=
  if negb (IsVariableOrder fes) then Normal (DefaultOrder fec)
  else if Table_RowSize (var_edge_dofs fes) edge <=? variant
  then Normal (-1) (* past last variant *)
  else
    let ndof :=
      int_sub (Table_at (var_edge_dofs fes) edge (variant + 1))
        (Table_at (var_edge_dofs fes) edge variant) in
    match ndof_to_geom_order fes SEGMENT !! ndof with
    | Some order => Normal order
    | None => Thrown
    end.

(** [FiniteElementSpace::GetNVariants(entity, index)] *)
Definition GetNVariants (fes : FiniteElementSpace) (entity index : Z) : Z :=
  Table_RowSize (if entity =? 1 then var_edge_dofs fes else var_face_dofs fes)
    index.

End EntityDofs.

(** An H1-like basis catalogue of default order 2: one DOF per vertex,
    [p - 1] per edge, [(p - 1)^2] per quadrilateral. *)
Definition h1_collection : FiniteElementCollection := {|
  DefaultOrder := 2;
  GetNumDof := fun g p =>
    match g with
    | POINT => 1
    | SEGMENT => p - 1
    | SQUARE => (p - 1) * (p - 1)
    | _ => 0
    end;
  GetDofOrdering := fun _ p _ => seqZ 0 (p - 1)
|}.

(** A fixed-order space over a NURBS extension whose face table has been
    built: one face with the DOFs 0, 1, 2. *)
Definition nurbs_space : FiniteElementSpace := {|
  vdim := 1; ordering := byNODES;
  ndofs := 3; nvdofs := 0; nedofs := 0; nfdofs := 0; nbdofs := 0;
  elem_order := [];
  var_edge_dofs := Table_empty; var_face_dofs := Table_empty;
  ndof_to_geom_order := fun _ => ∅;
  elem_dof := None; bdr_elem_dof := None;
  face_dof := Some {| Size := 1; tab_I := [0; 3]; tab_J := [0; 1; 2] |};
  NURBSext := true;
  cP := None; cR := None; cQ := None; cP_is_set := false;
  Th := false;
  sequence := 0; orders_changed := false; relaxed_hp := false
|}.

(** A variable-order space on two edges: edge 0 carries the orders 2 and 3
    (blocks of one and two DOFs), edge 1 the order 2. *)
Definition two_edge_space : FiniteElementSpace := {|
  vdim := 1; ordering := byNODES;
  ndofs := 7; nvdofs := 3; nedofs := 4; nfdofs := 0; nbdofs := 0;
  elem_order := [3; 2];
  var_edge_dofs := {| Size := 3; tab_I := [0; 2; 3; 4]; tab_J := [0; 1; 3; 4] |};
  var_face_dofs := Table_empty;
  ndof_to_geom_order := fun g =>
    match g with SEGMENT => {[1 := 2; 2 := 3]} | _ => ∅ end;
  elem_dof := None; bdr_elem_dof := None; face_dof := None;
  NURBSext := false;
  cP := None; cR := None; cQ := None; cP_is_set := false;
  Th := false;
  sequence := 0; orders_changed := false; relaxed_hp := false
|}.


(** Two edges in a row: edge [e] joins the vertices [e] and [e + 1]. *)
Definition two_edge_mesh : Mesh := {|
  GetSequence := 0; GetLastOperation := NONE; Dimension := 2;
  mesh_Conforming := false; GetNE := 0; GetNEdges := 2; GetNFaces := 0;
  GetElementEdges := fun _ => []; GetElementFaces := fun _ => [];
  GetFaceEdges := fun _ => ([], []); GetFaceVertices := fun _ => [];
  GetEdgeVertices := fun e => [e; e + 1];
  GetFaceGeometry := fun _ => INVALID;
  GetEdgeList := {| masters := []; slaves := [] |};
  GetFaceList := {| masters := []; slaves := [] |};
  embeddings := []
|}.

(** ** Update *)

Section Update.

(** The methods [Update] calls to rebuild the space.  They walk the mesh and
    the basis catalogue; here they are transformers of the state of the
    space, fatal where an [MFEM_VERIFY] or [MFEM_ABORT] inside them fires. *)
Variable UpdateNURBS : FiniteElementSpace -> result FiniteElementSpace.
Variable UpdateElementOrders : FiniteElementSpace -> result FiniteElementSpace.
Variable Destroy : FiniteElementSpace -> FiniteElementSpace.
Variable Construct : FiniteElementSpace -> result FiniteElementSpace.
Variable BuildElementToDofTable : FiniteElementSpace -> FiniteElementSpace.

(** The [if (want_transform) { ... }] block that computes the grid-function
    transformation [Th] from the saved table and DOF count. *)
Variable build_transformation :
  FiniteElementSpace -> option Table -> Z -> result FiniteElementSpace.

Variable mesh : Mesh.

(** [FiniteElementSpace::Update(want_transform)] *)
Definition Update (want_transform : bool) (fes : FiniteElementSpace)
  : result FiniteElementSpace :=
  if (GetSequence mesh =? sequence fes) && negb (orders_changed fes)
  then Normal fes (* mesh and space are in sync, no-op *)
  else if want_transform
          && negb (GetSequence mesh =? int_add (sequence fes) 1)
  then Aborted
  else if negb (GetSequence mesh =? sequence fes) && orders_changed fes
  then Aborted
  else if NURBSext fes then
    fes ← UpdateNURBS fes;
    Normal (set_sequence fes (GetSequence mesh))
  else
    (* save old DOF table *)
    let old_elem_dof := if want_transform then elem_dof fes else None in
    let old_ndofs := ndofs fes in
    let fes := if want_transform then set_elem_dof fes None else fes in
    (* update the 'elem_order' array if the mesh has changed *)
    fes ← (if IsVariableOrder fes
              && negb (sequence fes =? GetSequence mesh)
           then UpdateElementOrders fes else Normal fes);
    fes ← Construct (Destroy fes);
    let fes := BuildElementToDofTable fes in
    fes ← (if want_transform
           then build_transformation fes old_elem_dof old_ndofs
           else Normal fes);
    Normal (set_sequence fes (GetSequence mesh)).

End Update.

(** A rebuilding step that always fails, to exercise [Update]. *)
Definition Aborted_everywhere (fes : FiniteElementSpace)
  : result FiniteElementSpace := Aborted.

(** ** The refinement operator *)

(** The numbers held by vectors and local matrices.  Only the operations of
    a commutative ring are used; [double] arithmetic is idealised to exact
    arithmetic in such a ring (the integers, the rationals). *)
Class Scalar (R : Type) : Type := {
  s_zero : R;
  s_one : R;
  s_add : R -> R -> R;
  s_mul : R -> R -> R;
  s_sub : R -> R -> R;
  s_opp : R -> R
}.

Class ScalarRing (R : Type) `{Scalar R} : Prop :=
  scalar_ring : ring_theory s_zero s_one s_add s_mul s_sub s_opp eq.

#[export] Instance Z_Scalar : Scalar Z :=
  {| s_zero := 0; s_one := 1; s_add := Z.add; s_mul := Z.mul;
     s_sub := Z.sub; s_opp := Z.opp |}.

#[export] Instance Z_ScalarRing : ScalarRing Z := Zth.

(** [fold] of single stores [y[t] = v], oldest first. *)
Definition store_all {R} (evs : list (Z * R)) (y : list R) : list R :=
  fold_left (fun y '(t, v) => array_set y t v) evs y.

(** The stores [y.SetSubVector(dofs, sub)] performs: entry and value, the
    sign of a flipped index moved into the value. *)
Definition stores_of {R} `{Scalar R} (dofs : list Z) (sub : list R)
  : list (Z * R) :=
  map (fun '(j, v) => (DecodeDof j, if 0 <=? j then v else s_opp v))
    (zip dofs sub).

(** The image of a signed DOF under [DofsToVDofs(vd, dofs, ndofs)]. *)
Definition vdof_of (fes : FiniteElementSpace) (nd vd sd : Z) : Z :=
  if vdim fes =? 1 then sd
  else Ordering_Map (ordering fes) nd (vdim fes) sd vd.

(** A layout of [nd] DOFs with the components of the space fits in [int]. *)
Definition layout_ok (fes : FiniteElementSpace) (nd : Z) : Prop :=
  1 <= vdim fes /\ 0 <= nd /\ nd * vdim fes <= INT_MAX.

(** Any two stores to the same entry store the same value. *)
Fixpoint stores_agree {R} (evs : list (Z * R)) : Prop :=
  match evs with
  | [] => True
  | (t, v) :: evs' =>
      Forall (fun '(t', v') => t' = t -> v' = v) evs' /\ stores_agree evs'
  end.

Section RefinementOperator.

Context {R : Type} `{Scalar R}.

(** Modelled from the spec: the class [DenseMatrix] (linalg/densemat) is
    external; a local transfer matrix is taken with its two sizes and its
    entries [lP(i, j)]. *)
Record LocalMatrix : Type := {
  Height : Z;
  Width : Z;
  entry : Z -> Z -> R
}.

Definition s_sum (l : list R) : R := foldr s_add s_zero l.

(** Modelled from the spec: [lP.Mult(x, y)] of the external [DenseMatrix],
    the product of the matrix and [x] ("apply"). *)
Definition LocalMatrix_Mult (lP : LocalMatrix) (x : list R) : list R :=
  map (fun i =>
         s_sum (map (fun j => s_mul (entry lP i j) (array_get s_zero x j))
                  (seqZ 0 (Width lP))))
    (seqZ 0 (Height lP)).

(** Modelled from the spec: [lP.MultTranspose(x, y)] of the external
    [DenseMatrix], the product of the transposed matrix and [x]
    ("transpose-apply"). *)
Definition LocalMatrix_MultTranspose (lP : LocalMatrix) (x : list R) : list R :=
  map (fun j =>
         s_sum (map (fun i => s_mul (entry lP i j) (array_get s_zero x i))
                  (seqZ 0 (Height lP))))
    (seqZ 0 (Width lP)).

(** Modelled from the spec: the class [Vector] (linalg/vector) is external.
    Its gather, scatter and accumulate methods take signed indices: an index
    [j >= 0] addresses entry [j], an index [-1-j] addresses entry [j] with
    flipped sign ("stored with flipped sign/orientation").  This is one
    entry of [x.GetSubVector(dofs, sub)]. *)
Definition Vector_get (x : list R) (j : Z) : R :=
  if 0 <=? j then array_get s_zero x j
  else s_opp (array_get s_zero x (int_sub (-1) j)).

Definition GetSubVector (x : list R) (dofs : list Z) : list R :=
  map (Vector_get x) dofs.

(** Modelled from the spec: one entry of [y.SetSubVector(dofs, sub)] of the
    external [Vector], with the same signed indices. *)
Definition Vector_set (y : list R) (j : Z) (v : R) : list R :=
  if 0 <=? j then array_set y j v
  else array_set y (int_sub (-1) j) (s_opp v).

Definition SetSubVector (y : list R) (dofs : list Z) (sub : list R) : list R :=
  fold_left (fun y '(j, v) => Vector_set y j v) (zip dofs sub) y.

(** Modelled from the spec: one entry of [y.AddElementVector(dofs, sub)] of
    the external [Vector], with the same signed indices. *)
Definition Vector_add (y : list R) (j : Z) (v : R) : list R :=
  if 0 <=? j then array_set y j (s_add (array_get s_zero y j) v)
  else array_set y (int_sub (-1) j)
         (s_sub (array_get s_zero y (int_sub (-1) j)) v).

Definition AddElementVector (y : list R) (dofs : list Z) (sub : list R)
  : list R :=
  fold_left (fun y '(j, v) => Vector_add y j v) (zip dofs sub) y.

(** [fespace], its mesh, and the members of the operator. *)
Variable fespace : FiniteElementSpace.
Variable mesh : Mesh.

(** [fespace->GetElementDofs(k, dofs)]: the signed DOFs of fine element
    [k]. *)
Variable GetElementDofs : Z -> list Z.

(** [mesh->GetElementBaseGeometry(k)] *)
Variable GetElementBaseGeometry : Z -> Geometry.

(** The table of the coarse space, kept by the operator. *)
Variable old_elem_dof : Table.

(** [localP[geom](m)]: the local interpolation matrix of geometry [geom]
    for the reference transformation number [m]. *)
Variable localP : Geometry -> Z -> LocalMatrix.

(** The width of the operator, [old_ndofs * vdim]. *)
Variable width : Z.

Definition old_ndofs : Z := Z.quot width (vdim fespace).

(** The body of the loop over the components in [Mult], for fine element
    [k]. *)
Definition Mult_component (x : list R) (k : Z) (y : list R) (vd : Z)
  : list R :=
  let emb := array_get {| parent := 0; matrix := 0 |} (embeddings mesh) k in
  let lP := localP (GetElementBaseGeometry k) (matrix emb) in
  let dofs := GetElementDofs k in
  let old_dofs := Table_GetRow old_elem_dof (parent emb) in
  let vdofs := DofsToVDofs fespace vd dofs (-1) in
  let old_vdofs := DofsToVDofs fespace vd old_dofs old_ndofs in
  let subX := GetSubVector x old_vdofs in
  let subY := LocalMatrix_Mult lP subX in
  SetSubVector y vdofs subY.

(** [RefinementOperator::Mult(x, y)]: [y] after the call. *)
Definition RefinementOperator_Mult (x y : list R) : list R :=
  fold_left
    (fun y k => fold_left (Mult_component x k) (seqZ 0 (vdim fespace)) y)
    (seqZ 0 (GetNE mesh)) y.

(** [if (processed[DecodeDof(f_dofs[p])]) { subX[p] = 0.0; }] for all [p]. *)
Definition zero_processed (processed : list bool) (f_dofs : list Z)
  (subX : list R) : list R :=
  map (fun '(d, v) =>
         if array_get false processed (DecodeDof d) then s_zero else v)
    (zip f_dofs subX).

(** The body of the loop over the components in [MultTranspose]. *)
Definition MultTranspose_component (x : list R) (processed : list bool)
  (k : Z) (y : list R) (vd : Z) : list R :=
  let emb := array_get {| parent := 0; matrix := 0 |} (embeddings mesh) k in
  let lP := localP (GetElementBaseGeometry k) (matrix emb) in
  let f_dofs := GetElementDofs k in
  let c_dofs := Table_GetRow old_elem_dof (parent emb) in
  let f_vdofs := DofsToVDofs fespace vd f_dofs (-1) in
  let c_vdofs := DofsToVDofs fespace vd c_dofs old_ndofs in
  let subX := zero_processed processed f_dofs (GetSubVector x f_vdofs) in
  let subY := LocalMatrix_MultTranspose lP subX in
  AddElementVector y c_vdofs subY.

(** The body of the loop over the fine elements in [MultTranspose]; the
    state is [y] and the array [processed]. *)
Definition MultTranspose_element (x : list R) (st : list R * list bool)
  (k : Z) : list R * list bool :=
  let '(y, processed) := st in
  (fold_left (MultTranspose_component x processed k)
     (seqZ 0 (vdim fespace)) y,
   fold_left (fun processed d => array_set processed (DecodeDof d) true)
     (GetElementDofs k) processed).

(** [GetVSize()], declared in the header as [vdim * ndofs]. *)
Definition GetVSize : Z := int_mul (vdim fespace) (ndofs fespace).

(** [RefinementOperator::MultTranspose(x, y)]: [y] after the call. *)
Definition RefinementOperator_MultTranspose (x y : list R) : list R :=
  fst (fold_left (MultTranspose_element x) (seqZ 0 (GetNE mesh))
         (replicate (length y) s_zero,
          replicate (Z.to_nat GetVSize) false)).

(** The inner product of two vectors of size [n]. *)
Definition dot (n : Z) (a b : list R) : R :=
  s_sum (map (fun i => s_mul (array_get s_zero a i) (array_get s_zero b i))
           (seqZ 0 n)).

(** The local matrix and the coarse DOFs both methods use for fine element
    [k]. *)
Definition element_lP (k : Z) : LocalMatrix :=
  localP (GetElementBaseGeometry k)
    (matrix (array_get {| parent := 0; matrix := 0 |} (embeddings mesh) k)).

Definition coarse_dofs (k : Z) : list Z :=
  Table_GetRow old_elem_dof
    (parent (array_get {| parent := 0; matrix := 0 |} (embeddings mesh) k)).

(** The stores into [y] that [Mult] performs for component [vd] of fine
    element [k], for fine element [k], and for the elements below [n]. *)
Definition component_stores (x : list R) (k vd : Z) : list (Z * R) :=
  stores_of (DofsToVDofs fespace vd (GetElementDofs k) (-1))
    (LocalMatrix_Mult (element_lP k)
       (GetSubVector x (DofsToVDofs fespace vd (coarse_dofs k) old_ndofs))).

Definition element_stores (x : list R) (k : Z) : list (Z * R) :=
  flat_map (component_stores x k) (seqZ 0 (vdim fespace)).

Definition Mult_stores_upto (x : list R) (n : Z) : list (Z * R) :=
  flat_map (element_stores x) (seqZ 0 n).

Definition Mult_stores (x : list R) : list (Z * R) :=
  Mult_stores_upto x (GetNE mesh).

(** Fine element [k] lists DOFs of the fine space, none of them twice, its
    parent lists DOFs of the coarse space, and the local matrix has a row
    per fine and a column per coarse DOF. *)
Definition element_ok (k : Z) : Prop :=
  Forall (fun sd => - ndofs fespace <= sd < ndofs fespace) (GetElementDofs k)
  /\ NoDup (map DecodeDof (GetElementDofs k))
  /\ Forall (fun sd => - old_ndofs <= sd < old_ndofs) (coarse_dofs k)
  /\ Height (element_lP k) = Z.of_nat (length (GetElementDofs k))
  /\ Width (element_lP k) = Z.of_nat (length (coarse_dofs k)).

(** The operator was set up for a fine and a coarse layout that fit in
    [int], with [width = old_ndofs * vdim], and every fine element is as
    [element_ok] says. *)
Definition refinement_ok : Prop :=
  layout_ok fespace (ndofs fespace)
  /\ layout_ok fespace old_ndofs
  /\ width = old_ndofs * vdim fespace
  /\ forall k, 0 <= k < GetNE mesh -> element_ok k.

End RefinementOperator.

(** A local matrix given by its rows. *)
Definition matrix_of_rows (rows : list (list Z)) : LocalMatrix (R := Z) := {|
  Height := Z.of_nat (length rows);
  Width := Z.of_nat (length (hd [] rows));
  entry := fun i j => array_get 0 (array_get [] rows i) j
|}.

(** One coarse element split into two: fine element [k] is child [k] of
    parent 0. *)
Definition two_children_mesh : Mesh := {|
  GetSequence := 1; GetLastOperation := REFINE; Dimension := 1;
  mesh_Conforming := true; GetNE := 2; GetNEdges := 0; GetNFaces := 0;
  GetElementEdges := fun _ => []; GetElementFaces := fun _ => [];
  GetFaceEdges := fun _ => ([], []); GetFaceVertices := fun _ => [];
  GetEdgeVertices := fun _ => []; GetFaceGeometry := fun _ => INVALID;
  GetEdgeList := {| masters := []; slaves := [] |};
  GetFaceList := {| masters := []; slaves := [] |};
  embeddings := [ {| parent := 0; matrix := 0 |};
                  {| parent := 0; matrix := 1 |} ]
|}.

(** Two components by VDIM over three fine DOFs; the coarse element has
    the DOFs 0 and 1, the children the DOFs 0, 2 and 2, 1, the second child
    with DOF 2 flipped.  The children interpolate DOF 2 as the sum of the
    two coarse DOFs, the second with the opposite sign for its flipped
    entry. *)
Definition split_segment_space : FiniteElementSpace :=
  set_layout FiniteElementSpace_default 2 byVDIM 3.

Definition split_segment_dofs (k : Z) : list Z :=
  if k =? 0 then [0; 2] else [-3; 1].

Definition split_segment_coarse : Table :=
  {| Size := 1; tab_I := [0; 2]; tab_J := [0; 1] |}.

Definition split_segment_localP (_ : Geometry) (m : Z) : LocalMatrix (R := Z) :=
  if m =? 0 then matrix_of_rows [[1; 0]; [1; 1]]
  else matrix_of_rows [[-1; -1]; [0; 1]].

(** One scalar DOF that both children list, and local matrices that do not
    agree on it: the first child interpolates it as the coarse value, the
    second as twice the coarse value. *)
Definition shared_dof_space : FiniteElementSpace :=
  set_layout FiniteElementSpace_default 1 byNODES 1.

Definition shared_dof_coarse : Table :=
  {| Size := 1; tab_I := [0; 1]; tab_J := [0] |}.

Definition shared_dof_localP (_ : Geometry) (m : Z) : LocalMatrix (R := Z) :=
  if m =? 0 then matrix_of_rows [[1]] else matrix_of_rows [[2]].

(** ** Tables numbered by first occurrence *)

(** The entries of [J] are numbered in the order in which they first occur:
    with the numbers below [next] in use, every decoded entry is one of them
    or [next] itself, after which [next + 1] is the next free number. *)
Fixpoint first_occurrence_from (next : Z) (J : list Z) : Prop :=
  match J with
  | [] => True
  | sdof :: rest =>
      0 <= DecodeDof sdof <= next /\
      first_occurrence_from
        (if DecodeDof sdof =? next then next + 1 else next) rest
  end.

(** The DOFs of [l] in the order in which they first occur, each of them
    once; the DOFs in [seen] have occurred before and are left out. *)
Fixpoint first_occurrences_from (seen l : list Z) : list Z :=
  match l with
  | [] => []
  | d :: rest =>
      if existsb (Z.eqb d) seen then first_occurrences_from seen rest
      else d :: first_occurrences_from (seen ++ [d]) rest
  end.

Definition first_occurrences (l : list Z) : list Z :=
  first_occurrences_from [] l.

(** The state of the loop of [ReorderElementToDofTable] after the DOFs [seen]
    (in the order of their first occurrence) have been met: [dof_marker]
    holds the position in [seen] for each of them and [-1] for every other
    DOF, and [dof_counter] is their number. *)
Definition marker_of (n : Z) (seen : list Z) (dof_marker : list Z)
  (dof_counter : Z) : Prop :=
  Z.of_nat (length dof_marker) = n /\
  dof_counter = Z.of_nat (length seen) /\
  NoDup seen /\
  (forall d, d ∈ seen -> 0 <= d < n) /\
  (forall d (i : nat), seen !! i = Some d ->
     array_get (-1) dof_marker d = Z.of_nat i) /\
  (forall d, d ∉ seen -> array_get (-1) dof_marker d = -1).

(** Entry [sdof] of the table was renumbered to [new_sdof]: the sign is
    kept, and the new number is the position of the DOF in [firsts], the
    DOFs of the table in the order of their first occurrence. *)
Definition renumbered (firsts : list Z) (sdof new_sdof : Z) : Prop :=
  (new_sdof <? 0) = (sdof <? 0) /\
  0 <= DecodeDof new_sdof /\
  firsts !! Z.to_nat (DecodeDof new_sdof) = Some (DecodeDof sdof).

(** ** Index lists in increasing order *)

(** [l] is strictly increasing and starts at [lo] or above. *)
Fixpoint increasing_from (lo : Z) (l : list Z) : Prop :=
  match l with
  | [] => True
  | a :: rest => lo <= a /\ increasing_from (a + 1) rest
  end.

(** ** All components of a DOF array *)

(** [a.SetSize(n)]: the array is cut or extended to [n] entries and keeps
    the entries it had; the new entries are not initialised, [junk] stands
    for what they hold. *)
Definition Array_SetSize {A} (junk : A) (a : list A) (n : Z) : list A :=
  take (Z.to_nat n) a ++ replicate (Z.to_nat n - length a) junk.

(** [for (int i = 0; i < size; i++)
       { dofs[i+size*vd] = Map<o>(ndofs, vdim, dofs[i], vd); }] *)
Definition DofsToVDofs_block (o : Ordering_Type) (ndofs vdim size : Z)
  (dofs : list Z) (vd : Z) : list Z :=
  fold_left
    (fun dofs i =>
       array_set dofs (int_add i (int_mul size vd))
         (Ordering_Map o ndofs vdim (array_get 0 dofs i) vd))
    (seqZ 0 size) dofs.

(** [Ordering::DofsToVDofs<Ordering::byNODES>(ndofs, vdim, dofs)]: the
    components from 1 upwards are appended, component 0 is left as it is. *)
Definition Ordering_DofsToVDofs_byNODES (junk ndofs vdim : Z) (dofs : list Z)
  : list Z :=
  let size := Z.of_nat (length dofs) in
  let dofs := Array_SetSize junk dofs (int_mul size vdim) in
  fold_left (DofsToVDofs_block byNODES ndofs vdim size) (seqZ 1 (vdim - 1))
    dofs.

(** [Ordering::DofsToVDofs<Ordering::byVDIM>(ndofs, vdim, dofs)]: the
    components are written from the last one down to component 0, which
    overwrites the DOFs themselves. *)
Definition Ordering_DofsToVDofs_byVDIM (junk ndofs vdim : Z) (dofs : list Z)
  : list Z :=
  let size := Z.of_nat (length dofs) in
  let dofs := Array_SetSize junk dofs (int_mul size vdim) in
  fold_left (DofsToVDofs_block byVDIM ndofs vdim size) (rev (seqZ 0 vdim))
    dofs.

(** [FiniteElementSpace::DofsToVDofs(dofs, ndofs)], the overload that
    expands the array to all components. *)
Definition DofsToVDofs_all (junk : Z) (fes : FiniteElementSpace)
  (dofs : list Z) (ndofs_arg : Z) : list Z :=
  if vdim fes =? 1 then dofs
  else
    let ndofs_arg := if ndofs_arg <? 0 then ndofs fes else ndofs_arg in
    match ordering fes with
    | byNODES => Ordering_DofsToVDofs_byNODES junk ndofs_arg (vdim fes) dofs
    | byVDIM => Ordering_DofsToVDofs_byVDIM junk ndofs_arg (vdim fes) dofs
    end.

(** ** The first element of every DOF *)

(** The body of the inner loop of [BuildDofToArrays], for entry [j] of the
    row of element [i]:
    [if (dof_elem_array[dofs[j]] < 0)
       { dof_elem_array[dofs[j]] = i; dof_ldof_array[dofs[j]] = j; }]. *)
Definition DofToArrays_entry (t : Table) (i : Z) (st : list Z * list Z)
  (j : Z) : list Z * list Z :=
  let dof := Table_at t i j in
  if array_get 0 (fst st) dof <? 0
  then (array_set (fst st) dof i, array_set (snd st) dof j)
  else st.

(** [FiniteElementSpace::BuildDofToArrays]: the arrays [dof_elem_array] and
    [dof_ldof_array] after the call.  [t] is the table [elem_dof] that
    [BuildElementToDofTable] leaves; [junk] stands for the entries of
    [dof_ldof_array], which are not initialised. *)
Definition BuildDofToArrays (junk : Z) (fes : FiniteElementSpace)
  (mesh : Mesh) (t : Table) (st : list Z * list Z) : list Z * list Z :=
  if negb (Z.of_nat (length (fst st)) =? 0) then st
  else
    fold_left
      (fun st i =>
         fold_left (DofToArrays_entry t i) (seqZ 0 (Table_RowSize t i)) st)
      (seqZ 0 (GetNE mesh))
      (replicate (Z.to_nat (ndofs fes)) (-1),
       Array_SetSize junk (snd st) (ndofs fes)).

(** Position [j] of the row of element [i] exists. *)
Definition table_entry (t : Table) (ne i j : Z) : Prop :=
  0 <= i < ne /\ 0 <= j < Table_RowSize t i.

(** Position [(i, j)] is visited before the loops reach [(k, m)]. *)
Definition visited_before (k m i j : Z) : Prop :=
  i < k \/ (i = k /\ j < m).

(** What the two arrays hold for DOF [d] when the loops have reached
    [(k, m)]: nothing yet ([-1]) if [d] was not met, and otherwise the first
    position at which it was met. *)
Definition first_position (t : Table) (ne k m : Z) (st : list Z * list Z)
  (d : Z) : Prop :=
  let e := array_get 0 (fst st) d in
  let l := array_get 0 (snd st) d in
  (e = -1 /\
   forall i j, table_entry t ne i j -> visited_before k m i j ->
               Table_at t i j <> d)
  \/ (table_entry t ne e l /\ visited_before k m e l /\ Table_at t e l = d /\
      forall i j, table_entry t ne i j -> visited_before k m i j ->
                  Table_at t i j = d -> e < i \/ (e = i /\ l <= j)).

(** ** Element orders *)

(** [elem_order] is an [Array<char>].  [char] is taken as the signed 8-bit
    type, so [CHAR_MAX] is 127 and a value stored into the array is kept as
    such a register holds it. *)
Definition CHAR_MAX : Z := 127.

Definition char_wrap (z : Z) : Z := (z + 128) mod 256 - 128.

(** [elem_order = eo; orders_changed = changed;] *)
Definition set_elem_order (fes : FiniteElementSpace) (eo : list Z)
  (changed : bool) : FiniteElementSpace := {|
  vdim := vdim fes; ordering := ordering fes;
  ndofs := ndofs fes; nvdofs := nvdofs fes; nedofs := nedofs fes;
  nfdofs := nfdofs fes; nbdofs := nbdofs fes;
  elem_order := eo;
  var_edge_dofs := var_edge_dofs fes; var_face_dofs := var_face_dofs fes;
  ndof_to_geom_order := ndof_to_geom_order fes;
  elem_dof := elem_dof fes; bdr_elem_dof := bdr_elem_dof fes;
  face_dof := face_dof fes;
  NURBSext := NURBSext fes;
  cP := cP fes; cR := cR fes; cQ := cQ fes; cP_is_set := cP_is_set fes;
  Th := Th fes;
  sequence := sequence fes; orders_changed := changed;
  relaxed_hp := relaxed_hp fes
|}.

Section ElementOrders.

Variable mesh : Mesh.
Variable fec : FiniteElementCollection.

(** [FiniteElementSpace::GetElementOrderImpl] *)
Definition GetElementOrderImpl (fes : FiniteElementSpace) (i : Z) : Z :=
  if 0 <? Z.of_nat (length (elem_order fes))
  then array_get 0 (elem_order fes) i
  else DefaultOrder fec.

(** [FiniteElementSpace::GetElementOrder]; [GetNE()] of the space is the
    number of elements of its mesh.  The [MFEM_ASSERT] is compiled out of a
    release build. *)
Definition GetElementOrder (fes : FiniteElementSpace) (i : Z) : result Z :=
  if negb (sequence fes =? GetSequence mesh)
  then Aborted (* space has not been Updated() *)
  else if negb ((0 <=? i) && (i <? GetNE mesh))
  then Aborted (* invalid element index *)
  else Normal (GetElementOrderImpl fes i).

(** [FiniteElementSpace::SetElementOrder]: the space after the call. *)
Definition SetElementOrder (fes : FiniteElementSpace) (i p : Z)
  : result FiniteElementSpace :=
  if negb (sequence fes =? GetSequence mesh)
  then Aborted (* space has not been Updated() *)
  else if negb ((0 <=? i) && (i <? GetNE mesh))
  then Aborted (* invalid element index *)
  else if negb ((0 <=? p) && (p <? CHAR_MAX))
  then Aborted (* order out of range *)
  else if 0 <? Z.of_nat (length (elem_order fes))
  then (* already a variable-order space *)
    if negb (array_get 0 (elem_order fes) i =? p)
    then Normal (set_elem_order fes
                   (array_set (elem_order fes) i (char_wrap p)) true)
    else Normal fes
  else (* convert space to variable-order space *)
    Normal (set_elem_order fes
              (array_set
                 (replicate (Z.to_nat (GetNE mesh))
                    (char_wrap (DefaultOrder fec)))
                 i (char_wrap p))
              true).

(** [FiniteElementSpace::UpdateElementOrders]: after a refinement every
    element takes the order of its parent; other mesh operations are "not
    implemented yet". *)
Definition UpdateElementOrders (fes : FiniteElementSpace)
  : result FiniteElementSpace :=
  match GetLastOperation mesh with
  | REFINE =>
      Normal
        (set_elem_order fes
           (map (fun i =>
                   array_get 0 (elem_order fes)
                     (parent (array_get {| parent := 0; matrix := 0 |}
                                (embeddings mesh) i)))
              (seqZ 0 (GetNE mesh)))
           (orders_changed fes))
  | _ => Aborted
  end.

End ElementOrders.

(** ** Blocks of a variant table *)

(** [beg[1] - beg[0]] for variant [v] of row [row]: the number of DOFs of
    the variant. *)
Definition variant_size (t : Table) (row v : Z) : Z :=
  int_sub (Table_at t row (v + 1)) (Table_at t row v).

(** Variant [v] is the first variant of the row with [ndof] DOFs, among the
    variants from [beg] on. *)
Definition first_variant_of_size (t : Table) (row ndof beg bound v : Z)
  : Prop :=
  beg <= v < bound /\ variant_size t row v = ndof /\
  forall u, beg <= u < v -> variant_size t row u <> ndof.

(** ** QuadratureSpace *)

Section QuadratureSpace.

Variable mesh : Mesh.

(** [mesh->GetElementBaseGeometry(i)] *)
Variable GetElementBaseGeometry : Z -> Geometry.

(** The integration rules of the library: [IntRules.Get(geom, order)] and
    [GetNPoints()] of a rule. *)
Variable IntegrationRule : Type.
Variable IntRules_Get : Geometry -> Z -> IntegrationRule.
Variable GetNPoints : IntegrationRule -> Z.

(** The variables of the loop of [QuadratureSpace::Construct]:
    [element_offsets], the rules cached in [int_rule], and [offset]. *)
Record QuadratureOffsets : Type := {
  element_offsets : list Z;
  int_rule : Geometry -> option IntegrationRule;
  qs_offset : Z
}.

(** The body of the loop over the elements. *)
Definition Construct_element (order : Z) (st : QuadratureOffsets) (i : Z)
  : QuadratureOffsets :=
  let offsets := array_set (element_offsets st) i (qs_offset st) in
  let geom := GetElementBaseGeometry i in
  let rules :=
    match int_rule st geom with
    | None =>
        fun g => if decide (g = geom) then Some (IntRules_Get geom order)
                 else int_rule st g
    | Some _ => int_rule st
    end in
  {| element_offsets := offsets;
     int_rule := rules;
     qs_offset :=
       int_add (qs_offset st)
         (match rules geom with Some r => GetNPoints r | None => 0 end) |}.

(** [QuadratureSpace::Construct]: [element_offsets], [int_rule] and [size]
    after the call; [junk] stands for the entries of the new array. *)
Definition QuadratureSpace_Construct (junk order : Z)
  : list Z * (Geometry -> option IntegrationRule) * Z :=
  let num_elem := GetNE mesh in
  let st :=
    fold_left (Construct_element order) (seqZ 0 num_elem)
      {| element_offsets := replicate (Z.to_nat (int_add num_elem 1)) junk;
         int_rule := fun _ => None;
         qs_offset := 0 |} in
  (array_set (element_offsets st) num_elem (qs_offset st),
   int_rule st, qs_offset st).

(** The number of quadrature points of the elements below [i]. *)
Definition points_before (order : Z) (i : Z) : Z :=
  foldr Z.add 0
    (map (fun k => GetNPoints (IntRules_Get (GetElementBaseGeometry k) order))
       (seqZ 0 i)).

End QuadratureSpace.

(** ** The tables of a variable-order space *)

(** Modelled from the spec: [Table::MakeFromList(nrows, list)] of the
    external class [Table], for a list of connections [(row, entry)] that is
    sorted by row: "row i lists variant start offsets, with one trailing
    sentinel row holding the end-of-table offset".  [tab_J] takes the
    entries in the order of the list; [tab_I] takes, for every row and for
    the end of the table, the position at which the run of connections of
    that row starts. *)
Fixpoint row_run (i : Z) (rest : list (Z * Z)) : nat :=
  match rest with
  | (from, _) :: rest' => if from =? i then S (row_run i rest') else O
  | [] => O
  end.

Definition MakeFromList_row (st : list Z * Z * list (Z * Z)) (i : Z)
  : list Z * Z * list (Z * Z) :=
  let '(starts, k, rest) := st in
  let n := row_run i rest in
  (starts ++ [k], k + Z.of_nat n, drop n rest).

Definition Table_MakeFromList (nrows : Z) (connections : list (Z * Z))
  : Table := {|
  Size := nrows;
  tab_I :=
    fst (fst (fold_left MakeFromList_row (seqZ 0 (nrows + 1))
                ([], 0, connections)));
  tab_J := map snd connections
|}.

(** [ndof_to_geom_order = f;] *)
Definition set_ndof_to_geom_order (fes : FiniteElementSpace)
  (f : Geometry -> gmap Z Z) : FiniteElementSpace := {|
  vdim := vdim fes; ordering := ordering fes;
  ndofs := ndofs fes; nvdofs := nvdofs fes; nedofs := nedofs fes;
  nfdofs := nfdofs fes; nbdofs := nbdofs fes;
  elem_order := elem_order fes;
  var_edge_dofs := var_edge_dofs fes; var_face_dofs := var_face_dofs fes;
  ndof_to_geom_order := f;
  elem_dof := elem_dof fes; bdr_elem_dof := bdr_elem_dof fes;
  face_dof := face_dof fes;
  NURBSext := NURBSext fes;
  cP := cP fes; cR := cR fes; cQ := cQ fes; cP_is_set := cP_is_set fes;
  Th := Th fes;
  sequence := sequence fes; orders_changed := orders_changed fes;
  relaxed_hp := relaxed_hp fes
|}.

(** The position at which row [i] starts in a list of connections that
    holds [c r] connections of every row [r], the rows in increasing order. *)
Definition row_offset (c : Z -> nat) (i : Z) : Z :=
  Z.of_nat (length (flat_map (fun r => replicate (c r) r) (seqZ 0 i))).

(** The start offsets of blocks of the given sizes laid one after another
    from [start], followed by the offset past the last block. *)
Fixpoint starts_of (start : Z) (sizes : list Z) : list Z :=
  match sizes with
  | [] => [start]
  | s :: rest => start :: starts_of (int_add start s) rest
  end.

Section VarTables.

(** The number of bits of [VarOrderBits]. *)
Variable width : Z.
Variable mesh : Mesh.
Variable fec : FiniteElementCollection.

(** [for (int order = 0; bits != 0; order++, bits >>= 1)
       { if (bits & 1) { body } }]; a register of [width] bits is zero
    after at most [width] shifts, which is as many iterations as [fuel]
    allows. *)
Fixpoint for_each_order {A} (fuel : nat) (order bits : Z)
  (body : A -> Z -> A) (acc : A) : A :=
  match fuel with
  | O => acc
  | S fuel =>
      if bits =? 0 then acc
      else
        for_each_order fuel (order + 1) (Z.shiftr bits 1) body
          (if negb (Z.land bits 1 =? 0) then body acc order else acc)
  end.

(** The lambda [init_map] of [InitNDofToOrders]: the map of geometry [geom]
    is cleared and [map[ndof] = order] is stored for every order of the
    mask. *)
Definition init_map (geom : Geometry) (mask : Z) : gmap Z Z :=
  for_each_order (Z.to_nat width) 0 mask
    (fun m order => <[GetNumDof fec geom order := order]> m) ∅.

(** [FiniteElementSpace::InitNDofToOrders(edge_orders, face_orders)] *)
Definition InitNDofToOrders (fes : FiniteElementSpace)
  (edge_orders face_orders : list Z) : FiniteElementSpace :=
  let edge_mask :=
    fold_left (fun edge_mask i => Z.lor edge_mask (array_get 0 edge_orders i))
      (seqZ 0 (Z.of_nat (length edge_orders))) 0 in
  let masks :=
    fold_left
      (fun '(quad_mask, tri_mask) i =>
         if decide (GetFaceGeometry mesh i = SQUARE)
         then (Z.lor quad_mask (array_get 0 face_orders i), tri_mask)
         else (quad_mask, Z.lor tri_mask (array_get 0 face_orders i)))
      (seqZ 0 (Z.of_nat (length face_orders))) (0, 0) in
  set_ndof_to_geom_order fes
    (fun g =>
       match g with
       | SEGMENT => init_map SEGMENT edge_mask
       | SQUARE => init_map SQUARE (fst masks)
       | TRIANGLE => init_map TRIANGLE (snd masks)
       | _ => ndof_to_geom_order fes g
       end).

(** The geometry of entity [i] in [MakeDofTable]. *)
Definition entity_geometry (ent_dim i : Z) : Geometry :=
  if ent_dim =? 1 then SEGMENT else GetFaceGeometry mesh i.

(** The body of the loop over the entities in [MakeDofTable]; the state is
    the list of connections and [total_dofs]. *)
Definition MakeDofTable_entity (ent_dim : Z) (entity_orders : list Z)
  (st : list (Z * Z) * Z) (i : Z) : list (Z * Z) * Z :=
  for_each_order (Z.to_nat width) 0 (array_get 0 entity_orders i)
    (fun '(connections, total_dofs) order =>
       (connections ++ [(i, total_dofs)],
        int_add total_dofs (GetNumDof fec (entity_geometry ent_dim i) order)))
    st.

(** [FiniteElementSpace::MakeDofTable(ent_dim, entity_orders, entity_dofs)]:
    the value returned and the table built. *)
Definition MakeDofTable (ent_dim : Z) (entity_orders : list Z) : Z * Table :=
  let num_ent := Z.of_nat (length entity_orders) in
  let st :=
    fold_left (MakeDofTable_entity ent_dim entity_orders) (seqZ 0 num_ent)
      ([], 0) in
  (* append a dummy row as terminator *)
  (snd st,
   Table_MakeFromList (int_add num_ent 1) (fst st ++ [(num_ent, snd st)])).

(** The orders of a mask, lowest first. *)
Definition orders_of (bits : Z) : list Z :=
  filter (fun k => Z.testbit bits k = true) (seqZ 0 width).

(** Order [o] is in the mask of one of the selected entities. *)
Definition order_used (entity_orders : list Z) (selected : Z -> Prop)
  (o : Z) : Prop :=
  exists i, 0 <= i < Z.of_nat (length entity_orders) /\ selected i /\
            Z.testbit (array_get 0 entity_orders i) o = true.

(** [o] is the largest order in use that gives [n] DOFs on [geom]. *)
Definition largest_order_with (geom : Geometry) (used : Z -> Prop)
  (n o : Z) : Prop :=
  0 <= o < width /\ used o /\ GetNumDof fec geom o = n /\
  forall o2, o < o2 < width -> used o2 -> GetNumDof fec geom o2 <> n.

(** [FiniteElementSpace::GetFaceOrder(face, variant)] *)
Definition GetFaceOrder (fes : FiniteElementSpace) (face variant : Z)
  : result Z :=
  if negb (IsVariableOrder fes) then Normal (DefaultOrder fec)
  else if Table_RowSize (var_face_dofs fes) face <=? variant
  then Normal (-1) (* past last variant *)
  else
    let ndof :=
      int_sub (Table_at (var_face_dofs fes) face (variant + 1))
        (Table_at (var_face_dofs fes) face variant) in
    let fgeom := GetFaceGeometry mesh face in
    match ndof_to_geom_order fes fgeom !! ndof with
    | Some order => Normal order
    | None => Thrown
    end.

End VarTables.

(** A quadrilateral face (face 0) and a triangular one (face 1). *)
Definition two_face_mesh : Mesh := {|
  GetSequence := 0; GetLastOperation := NONE; Dimension := 3;
  mesh_Conforming := true; GetNE := 0; GetNEdges := 0; GetNFaces := 2;
  GetElementEdges := fun _ => []; GetElementFaces := fun _ => [];
  GetFaceEdges := fun _ => ([], []); GetFaceVertices := fun _ => [];
  GetEdgeVertices := fun _ => [];
  GetFaceGeometry := fun i => if i =? 0 then SQUARE else TRIANGLE;
  GetEdgeList := {| masters := []; slaves := [] |};
  GetFaceList := {| masters := []; slaves := [] |};
  embeddings := []
|}.

(** A variable-order space with the face tables that [MakeDofTable] and
    [InitNDofToOrders] build for the masks [face_orders] on
    [two_face_mesh]. *)
Definition two_face_space (face_orders : list Z) : FiniteElementSpace := {|
  vdim := 1; ordering := byNODES;
  ndofs := 0; nvdofs := 0; nedofs := 0; nfdofs := 0; nbdofs := 0;
  elem_order := [3];
  var_edge_dofs := Table_empty;
  var_face_dofs :=
    snd (MakeDofTable 8 two_face_mesh h1_collection 2 face_orders);
  ndof_to_geom_order :=
    ndof_to_geom_order
      (InitNDofToOrders 8 two_face_mesh h1_collection nurbs_space []
         face_orders);
  elem_dof := None; bdr_elem_dof := None; face_dof := None;
  NURBSext := false;
  cP := None; cR := None; cQ := None; cP_is_set := false;
  Th := false;
  sequence := 0; orders_changed := false; relaxed_hp := false
|}.

(** ** Construct and the DOFs in the interior of the entities *)

(** The members [bdofs] (null, or the offsets of the interior DOFs of the
    elements) and [uni_fdof] of the space. *)
Record InteriorLayout : Type := {
  bdofs : option (list Z);
  uni_fdof : Z
}.

Section Construct.

(** The number of bits of [VarOrderBits], and the fuel of the loop of
    [CalcEdgeFaceVarOrders]. *)
Variable width : Z.
Variable fuel : nat.

Variable mesh : Mesh.
Variable fec : FiniteElementCollection.

(** [mesh->GetNV()], [mesh->GetNumGeometries(dim)] and
    [mesh->GetElementGeometry(i)]. *)
Variable GetNV : Z.
Variable GetNumGeometries : Z -> Z.
Variable GetElementGeometry : Z -> Geometry.

(** [fec->DofForGeometry(geom)] *)
Variable DofForGeometry : Geometry -> Z.

(** [Nonconforming()]: the mesh has a non-conforming extension. *)
Definition Nonconforming : bool := negb (mesh_Conforming mesh).

(** The members [Construct] assigns; the others are kept. *)
Definition set_constructed (fes : FiniteElementSpace)
  (maps : Geometry -> gmap Z Z) (edge_table face_table : Table)
  (nv ne nf nb : Z) : FiniteElementSpace := {|
  vdim := vdim fes; ordering := ordering fes;
  ndofs := int_add (int_add (int_add nv ne) nf) nb;
  nvdofs := nv; nedofs := ne; nfdofs := nf; nbdofs := nb;
  elem_order := elem_order fes;
  var_edge_dofs := edge_table; var_face_dofs := face_table;
  ndof_to_geom_order := maps;
  elem_dof := None; bdr_elem_dof := None; face_dof := None;
  NURBSext := NURBSext fes;
  cP := None; cR := None; cQ := None; cP_is_set := false;
  Th := Th fes;
  sequence := sequence fes;
  (* DOFs are now assigned according to current element orders *)
  orders_changed := false;
  relaxed_hp := relaxed_hp fes
|}.

(** The body of the loop that fills [bdofs]; the state is the array and
    [nbdofs]. *)
Definition Construct_bdofs (fes : FiniteElementSpace) (st : list Z * Z)
  (i : Z) : list Z * Z :=
  let p := GetElementOrderImpl fec fes i in
  let nb := int_add (snd st) (GetNumDof fec (GetElementGeometry i) p) in
  (array_set (fst st) (int_add i 1) nb, nb).

(** [FiniteElementSpace::Construct()]: the space, [bdofs] and [uni_fdof]
    after the call; [junk] stands for the entries of the new array
    [bdofs].  The result is [None] where the loop of
    [CalcEdgeFaceVarOrders] runs out of fuel. *)
Definition Construct (junk : Z) (fes : FiniteElementSpace)
  (layout : InteriorLayout)
  : option (result (FiniteElementSpace * InteriorLayout)) :=
  (* This method should be used only for non-NURBS spaces. *)
  if NURBSext fes then Some Aborted
  else if negb (negb (IsVariableOrder fes) || Nonconforming)
  then Some Aborted
  else
    let order := DefaultOrder fec in
    let mixed_elements := 1 <? GetNumGeometries (Dimension mesh) in
    let mixed_faces := 1 <? GetNumGeometries 2 in
    orders ←
      (if IsVariableOrder fes
       then
         (* for variable order spaces, calculate orders of edges and faces *)
         CalcEdgeFaceVarOrders width mesh fuel fes
       else if mixed_faces
       then
         (* for mixed faces we also create the var_face_dofs table *)
         Some ([], replicate (Z.to_nat (GetNFaces mesh)) (order_bit width order))
       else Some ([], []));
    let edge_orders := fst orders in
    let face_orders := snd orders in
    let maps :=
      if IsVariableOrder fes || mixed_faces
      then ndof_to_geom_order
             (InitNDofToOrders width mesh fec fes edge_orders face_orders)
      else ndof_to_geom_order fes in
    (* assign vertex DOFs *)
    let nv :=
      if negb (GetNV =? 0)
      then int_mul GetNV (GetNumDof fec POINT order) else 0 in
    (* assign edge DOFs *)
    let edges :=
      if negb (GetNEdges mesh =? 0)
      then
        if IsVariableOrder fes
        then MakeDofTable width mesh fec 1 edge_orders
        else
          (* the simple case: all edges are of the same order *)
          (int_mul (GetNEdges mesh) (GetNumDof fec SEGMENT order),
           var_edge_dofs fes)
      else (0, var_edge_dofs fes) in
    (* assign face DOFs *)
    let faces :=
      if negb (GetNFaces mesh =? 0)
      then
        if IsVariableOrder fes || mixed_faces
        then
          (* NOTE: we use Table var_face_dofs for mixed faces as well *)
          (MakeDofTable width mesh fec 2 face_orders, -1)
        else
          (* the simple case: all faces are of the same geometry and order *)
          let uni := GetNumDof fec (GetFaceGeometry mesh 0) order in
          ((int_mul (GetNFaces mesh) uni, var_face_dofs fes), uni)
      else ((0, var_face_dofs fes), uni_fdof layout) in
    (* assign internal ("bubble") DOFs *)
    let elements :=
      if negb (GetNE mesh =? 0)
      then
        if IsVariableOrder fes || mixed_elements
        then
          let st :=
            fold_left (Construct_bdofs fes) (seqZ 0 (GetNE mesh))
              (array_set
                 (replicate (Z.to_nat (int_add (GetNE mesh) 1)) junk) 0 0,
               0) in
          (Some (fst st), snd st)
        else
          (* the simple case: all elements are the same *)
          (None,
           int_mul (GetNE mesh)
             (GetNumDof fec (GetElementGeometry 0) order))
      else (None, 0) in
    Some (Normal
      (set_constructed fes maps (snd edges) (snd (fst faces))
         nv (fst edges) (fst (fst faces)) (snd elements),
       {| bdofs := fst elements; uni_fdof := snd faces |})).

(** [FiniteElementSpace::GetVertexDofs(i, dofs)]: the array [dofs] after the
    call. *)
Definition GetVertexDofs (i : Z) : list Z :=
  let nv := DofForGeometry POINT in
  map (fun j => int_add (int_mul i nv) j) (seqZ 0 nv).

(** [FiniteElementSpace::GetEdgeInteriorDofs(i, dofs)]: the array [dofs]
    after the call; the state of the loop is the array and [k]. *)
Definition GetEdgeInteriorDofs (fes : FiniteElementSpace) (i : Z) : list Z :=
  let ne := DofForGeometry SEGMENT in
  fst (fold_left (fun '(dofs, k) (_ : Z) => (dofs ++ [k], int_add k 1))
         (seqZ 0 ne) ([], int_add (nvdofs fes) (int_mul i ne))).

(** [FiniteElementSpace::GetFaceInteriorDofs(i, dofs)]: the array [dofs]
    after the call. *)
Definition GetFaceInteriorDofs (fes : FiniteElementSpace) (i : Z) : list Z :=
  let '(nf, base) :=
    if 0 <? Size (var_face_dofs fes)
    then
      let base := Table_at (var_face_dofs fes) i 0 in
      (int_sub (Table_at (var_face_dofs fes) i 1) base, base)
    else
      let geom := GetFaceGeometry mesh 0 in
      let nf := GetNumDof fec geom (DefaultOrder fec) in
      (nf, int_mul i nf) in
  map (fun j => int_add (int_add (int_add (nvdofs fes) (nedofs fes)) base) j)
    (seqZ 0 nf).

(** [FiniteElementSpace::GetNumElementInteriorDofs(i)] *)
Definition GetNumElementInteriorDofs (fes : FiniteElementSpace) (i : Z) : Z :=
  GetNumDof fec (GetElementGeometry i) (GetElementOrderImpl fec fes i).

(** [FiniteElementSpace::GetElementInteriorDofs(i, dofs)]: the array [dofs]
    after the call. *)
Definition GetElementInteriorDofs (fes : FiniteElementSpace)
  (layout : InteriorLayout) (i : Z) : list Z :=
  let nb := GetNumDof fec (GetElementGeometry i) (GetElementOrderImpl fec fes i) in
  let base :=
    match bdofs layout with
    | Some offsets => array_get 0 offsets i
    | None => int_mul i nb
    end in
  let base :=
    int_add base (int_add (int_add (nvdofs fes) (nedofs fes)) (nfdofs fes)) in
  map (fun j => int_add base j) (seqZ 0 nb).

(** The interior DOFs of all vertices, edges, faces and elements, in this
    order. *)
Definition all_interior_dofs (fes : FiniteElementSpace)
  (layout : InteriorLayout) : list Z :=
  flat_map GetVertexDofs (seqZ 0 GetNV)
  ++ flat_map (GetEdgeInteriorDofs fes) (seqZ 0 (GetNEdges mesh))
  ++ flat_map (GetFaceInteriorDofs fes) (seqZ 0 (GetNFaces mesh))
  ++ flat_map (GetElementInteriorDofs fes layout) (seqZ 0 (GetNE mesh)).

End Construct.

(** The sum of the sizes [s 0], ..., [s (i - 1)]. *)
Definition sum_before (s : Z -> Z) (i : Z) : Z :=
  foldr Z.add 0 (map s (seqZ 0 i)).

(** ** Essential DOFs *)

(** The static function [mark_dofs(dofs, mark_array)]. *)
Definition mark_dofs (dofs mark_array : list Z) : list Z :=
  fold_left
    (fun mark_array k =>
       let k := if k <? 0 then int_sub (-1) k else k in
       array_set mark_array k (-1))
    dofs mark_array.

Section Essential.

Variable mesh : Mesh.
Variable fec : FiniteElementCollection.

(** What [BuildConformingInterpolation] needs. *)
Variable collect_dependencies :
  FiniteElementSpace -> SparseMatrix * SparseMatrix.
Variable Finalize : SparseMatrix -> SparseMatrix.
Variable fuel : nat.

(** [GetNBE()], [GetBdrAttribute(i)] and [GetBdrElementDofs(i, dofs)] (the
    array [dofs] after the call). *)
Variable GetNBE : Z.
Variable GetBdrAttribute : Z -> Z.
Variable GetBdrElementDofs : Z -> list Z.

(** [mesh->ncmesh->GetBoundaryClosure(bdr_attr_is_ess, bdr_verts, bdr_edges)]:
    the two arrays after the call. *)
Variable GetBoundaryClosure : list Z -> list Z * list Z.

(** [fec->DofForGeometry(geom)] *)
Variable DofForGeometry : Geometry -> Z.

(** [R->BooleanMult(x, y)]: [y] after the call. *)
Variable BooleanMult : SparseMatrix -> list Z -> list Z.

(** The entries of an array that [SetSize] does not initialise. *)
Variable junk : Z.

Variable fes : FiniteElementSpace.

(** [FiniteElementSpace::GetBdrElementVDofs(i, vdofs)] *)
Definition GetBdrElementVDofs (i : Z) : list Z :=
  DofsToVDofs_all junk fes (GetBdrElementDofs i) (-1).

(** [FiniteElementSpace::GetVertexVDofs(i, vdofs)] *)
Definition GetVertexVDofs (i : Z) : list Z :=
  DofsToVDofs_all junk fes (GetVertexDofs DofForGeometry i) (-1).

(** [FiniteElementSpace::GetEdgeVDofs(i, vdofs)]; [GetEdgeDofs] leaves the
    array as it was where the edge has no DOFs of variant 0. *)
Definition GetEdgeVDofs (i : Z) (vdofs : list Z) : list Z :=
  DofsToVDofs_all junk fes (snd (GetEdgeDofs mesh fec fes i vdofs 0)) (-1).

(** [for (d ...) { dofs[d] = DofToVDof(dofs[d], component); }] *)
Definition component_vdofs (component : Z) (dofs : list Z) : list Z :=
  map (fun d => DofToVDof fes d component (-1)) dofs.

(** The bodies of the three loops of [GetEssentialVDofs]; the state is
    [ess_vdofs] with the local arrays [vdofs] and [dofs]. *)
Definition mark_bdr_element (bdr_attr_is_ess : list Z) (component : Z)
  (st : list Z * list Z * list Z) (i : Z) : list Z * list Z * list Z :=
  let '(ess_vdofs, vdofs, dofs) := st in
  if negb (array_get 0 bdr_attr_is_ess (int_sub (GetBdrAttribute i) 1) =? 0)
  then
    if component <? 0
    then
      (* Mark all components. *)
      let vdofs := GetBdrElementVDofs i in
      (mark_dofs vdofs ess_vdofs, vdofs, dofs)
    else
      let dofs := component_vdofs component (GetBdrElementDofs i) in
      (mark_dofs dofs ess_vdofs, vdofs, dofs)
  else st.

Definition mark_bdr_vertex (component : Z) (st : list Z * list Z * list Z)
  (v : Z) : list Z * list Z * list Z :=
  let '(ess_vdofs, vdofs, dofs) := st in
  if component <? 0
  then
    let vdofs := GetVertexVDofs v in
    (mark_dofs vdofs ess_vdofs, vdofs, dofs)
  else
    let dofs := component_vdofs component (GetVertexDofs DofForGeometry v) in
    (mark_dofs dofs ess_vdofs, vdofs, dofs).

Definition mark_bdr_edge (component : Z) (st : list Z * list Z * list Z)
  (e : Z) : list Z * list Z * list Z :=
  let '(ess_vdofs, vdofs, dofs) := st in
  if component <? 0
  then
    let vdofs := GetEdgeVDofs e vdofs in
    (mark_dofs vdofs ess_vdofs, vdofs, dofs)
  else
    let dofs :=
      component_vdofs component (snd (GetEdgeDofs mesh fec fes e dofs 0)) in
    (mark_dofs dofs ess_vdofs, vdofs, dofs).

(** [FiniteElementSpace::GetEssentialVDofs(bdr_attr_is_ess, ess_vdofs,
    component)]: [ess_vdofs] after the call. *)
Definition GetEssentialVDofs (bdr_attr_is_ess : list Z) (component : Z)
  : list Z :=
  let ess_vdofs := replicate (Z.to_nat (GetVSize fes)) 0 in
  let st :=
    fold_left (mark_bdr_element bdr_attr_is_ess component) (seqZ 0 GetNBE)
      (ess_vdofs, [], []) in
  (* mark possible hidden boundary edges in a non-conforming mesh *)
  if Nonconforming mesh
  then
    let closure := GetBoundaryClosure bdr_attr_is_ess in
    let st := fold_left (mark_bdr_vertex component) (fst closure) st in
    let st := fold_left (mark_bdr_edge component) (snd closure) st in
    fst (fst st)
  else fst (fst st).

(** [FiniteElementSpace::GetEssentialTrueDofs(bdr_attr_is_ess,
    ess_tdof_list, component)]: the space and [ess_tdof_list] after the
    call; [None] where the loop of [BuildConformingInterpolation] runs out
    of fuel. *)
Definition GetEssentialTrueDofs (bdr_attr_is_ess : list Z) (component : Z)
  : option (result (FiniteElementSpace * list Z)) :=
  let ess_vdofs := GetEssentialVDofs bdr_attr_is_ess component in
  r ← GetConformingRestriction collect_dependencies Finalize mesh fuel fes;
  Some (
    '(fes', R) ← r;
    let ess_tdofs :=
      match R with
      | None => ess_vdofs
      | Some R => BooleanMult R ess_vdofs
      end in
    Normal (fes', MarkerToList ess_tdofs)).

(** The vdofs that [GetEssentialVDofs] marks for boundary element [i]. *)
Definition bdr_element_vdofs (component i : Z) : list Z :=
  if component <? 0 then GetBdrElementVDofs i
  else component_vdofs component (GetBdrElementDofs i).

(** Boundary element [i] is essential. *)
Definition essential_bdr_element (bdr_attr_is_ess : list Z) (i : Z) : Prop :=
  0 <= i < GetNBE /\
  array_get 0 bdr_attr_is_ess (int_sub (GetBdrAttribute i) 1) <> 0.

End Essential.

(** ** Variants of the faces of a constructed space *)

(** An H1 basis catalogue on simplices: one DOF per vertex, [p - 1] per
    edge, [(p - 1)(p - 2)/2] inside a triangle and [(p - 1)^2] inside a
    quadrilateral.  The orders 1 and 2 both have no DOF inside a
    triangle. *)
Definition h1_simplex_collection : FiniteElementCollection := {|
  DefaultOrder := 1;
  GetNumDof := fun g p =>
    match g with
    | POINT => 1
    | SEGMENT => p - 1
    | TRIANGLE => (p - 1) * (p - 2) / 2
    | SQUARE => (p - 1) * (p - 1)
    | _ => 0
    end;
  GetDofOrdering := fun _ p _ => seqZ 0 (p - 1)
|}.

(** Two elements of a non-conforming 3D mesh, cut down to what the
    variable-order tables read: element [i] has the triangular face [i],
    whose only edge listed is edge [i]; no entity is a master or a slave. *)
Definition two_triangle_mesh : Mesh := {|
  GetSequence := 0; GetLastOperation := NONE; Dimension := 3;
  mesh_Conforming := false; GetNE := 2; GetNEdges := 2; GetNFaces := 2;
  GetElementEdges := fun i => [i]; GetElementFaces := fun i => [i];
  GetFaceEdges := fun f => ([f], [1]);
  GetFaceVertices := fun f => [f; f + 1; f + 2];
  GetEdgeVertices := fun e => [e; e + 1];
  GetFaceGeometry := fun _ => TRIANGLE;
  GetEdgeList := {| masters := []; slaves := [] |};
  GetFaceList := {| masters := []; slaves := [] |};
  embeddings := []
|}.

(** The variable-order space that [Construct] leaves on
    [two_triangle_mesh] for the element orders [orders]. *)
Definition constructed_on_two_triangles (orders : list Z)
  : FiniteElementSpace :=
  match
    Construct 8 4 two_triangle_mesh h1_simplex_collection 4 (fun _ => 1)
      (fun _ => TETRAHEDRON) 0
      (set_elem_order FiniteElementSpace_default orders false)
      {| bdofs := None; uni_fdof := 0 |}
  with
  | Some (Normal (fes, _)) => fes
  | _ => FiniteElementSpace_default
  end.
(* ===================================================================== *)
(** * Properties *)

(** ** Machine integers *)

Lemma int_wrap_id z : int_range z -> int_wrap z = z.
Proof.
  unfold int_range, INT_MIN, INT_MAX, int_wrap. intros Hz.
  rewrite Z.mod_small; lia.
Qed.

Lemma int_wrap_range z : int_range (int_wrap z).
Proof.
  unfold int_range, INT_MIN, INT_MAX, int_wrap.
  pose proof (Z.mod_pos_bound (z + 2147483648) 4294967296). lia.
Qed.


(** ** Signed DOFs *)

Lemma FlipDof_val d : 0 <= d <= INT_MAX -> FlipDof d = -1 - d.
Proof.
  intros Hd. unfold FlipDof, int_sub. apply int_wrap_id.
  unfold int_range, INT_MIN, INT_MAX in *. lia.
Qed.

Lemma DecodeDof_nonneg d : 0 <= d -> DecodeDof d = d.
Proof.
  intros Hd. unfold DecodeDof.
  destruct (Z.ltb_spec d 0); [lia | reflexivity].
Qed.

Lemma DecodeDof_neg x : INT_MIN <= x < 0 -> DecodeDof x = -1 - x.
Proof.
  intros Hx. unfold DecodeDof.
  destruct (Z.ltb_spec x 0); [| lia].
  unfold int_sub. apply int_wrap_id.
  unfold int_range, INT_MIN, INT_MAX in *. lia.
Qed.

Lemma DecodeDof_range x : int_range x -> 0 <= DecodeDof x <= INT_MAX.
Proof.
  intros Hx. destruct (Z.ltb_spec x 0) as [Hneg | Hpos].
  - rewrite DecodeDof_neg; unfold int_range, INT_MIN, INT_MAX in *; lia.
  - rewrite DecodeDof_nonneg; unfold int_range, INT_MIN, INT_MAX in *; lia.
Qed.

(** The flipped encoding is the inverse of decoding on the negative half of
    [int] as well: every signed DOF is recovered from its decoded index and
    its sign. *)
Lemma FlipDof_DecodeDof x : INT_MIN <= x < 0 -> FlipDof (DecodeDof x) = x.
Proof.
  intros Hx. rewrite DecodeDof_neg by assumption.
  rewrite FlipDof_val; unfold INT_MIN, INT_MAX in *; lia.
Qed.

Lemma AdjustVDofs_decode vdofs : AdjustVDofs vdofs = map DecodeDof vdofs.
Proof. reflexivity. Qed.

(** C5. Signed-DOF encoding and decoding are exact inverses: for every DOF
    index [d >= 0] (an [int]), decoding the flipped encoding [-1-d] returns
    [d], and decoding the unflipped value [d] returns [d] itself; this is
    what [AdjustVDofs] computes entry by entry. *)
Theorem signed_dof_decode_encode (d : Z) :
  0 <= d <= INT_MAX ->
  FlipDof d = -1 - d /\
  DecodeDof (FlipDof d) = d /\
  DecodeDof d = d /\
  AdjustVDofs [FlipDof d; d] = [d; d].
Proof.
  intros Hd.
  assert (Hflip : DecodeDof (FlipDof d) = d).
  { rewrite FlipDof_val by assumption.
    rewrite DecodeDof_neg; unfold INT_MIN, INT_MAX in *; lia. }
  assert (Hid : DecodeDof d = d) by (apply DecodeDof_nonneg; lia).
  repeat split; try assumption.
  - apply FlipDof_val; assumption.
  - rewrite AdjustVDofs_decode. simpl. rewrite Hflip, Hid. reflexivity.
Qed.

Lemma signed_dof_decode_encode_witness :
  DecodeDof (FlipDof 7) = 7 /\ DecodeDof 7 = 7.
Proof.
  pose proof (signed_dof_decode_encode 7) as H.
  destruct H as (_ & H1 & H2 & _); [unfold INT_MAX; lia |].
  split; assumption.
Defined.

(** [ReorderElementToDofTable] keeps the sign of every entry. *)
Lemma ReorderLoop_length J : forall marker counter,
  length (ReorderLoop J marker counter) = length J.
Proof.
  induction J as [| sdof rest IH]; intros marker counter; simpl; [reflexivity |].
  destruct (array_get (-1) marker (DecodeDof sdof) <? 0); simpl;
    rewrite IH; reflexivity.
Qed.

(** ** Component maps *)

(** C6. With [ndofs = 5] and [vdim = 2], [DofToVDof(3, 1)] is 8 under
    node-major ordering and 7 under component-major ordering (with the
    default last argument as well as with [ndofs] passed explicitly); and
    when [vdim == 1], [DofToVDof] returns [dof] unchanged for every DOF,
    component, ordering and [ndofs] argument. *)
Theorem DofToVDof_examples (fes : FiniteElementSpace) :
  (vdim fes = 2 -> ndofs fes = 5 ->
   (ordering fes = byNODES ->
    DofToVDof fes 3 1 (-1) = 8 /\ DofToVDof fes 3 1 5 = 8) /\
   (ordering fes = byVDIM ->
    DofToVDof fes 3 1 (-1) = 7 /\ DofToVDof fes 3 1 5 = 7)) /\
  (vdim fes = 1 ->
   forall dof vd ndofs_arg,
     DofToVDof fes dof vd ndofs_arg = dof /\
     DofsToVDofs fes vd [dof] ndofs_arg = [dof]).
Proof.
  split.
  - intros Hvdim Hndofs. unfold DofToVDof. rewrite Hvdim, Hndofs.
    split; intros ->; split; reflexivity.
  - intros Hvdim dof vd ndofs_arg. unfold DofToVDof, DofsToVDofs.
    rewrite Hvdim. split; reflexivity.
Qed.

Lemma DofToVDof_examples_witness :
  DofToVDof (set_layout FiniteElementSpace_default 2 byNODES 5) 3 1 (-1) = 8 /\
  DofToVDof (set_layout FiniteElementSpace_default 2 byVDIM 5) 3 1 (-1) = 7 /\
  DofToVDof (set_layout FiniteElementSpace_default 1 byVDIM 5) 3 0 (-1) = 3.
Proof.
  split; [| split].
  - apply (DofToVDof_examples (set_layout FiniteElementSpace_default 2 byNODES 5));
      reflexivity.
  - apply (DofToVDof_examples (set_layout FiniteElementSpace_default 2 byVDIM 5));
      reflexivity.
  - apply (DofToVDof_examples (set_layout FiniteElementSpace_default 1 byVDIM 5)).
    reflexivity.
Defined.

(** Within the range of [int], node-major ordering is [dof + ndofs*vd] and
    component-major ordering is [vd + vdim*dof] on unflipped DOFs. *)
Lemma Ordering_Map_nonneg o ndofs vdim dof vd :
  0 <= dof < ndofs -> 0 <= vd < vdim -> ndofs * vdim <= INT_MAX ->
  Ordering_Map o ndofs vdim dof vd =
    match o with byNODES => dof + ndofs * vd | byVDIM => vd + vdim * dof end.
Proof.
  intros Hd Hv Hn. unfold Ordering_Map, int_add, int_mul.
  destruct (Z.leb_spec 0 dof); [| lia].
  assert (0 <= ndofs * vd <= ndofs * (vdim - 1)) by nia.
  assert (0 <= vdim * dof <= vdim * (ndofs - 1)) by nia.
  destruct o.
  - rewrite (int_wrap_id (ndofs * vd))
      by (unfold int_range, INT_MIN, INT_MAX in *; nia).
    apply int_wrap_id. unfold int_range, INT_MIN, INT_MAX in *. nia.
  - rewrite (int_wrap_id (vdim * dof))
      by (unfold int_range, INT_MIN, INT_MAX in *; nia).
    apply int_wrap_id. unfold int_range, INT_MIN, INT_MAX in *. nia.
Qed.

(** ** Marker arrays and index lists *)


Lemma array_set_middle {A} (pre : list A) (x v : A) (post : list A) :
  array_set (pre ++ x :: post) (Z.of_nat (length pre)) v = pre ++ v :: post.
Proof.
  unfold array_set. rewrite length_app. simpl.
  destruct (Z.leb_spec 0 (Z.of_nat (length pre))); [| lia].
  destruct (Z.ltb_spec (Z.of_nat (length pre))
              (Z.of_nat (length pre + S (length post)))); [| lia].
  simpl. rewrite Nat2Z.id.
  replace (length pre) with (length pre + 0)%nat at 1 by lia.
  rewrite insert_app_r. reflexivity.
Qed.

Lemma MarkerToList_from_spec marker : forall i,
  MarkerToList_from i marker =
    map (fun k => i + Z.of_nat k)
      (filter (fun k => nth k marker 0 <> 0) (seq 0 (length marker))).
Proof.
  induction marker as [| m rest IH]; intros i; simpl; [reflexivity |].
  rewrite IH. rewrite <- seq_shift, filter_cons.
  assert (Htail :
    map (fun k => i + 1 + Z.of_nat k)
      (filter (fun k => nth k rest 0 <> 0) (seq 0 (length rest))) =
    map (fun k => i + Z.of_nat k)
      (filter (fun k => nth k (m :: rest) 0 <> 0)
         (map S (seq 0 (length rest))))).
  { generalize (seq 0 (length rest)) as l.
    induction l as [| k l IHl]; [reflexivity |].
    simpl map. rewrite !filter_cons. simpl nth.
    destruct (decide (nth k rest 0 <> 0)); simpl; rewrite IHl;
      [f_equal; lia | reflexivity]. }
  simpl nth. destruct (Z.eqb_spec m 0) as [-> | Hm].
  - destruct (decide (0 <> 0)); [congruence | exact Htail].
  - destruct (decide (m <> 0)); [| contradiction].
    simpl. rewrite Z.add_0_r. f_equal. exact Htail.
Qed.

Lemma ListToMarker_from mark_val rest : forall pre,
  fold_left (fun marker i => array_set marker i mark_val)
    (MarkerToList_from (Z.of_nat (length pre)) rest)
    (pre ++ replicate (length rest) 0)
  = pre ++ map (remark mark_val) rest.
Proof.
  induction rest as [| m rest IH]; intros pre; simpl; [reflexivity |].
  unfold remark at 1. destruct (Z.eqb_spec m 0) as [-> | Hm].
  - replace (Z.of_nat (length pre) + 1) with (Z.of_nat (length (pre ++ [0])))
      by (rewrite length_app; simpl; lia).
    replace (pre ++ 0 :: replicate (length rest) 0)
      with ((pre ++ [0]) ++ replicate (length rest) 0)
      by (rewrite <- app_assoc; reflexivity).
    rewrite IH, <- app_assoc. reflexivity.
  - simpl. rewrite array_set_middle.
    replace (Z.of_nat (length pre) + 1)
      with (Z.of_nat (length (pre ++ [mark_val])))
      by (rewrite length_app; simpl; lia).
    replace (pre ++ mark_val :: replicate (length rest) 0)
      with ((pre ++ [mark_val]) ++ replicate (length rest) 0)
      by (rewrite <- app_assoc; reflexivity).
    rewrite IH, <- app_assoc. reflexivity.
Qed.

Lemma ListToMarker_MarkerToList marker mark_val :
  ListToMarker (MarkerToList marker) (Z.of_nat (length marker)) mark_val
  = map (remark mark_val) marker.
Proof.
  unfold ListToMarker, MarkerToList. rewrite Nat2Z.id.
  apply (ListToMarker_from mark_val marker []).
Qed.

Lemma remark_one_id marker :
  Forall (fun m => m = 0 \/ m = 1) marker -> map (remark 1) marker = marker.
Proof.
  induction 1 as [| m rest [-> | ->] _ IH]; simpl; [reflexivity | |];
    rewrite IH; reflexivity.
Qed.

(** C7, as the code has it.  [MarkerToList] collects, in increasing order,
    exactly the indices that hold a nonzero entry; [ListToMarker] over that
    list and the original size stores [mark_val] at exactly those indices and
    zero everywhere else.  For a marker of zeros and ones the round trip
    therefore returns the marker itself when [mark_val] is 1. *)
Theorem marker_roundtrip (marker : list Z) (mark_val : Z) :
  MarkerToList marker =
    map Z.of_nat
      (filter (fun k => nth k marker 0 <> 0) (seq 0 (length marker))) /\
  ListToMarker (MarkerToList marker) (Z.of_nat (length marker)) mark_val =
    map (fun m => if m =? 0 then 0 else mark_val) marker /\
  (Forall (fun m => m = 0 \/ m = 1) marker ->
   ListToMarker (MarkerToList marker) (Z.of_nat (length marker)) 1 = marker).
Proof.
  split; [| split].
  - unfold MarkerToList. rewrite MarkerToList_from_spec.
    apply map_ext. intros k. lia.
  - apply ListToMarker_MarkerToList.
  - intros H01. rewrite ListToMarker_MarkerToList. apply remark_one_id, H01.
Qed.

Lemma marker_roundtrip_witness :
  ListToMarker (MarkerToList [0; 1; 1; 0]) 4 1 = [0; 1; 1; 0].
Proof.
  apply (marker_roundtrip [0; 1; 1; 0] 1).
  repeat constructor; lia.
Defined.

(** The round trip does not return a marker of zeros and ones for every mark
    value: with [mark_val = -1] the marked entry comes back as [-1]. *)
Lemma marker_roundtrip_mark_val_counterexample :
  ~ (forall (mark_val : Z) (marker : list Z),
        Forall (fun m => m = 0 \/ m = 1) marker ->
        ListToMarker (MarkerToList marker) (Z.of_nat (length marker)) mark_val
        = marker).
Proof.
  intros H. specialize (H (-1) [0; 1]).
  assert (H01 : Forall (fun m => m = 0 \/ m = 1) [0; 1])
    by (repeat constructor; lia).
  specialize (H H01). vm_compute in H. discriminate H.
Qed.

(** ** AddDependencies *)

Section AddDependencies_facts.

Variables (master_dofs slave_dofs : list Z) (I : DenseMatrix).

Let masters := seqZ 0 (Z.of_nat (length master_dofs)).

Lemma array_set_length {A} (a : list A) i v :
  length (array_set a i v) = length a.
Proof.
  unfold array_set. destruct (_ && _); [apply length_insert | reflexivity].
Qed.

Lemma array_get_set_eq {A} (d : A) a i v :
  0 <= i < Z.of_nat (length a) -> array_get d (array_set a i v) i = v.
Proof.
  intros Hi. unfold array_get, array_set.
  destruct (Z.leb_spec 0 i); [| lia].
  destruct (Z.ltb_spec i (Z.of_nat (length a))); [| lia]. simpl.
  apply nth_lookup_Some with (d := d).
  apply list_lookup_insert_eq. lia.
Qed.

Lemma array_get_set_ne {A} (d : A) a i k v :
  i <> k -> array_get d (array_set a i v) k = array_get d a k.
Proof.
  intros Hik. unfold array_get, array_set.
  destruct (Z.leb_spec 0 k); [| reflexivity].
  destruct (_ && _) eqn:Hin; [| reflexivity].
  apply andb_true_iff in Hin as [Hi0 Hi1].
  apply Z.leb_le in Hi0.
  rewrite !nth_lookup. rewrite list_lookup_insert_ne by lia. reflexivity.
Qed.

Lemma row_add_nonempty r j val : row_add r j val <> [].
Proof. destruct r as [| [c a] r]; simpl; [| destruct (c =? j)]; discriminate. Qed.

Lemma SpAdd_length m i j val : length (SpAdd m i j val) = length m.
Proof. apply array_set_length. Qed.

Lemma SpAdd_RowSize_eq m i j val :
  0 <= i < Z.of_nat (length m) -> SpRowSize (SpAdd m i j val) i <> 0.
Proof.
  intros Hi. unfold SpRowSize, SpGetRow, SpAdd.
  rewrite array_get_set_eq by assumption.
  pose proof (row_add_nonempty (array_get [] m i) j val).
  destruct (row_add _ _ _); [congruence | simpl; lia].
Qed.

Lemma SpAdd_RowSize_ne m i k j val :
  i <> k -> SpRowSize (SpAdd m i j val) k = SpRowSize m k.
Proof.
  intros Hik. unfold SpRowSize, SpGetRow, SpAdd.
  rewrite array_get_set_ne by assumption. reflexivity.
Qed.

(** *** The inner loop *)

Lemma entry_logged i sdof (deps : SparseMatrix) log j :
  AddDependencies_entry master_dofs I i sdof (deps, log) j =
  (AddDependencies_entry master_dofs I i sdof deps j,
   log ++ kept_entries master_dofs I i sdof [j]).
Proof.
  unfold AddDependencies_entry, kept_entries, dependency_kept, FlipDof. simpl.
  destruct (above_threshold (I i j)); simpl; [| rewrite app_nil_r; reflexivity].
  destruct (negb _ && negb _); simpl; [| rewrite app_nil_r]; reflexivity.
Qed.

Lemma kept_entries_app i sdof js1 js2 :
  kept_entries master_dofs I i sdof (js1 ++ js2) =
  kept_entries master_dofs I i sdof js1 ++ kept_entries master_dofs I i sdof js2.
Proof. unfold kept_entries. apply flat_map_app. Qed.

Lemma inner_logged i sdof js : forall (deps : SparseMatrix) log,
  fold_left (AddDependencies_entry master_dofs I i sdof) js (deps, log) =
  (fold_left (AddDependencies_entry master_dofs I i sdof) js deps,
   log ++ kept_entries master_dofs I i sdof js).
Proof.
  induction js as [| j js IH]; intros deps log; simpl.
  - rewrite app_nil_r. reflexivity.
  - rewrite entry_logged, IH. f_equal.
    rewrite <- app_assoc. f_equal. f_equal.
    unfold kept_entries. simpl. rewrite app_nil_r. reflexivity.
Qed.

(** One step of the inner loop either leaves the matrix alone or adds to
    the row of the DOF that [sdof] names. *)
Lemma entry_step i sdof (deps : SparseMatrix) j :
  AddDependencies_entry master_dofs I i sdof deps j = deps \/
  exists c val,
    AddDependencies_entry master_dofs I i sdof deps j
    = SpAdd deps (DecodeDof sdof) c val.
Proof.
  unfold AddDependencies_entry.
  destruct (above_threshold _); [| left; reflexivity].
  destruct (_ && _); [| left; reflexivity].
  right. eexists _, _. reflexivity.
Qed.

Lemma inner_length i sdof js : forall deps : SparseMatrix,
  length (fold_left (AddDependencies_entry master_dofs I i sdof) js deps)
  = length deps.
Proof.
  induction js as [| j js IH]; intros deps; simpl; [reflexivity |].
  rewrite IH.
  destruct (entry_step i sdof deps j) as [-> | (c & val & ->)];
    [reflexivity | apply SpAdd_length].
Qed.

Lemma inner_other_rows i sdof k js : forall deps : SparseMatrix,
  DecodeDof sdof <> k ->
  SpRowSize (fold_left (AddDependencies_entry master_dofs I i sdof) js deps) k
  = SpRowSize deps k.
Proof.
  induction js as [| j js IH]; intros deps Hk; simpl; [reflexivity |].
  rewrite IH by assumption.
  destruct (entry_step i sdof deps j) as [-> | (c & val & ->)];
    [reflexivity | apply SpAdd_RowSize_ne; assumption].
Qed.

Lemma inner_nonempty_stays i sdof k js : forall deps : SparseMatrix,
  0 <= k < Z.of_nat (length deps) ->
  SpRowSize deps k <> 0 ->
  SpRowSize (fold_left (AddDependencies_entry master_dofs I i sdof) js deps) k
  <> 0.
Proof.
  induction js as [| j js IH]; intros deps Hk Hne; simpl; [assumption |].
  destruct (entry_step i sdof deps j) as [-> | (c & val & ->)];
    [apply IH; assumption |].
  apply IH.
  - rewrite SpAdd_length. assumption.
  - destruct (Z.eq_dec (DecodeDof sdof) k) as [-> | Hsk].
    + apply SpAdd_RowSize_eq; assumption.
    + rewrite SpAdd_RowSize_ne; assumption.
Qed.

Lemma inner_row_empty i sdof js : forall deps : SparseMatrix,
  0 <= DecodeDof sdof < Z.of_nat (length deps) ->
  SpRowSize deps (DecodeDof sdof) = 0 ->
  (SpRowSize (fold_left (AddDependencies_entry master_dofs I i sdof) js deps)
     (DecodeDof sdof) = 0
   <-> kept_entries master_dofs I i sdof js = []).
Proof.
  induction js as [| j js IH]; intros deps Hs Hempty; [simpl; tauto |].
  change (j :: js) with ([j] ++ js) at 2. rewrite kept_entries_app.
  simpl fold_left.
  unfold AddDependencies_entry at 2. unfold kept_entries at 1.
  unfold dependency_kept, FlipDof. simpl.
  destruct (above_threshold (I i j)); simpl; [| apply IH; assumption].
  destruct (negb _ && negb _); simpl; [| apply IH; assumption].
  split; [| discriminate].
  intros Hz. exfalso. revert Hz. apply inner_nonempty_stays.
  - unfold SpAdd_signed. rewrite SpAdd_length. assumption.
  - apply SpAdd_RowSize_eq. assumption.
Qed.

Lemma elem_of_kept_entries i sdof js x :
  x ∈ kept_entries master_dofs I i sdof js <->
  exists j, j ∈ js /\ dependency_kept master_dofs I i sdof j = true /\
            x = (sdof, array_get 0 master_dofs j, I i j).
Proof.
  unfold kept_entries. rewrite list_elem_of_In, in_flat_map. split.
  - intros (j & Hj & Hx). exists j. rewrite list_elem_of_In.
    destruct (dependency_kept _ _ _ _ _); simpl in Hx; [| tauto].
    destruct Hx as [<- | []]. auto.
  - intros (j & Hj & Hk & ->). exists j. rewrite <- list_elem_of_In.
    rewrite Hk. simpl. auto.
Qed.

Lemma kept_entries_nil i sdof js :
  kept_entries master_dofs I i sdof js = [] <->
  forall j, j ∈ js -> dependency_kept master_dofs I i sdof j = false.
Proof.
  split.
  - intros Hnil j Hj.
    destruct (dependency_kept master_dofs I i sdof j) eqn:Hk; [| reflexivity].
    assert (Hin : (sdof, array_get 0 master_dofs j, I i j)
                    ∈ kept_entries master_dofs I i sdof js)
      by (apply elem_of_kept_entries; eauto).
    rewrite Hnil in Hin. apply elem_of_nil in Hin. contradiction.
  - intros Hall. apply elem_of_nil_inv. intros x Hx.
    apply elem_of_kept_entries in Hx as (j & Hj & Hk & _).
    rewrite (Hall j Hj) in Hk. discriminate.
Qed.

(** *** The outer loop *)

Variable deps0 : SparseMatrix.

(** The row of DOF [r] is still empty after the slave indices [seen] have
    been processed: it was empty at the start and none of them, whether it
    names [r] as stored or flipped, recorded an entry. *)
Definition row_free (seen : list Z) (r : Z) : Prop :=
  SpRowSize deps0 r = 0 /\
  forall i, i ∈ seen -> DecodeDof (array_get 0 slave_dofs i) = r ->
            kept_entries master_dofs I i (array_get 0 slave_dofs i) masters
            = [].

Lemma row_free_snoc seen i r :
  row_free (seen ++ [i]) r <->
  row_free seen r /\
  (DecodeDof (array_get 0 slave_dofs i) = r ->
   kept_entries master_dofs I i (array_get 0 slave_dofs i) masters = []).
Proof.
  unfold row_free. split.
  - intros [H0 Hall]. repeat split; [assumption | |].
    + intros i' Hi'. apply Hall, elem_of_app. auto.
    + apply Hall, elem_of_app. right. apply list_elem_of_singleton. reflexivity.
  - intros [[H0 Hall] Hi]. split; [assumption |].
    intros i' Hi' Hs. apply elem_of_app in Hi' as [Hi' | Hi'].
    + apply Hall; assumption.
    + apply list_elem_of_singleton in Hi'. subst i'. apply Hi, Hs.
Qed.

Lemma row_logged (deps : SparseMatrix) log i :
  AddDependencies_row master_dofs slave_dofs I (deps, log) i =
  (AddDependencies_row master_dofs slave_dofs I deps i,
   log ++ (if SpRowSize deps (DecodeDof (array_get 0 slave_dofs i)) =? 0
           then kept_entries master_dofs I i (array_get 0 slave_dofs i) masters
           else [])).
Proof.
  unfold AddDependencies_row. simpl. unfold SpRowSize_signed.
  destruct (SpRowSize deps (DecodeDof (array_get 0 slave_dofs i)) =? 0).
  - apply inner_logged.
  - rewrite app_nil_r. reflexivity.
Qed.

Lemma row_length (deps : SparseMatrix) i :
  length (AddDependencies_row master_dofs slave_dofs I deps i) = length deps.
Proof.
  unfold AddDependencies_row. simpl.
  destruct (_ =? 0); [apply inner_length | reflexivity].
Qed.

Lemma row_keeps_invariant (deps : SparseMatrix) seen i :
  length deps = length deps0 ->
  0 <= DecodeDof (array_get 0 slave_dofs i) < Z.of_nat (length deps0) ->
  (forall r, 0 <= r < Z.of_nat (length deps0) ->
             (SpRowSize deps r = 0 <-> row_free seen r)) ->
  forall r, 0 <= r < Z.of_nat (length deps0) ->
    (SpRowSize (AddDependencies_row master_dofs slave_dofs I deps i) r = 0
     <-> row_free (seen ++ [i]) r).
Proof.
  intros Hlen Hsi Hinv r Hr. rewrite row_free_snoc.
  unfold AddDependencies_row. simpl. unfold SpRowSize_signed.
  set (si := array_get 0 slave_dofs i) in *.
  destruct (Z.eq_dec (DecodeDof si) r) as [Heq | Hne].
  - subst r. destruct (Z.eqb_spec (SpRowSize deps (DecodeDof si)) 0)
      as [H0 | Hn0].
    + rewrite inner_row_empty by (rewrite ?Hlen; assumption).
      apply Hinv in H0; [| assumption]. tauto.
    + rewrite <- Hinv by assumption. tauto.
  - assert (Hsame :
      SpRowSize (if SpRowSize deps (DecodeDof si) =? 0
                 then fold_left (AddDependencies_entry master_dofs I i si)
                        (seqZ 0 (Z.of_nat (length master_dofs))) deps
                 else deps) r = SpRowSize deps r).
    { destruct (_ =? 0); [apply inner_other_rows; assumption | reflexivity]. }
    rewrite Hsame, Hinv by assumption. tauto.
Qed.

Lemma outer_logged idxs : forall seen (deps : SparseMatrix) log,
  length deps = length deps0 ->
  (forall i, i ∈ idxs ->
             0 <= DecodeDof (array_get 0 slave_dofs i)
             < Z.of_nat (length deps0)) ->
  (forall r, 0 <= r < Z.of_nat (length deps0) ->
             (SpRowSize deps r = 0 <-> row_free seen r)) ->
  fst (fold_left (AddDependencies_row master_dofs slave_dofs I) idxs
         (deps, log))
  = fold_left (AddDependencies_row master_dofs slave_dofs I) idxs deps /\
  forall x,
    x ∈ snd (fold_left (AddDependencies_row master_dofs slave_dofs I) idxs
               (deps, log)) <->
    x ∈ log \/
    exists pre i post,
      idxs = pre ++ i :: post /\
      row_free (seen ++ pre) (DecodeDof (array_get 0 slave_dofs i)) /\
      x ∈ kept_entries master_dofs I i (array_get 0 slave_dofs i) masters.
Proof.
  induction idxs as [| i rest IH]; intros seen deps log Hlen Hrange Hinv.
  - simpl. split; [reflexivity |]. intros x. split; [auto |].
    intros [Hx | (pre & i & post & Heq & _)]; [assumption |].
    destruct pre; discriminate.
  - simpl fold_left. rewrite row_logged.
    assert (Hsi : 0 <= DecodeDof (array_get 0 slave_dofs i)
                  < Z.of_nat (length deps0))
      by (apply Hrange, elem_of_cons; auto).
    set (si := array_get 0 slave_dofs i) in *.
    destruct (IH (seen ++ [i])
                (AddDependencies_row master_dofs slave_dofs I deps i)
                (log ++ (if SpRowSize deps (DecodeDof si) =? 0
                         then kept_entries master_dofs I i si masters else [])))
      as [IHfst IHlog].
    { rewrite row_length. assumption. }
    { intros i' Hi'. apply Hrange, elem_of_cons. auto. }
    { apply row_keeps_invariant; assumption. }
    split; [exact IHfst |]. intros x. rewrite IHlog, elem_of_app. split.
    + intros [[Hx | Hx] | (pre & i' & post & -> & Hfree & Hx)].
      * auto.
      * right. exists [], i, rest.
        destruct (Z.eqb_spec (SpRowSize deps (DecodeDof si)) 0).
        -- rewrite app_nil_r. split; [reflexivity |].
           split; [apply Hinv; assumption | assumption].
        -- apply elem_of_nil in Hx. contradiction.
      * right. exists (i :: pre), i', post. rewrite <- app_assoc in Hfree. auto.
    + intros [Hx | (pre & i' & post & Heq & Hfree & Hx)]; [auto |].
      destruct pre as [| i0 pre]; simpl in Heq; injection Heq as <- ->.
      * left. right. rewrite app_nil_r in Hfree.
        apply Hinv in Hfree; [| assumption]. fold si in Hfree.
        apply Z.eqb_eq in Hfree. rewrite Hfree. assumption.
      * right. exists pre, i', post. rewrite <- app_assoc. auto.
Qed.

End AddDependencies_facts.

Lemma seqZ_split_inv m n pre i post :
  seqZ m n = pre ++ i :: post ->
  i = m + Z.of_nat (length pre) /\ m + Z.of_nat (length pre) < m + n /\
  pre = seqZ m (Z.of_nat (length pre)).
Proof.
  intros Heq.
  assert (Hlook : seqZ m n !! length pre = Some i).
  { rewrite Heq. rewrite lookup_app_r by lia.
    rewrite Nat.sub_diag. reflexivity. }
  apply lookup_seqZ in Hlook as [-> Hlt].
  split; [reflexivity |]. split; [lia |].
  replace n with (Z.of_nat (length pre) + (n - Z.of_nat (length pre))) in Heq
    by lia.
  rewrite seqZ_app in Heq by lia.
  apply app_inj_1 in Heq as [Hpre _]; [congruence |].
  rewrite length_seqZ. lia.
Qed.

Lemma seqZ_split m n i :
  m <= i < m + n ->
  seqZ m n = seqZ m (i - m) ++ i :: seqZ (i + 1) (m + n - i - 1).
Proof.
  intros Hi.
  replace n with ((i - m) + (m + n - i)) at 1 by lia.
  rewrite seqZ_app by lia. f_equal.
  replace (m + (i - m)) with i by lia.
  rewrite seqZ_cons by lia.
  replace (Z.succ i) with (i + 1) by lia.
  replace (Z.pred (m + n - i)) with (m + n - i - 1) by lia.
  reflexivity.
Qed.

Lemma above_threshold_spec coef :
  above_threshold coef = true <-> (dependency_threshold < Qabs coef)%Q.
Proof.
  unfold above_threshold. rewrite negb_true_iff.
  rewrite <- not_true_iff_false, Qle_bool_iff. split.
  - apply Qnot_le_lt.
  - apply Qlt_not_le.
Qed.

Lemma dependency_kept_spec master_dofs I i sdof j :
  dependency_kept master_dofs I i sdof j = true <->
  (dependency_threshold < Qabs (I i j))%Q /\
  array_get 0 master_dofs j <> sdof /\
  array_get 0 master_dofs j <> FlipDof sdof.
Proof.
  unfold dependency_kept.
  rewrite !andb_true_iff, !negb_true_iff, !Z.eqb_neq, above_threshold_spec.
  tauto.
Qed.

Lemma FlipDof_int s : int_range s -> FlipDof s = -1 - s.
Proof.
  intros Hs. unfold FlipDof, int_sub. apply int_wrap_id.
  unfold int_range, INT_MIN, INT_MAX in *. lia.
Qed.

Lemma signed_dof_row n s :
  n <= INT_MAX -> - n <= s < n -> int_range s /\ 0 <= DecodeDof s < n.
Proof.
  intros Hn Hs. split; [unfold int_range, INT_MIN, INT_MAX in *; lia |].
  destruct (Z.ltb_spec s 0).
  - rewrite DecodeDof_neg; unfold INT_MIN, INT_MAX in *; lia.
  - rewrite DecodeDof_nonneg; lia.
Qed.

(** C3. [AddDependencies(deps, master_dofs, slave_dofs, I, skipfirst)]
    records the entry [(sdof, mdof, I(i,j))] exactly when [i >= skipfirst],
    the slave DOF [sdof = slave_dofs[i]] has no dependency row yet when row
    [i] is reached (the row of its DOF was empty at the call and no earlier
    slave index naming the same DOF, as stored or flipped, recorded
    anything), [|I(i,j)| > 1e-12], and [mdof = master_dofs[j]] is neither
    [sdof] nor [-1-sdof].  So entries at or below the threshold and
    self-dependencies, direct or through the sign-flipped twin, are never
    added.  The slave DOFs are signed DOFs of the matrix: [sdof] or its flip
    [-1-d] for a DOF [d] that has a row.  The recorded entries are read off
    the log of a logged matrix, whose matrix component is the one the plain
    run computes. *)
Theorem AddDependencies_records
  (deps : SparseMatrix) (master_dofs slave_dofs : list Z) (I : DenseMatrix)
  (skipfirst : Z) :
  0 <= skipfirst ->
  Z.of_nat (length deps) <= INT_MAX ->
  (forall i, skipfirst <= i < Z.of_nat (length slave_dofs) ->
             - Z.of_nat (length deps) <= array_get 0 slave_dofs i
             < Z.of_nat (length deps)) ->
  fst (AddDependencies (deps, []) master_dofs slave_dofs I skipfirst)
  = AddDependencies deps master_dofs slave_dofs I skipfirst /\
  forall sdof mdof coef,
    (sdof, mdof, coef)
      ∈ snd (AddDependencies (deps, []) master_dofs slave_dofs I skipfirst)
    <->
    exists i j,
      skipfirst <= i < Z.of_nat (length slave_dofs) /\
      0 <= j < Z.of_nat (length master_dofs) /\
      sdof = array_get 0 slave_dofs i /\
      mdof = array_get 0 master_dofs j /\
      coef = I i j /\
      (SpRowSize deps (DecodeDof sdof) = 0 /\
       forall i' j',
         skipfirst <= i' < i -> 0 <= j' < Z.of_nat (length master_dofs) ->
         DecodeDof (array_get 0 slave_dofs i') = DecodeDof sdof ->
         ~ ((dependency_threshold < Qabs (I i' j'))%Q /\
            array_get 0 master_dofs j' <> array_get 0 slave_dofs i' /\
            array_get 0 master_dofs j' <> -1 - array_get 0 slave_dofs i')) /\
      (dependency_threshold < Qabs coef)%Q /\
      mdof <> sdof /\ mdof <> -1 - sdof.
Proof.
  intros Hskip Hmax Hrange.
  set (n := Z.of_nat (length slave_dofs) - skipfirst).
  assert (Hrow : forall i, skipfirst <= i < Z.of_nat (length slave_dofs) ->
                   int_range (array_get 0 slave_dofs i) /\
                   0 <= DecodeDof (array_get 0 slave_dofs i)
                   < Z.of_nat (length deps)).
  { intros i Hi. apply signed_dof_row; [exact Hmax | apply Hrange, Hi]. }
  destruct (outer_logged master_dofs slave_dofs I deps (seqZ skipfirst n)
              [] deps []) as [Hfst Hlog].
  { reflexivity. }
  { intros i Hi. apply elem_of_seqZ in Hi. apply Hrow. lia. }
  { intros s Hs. unfold row_free. split; [| tauto].
    intros H0. split; [assumption |]. intros i Hi. apply elem_of_nil in Hi.
    contradiction. }
  split; [exact Hfst |]. intros sdof mdof coef.
  unfold AddDependencies. fold n. rewrite Hlog. split.
  - intros [Hnil | (pre & i & post & Hsplit & [H0 Hfree] & Hx)];
      [apply elem_of_nil in Hnil; contradiction |].
    apply seqZ_split_inv in Hsplit as (Hi & Hlt & Hpre).
    apply elem_of_kept_entries in Hx as (j & Hj & Hkept & Hx).
    apply elem_of_seqZ in Hj. injection Hx as -> -> ->.
    assert (Hin : skipfirst <= i < Z.of_nat (length slave_dofs)) by lia.
    destruct (Hrow i Hin) as [Hint _].
    apply dependency_kept_spec in Hkept as (Hth & Hself & Htwin).
    rewrite FlipDof_int in Htwin by exact Hint.
    exists i, j. repeat split; try assumption; try lia.
    intros i' j' Hi' Hj' Hsame (Hth' & Hself' & Htwin').
    assert (Hi'pre : i' ∈ pre)
      by (rewrite Hpre; apply elem_of_seqZ; lia).
    simpl in Hfree. specialize (Hfree i' Hi'pre Hsame).
    rewrite kept_entries_nil in Hfree.
    specialize (Hfree j'). rewrite elem_of_seqZ in Hfree.
    assert (Hk : dependency_kept master_dofs I i'
                   (array_get 0 slave_dofs i') j' = true).
    { apply dependency_kept_spec.
      rewrite FlipDof_int by (apply Hrow; lia). auto. }
    rewrite Hfree in Hk by lia. discriminate.
  - intros (i & j & Hi & Hj & -> & -> & -> & [H0 Hfree] & Hth & Hself & Htwin).
    right. destruct (Hrow i Hi) as [Hint _].
    exists (seqZ skipfirst (i - skipfirst)), i,
           (seqZ (i + 1) (skipfirst + n - i - 1)).
    split; [apply seqZ_split; lia |]. split.
    + split; [assumption |]. intros i' Hi' Hsame.
      apply kept_entries_nil. intros j' Hj'.
      simpl in Hi'. apply elem_of_seqZ in Hi'. apply elem_of_seqZ in Hj'.
      apply not_true_iff_false. intros Hk.
      apply dependency_kept_spec in Hk.
      rewrite FlipDof_int in Hk by (apply Hrow; lia).
      apply (Hfree i' j'); [lia | lia | assumption | assumption].
    + apply elem_of_kept_entries. exists j.
      split; [apply elem_of_seqZ; lia |]. split; [| reflexivity].
      apply dependency_kept_spec. rewrite FlipDof_int by exact Hint. auto.
Qed.

(** Slave DOFs 2, -4, -3 against master DOFs 0, 3: DOF 2 gets both masters
    from its first occurrence and nothing from its second, where it comes
    flipped as -3; the flipped DOF 3, written -4, loses the entry below the
    threshold and the dependency on master 3, its sign-flipped twin. *)
Example AddDependencies_example :
  snd (AddDependencies (SpEmpty 4, []) [0; 3] [2; -4; -3] example_transfer 0)
  = [(2, 0, (1 # 2)%Q); (2, 3, (1 # 2)%Q)] /\
  AddDependencies (SpEmpty 4) [0; 3] [2; -4; -3] example_transfer 0
  = [[]; []; [(0, (1 # 2)%Q); (3, (1 # 2)%Q)]; []].
Proof. split; vm_compute; reflexivity. Qed.

Lemma AddDependencies_records_witness :
  fst (AddDependencies (SpEmpty 4, []) [0; 3] [2; -4; -3] example_transfer 0)
  = AddDependencies (SpEmpty 4) [0; 3] [2; -4; -3] example_transfer 0 /\
  ((2, 3, (1 # 2)%Q)
     ∈ snd (AddDependencies (SpEmpty 4, []) [0; 3] [2; -4; -3]
              example_transfer 0)) /\
  ((-4, 3, 1%Q)
     ∉ snd (AddDependencies (SpEmpty 4, []) [0; 3] [2; -4; -3]
              example_transfer 0)) /\
  ((-3, 0, (1 # 2)%Q)
     ∉ snd (AddDependencies (SpEmpty 4, []) [0; 3] [2; -4; -3]
              example_transfer 0)).
Proof.
  destruct (AddDependencies_records (SpEmpty 4) [0; 3] [2; -4; -3]
              example_transfer 0) as [Hmatrix Hlog].
  - lia.
  - unfold INT_MAX. simpl. lia.
  - intros i Hi. change (Z.of_nat (length [2; -4; -3])) with 3 in Hi.
    change (Z.of_nat (length (SpEmpty 4))) with 4.
    assert (Hcases : i = 0 \/ i = 1 \/ i = 2) by lia.
    destruct Hcases as [-> | [-> | ->]]; vm_compute; split; congruence.
  - split; [exact Hmatrix |]. split; [| split].
    + apply Hlog. exists 0, 1.
      split; [simpl; lia |]. split; [simpl; lia |].
      split; [reflexivity |]. split; [reflexivity |]. split; [reflexivity |].
      split.
      * split; [reflexivity |]. intros i' j' Hi'. lia.
      * split; [vm_compute; reflexivity |]. split; vm_compute; congruence.
    + intros Hin. apply Hlog in Hin
        as (i & j & Hi & Hj & Hs & Hm & _ & _ & _ & _ & Htwin).
      apply Htwin. reflexivity.
    + intros Hin. apply Hlog in Hin
        as (i & j & Hi & Hj & Hs & Hm & _ & [_ Hfree] & _).
      change (Z.of_nat (length [2; -4; -3])) with 3 in Hi.
      assert (i = 2) as ->.
      { assert (Hcases : i = 0 \/ i = 1 \/ i = 2) by lia.
        destruct Hcases as [-> | [-> | ->]];
          [vm_compute in Hs; discriminate Hs
          | vm_compute in Hs; discriminate Hs | reflexivity]. }
      apply (Hfree 0 0); [lia | simpl; lia | reflexivity |].
      split; [vm_compute; reflexivity |]. split; vm_compute; congruence.
Defined.

(** ** The finalization loop of BuildConformingInterpolation *)

(** Loops [for (int k = 0; k < n; k++)] are folds over [seqZ 0 n]; an
    invariant indexed by the loop counter carries over the whole loop. *)
Lemma fold_left_seqZ_ind {A} (f : A -> Z -> A) (P : Z -> A -> Prop) n init :
  0 <= n ->
  P 0 init ->
  (forall k acc, 0 <= k < n -> P k acc -> P (k + 1) (f acc k)) ->
  P n (fold_left f (seqZ 0 n) init).
Proof.
  intros Hn Hinit Hstep.
  rewrite <- (Z2Nat.id n) by assumption.
  assert (Hle : (Z.to_nat n <= Z.to_nat n)%nat) by lia.
  revert Hle. generalize (Z.to_nat n) at 1 3 4 as m.
  induction m as [| m IH]; intros Hle; [exact Hinit |].
  rewrite seqZ_S, fold_left_app. simpl.
  replace (Z.of_nat (S m)) with (Z.of_nat m + 1) by lia.
  apply Hstep; [lia |]. apply IH. lia.
Qed.

(** The number of finalized DOFs in the marker array. *)
Definition count_finalized (finalized : list bool) : Z :=
  Z.of_nat (length (filter (fun b => b = true) finalized)).

Lemma count_finalized_bound finalized :
  0 <= count_finalized finalized <= Z.of_nat (length finalized).
Proof.
  unfold count_finalized. pose proof (length_filter (fun b => b = true) finalized).
  lia.
Qed.

Lemma count_finalized_app l1 l2 :
  count_finalized (l1 ++ l2) = count_finalized l1 + count_finalized l2.
Proof. unfold count_finalized. rewrite filter_app, length_app. lia. Qed.

Lemma count_finalized_set finalized dof :
  0 <= dof < Z.of_nat (length finalized) ->
  array_get false finalized dof = false ->
  count_finalized (array_set finalized dof true) = count_finalized finalized + 1.
Proof.
  intros Hdof Hfalse. unfold array_set, array_get in *.
  destruct (Z.leb_spec 0 dof); [| lia].
  destruct (Z.ltb_spec dof (Z.of_nat (length finalized))); [| lia]. simpl.
  assert (Hlook : finalized !! Z.to_nat dof = Some false).
  { destruct (lookup_lt_is_Some_2 finalized (Z.to_nat dof)) as [b Hb]; [lia |].
    rewrite Hb. f_equal. rewrite <- Hfalse. symmetry.
    apply nth_lookup_Some. exact Hb. }
  rewrite <- (take_drop_middle _ _ _ Hlook) at 2.
  rewrite insert_take_drop by lia.
  rewrite !count_finalized_app.
  change (true :: drop (S (Z.to_nat dof)) finalized)
    with ([true] ++ drop (S (Z.to_nat dof)) finalized).
  change (false :: drop (S (Z.to_nat dof)) finalized)
    with ([false] ++ drop (S (Z.to_nat dof)) finalized).
  rewrite !count_finalized_app. unfold count_finalized at 2 5.
  rewrite filter_cons_True by reflexivity.
  rewrite filter_cons_False by discriminate. simpl. lia.
Qed.

Lemma count_finalized_all finalized :
  count_finalized finalized = Z.of_nat (length finalized) <->
  forall dof, 0 <= dof < Z.of_nat (length finalized) ->
              array_get false finalized dof = true.
Proof.
  induction finalized as [| b l IH].
  - split; [| reflexivity]. intros _ dof Hdof. simpl in Hdof. lia.
  - change (b :: l) with ([b] ++ l). rewrite count_finalized_app, length_app.
    pose proof (count_finalized_bound l) as Hb. split.
    + intros Hcount dof Hdof.
      assert (Hb1 : b = true).
      { destruct b; [reflexivity |]. unfold count_finalized in Hcount at 1.
        rewrite filter_cons_False in Hcount by discriminate.
        simpl in Hcount. lia. }
      subst b. unfold count_finalized in Hcount at 1.
      rewrite filter_cons_True in Hcount by reflexivity.
      simpl length in *.
      assert (Hl : count_finalized l = Z.of_nat (length l)) by lia.
      destruct (Z.eq_dec dof 0) as [-> | Hnz]; [reflexivity |].
      rewrite IH in Hl. specialize (Hl (dof - 1)).
      unfold array_get in *. destruct (Z.leb_spec 0 dof); [| lia].
      destruct (Z.leb_spec 0 (dof - 1)); [| lia].
      replace (Z.to_nat dof) with (S (Z.to_nat (dof - 1))) by lia.
      simpl. apply Hl. lia.
    + intros Hall.
      assert (Hb1 : b = true) by (apply (Hall 0); simpl; lia).
      subst b. unfold count_finalized at 1.
      rewrite filter_cons_True by reflexivity. simpl length.
      assert (Hl : count_finalized l = Z.of_nat (length l)).
      { apply IH. intros dof Hdof. specialize (Hall (dof + 1)).
        unfold array_get in *. destruct (Z.leb_spec 0 dof); [| lia].
        destruct (Z.leb_spec 0 (dof + 1)); [| lia].
        replace (Z.to_nat (dof + 1)) with (S (Z.to_nat dof)) in Hall by lia.
        apply Hall. simpl. lia. }
      lia.
Qed.

Lemma array_get_range_true finalized dof :
  array_get false finalized dof = true ->
  0 <= dof < Z.of_nat (length finalized).
Proof.
  unfold array_get. destruct (Z.leb_spec 0 dof); [| discriminate].
  intros Hget. split; [assumption |].
  destruct (Z.ltb_spec dof (Z.of_nat (length finalized))); [assumption |].
  rewrite nth_overflow in Hget by lia. discriminate.
Qed.

(** *** Rows only grow under [AddRow] *)

Lemma SpAdd_row_eq m i j val :
  0 <= i < Z.of_nat (length m) ->
  SpGetRow (SpAdd m i j val) i = row_add (SpGetRow m i) j val.
Proof. intros Hi. unfold SpGetRow, SpAdd. apply array_get_set_eq, Hi. Qed.

Lemma SpAdd_row_ne m i k j val :
  i <> k -> SpGetRow (SpAdd m i j val) k = SpGetRow m k.
Proof. intros Hik. unfold SpGetRow, SpAdd. apply array_get_set_ne, Hik. Qed.

Lemma SpAddRow_length row : forall m i, length (SpAddRow m i row) = length m.
Proof.
  unfold SpAddRow. induction row as [| [j val] row IH]; intros m i; simpl;
    [reflexivity |].
  rewrite IH. apply SpAdd_length.
Qed.

Lemma SpAddRow_row_ne row : forall m i k,
  i <> k -> SpGetRow (SpAddRow m i row) k = SpGetRow m k.
Proof.
  unfold SpAddRow. induction row as [| [j val] row IH]; intros m i k Hik; simpl;
    [reflexivity |].
  rewrite IH by assumption. apply SpAdd_row_ne, Hik.
Qed.

Lemma SpAdd_keeps_nonempty m i j val k :
  SpGetRow m k <> [] -> SpGetRow (SpAdd m i j val) k <> [].
Proof.
  intros Hne. destruct (Z.eq_dec i k) as [-> | Hik].
  - destruct (decide (0 <= k < Z.of_nat (length m))) as [Hin | Hout].
    + rewrite SpAdd_row_eq by assumption. apply row_add_nonempty.
    + unfold SpAdd, array_set.
      destruct (Z.leb_spec 0 k); [| assumption].
      destruct (Z.ltb_spec k (Z.of_nat (length m))); [lia | assumption].
  - rewrite SpAdd_row_ne; assumption.
Qed.

Lemma SpAddRow_keeps_nonempty row : forall m i k,
  SpGetRow m k <> [] -> SpGetRow (SpAddRow m i row) k <> [].
Proof.
  unfold SpAddRow. induction row as [| [j val] row IH]; intros m i k Hne; simpl;
    [assumption |].
  apply IH, SpAdd_keeps_nonempty, Hne.
Qed.

Lemma SpAddRow_nonempty row m i :
  0 <= i < Z.of_nat (length m) -> row <> [] ->
  SpGetRow (SpAddRow m i row) i <> [].
Proof.
  intros Hi Hrow. destruct row as [| [j val] row]; [congruence |].
  unfold SpAddRow. simpl. apply (SpAddRow_keeps_nonempty row).
  rewrite SpAdd_row_eq by assumption. apply row_add_nonempty.
Qed.

Lemma row_scale_nonempty a row : row <> [] -> row_scale a row <> [].
Proof. destruct row as [| [j v] row]; [congruence | discriminate]. Qed.

(** The rows of [cP] combined for one slave DOF. *)
Definition combine_masters (dof : Z) (P : SparseMatrix) (dep_row : SparseRow)
  : SparseMatrix :=
  fold_left
    (fun P '(dep_col, dep_coef) =>
       SpAddRow P dof (row_scale dep_coef (SpGetRow P dep_col)))
    dep_row P.

Lemma combine_masters_length dof dep_row : forall P,
  length (combine_masters dof P dep_row) = length P.
Proof.
  unfold combine_masters.
  induction dep_row as [| [c a] dep_row IH]; intros P; simpl; [reflexivity |].
  rewrite IH. apply SpAddRow_length.
Qed.

Lemma combine_masters_row_ne dof k dep_row : forall P,
  dof <> k -> SpGetRow (combine_masters dof P dep_row) k = SpGetRow P k.
Proof.
  unfold combine_masters.
  induction dep_row as [| [c a] dep_row IH]; intros P Hk; simpl; [reflexivity |].
  rewrite IH by assumption. apply SpAddRow_row_ne, Hk.
Qed.

Lemma combine_masters_keeps_nonempty dof k dep_row : forall P,
  SpGetRow P k <> [] -> SpGetRow (combine_masters dof P dep_row) k <> [].
Proof.
  unfold combine_masters.
  induction dep_row as [| [c a] dep_row IH]; intros P Hne; simpl; [assumption |].
  apply IH, SpAddRow_keeps_nonempty, Hne.
Qed.

Lemma combine_masters_nonempty dof P c a dep_row :
  0 <= dof < Z.of_nat (length P) ->
  SpGetRow P c <> [] ->
  SpGetRow (combine_masters dof P ((c, a) :: dep_row)) dof <> [].
Proof.
  intros Hdof Hc. unfold combine_masters. simpl.
  apply (combine_masters_keeps_nonempty dof dof dep_row).
  apply SpAddRow_nonempty; [assumption |]. apply row_scale_nonempty, Hc.
Qed.

(** *** The invariant of the finalization loop

    The marker array and [cP] have [n] entries; the counter is the number of
    marked DOFs; a DOF is marked exactly when its row of [cP] is filled; and
    every true DOF (empty dependency row) is marked. *)
Definition resolved (deps : SparseMatrix) (n : Z) (st : Resolution) : Prop :=
  Z.of_nat (length (res_finalized st)) = n /\
  Z.of_nat (length (res_cP st)) = n /\
  res_n_finalized st = count_finalized (res_finalized st) /\
  (forall dof, 0 <= dof < n ->
     (array_get false (res_finalized st) dof = true
      <-> SpGetRow (res_cP st) dof <> [])) /\
  (forall dof, 0 <= dof < n -> SpGetRow deps dof = [] ->
     array_get false (res_finalized st) dof = true).

Lemma finalize_dof_unfold deps st dof :
  finalize_dof deps st dof =
  if negb (array_get false (res_finalized st) dof)
     && DofFinalizable dof (res_finalized st) deps
  then {| res_cP := combine_masters dof (res_cP st) (SpGetRow deps dof);
          res_finalized := array_set (res_finalized st) dof true;
          res_n_finalized := int_add (res_n_finalized st) 1;
          res_finished := false |}
  else st.
Proof. reflexivity. Qed.

Lemma finalize_dof_resolved deps n st dof :
  n <= INT_MAX -> 0 <= dof < n ->
  resolved deps n st ->
  resolved deps n (finalize_dof deps st dof) /\
  (finalize_dof deps st dof = st /\
   (array_get false (res_finalized st) dof = false ->
    DofFinalizable dof (res_finalized st) deps = false)
   \/
   res_finished (finalize_dof deps st dof) = false /\
   res_n_finalized (finalize_dof deps st dof) = res_n_finalized st + 1).
Proof.
  intros Hmax Hdof (Hlenf & Hlenp & Hcount & Hrows & Htrue).
  rewrite finalize_dof_unfold.
  destruct (array_get false (res_finalized st) dof) eqn:Hfin; simpl.
  { split; [repeat split; assumption || apply Hrows; assumption |].
    left. split; [reflexivity | discriminate]. }
  destruct (DofFinalizable dof (res_finalized st) deps) eqn:Hable; simpl.
  2: { split; [repeat split; assumption || apply Hrows; assumption | auto]. }
  assert (Hcnt : count_finalized (array_set (res_finalized st) dof true)
                 = count_finalized (res_finalized st) + 1)
    by (apply count_finalized_set; [lia | assumption]).
  pose proof (count_finalized_bound (array_set (res_finalized st) dof true))
    as Hbound.
  rewrite array_set_length in Hbound.
  assert (Hadd : int_add (res_n_finalized st) 1 = res_n_finalized st + 1).
  { unfold int_add. apply int_wrap_id.
    unfold int_range, INT_MIN, INT_MAX in *. lia. }
  split; [| right; split; [reflexivity | exact Hadd]].
  unfold resolved. simpl.
  rewrite array_set_length, combine_masters_length.
  split; [assumption |]. split; [assumption |].
  split; [rewrite Hadd, Hcount, Hcnt; reflexivity |]. split.
  - intros k Hk. destruct (Z.eq_dec dof k) as [<- | Hne].
    + rewrite array_get_set_eq by lia. split; [intros _ | reflexivity].
      destruct (SpGetRow deps dof) as [| [c a] dep_row] eqn:Hrow.
      { rewrite (Htrue dof Hdof Hrow) in Hfin. discriminate. }
      apply combine_masters_nonempty; [lia |].
      unfold DofFinalizable in Hable. rewrite Hrow in Hable. simpl in Hable.
      apply andb_true_iff in Hable as [Hc _].
      apply Hrows; [| assumption].
      apply array_get_range_true in Hc. lia.
    + rewrite array_get_set_ne, combine_masters_row_ne by assumption.
      apply Hrows, Hk.
  - intros k Hk Hempty. destruct (Z.eq_dec dof k) as [<- | Hne].
    + apply array_get_set_eq. lia.
    + rewrite array_get_set_ne by assumption. apply Htrue; assumption.
Qed.

(** No DOF that is still unmarked can be finalized. *)
Definition at_fixed_point (deps : SparseMatrix) (n : Z) (st : Resolution)
  : Prop :=
  forall dof, 0 <= dof < n ->
    array_get false (res_finalized st) dof = false ->
    DofFinalizable dof (res_finalized st) deps = false.

(** One pass either changes nothing and reports [finished], or marks at
    least one more DOF and asks for another pass. *)
Lemma finalize_pass_spec deps n st :
  0 <= n <= INT_MAX ->
  resolved deps n st ->
  resolved deps n (finalize_pass deps n st) /\
  (res_finished (finalize_pass deps n st) = true /\
   res_cP (finalize_pass deps n st) = res_cP st /\
   res_finalized (finalize_pass deps n st) = res_finalized st /\
   res_n_finalized (finalize_pass deps n st) = res_n_finalized st /\
   at_fixed_point deps n st
   \/
   res_finished (finalize_pass deps n st) = false /\
   res_n_finalized st < res_n_finalized (finalize_pass deps n st)).
Proof.
  intros Hn Hres. unfold finalize_pass.
  set (st0 := {| res_cP := res_cP st; res_finalized := res_finalized st;
                 res_n_finalized := res_n_finalized st;
                 res_finished := true |}).
  cut ((fun k acc =>
              resolved deps n acc /\
              (res_finished acc = true /\ acc = st0 /\
               (forall dof, 0 <= dof < k ->
                  array_get false (res_finalized st) dof = false ->
                  DofFinalizable dof (res_finalized st) deps = false)
               \/
               res_finished acc = false /\
               res_n_finalized st < res_n_finalized acc))
         n (fold_left (finalize_dof deps) (seqZ 0 n) st0)).
  { simpl. intros [Hres' [(Hf & -> & Hall) | Hcase]]; auto.
    split; [assumption |]. left. repeat split. exact Hall. }
  apply fold_left_seqZ_ind.
  - lia.
  - simpl. split; [exact Hres |]. left. split; [reflexivity |].
    split; [reflexivity |]. intros dof Hdof. lia.
  - intros k acc Hk [Hacc Hcase].
    destruct (finalize_dof_resolved deps n acc k) as [Hres' Hstep];
      [lia | lia | assumption |].
    split; [exact Hres' |].
    destruct Hstep as [[Hsame Hnot] | [Hfin Hcnt]].
    + rewrite Hsame. destruct Hcase as [(Hf & Heq & Hall) | Hcase]; [| auto].
      left. split; [assumption |]. split; [assumption |].
      intros dof Hdof. destruct (Z.eq_dec dof k) as [-> | Hne].
      * rewrite Heq in Hnot. exact Hnot.
      * apply Hall. lia.
    + right. split; [assumption |]. rewrite Hcnt.
      destruct Hcase as [(_ & -> & _) | [_ Hlt]]; simpl; lia.
Qed.

Lemma resolved_counter_bound deps n st :
  resolved deps n st -> 0 <= res_n_finalized st <= n.
Proof.
  intros (Hlenf & _ & Hcount & _).
  pose proof (count_finalized_bound (res_finalized st)). lia.
Qed.

Lemma finalize_loop_mono deps n fuel : forall st r fuel',
  finalize_loop fuel deps n st = Some r -> (fuel <= fuel')%nat ->
  finalize_loop fuel' deps n st = Some r.
Proof.
  induction fuel as [| fuel IH]; intros st r fuel' Hrun Hle; [discriminate |].
  destruct fuel' as [| fuel']; [lia |]. simpl in *.
  destruct (res_finished (finalize_pass deps n st)); [assumption |].
  apply IH; [assumption | lia].
Qed.

Lemma finalize_loop_terminates deps n :
  0 <= n <= INT_MAX ->
  forall fuel st,
    resolved deps n st ->
    n - res_n_finalized st < Z.of_nat fuel ->
    exists st',
      finalize_loop fuel deps n st = Some st' /\
      resolved deps n st' /\ res_finished st' = true /\
      at_fixed_point deps n st'.
Proof.
  intros Hn. induction fuel as [| fuel IH]; intros st Hres Hfuel.
  - pose proof (resolved_counter_bound deps n st Hres). lia.
  - simpl. destruct (finalize_pass_spec deps n st Hn Hres) as [Hres' Hcase].
    destruct Hcase as [(Hfin & _ & Hsame & _ & Hfix) | [Hfin Hlt]].
    + rewrite Hfin. eexists. split; [reflexivity |].
      split; [assumption |]. split; [assumption |].
      unfold at_fixed_point in *. rewrite Hsame. exact Hfix.
    + rewrite Hfin. apply IH; [assumption | lia].
Qed.

(** *** The state in which the loop starts *)

(** The number of DOFs below [k] whose dependency row is empty. *)
Definition empty_rows (deps : SparseMatrix) (k : Z) : Z :=
  Z.of_nat (length (filter (fun i => SpGetRow deps i = []) (seqZ 0 k))).

Lemma SpRowSize_zero deps i : SpRowSize deps i = 0 <-> SpGetRow deps i = [].
Proof.
  unfold SpRowSize. destruct (SpGetRow deps i); simpl; split;
    intros H; try reflexivity; try discriminate; lia.
Qed.

Lemma seqZ_snoc k : 0 <= k -> seqZ 0 (k + 1) = seqZ 0 k ++ [k].
Proof.
  intros Hk. rewrite seqZ_app by lia. f_equal.
Qed.

Lemma empty_rows_succ deps k :
  0 <= k ->
  empty_rows deps (k + 1) =
  empty_rows deps k + (if SpRowSize deps k =? 0 then 1 else 0).
Proof.
  intros Hk. unfold empty_rows. rewrite seqZ_snoc, filter_app, length_app by lia.
  rewrite filter_cons, filter_nil.
  destruct (decide (SpGetRow deps k = [])) as [He | Hne];
    destruct (Z.eqb_spec (SpRowSize deps k) 0) as [H0 | Hn0];
    rewrite SpRowSize_zero in *; simpl; try lia; contradiction.
Qed.

Lemma empty_rows_bound deps k : 0 <= k -> 0 <= empty_rows deps k <= k.
Proof.
  intros Hk. unfold empty_rows.
  pose proof (length_filter (fun i => SpGetRow deps i = []) (seqZ 0 k)) as Hle.
  rewrite length_seqZ in Hle. lia.
Qed.

Lemma count_true_dofs_spec deps n :
  0 <= n <= INT_MAX -> count_true_dofs deps n = empty_rows deps n.
Proof.
  intros Hn. unfold count_true_dofs.
  apply (fold_left_seqZ_ind
           (fun c i => if SpRowSize deps i =? 0 then int_add c 1 else c)
           (fun k c => c = empty_rows deps k)).
  - lia.
  - reflexivity.
  - intros k c Hk ->. rewrite empty_rows_succ by lia.
    pose proof (empty_rows_bound deps k).
    destruct (SpRowSize deps k =? 0); [| lia].
    unfold int_add. apply int_wrap_id.
    unfold int_range, INT_MIN, INT_MAX in *. lia.
Qed.

Lemma count_finalized_replicate_false m :
  count_finalized (replicate m false) = 0.
Proof.
  unfold count_finalized. induction m as [| m IH]; [reflexivity |].
  simpl. rewrite filter_cons_False by discriminate. exact IH.
Qed.

Lemma array_get_replicate {A} (d x : A) m i :
  array_get d (replicate m d) i = d.
Proof.
  unfold array_get. destruct (0 <=? i); [| reflexivity].
  generalize (Z.to_nat i) as k. induction m as [| m IH]; intros [| k]; simpl;
    try reflexivity. apply IH.
Qed.

Lemma init_true_dofs_spec variable_order deps sped n n_true_dofs :
  0 <= n <= INT_MAX ->
  let td := init_true_dofs variable_order deps sped n n_true_dofs in
  Z.of_nat (length (td_finalized td)) = n /\
  Z.of_nat (length (td_cP td)) = n /\
  count_finalized (td_finalized td) = empty_rows deps n /\
  (forall dof, 0 <= dof < n ->
     (array_get false (td_finalized td) dof = true <-> SpGetRow deps dof = [])) /\
  (forall dof, 0 <= dof < n ->
     (SpGetRow (td_cP td) dof <> [] <-> SpGetRow deps dof = [])).
Proof.
  intros Hn. simpl. unfold init_true_dofs.
  cut ((fun k td =>
          Z.of_nat (length (td_finalized td)) = n /\
          Z.of_nat (length (td_cP td)) = n /\
          count_finalized (td_finalized td) = empty_rows deps k /\
          (forall dof, 0 <= dof < n ->
             (array_get false (td_finalized td) dof = true
              <-> dof < k /\ SpGetRow deps dof = [])) /\
          (forall dof, 0 <= dof < n ->
             (SpGetRow (td_cP td) dof <> []
              <-> dof < k /\ SpGetRow deps dof = [])))
         n (fold_left (init_true_dof deps sped) (seqZ 0 n)
              {| td_cP := SpEmpty n;
                 td_cR_J := replicate (Z.to_nat n_true_dofs) 0;
                 td_cQ := if variable_order
                          then Some (SpEmpty n_true_dofs) else None;
                 td_finalized := replicate (Z.to_nat n) false;
                 td_true_dof := 0 |})).
  { simpl. intros (H1 & H2 & H3 & H4 & H5).
    split; [assumption |]. split; [assumption |]. split; [assumption |].
    split; intros dof Hdof.
    - rewrite H4 by assumption. split; [tauto | intros; split; [lia | assumption]].
    - rewrite H5 by assumption. split; [tauto | intros; split; [lia | assumption]]. }
  apply fold_left_seqZ_ind; [lia | |].
  - simpl. unfold SpEmpty. rewrite !length_replicate.
    split; [lia |]. split; [lia |].
    split; [apply count_finalized_replicate_false |]. split.
    + intros dof Hdof. rewrite array_get_replicate by exact false.
      split; [discriminate | lia].
    + intros dof Hdof. unfold SpGetRow.
      rewrite array_get_replicate by exact []. split; [congruence | lia].
  - intros k td Hk (Hlenf & Hlenp & Hcnt & Hfin & Hrows).
    unfold init_true_dof. rewrite empty_rows_succ by lia.
    destruct (Z.eqb_spec (SpRowSize deps k) 0) as [H0 | Hn0]; simpl.
    + apply SpRowSize_zero in H0.
      rewrite array_set_length, SpAdd_length.
      split; [assumption |]. split; [assumption |]. split.
      { rewrite count_finalized_set; [lia | lia |].
        destruct (array_get false (td_finalized td) k) eqn:Hget;
          [| reflexivity].
        apply Hfin in Hget; lia. }
      split.
      * intros dof Hdof. destruct (Z.eq_dec k dof) as [<- | Hne].
        -- rewrite array_get_set_eq by lia. split; [intros _; split; [lia | assumption] | reflexivity].
        -- rewrite array_get_set_ne by assumption. rewrite Hfin by assumption.
           split; intros [? ?]; split; try assumption; lia.
      * intros dof Hdof. destruct (Z.eq_dec k dof) as [<- | Hne].
        -- rewrite SpAdd_row_eq by lia.
           split; [intros _; split; [lia | assumption] |].
           intros _. apply row_add_nonempty.
        -- rewrite SpAdd_row_ne by assumption. rewrite Hrows by assumption.
           split; intros [? ?]; split; try assumption; lia.
    + rewrite SpRowSize_zero in Hn0.
      split; [assumption |]. split; [assumption |]. split; [lia |]. split.
      * intros dof Hdof. rewrite Hfin by assumption.
        split; intros [? ?]; split; try assumption; try lia.
        destruct (Z.eq_dec dof k) as [-> | ?]; [contradiction | lia].
      * intros dof Hdof. rewrite Hrows by assumption.
        split; intros [? ?]; split; try assumption; try lia.
        destruct (Z.eq_dec dof k) as [-> | ?]; [contradiction | lia].
Qed.

Lemma resolution_start_resolved variable_order deps sped n :
  0 <= n <= INT_MAX ->
  resolved deps n (resolution_start variable_order deps sped n).
Proof.
  intros Hn.
  destruct (init_true_dofs_spec variable_order deps sped n
              (count_true_dofs deps n) Hn) as (H1 & H2 & H3 & H4 & H5).
  unfold resolved, resolution_start. simpl.
  split; [assumption |]. split; [assumption |].
  split; [rewrite H3; apply count_true_dofs_spec, Hn |]. split.
  - intros dof Hdof. rewrite H4, H5 by assumption. reflexivity.
  - intros dof Hdof. apply H4, Hdof.
Qed.

(** *** BuildConformingInterpolation *)

Lemma empty_rows_all deps n :
  0 <= n -> (forall i, 0 <= i < n -> SpRowSize deps i = 0) ->
  empty_rows deps n = n.
Proof.
  intros Hn. pattern n. apply natlike_ind; [reflexivity | | assumption].
  intros k Hk IH Hall. replace (Z.succ k) with (k + 1) in * by lia.
  rewrite empty_rows_succ by assumption.
  rewrite (Hall k) by lia. simpl. rewrite IH; [lia |].
  intros i Hi. apply Hall. lia.
Qed.

Lemma set_conforming_twice fes P R Qm b P' R' Qm' b' :
  set_conforming (set_conforming fes P R Qm b) P' R' Qm' b'
  = set_conforming fes P' R' Qm' b'.
Proof. reflexivity. Qed.

(** C1. The finalization loop of [BuildConformingInterpolation] terminates:
    from the state in which it starts, any number of passes above [ndofs]
    reaches the same final state [st], at which the last pass changed
    nothing and no unfinalized DOF is finalizable.  There the counter
    [n_finalized] equals [ndofs] exactly when every DOF is finalized, and a
    DOF is finalized exactly when its row of [cP] is filled.  The build then
    ends in one of three ways: all DOFs are true DOFs and the operators are
    left [NULL]; or [n_finalized != ndofs] and the build aborts; or every
    DOF is finalized and [cP] is made from the completely filled matrix.  A
    partially filled [cP] is never returned. *)
Theorem finalization_terminates
  (collect_dependencies : FiniteElementSpace -> SparseMatrix * SparseMatrix)
  (Finalize : SparseMatrix -> SparseMatrix)
  (fes : FiniteElementSpace) (deps sped : SparseMatrix) :
  0 <= ndofs fes <= INT_MAX ->
  cP_is_set fes = false ->
  collect_dependencies (set_conforming fes (cP fes) (cR fes) (cQ fes) true)
  = (deps, sped) ->
  exists st,
    (forall fuel, (Z.to_nat (ndofs fes) < fuel)%nat ->
       finalize_loop fuel deps (ndofs fes)
         (resolution_start (IsVariableOrder fes) deps sped (ndofs fes))
       = Some st) /\
    res_finished st = true /\
    (forall dof, 0 <= dof < ndofs fes ->
       array_get false (res_finalized st) dof = false ->
       DofFinalizable dof (res_finalized st) deps = false) /\
    (res_n_finalized st = ndofs fes <->
     forall dof, 0 <= dof < ndofs fes ->
       array_get false (res_finalized st) dof = true) /\
    (forall dof, 0 <= dof < ndofs fes ->
       (array_get false (res_finalized st) dof = true
        <-> SpGetRow (res_cP st) dof <> [])) /\
    forall fuel, (Z.to_nat (ndofs fes) < fuel)%nat ->
      (count_true_dofs deps (ndofs fes) = ndofs fes /\
       BuildConformingInterpolation collect_dependencies Finalize fuel fes
       = Some (Normal (set_conforming fes None None None true)))
      \/
      (count_true_dofs deps (ndofs fes) <> ndofs fes /\
       res_n_finalized st <> ndofs fes /\
       BuildConformingInterpolation collect_dependencies Finalize fuel fes
       = Some Aborted)
      \/
      (count_true_dofs deps (ndofs fes) <> ndofs fes /\
       res_n_finalized st = ndofs fes /\
       exists fes',
         BuildConformingInterpolation collect_dependencies Finalize fuel fes
         = Some (Normal fes') /\
         cP fes' =
           Some (if 1 <? vdim fes
                 then MakeVDimMatrix Finalize fes (Finalize (res_cP st))
                        (count_true_dofs deps (ndofs fes))
                 else Finalize (res_cP st))).
Proof.
  intros Hn Hunset Hcollect.
  set (n := ndofs fes) in *.
  set (start := resolution_start (IsVariableOrder fes) deps sped n).
  assert (Hstart : resolved deps n start)
    by (apply resolution_start_resolved; assumption).
  destruct (finalize_loop_terminates deps n Hn (S (Z.to_nat n)) start Hstart)
    as (st & Hrun & Hres & Hfin & Hfix).
  { pose proof (resolved_counter_bound deps n start Hstart). lia. }
  assert (Hloop : forall fuel, (Z.to_nat n < fuel)%nat ->
                    finalize_loop fuel deps n start = Some st).
  { intros fuel Hfuel. apply (finalize_loop_mono deps n (S (Z.to_nat n)));
      [assumption | lia]. }
  destruct Hres as (Hlenf & Hlenp & Hcount & Hrows & Htrue).
  exists st. split; [exact Hloop |]. split; [exact Hfin |].
  split; [exact Hfix |]. split.
  { rewrite Hcount, <- Hlenf at 1. rewrite count_finalized_all.
    rewrite Hlenf. reflexivity. }
  split; [exact Hrows |].
  intros fuel Hfuel. unfold BuildConformingInterpolation.
  rewrite Hunset, Hcollect. cbv zeta.
  change (ndofs (set_conforming fes (cP fes) (cR fes) (cQ fes) true)) with n.
  change (IsVariableOrder (set_conforming fes (cP fes) (cR fes) (cQ fes) true))
    with (IsVariableOrder fes).
  change (vdim (set_conforming fes (cP fes) (cR fes) (cQ fes) true))
    with (vdim fes).
  destruct (Z.eqb_spec (count_true_dofs deps n) n) as [Hall | Hsome].
  { left. split; [assumption | reflexivity]. }
  right. fold start. rewrite (Hloop fuel Hfuel).
  destruct (Z.eqb_spec (res_n_finalized st) n) as [Hdone | Hpartial]; simpl.
  - right. split; [assumption |]. split; [assumption |].
    destruct (1 <? vdim fes); eexists; (split; [reflexivity |]); reflexivity.
  - left. auto.
Qed.

(** The chain resolves in two passes; the cycle never does and the build
    aborts. *)
Example finalization_chain :
  finalize_loop 4 chain_deps 3 (resolution_start false chain_deps [] 3)
  = Some {| res_cP := [[(0, 1%Q)]; [(0, (1 * 1)%Q)];
                        [(0, (1 * (1 # 2) + 1 * (1 # 2))%Q)]];
            res_finalized := [true; true; true];
            res_n_finalized := 3;
            res_finished := true |}.
Proof. reflexivity. Qed.

Example build_cycle_aborts :
  BuildConformingInterpolation (fun _ => (cyclic_deps, [])) (fun m => m) 4
    three_dof_space
  = Some Aborted.
Proof. reflexivity. Qed.

Lemma finalization_terminates_witness :
  exists st,
    finalize_loop 4 chain_deps 3 (resolution_start false chain_deps [] 3)
    = Some st /\ res_n_finalized st = 3.
Proof.
  destruct (finalization_terminates (fun _ => (chain_deps, []))
              (fun m => m) three_dof_space chain_deps [])
    as (st & Hloop & _ & _ & _ & _ & Hbuild).
  - simpl. unfold INT_MAX. lia.
  - reflexivity.
  - reflexivity.
  - exists st. split; [apply (Hloop 4%nat); simpl; lia |].
    destruct (Hbuild 4%nat) as [[Hall _] | [(_ & _ & Habort) | (_ & Hdone & _)]].
    + simpl. lia.
    + vm_compute in Hall. discriminate.
    + vm_compute in Habort. discriminate.
    + exact Hdone.
Defined.

(** C2. If every DOF's dependency row is empty after the constraints are
    collected ([n_true_dofs == ndofs]), [BuildConformingInterpolation] leaves
    [cP], [cR] and [cQ] all [NULL]; [GetConformingProlongation] and
    [GetConformingRestriction] return [NULL], on the first call and on later
    ones; and the callers in this file take [NULL] for the identity:
    [GetNConformingDofs] answers [ndofs] and [ConvertToConformingVDofs]
    copies its argument. *)
Theorem all_true_dofs_identity
  (collect_dependencies : FiniteElementSpace -> SparseMatrix * SparseMatrix)
  (Finalize : SparseMatrix -> SparseMatrix) (mesh : Mesh)
  (BooleanMultTranspose : SparseMatrix -> list Z -> list Z)
  (fes : FiniteElementSpace) (deps sped : SparseMatrix) (fuel : nat) :
  0 <= ndofs fes <= INT_MAX ->
  cP_is_set fes = false -> cP fes = None ->
  collect_dependencies (set_conforming fes (cP fes) (cR fes) (cQ fes) true)
  = (deps, sped) ->
  (forall i, 0 <= i < ndofs fes -> SpRowSize deps i = 0) ->
  count_true_dofs deps (ndofs fes) = ndofs fes /\
  exists fes',
    BuildConformingInterpolation collect_dependencies Finalize fuel fes
    = Some (Normal fes') /\
    cP fes' = None /\ cR fes' = None /\ cQ fes' = None /\
    cP_is_set fes' = true /\
    (exists s,
       GetConformingProlongation collect_dependencies Finalize mesh fuel fes
       = Some (Normal (s, None))) /\
    (exists s,
       GetConformingRestriction collect_dependencies Finalize mesh fuel fes
       = Some (Normal (s, None))) /\
    GetConformingProlongation collect_dependencies Finalize mesh fuel fes'
    = Some (Normal (fes', None)) /\
    GetConformingRestriction collect_dependencies Finalize mesh fuel fes'
    = Some (Normal (fes', None)) /\
    (forall P_Width,
       GetNConformingDofs collect_dependencies Finalize mesh fuel fes P_Width
       = Some (Normal (ndofs fes))) /\
    (forall dofs,
       ConvertToConformingVDofs collect_dependencies Finalize mesh
         BooleanMultTranspose fuel fes dofs
       = Some (Normal dofs)).
Proof.
  intros Hn Hunset HcP Hcollect Hempty.
  assert (Hcount : count_true_dofs deps (ndofs fes) = ndofs fes).
  { rewrite count_true_dofs_spec by assumption.
    apply empty_rows_all; [lia | assumption]. }
  split; [exact Hcount |].
  assert (Hbuild :
    BuildConformingInterpolation collect_dependencies Finalize fuel fes
    = Some (Normal (set_conforming fes None None None true))).
  { unfold BuildConformingInterpolation. rewrite Hunset, Hcollect. cbv zeta.
    change (ndofs (set_conforming fes (cP fes) (cR fes) (cQ fes) true))
      with (ndofs fes).
    rewrite Hcount, Z.eqb_refl. reflexivity. }
  exists (set_conforming fes None None None true).
  split; [exact Hbuild |].
  unfold GetConformingProlongation, GetConformingRestriction,
    GetNConformingDofs, ConvertToConformingVDofs, GetConformingProlongation,
    Conforming.
  rewrite Hunset, Hbuild. simpl.
  destruct (mesh_Conforming mesh); simpl; rewrite ?HcP;
    repeat split; eauto.
Qed.

Lemma all_true_dofs_identity_witness :
  exists fes',
    BuildConformingInterpolation (fun _ => (no_deps, [])) (fun m => m) 1
      three_dof_space = Some (Normal fes') /\
    cP fes' = None /\ cR fes' = None /\ cQ fes' = None.
Proof.
  destruct (all_true_dofs_identity (fun _ => (no_deps, [])) (fun m => m)
              (empty_mesh 0)
              (fun _ dofs => dofs) three_dof_space no_deps [] 1%nat)
    as (_ & fes' & Hbuild & HP & HR & HQ & _).
  - simpl. unfold INT_MAX. lia.
  - reflexivity.
  - reflexivity.
  - reflexivity.
  - intros i Hi. simpl in Hi.
    assert (Hcases : i = 0 \/ i = 1 \/ i = 2) by lia.
    destruct Hcases as [-> | [-> | ->]]; reflexivity.
  - exists fes'. auto.
Defined.

(** ** Order masks: the propagation loop of CalcEdgeFaceVarOrders *)

Lemma filter_length_le {A} (P Q : A -> Prop)
  `{forall x, Decision (P x)} `{forall x, Decision (Q x)} (l : list A) :
  (forall x, x ∈ l -> P x -> Q x) ->
  (length (filter P l) <= length (filter Q l))%nat.
Proof.
  induction l as [| x l IH]; intros Himp; [reflexivity |].
  rewrite !filter_cons.
  assert (IH' : (length (filter P l) <= length (filter Q l))%nat).
  { apply IH. intros y Hy. apply Himp, elem_of_cons. auto. }
  destruct (decide (P x)) as [HP | HP]; destruct (decide (Q x)) as [HQ | HQ];
    simpl; try lia.
  exfalso. apply HQ, Himp; [apply elem_of_cons; auto | assumption].
Qed.

Lemma filter_length_lt {A} (P Q : A -> Prop)
  `{forall x, Decision (P x)} `{forall x, Decision (Q x)} (l : list A) x :
  (forall y, y ∈ l -> P y -> Q y) ->
  x ∈ l -> Q x -> ~ P x ->
  (length (filter P l) < length (filter Q l))%nat.
Proof.
  induction l as [| y l IH]; intros Himp Hx HQ HP.
  - apply elem_of_nil in Hx. contradiction.
  - rewrite !filter_cons.
    assert (Hle : (length (filter P l) <= length (filter Q l))%nat).
    { apply filter_length_le. intros z Hz. apply Himp, elem_of_cons. auto. }
    apply elem_of_cons in Hx as [<- | Hx].
    + destruct (decide (P x)); [contradiction |].
      destruct (decide (Q x)); [simpl; lia | contradiction].
    + assert (IH' : (length (filter P l) < length (filter Q l))%nat).
      { apply IH; try assumption.
        intros z Hz. apply Himp, elem_of_cons. auto. }
      destruct (decide (P y)) as [HPy | HPy];
        destruct (decide (Q y)) as [HQy | HQy]; simpl; try lia.
      exfalso. apply HQy, Himp; [apply elem_of_cons; auto | assumption].
Qed.

Lemma mask_le_refl a : mask_le a a.
Proof. intros k Hk. exact Hk. Qed.

Lemma mask_le_trans a b c : mask_le a b -> mask_le b c -> mask_le a c.
Proof. intros Hab Hbc k Hk. apply Hbc, Hab, Hk. Qed.

Lemma mask_le_lor a x : mask_le a (Z.lor a x).
Proof. intros k Hk. rewrite Z.lor_spec, Hk. reflexivity. Qed.

Lemma masks_le_refl l : Forall2 mask_le l l.
Proof. induction l; constructor; [apply mask_le_refl | assumption]. Qed.

Lemma masks_le_trans l1 : forall l2 l3,
  Forall2 mask_le l1 l2 -> Forall2 mask_le l2 l3 -> Forall2 mask_le l1 l3.
Proof.
  induction l1 as [| a l1 IH]; intros l2 l3 H12 H23;
    inversion H12; subst; inversion H23; subst; constructor.
  - eapply mask_le_trans; eassumption.
  - eapply IH; eassumption.
Qed.

Lemma orders_grow_refl st : orders_grow st st.
Proof. split; apply masks_le_refl. Qed.

Lemma orders_grow_trans st1 st2 st3 :
  orders_grow st1 st2 -> orders_grow st2 st3 -> orders_grow st1 st3.
Proof.
  intros [He12 Hf12] [He23 Hf23].
  split; eapply masks_le_trans; eassumption.
Qed.

Section VarOrders_facts.

Variable width : Z.
Variable mesh : Mesh.

Local Abbreviation total := (foldr (fun m s => popcount width m + s) 0).

Lemma popcount_bound m : 0 <= popcount width m <= Z.of_nat (Z.to_nat width).
Proof.
  unfold popcount.
  pose proof (length_filter (fun k => Z.testbit m k = true) (seqZ 0 width)) as H.
  rewrite length_seqZ in H. lia.
Qed.

Lemma popcount_mono a b : mask_le a b -> popcount width a <= popcount width b.
Proof.
  intros Hab. unfold popcount. apply inj_le, filter_length_le.
  intros k _. apply Hab.
Qed.

Lemma popcount_strict a b k :
  mask_le a b -> 0 <= k < width ->
  Z.testbit a k = false -> Z.testbit b k = true ->
  popcount width a < popcount width b.
Proof.
  intros Hab Hk Ha Hb. unfold popcount.
  apply inj_lt, (filter_length_lt _ _ _ k).
  - intros j _. apply Hab.
  - apply elem_of_seqZ. lia.
  - assumption.
  - rewrite Ha. discriminate.
Qed.

Lemma total_mono l : forall l', Forall2 mask_le l l' -> total l <= total l'.
Proof.
  induction l as [| a l IH]; intros l' Hle; inversion Hle; subst; simpl;
    [lia |].
  pose proof (popcount_mono a y H1). specialize (IH l'0 H3). lia.
Qed.

Lemma total_bound l :
  0 <= total l <= Z.of_nat (length l) * Z.of_nat (Z.to_nat width).
Proof.
  induction l as [| a l IH]; simpl; [lia |].
  pose proof (popcount_bound a). nia.
Qed.

Lemma total_app l1 l2 : total (l1 ++ l2) = total l1 + total l2.
Proof. induction l1 as [| a l1 IH]; simpl; [reflexivity | lia]. Qed.

(** *** [orders[i] |= mask] *)

Lemma or_into_length l i x : length (or_into l i x) = length l.
Proof. apply array_set_length. Qed.

Lemma or_into_split l i x :
  0 <= i < Z.of_nat (length l) ->
  l = take (Z.to_nat i) l ++ array_get 0 l i :: drop (S (Z.to_nat i)) l /\
  or_into l i x =
    take (Z.to_nat i) l ++ Z.lor (array_get 0 l i) x
      :: drop (S (Z.to_nat i)) l.
Proof.
  intros Hi.
  destruct (lookup_lt_is_Some_2 l (Z.to_nat i)) as [a Ha]; [lia |].
  assert (Hget : array_get 0 l i = a).
  { unfold array_get. destruct (Z.leb_spec 0 i); [| lia].
    apply nth_lookup_Some. exact Ha. }
  rewrite Hget. split.
  - symmetry. apply take_drop_middle, Ha.
  - unfold or_into, array_set. rewrite Hget.
    destruct (Z.leb_spec 0 i); [| lia].
    destruct (Z.ltb_spec i (Z.of_nat (length l))); [| lia]. simpl.
    apply insert_take_drop. lia.
Qed.

Lemma or_into_grows l i x : Forall2 mask_le l (or_into l i x).
Proof.
  destruct (decide (0 <= i < Z.of_nat (length l))) as [Hi | Hi].
  - destruct (or_into_split l i x Hi) as [Hl Hor].
    rewrite Hor. rewrite Hl at 1.
    apply Forall2_app; [apply masks_le_refl |].
    constructor; [apply mask_le_lor | apply masks_le_refl].
  - unfold or_into, array_set.
    destruct (Z.leb_spec 0 i); [| apply masks_le_refl].
    destruct (Z.ltb_spec i (Z.of_nat (length l))); [lia | apply masks_le_refl].
Qed.

Lemma or_into_new_bit l i x k :
  0 <= i < Z.of_nat (length l) -> 0 <= k < width ->
  Z.testbit (array_get 0 l i) k = false -> Z.testbit x k = true ->
  total l < total (or_into l i x).
Proof.
  intros Hi Hk Hold Hnew.
  destruct (or_into_split l i x Hi) as [Hl Hor].
  rewrite Hor. rewrite Hl at 1. rewrite !total_app. simpl.
  assert (popcount width (array_get 0 l i)
          < popcount width (Z.lor (array_get 0 l i) x)).
  { apply (popcount_strict _ _ k); [apply mask_le_lor | assumption.. |].
    rewrite Z.lor_spec, Hnew. apply orb_true_r. }
  lia.
Qed.

Lemma fold_or_into_grows (g : Z -> Z) idxs : forall l,
  Forall2 mask_le l (fold_left (fun eo e => or_into eo e (g e)) idxs l).
Proof.
  induction idxs as [| e idxs IH]; intros l; simpl; [apply masks_le_refl |].
  eapply masks_le_trans; [apply or_into_grows | apply IH].
Qed.

(** *** MinOrder *)

Lemma MinOrder_from_spec fuel : forall order bits,
  0 <= order ->
  (MinOrder_from fuel order bits = 0
   \/ order <= MinOrder_from fuel order bits < order + Z.of_nat fuel) /\
  (forall k, 0 <= k -> order + k < MinOrder_from fuel order bits ->
             Z.testbit bits k = false).
Proof.
  induction fuel as [| fuel IH]; intros order bits Horder.
  - simpl. split; [auto | intros k Hk Hlt; lia].
  - cbn [MinOrder_from].
    destruct (Z.eqb_spec bits 0) as [-> | Hnz].
    { split; [auto | intros k Hk Hlt; lia]. }
    destruct (Z.eqb_spec (Z.land bits 1) 0) as [Heven | Hodd]; simpl.
    2: { split; [right; lia | intros k Hk Hlt; lia]. }
    destruct (IH (order + 1) (Z.shiftr bits 1)) as [Hrange Hbits]; [lia |].
    split; [destruct Hrange; [auto | right; lia] |].
    intros k Hk Hlt. destruct (Z.eq_dec k 0) as [-> | Hk0].
    + assert (Hland : Z.testbit (Z.land bits 1) 0 = false)
        by (rewrite Heven; apply Z.bits_0).
      rewrite Z.land_spec in Hland. change (Z.testbit 1 0) with true in Hland.
      rewrite andb_true_r in Hland. exact Hland.
    + specialize (Hbits (k - 1)).
      rewrite Z.shiftr_spec in Hbits by lia.
      replace (k - 1 + 1) with k in Hbits by lia.
      apply Hbits; lia.
Qed.

(** An order below [MinOrder m] is not in the mask [m], and it is an order
    the masks can represent. *)
Lemma below_MinOrder m k :
  0 <= k -> k < MinOrder width m ->
  k < width /\ Z.testbit m k = false.
Proof.
  intros Hk Hlt. unfold MinOrder in Hlt.
  destruct (MinOrder_from_spec (Z.to_nat width) 0 m) as [Hrange Hbits]; [lia |].
  split; [lia | apply Hbits; lia].
Qed.

Lemma MinOrder_nonneg m : 0 <= MinOrder width m.
Proof.
  unfold MinOrder.
  destruct (MinOrder_from_spec (Z.to_nat width) 0 m) as [Hrange _]; lia.
Qed.

Lemma order_bit_set k : 0 <= k < width -> Z.testbit (order_bit width k) k = true.
Proof.
  intros Hk. unfold order_bit, bits_wrap.
  rewrite Z.mod_pow2_bits_low by lia.
  rewrite Z.shiftl_spec by lia. rewrite Z.sub_diag. reflexivity.
Qed.

End VarOrders_facts.

Section VarOrders_loop.

Variable width : Z.
Variable mesh : Mesh.

Local Abbreviation total := (foldr (fun m s => popcount width m + s) 0).

Lemma MinOrder_zero : MinOrder width 0 = 0.
Proof. unfold MinOrder. destruct (Z.to_nat width); reflexivity. Qed.

Lemma array_get_nonzero_range l i :
  array_get 0 l i <> 0 -> 0 <= i < Z.of_nat (length l).
Proof.
  unfold array_get. destruct (Z.leb_spec 0 i); [| congruence].
  intros Hnz. split; [assumption |].
  destruct (Z.ltb_spec i (Z.of_nat (length l))); [assumption |].
  rewrite nth_overflow in Hnz by lia. congruence.
Qed.

(** What one step of a pass may do: masks grow, and the flag [done] is
    either left alone or cleared together with a new order in some mask. *)
Definition step_ok (st st' : Orders) : Prop :=
  orders_grow st st' /\
  (orders_done st' = orders_done st
   \/ orders_done st' = false /\ total_orders width st < total_orders width st').

Lemma orders_grow_total st st' :
  orders_grow st st' -> total_orders width st <= total_orders width st'.
Proof.
  intros [He Hf]. unfold total_orders.
  pose proof (total_mono width _ _ He). pose proof (total_mono width _ _ Hf).
  lia.
Qed.

Lemma step_ok_refl st : step_ok st st.
Proof. split; [apply orders_grow_refl | auto]. Qed.

Lemma step_ok_trans st1 st2 st3 :
  step_ok st1 st2 -> step_ok st2 st3 -> step_ok st1 st3.
Proof.
  intros [Hg12 Hd12] [Hg23 Hd23].
  pose proof (orders_grow_total _ _ Hg12).
  pose proof (orders_grow_total _ _ Hg23).
  split; [eapply orders_grow_trans; eassumption |].
  destruct Hd23 as [-> | [-> Hlt]]; [| right; split; [reflexivity | lia]].
  destruct Hd12 as [-> | [-> Hlt]]; [auto | right; split; [reflexivity | lia]].
Qed.

Lemma fold_step_ok {A} (f : Orders -> A -> Orders) :
  (forall st x, step_ok st (f st x)) ->
  forall xs st, step_ok st (fold_left f xs st).
Proof.
  intros Hf. induction xs as [| x xs IH]; intros st; simpl;
    [apply step_ok_refl |].
  eapply step_ok_trans; [apply Hf | apply IH].
Qed.

(** A master whose minimum order is above that of its slaves gets a new
    order: the bit was not set, and it is a bit of the register. *)
Lemma master_new_bit l i min_order :
  0 <= min_order ->
  min_order < MinOrder width (array_get 0 l i) ->
  total l < total (or_into l i (order_bit width min_order)).
Proof.
  intros Hmin Hlt.
  destruct (below_MinOrder width _ _ Hmin Hlt) as [Hw Hbit].
  apply (or_into_new_bit width l i _ min_order).
  - apply array_get_nonzero_range. intros Hz. rewrite Hz, MinOrder_zero in Hlt.
    lia.
  - lia.
  - exact Hbit.
  - apply order_bit_set. lia.
Qed.

Lemma propagate_edge_master_ok st master :
  step_ok st (propagate_edge_master width mesh st master).
Proof.
  unfold propagate_edge_master.
  set (min_order := MinOrder width _).
  destruct (Z.ltb_spec min_order
              (MinOrder width
                 (array_get 0 (edge_orders st) (master_index master))))
    as [Hlt | Hge]; [| apply step_ok_refl].
  split.
  - split; simpl; [apply or_into_grows | apply masks_le_refl].
  - right. split; [reflexivity |]. unfold total_orders. simpl.
    assert (Hnew : total (edge_orders st)
                   < total (or_into (edge_orders st) (master_index master)
                              (order_bit width min_order))).
    { apply master_new_bit; [apply MinOrder_nonneg | exact Hlt]. }
    lia.
Qed.

Lemma propagate_face_master_ok st master :
  step_ok st (propagate_face_master width mesh st master).
Proof.
  unfold propagate_face_master.
  set (min_order := MinOrder width _).
  destruct (Z.ltb_spec min_order
              (MinOrder width
                 (array_get 0 (face_orders st) (master_index master))))
    as [Hlt | Hge]; [| apply step_ok_refl].
  split.
  - split; simpl; [apply masks_le_refl | apply or_into_grows].
  - right. split; [reflexivity |]. unfold total_orders. simpl.
    assert (Hnew : total (face_orders st)
                   < total (or_into (face_orders st) (master_index master)
                              (order_bit width min_order))).
    { apply master_new_bit; [apply MinOrder_nonneg | exact Hlt]. }
    lia.
Qed.

Lemma push_face_to_edges_ok st i : step_ok st (push_face_to_edges mesh st i).
Proof.
  split; [| left; reflexivity].
  split; simpl; [| apply masks_le_refl].
  apply (fold_or_into_grows (fun _ => array_get 0 (face_orders st) i)).
Qed.

(** One pass: masks only grow; the pass ends the loop ([done] stays set)
    unless it gave some mask a new order. *)
Lemma propagate_pass_ok st :
  orders_grow st (propagate_pass width mesh st) /\
  (orders_done (propagate_pass width mesh st) = true
   \/ orders_done (propagate_pass width mesh st) = false /\
      total_orders width st < total_orders width (propagate_pass width mesh st)).
Proof.
  unfold propagate_pass.
  set (st0 := {| edge_orders := edge_orders st; face_orders := face_orders st;
                 orders_done := true |}).
  assert (Hok : step_ok st0
    (fold_left (push_face_to_edges mesh) (seqZ 0 (GetNFaces mesh))
       (fold_left (propagate_face_master width mesh)
          (masters (GetFaceList mesh))
          (fold_left (propagate_edge_master width mesh)
             (masters (GetEdgeList mesh)) st0)))).
  { eapply step_ok_trans;
      [apply (fold_step_ok (propagate_edge_master width mesh)),
         propagate_edge_master_ok |].
    eapply step_ok_trans;
      [apply (fold_step_ok (propagate_face_master width mesh)),
         propagate_face_master_ok |].
    apply (fold_step_ok (push_face_to_edges mesh)), push_face_to_edges_ok. }
  destruct Hok as [Hgrow Hdone]. split; [exact Hgrow |].
  destruct Hdone as [-> | Hnew]; [left; reflexivity | right; exact Hnew].
Qed.

(** The number of orders the masks of a state can hold at most. *)
Definition capacity (st : Orders) : Z :=
  (Z.of_nat (length (edge_orders st)) + Z.of_nat (length (face_orders st)))
  * Z.of_nat (Z.to_nat width).

Lemma total_orders_bound st : 0 <= total_orders width st <= capacity st.
Proof.
  unfold total_orders, capacity.
  pose proof (total_bound width (edge_orders st)).
  pose proof (total_bound width (face_orders st)). nia.
Qed.

Lemma orders_grow_capacity st st' :
  orders_grow st st' -> capacity st' = capacity st.
Proof.
  intros [He Hf]. unfold capacity.
  apply Forall2_length in He. apply Forall2_length in Hf. congruence.
Qed.

Lemma propagate_loop_mono fuel : forall st r fuel',
  propagate_loop width mesh fuel st = Some r -> (fuel <= fuel')%nat ->
  propagate_loop width mesh fuel' st = Some r.
Proof.
  induction fuel as [| fuel IH]; intros st r fuel' Hrun Hle; [discriminate |].
  destruct fuel' as [| fuel']; [lia |]. simpl in *.
  destruct (orders_done (propagate_pass width mesh st)); [assumption |].
  apply IH; [assumption | lia].
Qed.

Lemma propagate_loop_terminates fuel : forall st,
  capacity st - total_orders width st < Z.of_nat fuel ->
  exists st',
    propagate_loop width mesh fuel st = Some st' /\
    orders_grow st st' /\ orders_done st' = true.
Proof.
  induction fuel as [| fuel IH]; intros st Hfuel.
  - pose proof (total_orders_bound st). lia.
  - simpl. destruct (propagate_pass_ok st) as [Hgrow [Hdone | [Hdone Hlt]]];
      rewrite Hdone.
    + eexists. split; [reflexivity |]. split; assumption.
    + destruct (IH (propagate_pass width mesh st)) as (st' & Hrun & Hg & Hd).
      { rewrite (orders_grow_capacity _ _ Hgrow). lia. }
      exists st'. split; [assumption |]. split; [| assumption].
      eapply orders_grow_trans; eassumption.
Qed.

End VarOrders_loop.

Lemma filter_length_lt_witness {A} (P Q : A -> Prop)
  `{forall x, Decision (P x)} `{forall x, Decision (Q x)} (l : list A) :
  (length (filter P l) < length (filter Q l))%nat ->
  exists x, x ∈ l /\ Q x /\ ~ P x.
Proof.
  induction l as [| y l IH]; [simpl; lia |].
  rewrite !filter_cons. intros Hlt.
  destruct (decide (Q y)) as [HQ | HQ]; destruct (decide (P y)) as [HP | HP];
    simpl in Hlt.
  - destruct IH as (x & Hx & Hq & Hp); [lia |].
    exists x. rewrite elem_of_cons. auto.
  - exists y. rewrite elem_of_cons. auto.
  - destruct IH as (x & Hx & Hq & Hp); [lia |].
    exists x. rewrite elem_of_cons. auto.
  - destruct IH as (x & Hx & Hq & Hp); [lia |].
    exists x. rewrite elem_of_cons. auto.
Qed.

Section VarOrders_termination.

Variable width : Z.
Variable mesh : Mesh.

Local Abbreviation total := (foldr (fun m s => popcount width m + s) 0).

(** Array [l'] holds, at some index, an order that [l] does not hold
    there. *)
Definition gains_order (l l' : list Z) : Prop :=
  exists i k,
    0 <= i < Z.of_nat (length l) /\ 0 <= k < width /\
    Z.testbit (array_get 0 l i) k = false /\
    Z.testbit (array_get 0 l' i) k = true.

Lemma popcount_lt_new_bit a b :
  popcount width a < popcount width b ->
  exists k, 0 <= k < width /\ Z.testbit a k = false /\ Z.testbit b k = true.
Proof.
  unfold popcount. intros Hlt.
  destruct (filter_length_lt_witness
              (fun k => Z.testbit a k = true) (fun k => Z.testbit b k = true)
              (seqZ 0 width)) as (k & Hk & Hb & Ha); [lia |].
  apply elem_of_seqZ in Hk. exists k.
  split; [lia |]. split; [| assumption].
  destruct (Z.testbit a k); [contradiction | reflexivity].
Qed.

Lemma total_lt_gains l : forall l',
  Forall2 mask_le l l' -> total l < total l' -> gains_order l l'.
Proof.
  induction l as [| a l IH]; intros l' Hle Hlt; inversion Hle; subst; simpl in *;
    [lia |].
  destruct (Z_lt_le_dec (popcount width a) (popcount width y)) as [Hhead | Hhead].
  - destruct (popcount_lt_new_bit a y Hhead) as (k & Hk & Ha & Hy).
    exists 0, k. simpl. repeat split; try assumption; lia.
  - destruct (IH l'0 H3) as (i & k & Hi & Hk & Ha & Hb); [lia |].
    exists (i + 1), k.
    assert (Hshift : forall (d x : Z) (t : list Z),
              array_get d (x :: t) (i + 1) = array_get d t i).
    { intros d x t. unfold array_get.
      destruct (Z.leb_spec 0 i); [| lia].
      destruct (Z.leb_spec 0 (i + 1)); [| lia].
      replace (Z.to_nat (i + 1)) with (S (Z.to_nat i)) by lia. reflexivity. }
    rewrite !Hshift. simpl length. repeat split; try assumption; lia.
Qed.

Lemma initial_orders_capacity elem_order :
  capacity width (initial_orders width mesh elem_order)
  = (Z.of_nat (Z.to_nat (GetNEdges mesh)) + Z.of_nat (Z.to_nat (GetNFaces mesh)))
    * Z.of_nat (Z.to_nat width).
Proof.
  unfold initial_orders.
  set (st0 := {| edge_orders := replicate (Z.to_nat (GetNEdges mesh)) 0;
                 face_orders := replicate (Z.to_nat (GetNFaces mesh)) 0;
                 orders_done := false |}).
  assert (Hgrow : forall xs st,
            orders_grow st
              (fold_left (init_element_orders width mesh elem_order) xs st)).
  { induction xs as [| i xs IH]; intros st; simpl; [apply orders_grow_refl |].
    eapply orders_grow_trans; [| apply IH].
    unfold init_element_orders. split; simpl.
    - apply (fold_or_into_grows
               (fun _ => order_bit width (array_get 0 elem_order i))).
    - destruct (2 <? Dimension mesh); [| apply masks_le_refl].
      apply (fold_or_into_grows
               (fun _ => order_bit width (array_get 0 elem_order i))). }
  rewrite (orders_grow_capacity width _ _ (Hgrow _ st0)).
  unfold capacity, st0. simpl. rewrite !length_replicate. reflexivity.
Qed.

(** C4. The order-mask propagation loop of [CalcEdgeFaceVarOrders]
    terminates, for every mesh and per-element order assignment.  In each
    pass of the do-while the masks only grow; a pass either leaves the flag
    [done] set, and then the loop exits, or it gave some edge or face mask an
    order it did not hold before; a pass that changes no mask exits.  Since
    every mask holds at most [width] orders, more passes than there are bits
    in all masks always reach the end, with the same result. *)
Theorem CalcEdgeFaceVarOrders_terminates (fes : FiniteElementSpace) :
  (forall st,
     orders_grow st (propagate_pass width mesh st) /\
     (orders_done (propagate_pass width mesh st) = true
      \/ orders_done (propagate_pass width mesh st) = false /\
         (gains_order (edge_orders st)
            (edge_orders (propagate_pass width mesh st))
          \/ gains_order (face_orders st)
               (face_orders (propagate_pass width mesh st)))) /\
     (edge_orders (propagate_pass width mesh st) = edge_orders st ->
      face_orders (propagate_pass width mesh st) = face_orders st ->
      orders_done (propagate_pass width mesh st) = true) /\
     0 <= total_orders width (propagate_pass width mesh st)
       <= (Z.of_nat (length (edge_orders st))
           + Z.of_nat (length (face_orders st))) * Z.of_nat (Z.to_nat width))
  /\
  exists r,
    forall fuel,
      ((Z.to_nat (GetNEdges mesh) + Z.to_nat (GetNFaces mesh))
       * Z.to_nat width < fuel)%nat ->
      CalcEdgeFaceVarOrders width mesh fuel fes = Some r.
Proof.
  split.
  - intros st. destruct (propagate_pass_ok width mesh st) as [Hgrow Hdone].
    split; [exact Hgrow |]. split; [| split].
    + destruct Hdone as [Hd | [Hd Hlt]]; [left; exact Hd | right].
      split; [exact Hd |]. destruct Hgrow as [He Hf].
      unfold total_orders in Hlt.
      destruct (Z_lt_le_dec (total (edge_orders st))
                  (total (edge_orders (propagate_pass width mesh st))))
        as [Hedge | Hedge].
      * left. apply total_lt_gains; assumption.
      * right. apply total_lt_gains; [assumption | lia].
    + intros Hsame_e Hsame_f.
      destruct Hdone as [Hd | [_ Hlt]]; [exact Hd |].
      unfold total_orders in Hlt. rewrite Hsame_e, Hsame_f in Hlt. lia.
    + pose proof (total_orders_bound width (propagate_pass width mesh st)) as Hb.
      rewrite (orders_grow_capacity width _ _ Hgrow) in Hb. exact Hb.
  - unfold CalcEdgeFaceVarOrders.
    set (st0 := initial_orders width mesh (elem_order fes)).
    destruct (relaxed_hp fes).
    { exists (edge_orders st0, face_orders st0). reflexivity. }
    set (bound := ((Z.to_nat (GetNEdges mesh) + Z.to_nat (GetNFaces mesh))
                   * Z.to_nat width)%nat).
    destruct (propagate_loop_terminates width mesh (S bound) st0)
      as (st' & Hrun & _ & _).
    { pose proof (total_orders_bound width st0) as Hb. unfold st0 in *.
      rewrite initial_orders_capacity in *. unfold bound. lia. }
    exists (edge_orders st', face_orders st'). intros fuel Hfuel.
    rewrite (propagate_loop_mono width mesh (S bound) st0 st' fuel Hrun)
      by (unfold bound; lia).
    reflexivity.
Qed.

End VarOrders_termination.

(** ** Entity DOF look-up: the "no such variant" result *)

Section EntityDofs_facts.

Variable mesh : Mesh.
Variable fec : FiniteElementCollection.
Variable BuildNURBSFaceToDofTable : result Table.






End EntityDofs_facts.

(** ** Update *)

(** C10. If the sequence number of the mesh equals the sequence stored in
    the space and no change of element orders is pending, [Update] returns
    at once, for either value of [want_transform] and whatever the rebuilding
    methods would do: it neither aborts nor changes the space, so [ndofs],
    the per-entity DOF counts and tables, the cached conforming operators
    and the stored sequence are the ones from before the call. *)
Theorem Update_in_sync_is_noop
  (UpdateNURBS UpdateElementOrders : FiniteElementSpace -> result FiniteElementSpace)
  (Destroy : FiniteElementSpace -> FiniteElementSpace)
  (Construct : FiniteElementSpace -> result FiniteElementSpace)
  (BuildElementToDofTable : FiniteElementSpace -> FiniteElementSpace)
  (build_transformation :
     FiniteElementSpace -> option Table -> Z -> result FiniteElementSpace)
  (mesh : Mesh) (want_transform : bool) (fes : FiniteElementSpace) :
  GetSequence mesh = sequence fes ->
  orders_changed fes = false ->
  exists fes',
    Update UpdateNURBS UpdateElementOrders Destroy Construct
      BuildElementToDofTable build_transformation mesh want_transform fes
    = Normal fes' /\
    fes' = fes /\
    ndofs fes' = ndofs fes /\
    (nvdofs fes', nedofs fes', nfdofs fes', nbdofs fes')
    = (nvdofs fes, nedofs fes, nfdofs fes, nbdofs fes) /\
    (var_edge_dofs fes', var_face_dofs fes', elem_dof fes', face_dof fes')
    = (var_edge_dofs fes, var_face_dofs fes, elem_dof fes, face_dof fes) /\
    (cP fes', cR fes', cQ fes', cP_is_set fes')
    = (cP fes, cR fes, cQ fes, cP_is_set fes) /\
    sequence fes' = sequence fes.
Proof.
  intros Hseq Hord. exists fes. unfold Update.
  rewrite Hseq, Z.eqb_refl, Hord. simpl.
  repeat split; reflexivity.
Qed.

(** Outside that case [Update] does rebuild: with a newer mesh the stored
    sequence is moved on. *)
Example Update_out_of_sync :
  (fes ← Update Normal Normal (fun fes => fes) Normal (fun fes => fes)
           (fun fes _ _ => Normal fes) (empty_mesh 1) false three_dof_space;
   Normal (sequence fes))
  = Normal 1.
Proof. reflexivity. Qed.

Lemma Update_in_sync_is_noop_witness :
  Update Normal Aborted_everywhere (fun fes => fes) Aborted_everywhere
    (fun fes => fes) (fun _ _ _ => Aborted) (empty_mesh 0) true
    three_dof_space
  = Normal three_dof_space.
Proof.
  destruct (Update_in_sync_is_noop Normal Aborted_everywhere (fun fes => fes)
              Aborted_everywhere (fun fes => fes) (fun _ _ _ => Aborted)
              (empty_mesh 0) true three_dof_space)
    as (fes' & Hrun & -> & _); [reflexivity | reflexivity |].
  exact Hrun.
Defined.

(** ** The refinement operator: Mult and MultTranspose *)

Section Sums.

Context {R : Type} `{ScalarRing R}.

Add Ring scalar_ring_inst : scalar_ring.

Local Notation "a ⊕ b" := (s_add a b) (at level 50, left associativity).
Local Notation "a ⊗ b" := (s_mul a b) (at level 40, left associativity).
Local Notation "a ⊖ b" := (s_sub a b) (at level 50, left associativity).

Lemma s_sum_app (l1 l2 : list R) : s_sum (l1 ++ l2) = s_sum l1 ⊕ s_sum l2.
Proof.
  induction l1 as [| a l1 IH]; simpl; [ring | rewrite IH; ring].
Qed.

Lemma s_sum_map_ext {A} (f g : A -> R) (l : list A) :
  (forall a, a ∈ l -> f a = g a) -> s_sum (map f l) = s_sum (map g l).
Proof.
  induction l as [| a l IH]; intros Hfg; simpl; [reflexivity |].
  rewrite (Hfg a) by (apply elem_of_cons; auto).
  rewrite IH; [reflexivity |]. intros b Hb. apply Hfg, elem_of_cons. auto.
Qed.

Lemma s_sum_map_add {A} (f g : A -> R) (l : list A) :
  s_sum (map (fun a => f a ⊕ g a) l) = s_sum (map f l) ⊕ s_sum (map g l).
Proof.
  induction l as [| a l IH]; simpl; [ring | rewrite IH; ring].
Qed.

Lemma s_sum_map_mul_l {A} (c : R) (f : A -> R) (l : list A) :
  s_sum (map (fun a => c ⊗ f a) l) = c ⊗ s_sum (map f l).
Proof.
  induction l as [| a l IH]; simpl; [ring | rewrite IH; ring].
Qed.

Lemma s_sum_map_zero {A} (l : list A) :
  s_sum (map (fun _ => s_zero) l) = s_zero.
Proof. induction l as [| a l IH]; simpl; [reflexivity | rewrite IH; ring]. Qed.

Lemma s_sum_exchange {A B} (f : A -> B -> R) (l1 : list A) (l2 : list B) :
  s_sum (map (fun a => s_sum (map (fun b => f a b) l2)) l1) =
  s_sum (map (fun b => s_sum (map (fun a => f a b) l1)) l2).
Proof.
  induction l1 as [| a l1 IH]; simpl.
  - rewrite s_sum_map_zero. reflexivity.
  - rewrite IH, <- s_sum_map_add. reflexivity.
Qed.

Lemma s_sum_flat_map {A B} (f : A -> list B) (g : B -> R) (l : list A) :
  s_sum (map g (flat_map f l)) = s_sum (map (fun a => s_sum (map g (f a))) l).
Proof.
  induction l as [| a l IH]; simpl; [reflexivity |].
  rewrite map_app, s_sum_app, IH. reflexivity.
Qed.

(** *** Inner products and single stores *)

Lemma dot_zero_l n (m : nat) (z : list R) :
  dot n (replicate m s_zero) z = s_zero.
Proof.
  unfold dot.
  transitivity (s_sum (map (fun _ : Z => s_zero) (seqZ 0 n)));
    [| apply s_sum_map_zero].
  apply s_sum_map_ext. intros i _.
  rewrite array_get_replicate by exact s_zero. ring.
Qed.

Lemma dot_zero_r n (m : nat) (x : list R) :
  dot n x (replicate m s_zero) = s_zero.
Proof.
  unfold dot.
  transitivity (s_sum (map (fun _ : Z => s_zero) (seqZ 0 n)));
    [| apply s_sum_map_zero].
  apply s_sum_map_ext. intros i _.
  rewrite array_get_replicate by exact s_zero. ring.
Qed.

Lemma dot_set_l n (y z : list R) t v :
  0 <= t < n -> Z.of_nat (length y) = n ->
  dot n (array_set y t v) z =
  dot n y z ⊕ (v ⊖ array_get s_zero y t) ⊗ array_get s_zero z t.
Proof.
  intros Ht Hlen. unfold dot.
  rewrite (seqZ_split 0 n t) by lia. rewrite !map_app, !s_sum_app. simpl.
  rewrite array_get_set_eq by lia.
  rewrite (s_sum_map_ext
             (fun i => array_get s_zero (array_set y t v) i ⊗ array_get s_zero z i)
             (fun i => array_get s_zero y i ⊗ array_get s_zero z i)
             (seqZ 0 (t - 0))).
  2: { intros i Hi. apply elem_of_seqZ in Hi.
       rewrite array_get_set_ne by lia. reflexivity. }
  rewrite (s_sum_map_ext
             (fun i => array_get s_zero (array_set y t v) i ⊗ array_get s_zero z i)
             (fun i => array_get s_zero y i ⊗ array_get s_zero z i)
             (seqZ (t + 1) (0 + n - t - 1))).
  2: { intros i Hi. apply elem_of_seqZ in Hi.
       rewrite array_get_set_ne by lia. reflexivity. }
  ring.
Qed.

Lemma dot_set_r n (x y : list R) t v :
  0 <= t < n -> Z.of_nat (length y) = n ->
  dot n x (array_set y t v) =
  dot n x y ⊕ array_get s_zero x t ⊗ (v ⊖ array_get s_zero y t).
Proof.
  intros Ht Hlen. unfold dot.
  rewrite (seqZ_split 0 n t) by lia. rewrite !map_app, !s_sum_app. simpl.
  rewrite array_get_set_eq by lia.
  rewrite (s_sum_map_ext
             (fun i => array_get s_zero x i ⊗ array_get s_zero (array_set y t v) i)
             (fun i => array_get s_zero x i ⊗ array_get s_zero y i)
             (seqZ 0 (t - 0))).
  2: { intros i Hi. apply elem_of_seqZ in Hi.
       rewrite array_get_set_ne by lia. reflexivity. }
  rewrite (s_sum_map_ext
             (fun i => array_get s_zero x i ⊗ array_get s_zero (array_set y t v) i)
             (fun i => array_get s_zero x i ⊗ array_get s_zero y i)
             (seqZ (t + 1) (0 + n - t - 1))).
  2: { intros i Hi. apply elem_of_seqZ in Hi.
       rewrite array_get_set_ne by lia. reflexivity. }
  ring.
Qed.

End Sums.

Section Stores.

Context {R : Type} `{ScalarRing R}.

Add Ring scalar_ring_stores : scalar_ring.

Local Notation "a ⊕ b" := (s_add a b) (at level 50, left associativity).
Local Notation "a ⊗ b" := (s_mul a b) (at level 40, left associativity).
Local Notation "a ⊖ b" := (s_sub a b) (at level 50, left associativity).

Lemma store_all_length (evs : list (Z * R)) : forall y,
  length (store_all evs y) = length y.
Proof.
  unfold store_all. induction evs as [| [t v] evs IH]; intros y; simpl;
    [reflexivity |].
  rewrite IH. apply array_set_length.
Qed.

Lemma store_all_app (evs1 evs2 : list (Z * R)) y :
  store_all (evs1 ++ evs2) y = store_all evs2 (store_all evs1 y).
Proof. unfold store_all. apply fold_left_app. Qed.

Lemma store_all_other (evs : list (Z * R)) t : forall y,
  t ∉ map fst evs ->
  array_get s_zero (store_all evs y) t = array_get s_zero y t.
Proof.
  unfold store_all. induction evs as [| [t' v] evs IH]; intros y Hnot; simpl;
    [reflexivity |].
  simpl in Hnot. apply not_elem_of_cons in Hnot as [Hne Hnot].
  rewrite IH by assumption. apply array_get_set_ne. congruence.
Qed.

Lemma store_all_stored (evs : list (Z * R)) t v : forall y,
  NoDup (map fst evs) -> (t, v) ∈ evs ->
  0 <= t < Z.of_nat (length y) ->
  array_get s_zero (store_all evs y) t = v.
Proof.
  induction evs as [| [t' v'] evs IH]; intros y Hnd Hin Ht.
  - apply elem_of_nil in Hin. contradiction.
  - simpl in Hnd. apply NoDup_cons in Hnd as [Hfresh Hnd].
    apply elem_of_cons in Hin as [Heq | Hin].
    + injection Heq as <- <-.
      change (store_all ((t, v) :: evs) y)
        with (store_all evs (array_set y t v)).
      rewrite store_all_other by assumption.
      apply array_get_set_eq, Ht.
    + change (store_all ((t', v') :: evs) y)
        with (store_all evs (array_set y t' v')).
      apply IH; [assumption | assumption |].
      rewrite array_set_length. exact Ht.
Qed.

Lemma store_all_dot n (z : list R) (evs : list (Z * R)) : forall y,
  NoDup (map fst evs) ->
  (forall t v, (t, v) ∈ evs -> 0 <= t < n) ->
  Z.of_nat (length y) = n ->
  dot n (store_all evs y) z =
  dot n y z
  ⊕ s_sum (map (fun '(t, v) =>
                  (v ⊖ array_get s_zero y t) ⊗ array_get s_zero z t) evs).
Proof.
  induction evs as [| [t v] evs IH]; intros y Hnd Hrange Hlen.
  - simpl. ring.
  - simpl in Hnd. apply NoDup_cons in Hnd as [Hfresh Hnd].
    change (store_all ((t, v) :: evs) y)
      with (store_all evs (array_set y t v)).
    rewrite IH; [| assumption | |].
    2: { intros t' v' Hin. apply (Hrange t' v'), elem_of_cons. auto. }
    2: { rewrite array_set_length. exact Hlen. }
    rewrite dot_set_l; [| apply (Hrange t v), elem_of_cons; auto | exact Hlen].
    simpl.
    rewrite (s_sum_map_ext
               (fun '(t0, v0) =>
                  (v0 ⊖ array_get s_zero (array_set y t v) t0)
                  ⊗ array_get s_zero z t0)
               (fun '(t0, v0) =>
                  (v0 ⊖ array_get s_zero y t0) ⊗ array_get s_zero z t0) evs).
    2: { intros [t' v'] Hin. rewrite array_get_set_ne; [reflexivity |].
         intros ->. apply Hfresh.
         apply (list_elem_of_fmap_2 fst) in Hin. exact Hin. }
    ring.
Qed.

Lemma SetSubVector_stores (dofs : list Z) (sub : list R) y :
  SetSubVector y dofs sub = store_all (stores_of dofs sub) y.
Proof.
  unfold SetSubVector, stores_of, store_all.
  generalize (zip dofs sub) as l. intros l. revert y.
  induction l as [| [j v] l IH]; intros y; simpl; [reflexivity |].
  rewrite IH. f_equal. unfold Vector_set, DecodeDof.
  destruct (Z.leb_spec 0 j); destruct (Z.ltb_spec j 0); try lia; reflexivity.
Qed.

Lemma Vector_get_decode (x : list R) j :
  Vector_get x j =
  if 0 <=? j then array_get s_zero x (DecodeDof j)
  else s_opp (array_get s_zero x (DecodeDof j)).
Proof.
  unfold Vector_get, DecodeDof.
  destruct (Z.leb_spec 0 j); destruct (Z.ltb_spec j 0); try lia; reflexivity.
Qed.

Lemma Vector_add_length (y : list R) j v :
  length (Vector_add y j v) = length y.
Proof. unfold Vector_add. destruct (0 <=? j); apply array_set_length. Qed.

Lemma Vector_add_dot n (x y : list R) j v :
  0 <= DecodeDof j < n -> Z.of_nat (length y) = n ->
  dot n x (Vector_add y j v) = dot n x y ⊕ Vector_get x j ⊗ v.
Proof.
  intros Ht Hlen. rewrite Vector_get_decode. unfold Vector_add, DecodeDof in *.
  destruct (Z.leb_spec 0 j); destruct (Z.ltb_spec j 0); try lia;
    rewrite dot_set_r by assumption; ring.
Qed.

Lemma AddElementVector_length (dofs : list Z) (sub : list R) : forall y,
  length (AddElementVector y dofs sub) = length y.
Proof.
  unfold AddElementVector. generalize (zip dofs sub) as l.
  induction l as [| [j v] l IH]; intros y; simpl; [reflexivity |].
  rewrite IH. apply Vector_add_length.
Qed.

Lemma AddElementVector_dot n (x : list R) (dofs : list Z) (sub : list R) :
  forall y,
  (forall j, j ∈ dofs -> 0 <= DecodeDof j < n) ->
  Z.of_nat (length y) = n ->
  dot n x (AddElementVector y dofs sub) =
  dot n x y ⊕ s_sum (map (fun '(j, v) => Vector_get x j ⊗ v) (zip dofs sub)).
Proof.
  unfold AddElementVector. intros y Hrange.
  assert (Hzip : forall j v, (j, v) ∈ zip dofs sub -> 0 <= DecodeDof j < n).
  { intros j v Hin. apply Hrange. eapply elem_of_zip_l. exact Hin. }
  clear Hrange. revert y Hzip. generalize (zip dofs sub) as l.
  induction l as [| [j v] l IH]; intros y Hzip Hlen; simpl; [ring |].
  rewrite IH.
  - rewrite Vector_add_dot; [ring | | exact Hlen].
    apply (Hzip j v), elem_of_cons. auto.
  - intros j' v' Hin. apply (Hzip j' v'), elem_of_cons. auto.
  - rewrite Vector_add_length. exact Hlen.
Qed.

End Stores.

(** *** The component map on signed DOFs *)

Lemma DofsToVDofs_vdof_of fes vd dofs ndofs_arg :
  DofsToVDofs fes vd dofs ndofs_arg =
  map (vdof_of fes (if ndofs_arg <? 0 then ndofs fes else ndofs_arg) vd) dofs.
Proof.
  unfold DofsToVDofs, vdof_of. destruct (vdim fes =? 1).
  - symmetry. apply map_id.
  - destruct (ordering fes); reflexivity.
Qed.

Lemma Ordering_Map_neg o nd vdim sd vd :
  - nd <= sd < 0 -> 0 <= vd < vdim -> nd * vdim <= INT_MAX ->
  Ordering_Map o nd vdim sd vd =
    -1 - match o with
         | byNODES => (-1 - sd) + nd * vd
         | byVDIM => vd + vdim * (-1 - sd)
         end.
Proof.
  intros Hd Hv Hn. unfold Ordering_Map, int_add, int_sub, int_mul.
  destruct (Z.leb_spec 0 sd); [lia |].
  assert (0 <= nd * vd <= nd * (vdim - 1)) by nia.
  assert (0 <= vdim * (-1 - sd) <= vdim * (nd - 1)) by nia.
  destruct o.
  - rewrite (int_wrap_id (nd * vd))
      by (unfold int_range, INT_MIN, INT_MAX in *; nia).
    rewrite int_wrap_id by (unfold int_range, INT_MIN, INT_MAX in *; nia).
    lia.
  - rewrite (int_wrap_id (-1 - sd))
      by (unfold int_range, INT_MIN, INT_MAX in *; nia).
    rewrite (int_wrap_id (vdim * (-1 - sd)))
      by (unfold int_range, INT_MIN, INT_MAX in *; nia).
    rewrite (int_wrap_id (vd + _))
      by (unfold int_range, INT_MIN, INT_MAX in *; nia).
    apply int_wrap_id. unfold int_range, INT_MIN, INT_MAX in *. nia.
Qed.

Section Vdofs.

Variable fes : FiniteElementSpace.
Variable nd : Z.
Hypothesis Hlayout : layout_ok fes nd.

Lemma vdof_of_range vd d :
  0 <= vd < vdim fes -> 0 <= d < nd ->
  0 <= vdof_of fes nd vd d < nd * vdim fes.
Proof.
  destruct Hlayout as (Hv & Hn & Hmax). intros Hvd Hd. unfold vdof_of.
  destruct (Z.eqb_spec (vdim fes) 1) as [H1 | H1]; [lia |].
  rewrite Ordering_Map_nonneg by lia. destruct (ordering fes); nia.
Qed.

Lemma vdof_of_inj vd vd' d d' :
  0 <= vd < vdim fes -> 0 <= vd' < vdim fes ->
  0 <= d < nd -> 0 <= d' < nd ->
  vdof_of fes nd vd d = vdof_of fes nd vd' d' -> vd = vd' /\ d = d'.
Proof.
  destruct Hlayout as (Hv & Hn & Hmax). intros Hvd Hvd' Hd Hd'.
  unfold vdof_of.
  destruct (Z.eqb_spec (vdim fes) 1) as [H1 | H1]; [lia |].
  rewrite !Ordering_Map_nonneg by lia.
  assert (Hdiv : forall a b q q' m,
            0 <= a < m -> 0 <= b < m -> a + m * q = b + m * q' ->
            q = q' /\ a = b).
  { intros a b q q' m Ha Hb Heq.
    assert (Hq : q = q').
    { destruct (Z.lt_trichotomy q q') as [Hlt | [Heq' | Hgt]];
        [exfalso | assumption | exfalso].
      - assert (m * q' - m * q >= m) by nia. lia.
      - assert (m * q - m * q' >= m) by nia. lia. }
    subst q'. lia. }
  destruct (ordering fes); intros Heq.
  - destruct (Hdiv d d' vd vd' nd Hd Hd' Heq). auto.
  - destruct (Hdiv vd vd' d d' (vdim fes) Hvd Hvd' Heq). auto.
Qed.

Lemma vdof_of_flipped vd sd :
  0 <= vd < vdim fes -> - nd <= sd < 0 ->
  vdof_of fes nd vd sd = -1 - vdof_of fes nd vd (-1 - sd).
Proof.
  destruct Hlayout as (Hv & Hn & Hmax). intros Hvd Hsd. unfold vdof_of.
  destruct (Z.eqb_spec (vdim fes) 1) as [H1 | H1]; [lia |].
  rewrite Ordering_Map_neg by lia.
  rewrite Ordering_Map_nonneg by lia. destruct (ordering fes); reflexivity.
Qed.

Lemma signed_dof_decode sd :
  - nd <= sd < nd ->
  0 <= DecodeDof sd < nd /\
  (sd < 0 -> DecodeDof sd = -1 - sd) /\ (0 <= sd -> DecodeDof sd = sd).
Proof.
  destruct Hlayout as (Hv & Hn & Hmax). intros Hsd.
  assert (nd <= INT_MAX) by nia.
  destruct (Z.ltb_spec sd 0) as [Hneg | Hpos].
  - rewrite DecodeDof_neg by (unfold INT_MIN, INT_MAX in *; lia). lia.
  - rewrite DecodeDof_nonneg by lia. lia.
Qed.

(** The image of a signed DOF keeps the sign, and it decodes to the image of
    the decoded DOF. *)
Lemma vdof_of_decode vd sd :
  0 <= vd < vdim fes -> - nd <= sd < nd ->
  (0 <=? vdof_of fes nd vd sd) = (0 <=? sd) /\
  DecodeDof (vdof_of fes nd vd sd) = vdof_of fes nd vd (DecodeDof sd) /\
  0 <= DecodeDof (vdof_of fes nd vd sd) < nd * vdim fes.
Proof.
  intros Hvd Hsd. destruct (signed_dof_decode sd Hsd) as (Hdec & Hneg & Hpos).
  pose proof (vdof_of_range vd (DecodeDof sd) Hvd Hdec) as Hrange.
  destruct Hlayout as (Hv & Hn & Hmax).
  destruct (Z.leb_spec 0 sd) as [Hs | Hs].
  - rewrite Hpos in * by assumption.
    rewrite DecodeDof_nonneg by lia.
    split; [apply Z.leb_le; lia |]. split; [reflexivity | lia].
  - rewrite Hneg in * by assumption.
    rewrite vdof_of_flipped by lia.
    rewrite DecodeDof_neg by (unfold INT_MIN, INT_MAX in *; lia).
    split; [apply Z.leb_gt; lia |]. split; lia.
Qed.

End Vdofs.

(** *** Arrays as maps over their index range *)

Lemma array_get_map_seqZ {A} (d : A) (f : Z -> A) n i :
  0 <= i < n -> array_get d (map f (seqZ 0 n)) i = f i.
Proof.
  intros Hi. unfold array_get. destruct (Z.leb_spec 0 i); [| lia].
  apply nth_lookup_Some with (d := d).
  change (map f (seqZ 0 n)) with (f <$> seqZ 0 n).
  rewrite list_lookup_fmap, lookup_seqZ_lt by lia. simpl.
  rewrite Z2Nat.id by lia. reflexivity.
Qed.

Lemma list_as_seqZ_map {A} (d : A) (l : list A) :
  l = map (array_get d l) (seqZ 0 (Z.of_nat (length l))).
Proof.
  induction l as [| a l IH] using rev_ind; [reflexivity |].
  rewrite length_app. simpl length.
  replace (Z.of_nat (length l + 1)) with (Z.of_nat (length l) + 1) by lia.
  rewrite seqZ_snoc, map_app by lia. simpl. f_equal.
  - rewrite IH at 1. apply map_ext_in. intros i Hi.
    apply list_elem_of_In, elem_of_seqZ in Hi.
    unfold array_get. destruct (Z.leb_spec 0 i); [| lia].
    rewrite app_nth1 by lia. reflexivity.
  - f_equal. unfold array_get.
    destruct (Z.leb_spec 0 (Z.of_nat (length l))); [| lia].
    rewrite Nat2Z.id, nth_middle. reflexivity.
Qed.

Lemma zip_map_same {A B C} (f : A -> B) (g : A -> C) (l : list A) :
  zip (map f l) (map g l) = map (fun a => (f a, g a)) l.
Proof. induction l as [| a l IH]; simpl; [reflexivity | rewrite IH; reflexivity]. Qed.

Lemma NoDup_flat_map_inj (g : Z -> Z -> Z) (vds D : list Z) :
  NoDup vds -> NoDup D ->
  (forall vd vd' d d', vd ∈ vds -> vd' ∈ vds -> d ∈ D -> d' ∈ D ->
     g vd d = g vd' d' -> vd = vd' /\ d = d') ->
  NoDup (flat_map (fun vd => map (g vd) D) vds).
Proof.
  intros Hvds HD Hinj. induction vds as [| vd vds IH]; simpl; [constructor |].
  apply NoDup_cons in Hvds as [Hfresh Hvds].
  apply NoDup_app. split; [| split].
  - apply (NoDup_fmap_2_strong (g vd)); [| exact HD].
    intros d d' Hd Hd' Heq.
    apply (Hinj vd vd d d'); try assumption; apply elem_of_cons; auto.
  - intros t Ht Ht'. apply list_elem_of_fmap in Ht as (d & -> & Hd).
    apply list_elem_of_In, in_flat_map in Ht' as (vd' & Hvd' & Ht').
    apply list_elem_of_In in Hvd'.
    apply list_elem_of_In, list_elem_of_fmap in Ht' as (d' & Heq & Hd').
    destruct (Hinj vd vd' d d') as [-> _]; try assumption;
      try (apply elem_of_cons; auto). contradiction.
  - apply IH; [assumption |].
    intros v v' d d' Hv Hv'. apply Hinj; apply elem_of_cons; auto.
Qed.

(** *** Stores that agree *)

Section Agreement.

Context {R : Type} `{ScalarRing R}.

Add Ring scalar_ring_agreement : scalar_ring.

Lemma stores_agree_elem (evs : list (Z * R)) t v v' :
  stores_agree evs -> (t, v) ∈ evs -> (t, v') ∈ evs -> v = v'.
Proof.
  induction evs as [| [t0 v0] evs IH]; intros Hagree Hin Hin'.
  - apply elem_of_nil in Hin. contradiction.
  - destruct Hagree as [Hhead Hagree]. rewrite Forall_forall in Hhead.
    apply elem_of_cons in Hin as [Heq | Hin];
      apply elem_of_cons in Hin' as [Heq' | Hin'].
    + congruence.
    + injection Heq as -> ->.
      symmetry. exact (Hhead (t0, v') Hin' eq_refl).
    + injection Heq' as -> ->.
      exact (Hhead (t0, v) Hin eq_refl).
    + exact (IH Hagree Hin Hin').
Qed.

(** After a run of stores an entry holds what it held before, if no store
    went to it, and the value of one of the stores to it otherwise. *)
Lemma store_all_last (evs : list (Z * R)) y t :
  0 <= t < Z.of_nat (length y) ->
  ((t ∉ map fst evs) /\
   array_get s_zero (store_all evs y) t = array_get s_zero y t)
  \/ (exists v, (t, v) ∈ evs /\ array_get s_zero (store_all evs y) t = v).
Proof.
  intros Ht. induction evs as [| [t' v'] evs IH] using rev_ind.
  - left. split; [apply not_elem_of_nil | reflexivity].
  - rewrite store_all_app.
    change (store_all [(t', v')] (store_all evs y))
      with (array_set (store_all evs y) t' v').
    destruct (decide (t' = t)) as [-> | Hne].
    + right. exists v'. split; [apply elem_of_app; right; apply list_elem_of_singleton; reflexivity |].
      apply array_get_set_eq. rewrite store_all_length. exact Ht.
    + rewrite array_get_set_ne by exact Hne.
      destruct IH as [[Hnot Hget] | (v & Hin & Hget)].
      * left. split; [| exact Hget].
        rewrite map_app. intros Hin. apply elem_of_app in Hin as [Hin | Hin];
          [contradiction |].
        simpl in Hin. apply list_elem_of_singleton in Hin. congruence.
      * right. exists v. split; [apply elem_of_app; left; exact Hin | exact Hget].
Qed.

(** A loop whose every step adds [delta vd] to the inner product with [x]. *)
Lemma fold_dot_sum {A} n (x : list R) (step : list R -> A -> list R)
  (delta : A -> R) (l : list A) : forall acc,
  (forall vd acc, vd ∈ l -> Z.of_nat (length acc) = n ->
     Z.of_nat (length (step acc vd)) = n /\
     dot n x (step acc vd) = s_add (dot n x acc) (delta vd)) ->
  Z.of_nat (length acc) = n ->
  Z.of_nat (length (fold_left step l acc)) = n /\
  dot n x (fold_left step l acc) = s_add (dot n x acc) (s_sum (map delta l)).
Proof.
  induction l as [| a l IH]; intros acc Hstep Hlen; simpl.
  - split; [exact Hlen | ring].
  - destruct (Hstep a acc) as [Hlen' Hdot];
      [apply elem_of_cons; left; reflexivity | exact Hlen |].
    destruct (IH (step acc a)) as [Hlen'' Hdot''];
      [intros vd acc' Hvd; apply Hstep, elem_of_cons; right; exact Hvd
      | exact Hlen' |].
    split; [exact Hlen'' |]. rewrite Hdot'', Hdot. ring.
Qed.

End Agreement.

(** *** The loops over the positions of an element, by index *)

Lemma array_get_map {A B} (d : B) (d' : A) (f : A -> B) (l : list A) i :
  0 <= i < Z.of_nat (length l) ->
  array_get d (map f l) i = f (array_get d' l i).
Proof.
  intros Hi. unfold array_get. destruct (Z.leb_spec 0 i); [| lia].
  rewrite (nth_indep _ d (f d')) by (rewrite length_map; lia).
  apply map_nth.
Qed.

Lemma array_get_elem {A} (d : A) (l : list A) i :
  0 <= i < Z.of_nat (length l) -> array_get d l i ∈ l.
Proof.
  intros Hi. unfold array_get. destruct (Z.leb_spec 0 i); [| lia].
  apply list_elem_of_In, nth_In. lia.
Qed.


Section Positions.

Context {R : Type} `{ScalarRing R}.

Add Ring scalar_ring_positions : scalar_ring.

Lemma stores_of_index (g : Z -> Z) (Fl : list Z) (Yf : Z -> R) :
  stores_of (map g Fl) (map Yf (seqZ 0 (Z.of_nat (length Fl)))) =
  map (fun p => (DecodeDof (g (array_get 0 Fl p)),
                 if 0 <=? g (array_get 0 Fl p) then Yf p else s_opp (Yf p)))
    (seqZ 0 (Z.of_nat (length Fl))).
Proof.
  transitivity
    (stores_of (map g (map (array_get 0 Fl) (seqZ 0 (Z.of_nat (length Fl)))))
       (map Yf (seqZ 0 (Z.of_nat (length Fl))))).
  - rewrite <- (list_as_seqZ_map 0 Fl). reflexivity.
  - unfold stores_of. rewrite map_map, zip_map_same, map_map. reflexivity.
Qed.

Lemma zero_processed_index (processed : list bool) (g : Z -> Z)
  (Fl : list Z) (z : list R) :
  zero_processed processed Fl (GetSubVector z (map g Fl)) =
  map (fun p => if array_get false processed (DecodeDof (array_get 0 Fl p))
                then s_zero else Vector_get z (g (array_get 0 Fl p)))
    (seqZ 0 (Z.of_nat (length Fl))).
Proof.
  transitivity
    (zero_processed processed
       (map (array_get 0 Fl) (seqZ 0 (Z.of_nat (length Fl))))
       (GetSubVector z
          (map g (map (array_get 0 Fl) (seqZ 0 (Z.of_nat (length Fl))))))).
  - rewrite <- (list_as_seqZ_map 0 Fl). reflexivity.
  - unfold zero_processed, GetSubVector.
    rewrite !map_map, zip_map_same, map_map. reflexivity.
Qed.

Lemma sum_zip_index (g : Z -> Z) (Cl : list Z) (sY : Z -> R) (x : list R) :
  s_sum (map (fun '(j, v) => s_mul (Vector_get x j) v)
           (zip (map g Cl) (map sY (seqZ 0 (Z.of_nat (length Cl)))))) =
  s_sum (map (fun q => s_mul (Vector_get x (g (array_get 0 Cl q))) (sY q))
           (seqZ 0 (Z.of_nat (length Cl)))).
Proof.
  transitivity
    (s_sum (map (fun '(j, v) => s_mul (Vector_get x j) v)
              (zip (map g (map (array_get 0 Cl)
                             (seqZ 0 (Z.of_nat (length Cl)))))
                 (map sY (seqZ 0 (Z.of_nat (length Cl))))))).
  - rewrite <- (list_as_seqZ_map 0 Cl). reflexivity.
  - rewrite map_map, zip_map_same, map_map. reflexivity.
Qed.

(** The transposed local product paired with the gathered coarse values is
    the local product paired with the fine values. *)
Lemma local_transpose_sum (e : Z -> Z -> R) (xq m : Z -> R) (h w : Z) :
  s_sum (map (fun q => s_mul (xq q)
                         (s_sum (map (fun p => s_mul (e p q) (m p))
                                   (seqZ 0 h))))
           (seqZ 0 w)) =
  s_sum (map (fun p => s_mul (m p)
                         (s_sum (map (fun q => s_mul (e p q) (xq q))
                                   (seqZ 0 w))))
           (seqZ 0 h)).
Proof.
  transitivity
    (s_sum (map (fun q => s_sum (map (fun p => s_mul (xq q) (s_mul (e p q) (m p)))
                                   (seqZ 0 h)))
              (seqZ 0 w))).
  - apply s_sum_map_ext. intros q _. symmetry. apply s_sum_map_mul_l.
  - rewrite s_sum_exchange. apply s_sum_map_ext. intros p _.
    rewrite <- s_sum_map_mul_l. apply s_sum_map_ext. intros q _. ring.
Qed.

End Positions.

(** *** [Mult] and [MultTranspose], element by element *)

Section Adjoint.

Context {R : Type} `{ScalarRing R}.

Add Ring scalar_ring_adjoint : scalar_ring.

Variable fespace : FiniteElementSpace.
Variable mesh : Mesh.
Variable GetElementDofs : Z -> list Z.
Variable GetElementBaseGeometry : Z -> Geometry.
Variable old_elem_dof : Table.
Variable localP : Geometry -> Z -> LocalMatrix (R := R).
Variable width : Z.

Hypothesis Hok :
  refinement_ok fespace mesh GetElementDofs GetElementBaseGeometry
    old_elem_dof localP width.

Local Abbreviation nd := (ndofs fespace).
Local Abbreviation ndc := (old_ndofs fespace width).
Local Abbreviation lP := (element_lP mesh GetElementBaseGeometry localP).
Local Abbreviation Cd := (coarse_dofs mesh old_elem_dof).
Local Abbreviation Fd := GetElementDofs.
Local Abbreviation fdof k p := (array_get 0 (Fd k) p).
Local Abbreviation sgn sd v := (if 0 <=? sd then v else s_opp v).
Local Abbreviation Yv x k vd p :=
  (s_sum (map (fun q => s_mul (entry (lP k) p q)
                          (Vector_get x (vdof_of fespace ndc vd
                                           (array_get 0 (Cd k) q))))
            (seqZ 0 (Width (lP k))))).
Local Abbreviation cstores :=
  (component_stores fespace mesh GetElementDofs GetElementBaseGeometry
     old_elem_dof localP width).
Local Abbreviation estores :=
  (element_stores fespace mesh GetElementDofs GetElementBaseGeometry
     old_elem_dof localP width).
Local Abbreviation stores_upto :=
  (Mult_stores_upto fespace mesh GetElementDofs GetElementBaseGeometry
     old_elem_dof localP width).

Lemma old_ndofs_nonneg : 0 <= ndc.
Proof. destruct Hok as (_ & (_ & Hc & _) & _). exact Hc. Qed.

Lemma fdof_range k p :
  0 <= k < GetNE mesh -> 0 <= p < Z.of_nat (length (Fd k)) ->
  - nd <= fdof k p < nd.
Proof.
  intros Hk Hp. destruct Hok as (_ & _ & _ & Helem).
  destruct (Helem k Hk) as (HF & _). rewrite Forall_forall in HF.
  apply HF, array_get_elem, Hp.
Qed.

Lemma component_stores_index (x : list R) k vd :
  0 <= k < GetNE mesh -> 0 <= vd < vdim fespace ->
  cstores x k vd =
  map (fun p => (vdof_of fespace nd vd (DecodeDof (fdof k p)),
                 sgn (fdof k p) (Yv x k vd p)))
    (seqZ 0 (Height (lP k))).
Proof.
  intros Hk Hvd. pose proof old_ndofs_nonneg as Hndc.
  pose proof (fun p => fdof_range k p Hk) as Hrange.
  destruct Hok as (Hfine & Hcoarse & Hwidth & Helem).
  destruct (Helem k Hk) as (HF & HFnd & HC & Hh & Hw).
  unfold component_stores. rewrite !DofsToVDofs_vdof_of.
  change (if -1 <? 0 then ndofs fespace else -1) with (ndofs fespace).
  destruct (Z.ltb_spec ndc 0) as [Hneg | _]; [lia |].
  unfold LocalMatrix_Mult. rewrite Hh, stores_of_index.
  apply map_ext_in. intros p Hp.
  apply list_elem_of_In, elem_of_seqZ in Hp.
  destruct (vdof_of_decode fespace nd Hfine vd (fdof k p) Hvd) as (Hs & Hd & _);
    [apply Hrange; lia |].
  rewrite Hs, Hd. f_equal.
  assert (s_sum
            (map (fun j => s_mul (entry (lP k) p j)
                     (array_get s_zero
                        (GetSubVector x (map (vdof_of fespace ndc vd) (Cd k))) j))
               (seqZ 0 (Width (lP k)))) = Yv x k vd p) as ->; [| reflexivity].
  apply s_sum_map_ext. intros q Hq. apply elem_of_seqZ in Hq.
  unfold GetSubVector. rewrite map_map.
  rewrite (array_get_map s_zero 0) by lia. reflexivity.
Qed.

(** What one component of one element adds to the two inner products, when
    the entries of [y] behind processed DOFs already hold the value this
    element stores and the others hold zero. *)
Lemma component_delta (x z y : list R) (processed : list bool) k vd :
  0 <= k < GetNE mesh -> 0 <= vd < vdim fespace ->
  (forall p, 0 <= p < Height (lP k) ->
     array_get s_zero y (vdof_of fespace nd vd (DecodeDof (fdof k p))) =
     if array_get false processed (DecodeDof (fdof k p))
     then sgn (fdof k p) (Yv x k vd p) else s_zero) ->
  s_sum (map (fun '(t, v) =>
                s_mul (s_sub v (array_get s_zero y t)) (array_get s_zero z t))
           (cstores x k vd)) =
  s_sum (map (fun '(j, v) => s_mul (Vector_get x j) v)
           (zip (DofsToVDofs fespace vd (Cd k) ndc)
              (LocalMatrix_MultTranspose (lP k)
                 (zero_processed processed (Fd k)
                    (GetSubVector z (DofsToVDofs fespace vd (Fd k) (-1))))))).
Proof.
  intros Hk Hvd Hy. pose proof old_ndofs_nonneg as Hndc.
  pose proof (fun p => fdof_range k p Hk) as Hrange.
  rewrite component_stores_index, map_map by assumption.
  destruct Hok as (Hfine & Hcoarse & Hwidth & Helem).
  destruct (Helem k Hk) as (HF & HFnd & HC & Hh & Hw).
  rewrite !DofsToVDofs_vdof_of.
  change (if -1 <? 0 then ndofs fespace else -1) with (ndofs fespace).
  destruct (Z.ltb_spec ndc 0) as [Hneg | _]; [lia |].
  unfold LocalMatrix_MultTranspose.
  rewrite zero_processed_index.
  set (m := fun p =>
         if array_get false processed (DecodeDof (fdof k p))
         then s_zero else Vector_get z (vdof_of fespace nd vd (fdof k p))).
  rewrite Hw at 1. rewrite sum_zip_index. rewrite <- Hw, <- Hh.
  transitivity
    (s_sum (map (fun q =>
                   s_mul (Vector_get x (vdof_of fespace ndc vd
                                          (array_get 0 (Cd k) q)))
                     (s_sum (map (fun p => s_mul (entry (lP k) p q) (m p))
                               (seqZ 0 (Height (lP k))))))
              (seqZ 0 (Width (lP k))))).
  2: { apply s_sum_map_ext. intros q _. f_equal.
       apply s_sum_map_ext. intros p Hp. apply elem_of_seqZ in Hp.
       rewrite array_get_map_seqZ by lia. reflexivity. }
  rewrite local_transpose_sum.
  apply s_sum_map_ext. intros p Hp. apply elem_of_seqZ in Hp.
  rewrite Hy by lia. unfold m.
  destruct (vdof_of_decode fespace nd Hfine vd (fdof k p) Hvd) as (Hs & Hd & _);
    [apply Hrange; lia |].
  rewrite Vector_get_decode, Hs, Hd.
  destruct (array_get false processed (DecodeDof (fdof k p)));
    destruct (0 <=? fdof k p); ring.
Qed.

Lemma map_fst_flat_map_in {A B C} (f : A -> list (B * C)) (g : A -> list B)
  (l : list A) :
  (forall a, a ∈ l -> map fst (f a) = g a) ->
  map fst (flat_map f l) = flat_map g l.
Proof.
  induction l as [| a l IH]; intros Hfg; simpl; [reflexivity |].
  rewrite map_app, Hfg by (apply elem_of_cons; left; reflexivity).
  rewrite IH; [reflexivity |].
  intros b Hb. apply Hfg, elem_of_cons. right. exact Hb.
Qed.

Lemma component_targets (x : list R) k vd :
  0 <= k < GetNE mesh -> 0 <= vd < vdim fespace ->
  map fst (cstores x k vd) =
  map (vdof_of fespace nd vd) (map DecodeDof (Fd k)).
Proof.
  intros Hk Hvd. rewrite component_stores_index, map_map by assumption.
  destruct Hok as (_ & _ & _ & Helem).
  destruct (Helem k Hk) as (_ & _ & _ & Hh & _). rewrite Hh.
  transitivity
    (map (vdof_of fespace nd vd)
       (map DecodeDof
          (map (array_get 0 (Fd k)) (seqZ 0 (Z.of_nat (length (Fd k))))))).
  - rewrite !map_map. reflexivity.
  - rewrite <- (list_as_seqZ_map 0 (Fd k)). reflexivity.
Qed.

Lemma element_targets (x : list R) k :
  0 <= k < GetNE mesh ->
  map fst (estores x k) =
  flat_map (fun vd => map (vdof_of fespace nd vd) (map DecodeDof (Fd k)))
    (seqZ 0 (vdim fespace)).
Proof.
  intros Hk. unfold element_stores. apply map_fst_flat_map_in.
  intros vd Hvd. apply elem_of_seqZ in Hvd.
  apply component_targets; [exact Hk | lia].
Qed.

Lemma decoded_range k d :
  0 <= k < GetNE mesh -> d ∈ map DecodeDof (Fd k) -> 0 <= d < nd.
Proof.
  intros Hk Hd. destruct Hok as (Hfine & _ & _ & Helem).
  destruct (Helem k Hk) as (HF & _). rewrite Forall_forall in HF.
  apply list_elem_of_fmap in Hd as (sd & -> & Hsd).
  apply (signed_dof_decode fespace nd Hfine), HF, Hsd.
Qed.

(** The entries an element stores to: component [vd] of a DOF it lists. *)
Lemma element_target_elem (x : list R) k t :
  0 <= k < GetNE mesh ->
  t ∈ map fst (estores x k) <->
  exists vd d, 0 <= vd < vdim fespace /\ d ∈ map DecodeDof (Fd k) /\
               t = vdof_of fespace nd vd d.
Proof.
  intros Hk. rewrite element_targets by exact Hk. split.
  - intros Ht. apply list_elem_of_In, in_flat_map in Ht as (vd & Hvd & Ht).
    apply list_elem_of_In, elem_of_seqZ in Hvd.
    apply list_elem_of_In, list_elem_of_fmap in Ht as (d & -> & Hd).
    exists vd, d. split; [lia | split; [exact Hd | reflexivity]].
  - intros (vd & d & Hvd & Hd & ->).
    apply list_elem_of_In, in_flat_map. exists vd. split.
    + apply list_elem_of_In, elem_of_seqZ. lia.
    + apply list_elem_of_In, list_elem_of_fmap. exists d. split; [reflexivity | exact Hd].
Qed.

Lemma element_NoDup (x : list R) k :
  0 <= k < GetNE mesh -> NoDup (map fst (estores x k)).
Proof.
  intros Hk. rewrite element_targets by exact Hk.
  pose proof (fun d => decoded_range k d Hk) as Hrange.
  destruct Hok as (Hfine & _ & _ & Helem).
  destruct (Helem k Hk) as (_ & HFnd & _).
  apply NoDup_flat_map_inj; [apply NoDup_seqZ | exact HFnd |].
  intros vd vd' d d' Hvd Hvd' Hd Hd'.
  apply elem_of_seqZ in Hvd. apply elem_of_seqZ in Hvd'.
  apply (vdof_of_inj fespace nd Hfine); auto; lia.
Qed.

Lemma element_target_range (x : list R) k t v :
  0 <= k < GetNE mesh -> (t, v) ∈ estores x k ->
  0 <= t < nd * vdim fespace.
Proof.
  intros Hk Hin.
  assert (t ∈ map fst (estores x k)) as Ht.
  { apply list_elem_of_fmap. exists (t, v). split; [reflexivity | exact Hin]. }
  apply element_target_elem in Ht as (vd & d & Hvd & Hd & ->); [| exact Hk].
  destruct Hok as (Hfine & _).
  apply (vdof_of_range fespace nd Hfine); [exact Hvd |].
  apply (decoded_range k d Hk Hd).
Qed.

Lemma array_get_set_true (processed : list bool) i d :
  array_get false (array_set processed i true) d = true <->
  array_get false processed d = true \/
  (d = i /\ 0 <= d < Z.of_nat (length processed)).
Proof.
  destruct (decide (d = i)) as [-> | Hne].
  - destruct (decide (0 <= i < Z.of_nat (length processed))) as [Hin | Hout].
    + rewrite array_get_set_eq by exact Hin. tauto.
    + unfold array_set.
      destruct (Z.leb_spec 0 i); destruct (Z.ltb_spec i (Z.of_nat (length processed)));
        simpl; try lia; tauto.
  - rewrite array_get_set_ne by congruence. tauto.
Qed.

(** [processed[DecodeDof(f_dofs[p])] = 1] for all [p]. *)
Lemma mark_processed_spec (Fl : list Z) : forall processed d,
  array_get false
    (fold_left (fun processed sd => array_set processed (DecodeDof sd) true)
       Fl processed) d = true <->
  array_get false processed d = true \/
  (d ∈ map DecodeDof Fl /\ 0 <= d < Z.of_nat (length processed)).
Proof.
  induction Fl as [| sd Fl IH]; intros processed d; simpl.
  - rewrite elem_of_nil. tauto.
  - rewrite IH, array_get_set_true, array_set_length, elem_of_cons. tauto.
Qed.

Lemma mark_processed_length (Fl : list Z) : forall processed : list bool,
  length (fold_left (fun processed sd => array_set processed (DecodeDof sd) true)
            Fl processed) = length processed.
Proof.
  induction Fl as [| sd Fl IH]; intros processed; simpl; [reflexivity |].
  rewrite IH. apply array_set_length.
Qed.

Lemma fold_store_all {A} (step : list R -> A -> list R)
  (f : A -> list (Z * R)) (l : list A) :
  (forall y a, step y a = store_all (f a) y) ->
  forall y, fold_left step l y = store_all (flat_map f l) y.
Proof.
  intros Hstep. induction l as [| a l IH]; intros y; simpl; [reflexivity |].
  rewrite Hstep, store_all_app, IH. reflexivity.
Qed.

(** [Mult] performs the stores of [Mult_stores], oldest first. *)
Lemma Mult_as_stores (x y : list R) :
  RefinementOperator_Mult fespace mesh GetElementDofs GetElementBaseGeometry
    old_elem_dof localP width x y =
  store_all (stores_upto x (GetNE mesh)) y.
Proof.
  unfold RefinementOperator_Mult, Mult_stores_upto.
  apply fold_store_all. intros y' k. unfold element_stores.
  apply fold_store_all. intros y'' vd.
  unfold Mult_component, component_stores. apply SetSubVector_stores.
Qed.

Lemma GetVSize_val : GetVSize fespace = nd * vdim fespace.
Proof.
  destruct Hok as ((Hv & Hn & Hmax) & _). unfold GetVSize, int_mul.
  rewrite int_wrap_id; [lia |]. unfold int_range, INT_MIN, INT_MAX in *. nia.
Qed.

Local Abbreviation MT_component :=
  (MultTranspose_component fespace mesh GetElementDofs GetElementBaseGeometry
     old_elem_dof localP width).

(** What the components of one element add to [x . y] in [MultTranspose]. *)
Lemma MultTranspose_components_dot (x z acc : list R) (processed : list bool)
  k :
  0 <= k < GetNE mesh -> Z.of_nat (length acc) = width ->
  Z.of_nat (length (fold_left (MT_component z processed k)
                      (seqZ 0 (vdim fespace)) acc)) = width /\
  dot width x (fold_left (MT_component z processed k)
                 (seqZ 0 (vdim fespace)) acc) =
  s_add (dot width x acc)
    (s_sum
       (map (fun vd =>
               s_sum (map (fun '(j, v) => s_mul (Vector_get x j) v)
                        (zip (DofsToVDofs fespace vd (Cd k) ndc)
                           (LocalMatrix_MultTranspose (lP k)
                              (zero_processed processed (Fd k)
                                 (GetSubVector z
                                    (DofsToVDofs fespace vd (Fd k) (-1))))))))
          (seqZ 0 (vdim fespace)))).
Proof.
  intros Hk Hlen. pose proof old_ndofs_nonneg as Hndc.
  destruct Hok as (Hfine & Hcoarse & Hwidth & Helem).
  destruct (Helem k Hk) as (_ & _ & HC & _). rewrite Forall_forall in HC.
  apply fold_dot_sum; [| exact Hlen].
  intros vd acc' Hvd Hlen'. apply elem_of_seqZ in Hvd.
  unfold MultTranspose_component.
  split; [rewrite AddElementVector_length; exact Hlen' |].
  apply AddElementVector_dot; [| exact Hlen'].
  intros j Hj. rewrite DofsToVDofs_vdof_of in Hj.
  destruct (Z.ltb_spec ndc 0) as [Hneg | _]; [lia |].
  apply list_elem_of_fmap in Hj as (sd & -> & Hsd).
  destruct (vdof_of_decode fespace ndc Hcoarse vd sd) as (_ & _ & Hr);
    [lia | apply HC, Hsd |].
  lia.
Qed.

(** One fine element keeps the two inner products equal. *)
Lemma element_step (x z y acc : list R) (processed : list bool) k :
  0 <= k < GetNE mesh ->
  Z.of_nat (length y) = nd * vdim fespace ->
  Z.of_nat (length acc) = width ->
  (forall vd p, 0 <= vd < vdim fespace -> 0 <= p < Height (lP k) ->
     array_get s_zero y (vdof_of fespace nd vd (DecodeDof (fdof k p))) =
     if array_get false processed (DecodeDof (fdof k p))
     then sgn (fdof k p) (Yv x k vd p) else s_zero) ->
  dot (nd * vdim fespace) y z = dot width x acc ->
  dot (nd * vdim fespace) (store_all (estores x k) y) z =
  dot width x (fold_left (MT_component z processed k)
                 (seqZ 0 (vdim fespace)) acc).
Proof.
  intros Hk Hly Hlacc Hy Hdot.
  rewrite store_all_dot;
    [| apply element_NoDup, Hk
     | intros t v; apply element_target_range, Hk
     | exact Hly].
  destruct (MultTranspose_components_dot x z acc processed k Hk Hlacc)
    as [_ ->].
  rewrite Hdot. f_equal.
  unfold element_stores. rewrite s_sum_flat_map.
  apply s_sum_map_ext. intros vd Hvd. apply elem_of_seqZ in Hvd.
  apply component_delta; [exact Hk | lia |].
  intros p Hp. apply Hy; [lia | exact Hp].
Qed.

Lemma stores_upto_elem (x : list R) n k e :
  0 <= k < n -> e ∈ estores x k -> e ∈ stores_upto x n.
Proof.
  intros Hk He. apply list_elem_of_In, in_flat_map. exists k. split.
  - apply list_elem_of_In, elem_of_seqZ. lia.
  - apply list_elem_of_In, He.
Qed.

Lemma stores_upto_target (x : list R) n t :
  t ∈ map fst (stores_upto x n) <->
  exists k, 0 <= k < n /\ t ∈ map fst (estores x k).
Proof.
  split.
  - intros Ht. apply list_elem_of_fmap in Ht as (e & -> & He).
    apply list_elem_of_In, in_flat_map in He as (k & Hk & He).
    apply list_elem_of_In, elem_of_seqZ in Hk.
    exists k. split; [lia |].
    apply list_elem_of_fmap. exists e. split; [reflexivity |].
    apply list_elem_of_In, He.
  - intros (k & Hk & Ht). apply list_elem_of_fmap in Ht as (e & -> & He).
    apply list_elem_of_fmap. exists e. split; [reflexivity |].
    exact (stores_upto_elem x n k e Hk He).
Qed.

Lemma component_store_elem (x : list R) k vd p :
  0 <= k < GetNE mesh -> 0 <= vd < vdim fespace ->
  0 <= p < Height (lP k) ->
  (vdof_of fespace nd vd (DecodeDof (fdof k p)),
   sgn (fdof k p) (Yv x k vd p)) ∈ estores x k.
Proof.
  intros Hk Hvd Hp. apply list_elem_of_In, in_flat_map. exists vd. split.
  - apply list_elem_of_In, elem_of_seqZ. lia.
  - rewrite component_stores_index by assumption.
    apply list_elem_of_In, list_elem_of_fmap. exists p.
    split; [reflexivity | apply elem_of_seqZ; lia].
Qed.

(** Before element [m], the entry behind a DOF of element [m] holds what
    element [m] is about to store there if an earlier element listed the
    DOF, and zero otherwise. *)
Lemma stored_before (x : list R) (processed : list bool) m vd p :
  stores_agree (stores_upto x (GetNE mesh)) ->
  0 <= m < GetNE mesh -> 0 <= vd < vdim fespace ->
  0 <= p < Height (lP m) ->
  (forall d, array_get false processed d = true <->
             exists k, 0 <= k < m /\ d ∈ map DecodeDof (Fd k)) ->
  array_get s_zero
    (store_all (stores_upto x m)
       (replicate (Z.to_nat (nd * vdim fespace)) s_zero))
    (vdof_of fespace nd vd (DecodeDof (fdof m p))) =
  if array_get false processed (DecodeDof (fdof m p))
  then sgn (fdof m p) (Yv x m vd p) else s_zero.
Proof.
  intros Hagree Hm Hvd Hp Hproc.
  pose proof (component_store_elem x m vd p Hm Hvd Hp) as Hmine.
  set (d := DecodeDof (fdof m p)) in *.
  set (t := vdof_of fespace nd vd d) in *.
  set (v := sgn (fdof m p) (Yv x m vd p)) in *.
  assert (d ∈ map DecodeDof (Fd m)) as Hd.
  { apply list_elem_of_fmap. exists (fdof m p). split; [reflexivity |].
    apply array_get_elem.
    destruct Hok as (_ & _ & _ & Helem).
    destruct (Helem m Hm) as (_ & _ & _ & Hh & _). lia. }
  pose proof (decoded_range m d Hm Hd) as Hdr.
  assert (Hfine : layout_ok fespace nd) by (destruct Hok as (Hf & _); exact Hf).
  pose proof (vdof_of_range fespace nd Hfine vd d Hvd Hdr) as Htr.
  fold t in Htr.
  destruct (store_all_last (stores_upto x m)
              (replicate (Z.to_nat (nd * vdim fespace)) s_zero) t)
    as [[Hnot Hget] | (v0 & Hin & Hget)].
  - rewrite length_replicate. lia.
  - rewrite Hget, (array_get_replicate s_zero s_zero).
    destruct (array_get false processed d) eqn:Hpd; [| reflexivity].
    exfalso. apply Hnot. apply Hproc in Hpd as (k & Hk & Hdk).
    apply stores_upto_target. exists k. split; [exact Hk |].
    apply element_target_elem; [lia |]. exists vd, d. auto.
  - rewrite Hget.
    assert (array_get false processed d = true) as ->.
    { assert (t ∈ map fst (stores_upto x m)) as Ht.
      { apply list_elem_of_fmap. exists (t, v0). split; [reflexivity | exact Hin]. }
      apply stores_upto_target in Ht as (k & Hk & Ht).
      apply element_target_elem in Ht as (vd' & d' & Hvd' & Hd' & Heq); [| lia].
      apply Hproc. exists k. split; [exact Hk |].
      destruct (vdof_of_inj fespace nd Hfine vd vd' d d') as [_ ->]; auto.
      apply (decoded_range k d'); [lia | exact Hd']. }
    apply (stores_agree_elem (stores_upto x (GetNE mesh)) t); [exact Hagree | |].
    + apply list_elem_of_In, in_flat_map in Hin as (k & Hk & Hin).
      apply list_elem_of_In, elem_of_seqZ in Hk.
      apply (stores_upto_elem x (GetNE mesh) k); [lia |].
      apply list_elem_of_In, Hin.
    + apply (stores_upto_elem x (GetNE mesh) m); [lia | exact Hmine].
Qed.

(** After [m] fine elements the two loops have built the same inner
    product, and [processed] marks the DOFs the first [m] elements list. *)
Lemma adjoint_upto (x z : list R) (wn : nat) (m : nat) :
  Z.of_nat wn = width ->
  stores_agree (stores_upto x (GetNE mesh)) ->
  Z.of_nat m <= GetNE mesh ->
  exists acc processed,
    fold_left
      (MultTranspose_element fespace mesh GetElementDofs
         GetElementBaseGeometry old_elem_dof localP width z)
      (seqZ 0 (Z.of_nat m))
      (replicate wn s_zero, replicate (Z.to_nat (GetVSize fespace)) false)
    = (acc, processed)
    /\ Z.of_nat (length acc) = width
    /\ Z.of_nat (length processed) = nd * vdim fespace
    /\ (forall d, array_get false processed d = true <->
                  exists k, 0 <= k < Z.of_nat m /\ d ∈ map DecodeDof (Fd k))
    /\ dot (nd * vdim fespace)
         (store_all (stores_upto x (Z.of_nat m))
            (replicate (Z.to_nat (nd * vdim fespace)) s_zero)) z
       = dot width x acc.
Proof.
  intros Hwn Hagree. pose proof GetVSize_val as Hvs.
  assert (Hfine : layout_ok fespace nd) by (destruct Hok as (Hf & _); exact Hf).
  assert (0 <= nd * vdim fespace) as Hnonneg
    by (destruct Hfine as (? & ? & ?); nia).
  induction m as [| m IH]; intros Hm.
  - exists (replicate wn s_zero), (replicate (Z.to_nat (GetVSize fespace)) false).
    split; [reflexivity |]. rewrite !length_replicate.
    split; [exact Hwn |]. split; [lia |]. split.
    + intros d. rewrite (array_get_replicate false false).
      split; [discriminate | intros (k & Hk & _); lia].
    + simpl. rewrite dot_zero_l, dot_zero_r. reflexivity.
  - destruct IH as (acc & processed & Hfold & Hlacc & Hlproc & Hproc & Hdot);
      [lia |].
    rewrite Nat2Z.inj_succ, <- Z.add_1_r.
    rewrite seqZ_snoc, fold_left_app, Hfold by lia. simpl fold_left.
    eexists _, _. split; [reflexivity |].
    assert (0 <= Z.of_nat m < GetNE mesh) as Hk by lia.
    split; [apply MultTranspose_components_dot; assumption |].
    split; [rewrite mark_processed_length; exact Hlproc |].
    split.
    + intros d. rewrite mark_processed_spec, Hproc. split.
      * intros [(k & Hk' & Hd) | [Hd _]].
        -- exists k. split; [lia | exact Hd].
        -- exists (Z.of_nat m). split; [lia | exact Hd].
      * intros (k & Hk' & Hd).
        destruct (decide (k = Z.of_nat m)) as [-> | Hne].
        -- right. split; [exact Hd |].
           pose proof (decoded_range (Z.of_nat m) d Hk Hd).
           destruct Hfine as (? & ? & ?). nia.
        -- left. exists k. split; [lia | exact Hd].
    + unfold Mult_stores_upto at 1.
      rewrite seqZ_snoc, flat_map_app by lia. simpl flat_map.
      rewrite app_nil_r, store_all_app.
      apply element_step; try assumption.
      * rewrite store_all_length, length_replicate. lia.
      * intros vd p Hvd Hp. apply stored_before; assumption.
Qed.

End Adjoint.

(** C9, as the code has it.  [MultTranspose] is the adjoint of [Mult] on a
    zero-initialised output, [Mult(x) . z = x . MultTranspose(z)], when the
    operator is well set up ([refinement_ok]: sizes fit, no element lists a
    DOF twice) and the values [Mult] stores into one entry from different
    fine elements agree.  [Mult] keeps the last value stored to a shared DOF,
    [MultTranspose] takes a shared DOF into account for the first element
    that lists it only; the two are adjoint where all the stored values are
    the same. *)
Theorem MultTranspose_adjoint_of_Mult {R : Type} `{ScalarRing R}
  (fespace : FiniteElementSpace) (mesh : Mesh)
  (GetElementDofs : Z -> list Z) (GetElementBaseGeometry : Z -> Geometry)
  (old_elem_dof : Table) (localP : Geometry -> Z -> LocalMatrix (R := R))
  (width : Z) (x y z : list R) :
  refinement_ok fespace mesh GetElementDofs GetElementBaseGeometry
    old_elem_dof localP width ->
  Z.of_nat (length y) = width ->
  stores_agree
    (Mult_stores fespace mesh GetElementDofs GetElementBaseGeometry
       old_elem_dof localP width x) ->
  dot (GetVSize fespace)
    (RefinementOperator_Mult fespace mesh GetElementDofs
       GetElementBaseGeometry old_elem_dof localP width x
       (replicate (Z.to_nat (GetVSize fespace)) s_zero)) z =
  dot width x
    (RefinementOperator_MultTranspose fespace mesh GetElementDofs
       GetElementBaseGeometry old_elem_dof localP width z y).
Proof.
  intros Hok Hly Hagree.
  rewrite (Mult_as_stores fespace mesh).
  rewrite (GetVSize_val fespace mesh GetElementDofs GetElementBaseGeometry
             old_elem_dof localP width Hok).
  unfold RefinementOperator_MultTranspose, Mult_stores in *.
  destruct (Z.le_gt_cases 0 (GetNE mesh)) as [Hne | Hne].
  - destruct (adjoint_upto fespace mesh GetElementDofs GetElementBaseGeometry
                old_elem_dof localP width Hok x z (length y)
                (Z.to_nat (GetNE mesh)) Hly)
      as (acc & processed & Hfold & _ & _ & _ & Hdot);
      [exact Hagree | lia |].
    rewrite Z2Nat.id in Hfold, Hdot by exact Hne.
    rewrite Hfold. exact Hdot.
  - assert (seqZ 0 (GetNE mesh) = []) as Hnil.
    { unfold seqZ. rewrite Z2Nat.nonpos by lia. reflexivity. }
    unfold Mult_stores_upto. rewrite Hnil. simpl.
    rewrite dot_zero_l, dot_zero_r. reflexivity.
Qed.

(** Two fine elements list DOF 0 and interpolate it differently: [Mult]
    leaves the value of the second element in it, [MultTranspose] reads it
    for the first element only, and the two inner products differ. *)
Lemma MultTranspose_shared_dof_counterexample :
  RefinementOperator_Mult shared_dof_space two_children_mesh (fun _ => [0])
    (fun _ => SEGMENT) shared_dof_coarse shared_dof_localP 1 [1] [0] = [2]
  /\ RefinementOperator_MultTranspose shared_dof_space two_children_mesh
       (fun _ => [0]) (fun _ => SEGMENT) shared_dof_coarse shared_dof_localP 1
       [1] [0] = [1]
  /\ dot 1
       (RefinementOperator_Mult shared_dof_space two_children_mesh
          (fun _ => [0]) (fun _ => SEGMENT) shared_dof_coarse
          shared_dof_localP 1 [1] [0]) [1]
     <> dot 1 [1]
          (RefinementOperator_MultTranspose shared_dof_space
             two_children_mesh (fun _ => [0]) (fun _ => SEGMENT)
             shared_dof_coarse shared_dof_localP 1 [1] [0]).
Proof. vm_compute. repeat split; congruence. Qed.

Lemma MultTranspose_adjoint_of_Mult_witness :
  dot (GetVSize split_segment_space)
    (RefinementOperator_Mult split_segment_space two_children_mesh
       split_segment_dofs (fun _ => SEGMENT) split_segment_coarse
       split_segment_localP 4 [1; 2; 3; 4]
       (replicate (Z.to_nat (GetVSize split_segment_space)) s_zero))
    [1; 2; 3; 4; 5; 6] =
  dot 4 [1; 2; 3; 4]
    (RefinementOperator_MultTranspose split_segment_space two_children_mesh
       split_segment_dofs (fun _ => SEGMENT) split_segment_coarse
       split_segment_localP 4 [1; 2; 3; 4; 5; 6] [7; 7; 7; 7]).
Proof.
  apply MultTranspose_adjoint_of_Mult.
  - unfold refinement_ok, layout_ok.
    change (old_ndofs split_segment_space 4) with 2.
    change (ndofs split_segment_space) with 3.
    change (vdim split_segment_space) with 2.
    unfold INT_MAX.
    split; [lia |]. split; [lia |]. split; [reflexivity |].
    intros k Hk. change (GetNE two_children_mesh) with 2 in Hk.
    assert (k = 0 \/ k = 1) as [-> | ->] by lia;
      unfold element_ok; apply (bool_decide_unpack _); vm_compute; exact I.
  - reflexivity.
  - vm_compute.
    repeat split;
      repeat (constructor;
              [intros Heq; first [reflexivity | discriminate Heq] |]);
      constructor.
Defined.

(** An entry that [Mult] stores to does not depend on what the output
    vector held before the call, when the stored values agree. *)
Lemma Mult_output_covered {R : Type} `{ScalarRing R}
  (fespace : FiniteElementSpace) (mesh : Mesh)
  (GetElementDofs : Z -> list Z) (GetElementBaseGeometry : Z -> Geometry)
  (old_elem_dof : Table) (localP : Geometry -> Z -> LocalMatrix (R := R))
  (width : Z) (x y y' : list R) t :
  stores_agree
    (Mult_stores fespace mesh GetElementDofs GetElementBaseGeometry
       old_elem_dof localP width x) ->
  t ∈ map fst
        (Mult_stores fespace mesh GetElementDofs GetElementBaseGeometry
           old_elem_dof localP width x) ->
  length y = length y' -> 0 <= t < Z.of_nat (length y) ->
  array_get s_zero
    (RefinementOperator_Mult fespace mesh GetElementDofs
       GetElementBaseGeometry old_elem_dof localP width x y) t =
  array_get s_zero
    (RefinementOperator_Mult fespace mesh GetElementDofs
       GetElementBaseGeometry old_elem_dof localP width x y') t.
Proof.
  intros Hagree Ht Hlen Hrange. rewrite !(Mult_as_stores fespace mesh).
  fold (Mult_stores fespace mesh GetElementDofs GetElementBaseGeometry
          old_elem_dof localP width x).
  set (evs := Mult_stores fespace mesh GetElementDofs GetElementBaseGeometry
                old_elem_dof localP width x) in *.
  destruct (store_all_last evs y t Hrange) as [[Hnot _] | (v & Hv & ->)];
    [contradiction |].
  destruct (store_all_last evs y' t) as [[Hnot _] | (v' & Hv' & ->)];
    [lia | contradiction |].
  exact (stores_agree_elem evs t v v' Hagree Hv Hv').
Qed.

(** ** Renumbering the element-to-DOF table *)

(** A list without duplicates of numbers in [[0, n)] has at most [n]
    entries. *)
Lemma NoDup_range_length (l : list Z) n :
  0 <= n -> NoDup l -> (forall d, d ∈ l -> 0 <= d < n) ->
  Z.of_nat (length l) <= n.
Proof.
  intros Hn Hnd Hrange.
  assert (l ⊆+ seqZ 0 n) as Hsub.
  { apply NoDup_submseteq; [exact Hnd |].
    intros d Hd. apply elem_of_seqZ. specialize (Hrange d Hd). lia. }
  apply submseteq_length in Hsub. rewrite length_seqZ in Hsub. lia.
Qed.

Lemma marker_of_start n :
  0 <= n -> marker_of n [] (replicate (Z.to_nat n) (-1)) 0.
Proof.
  intros Hn. unfold marker_of. rewrite length_replicate.
  split; [lia |]. split; [reflexivity |]. split; [constructor |].
  split; [intros d Hd; apply elem_of_nil in Hd; contradiction |].
  split; [intros d i Hi; discriminate |].
  intros d _. apply (array_get_replicate (-1) (-1)).
Qed.

(** A DOF met for the first time takes the next number. *)
Lemma marker_of_fresh n seen dof_marker dof_counter d :
  marker_of n seen dof_marker dof_counter ->
  0 <= d < n -> d ∉ seen -> n <= INT_MAX ->
  dof_counter < n /\
  marker_of n (seen ++ [d]) (array_set dof_marker d dof_counter)
    (int_add dof_counter 1).
Proof.
  intros (Hlen & Hc & Hnd & Hrange & Hpos & Hfree) Hd Hnew Hmax.
  assert (NoDup (seen ++ [d])) as Hnd'.
  { apply NoDup_app. split; [exact Hnd |]. split; [| apply NoDup_singleton].
    intros x Hx Hx'. apply list_elem_of_singleton in Hx'. congruence. }
  assert (forall x, x ∈ seen ++ [d] -> 0 <= x < n) as Hrange'.
  { intros x Hx. apply elem_of_app in Hx as [Hx | Hx]; [auto |].
    apply list_elem_of_singleton in Hx. lia. }
  pose proof (NoDup_range_length _ n ltac:(lia) Hnd' Hrange') as Hcount.
  rewrite length_app in Hcount. simpl in Hcount.
  split; [lia |].
  unfold marker_of. rewrite array_set_length, length_app. simpl.
  split; [exact Hlen |]. split.
  { unfold int_add. rewrite int_wrap_id; [lia |].
    unfold int_range, INT_MIN, INT_MAX in *. lia. }
  split; [exact Hnd' |]. split; [exact Hrange' |]. split.
  - intros x i Hi. apply lookup_app_Some in Hi as [Hi | [Hge Hi]].
    + rewrite array_get_set_ne; [apply Hpos, Hi |].
      intros ->. apply Hnew. eapply list_elem_of_lookup_2, Hi.
    + apply list_lookup_singleton_Some in Hi as [Hi ->].
      rewrite array_get_set_eq by lia. lia.
  - intros x Hx. rewrite array_get_set_ne.
    + apply Hfree. intros Hin. apply Hx, elem_of_app. left. exact Hin.
    + intros ->. apply Hx, elem_of_app. right.
      apply list_elem_of_singleton. reflexivity.
Qed.

Lemma ReorderLoop_cons sdof rest dof_marker dof_counter :
  ReorderLoop (sdof :: rest) dof_marker dof_counter =
  if array_get (-1) dof_marker (DecodeDof sdof) <? 0
  then (if sdof <? 0 then FlipDof dof_counter else dof_counter)
         :: ReorderLoop rest (array_set dof_marker (DecodeDof sdof) dof_counter)
              (int_add dof_counter 1)
  else (if sdof <? 0
        then FlipDof (array_get (-1) dof_marker (DecodeDof sdof))
        else array_get (-1) dof_marker (DecodeDof sdof))
         :: ReorderLoop rest dof_marker dof_counter.
Proof. simpl. destruct (_ <? 0); reflexivity. Qed.

Lemma signed_entry_decode n sdof :
  n <= INT_MAX -> - n <= sdof < n -> 0 <= DecodeDof sdof < n.
Proof.
  intros Hmax Hs. destruct (Z.ltb_spec sdof 0).
  - rewrite DecodeDof_neg; unfold INT_MIN, INT_MAX in *; lia.
  - rewrite DecodeDof_nonneg; lia.
Qed.

(** The sign and the number of an entry written back by the loop. *)
Lemma written_entry sdof new_dof :
  0 <= new_dof <= INT_MAX ->
  let new_sdof := if sdof <? 0 then FlipDof new_dof else new_dof in
  (new_sdof <? 0) = (sdof <? 0) /\ DecodeDof new_sdof = new_dof.
Proof.
  intros Hnew. cbv zeta.
  destruct (Z.ltb_spec sdof 0).
  - rewrite FlipDof_val by exact Hnew. split.
    + apply Z.ltb_lt. lia.
    + rewrite DecodeDof_neg; unfold INT_MIN, INT_MAX in *; lia.
  - split; [apply Z.ltb_ge; lia | apply DecodeDof_nonneg; lia].
Qed.

Lemma ReorderLoop_spec n J :
  n <= INT_MAX ->
  forall seen dof_marker dof_counter,
  marker_of n seen dof_marker dof_counter ->
  Forall (fun sdof => - n <= sdof < n) J ->
  exists later,
    NoDup (seen ++ later) /\
    (forall d, d ∈ seen ++ later -> 0 <= d < n) /\
    (forall d, d ∈ later -> d ∈ map DecodeDof J) /\
    Forall2 (renumbered (seen ++ later)) J
      (ReorderLoop J dof_marker dof_counter) /\
    first_occurrence_from dof_counter (ReorderLoop J dof_marker dof_counter) /\
    later = first_occurrences_from seen (map DecodeDof J).
Proof.
  intros Hmax. induction J as [| sdof rest IH];
    intros seen dof_marker dof_counter Hinv HJ.
  - exists []. rewrite app_nil_r.
    destruct Hinv as (_ & _ & Hnd & Hrange & _).
    split; [exact Hnd |]. split; [exact Hrange |].
    split; [intros d Hd; apply elem_of_nil in Hd; contradiction |].
    split; [constructor | split; [exact I | reflexivity]].
  - apply Forall_cons in HJ as [Hs HJ].
    pose proof (signed_entry_decode n sdof Hmax Hs) as Hd.
    rewrite ReorderLoop_cons.
    destruct (decide (DecodeDof sdof ∈ seen)) as [Hin | Hnew].
    + (* met before *)
      apply list_elem_of_lookup_1 in Hin as [i Hi].
      pose proof Hinv as (Hlen & Hc & Hnd & Hrange & Hpos & Hfree).
      rewrite (Hpos _ _ Hi).
      destruct (Z.ltb_spec (Z.of_nat i) 0) as [Hneg | _]; [lia |].
      apply lookup_lt_Some in Hi as Hlt.
      pose proof (NoDup_range_length seen n ltac:(lia) Hnd Hrange) as Hcount.
      destruct (written_entry sdof (Z.of_nat i)) as [Hsign Hdec]; [lia |].
      destruct (IH seen dof_marker dof_counter Hinv HJ)
        as (later & Hnd' & Hrange' & Hlater & Hall & Hord & Hfirsts).
      assert (existsb (Z.eqb (DecodeDof sdof)) seen = true) as Hmet.
      { apply existsb_exists. exists (DecodeDof sdof).
        split; [eapply list_elem_of_In, list_elem_of_lookup_2, Hi |].
        apply Z.eqb_refl. }
      exists later. split; [exact Hnd' |]. split; [exact Hrange' |].
      split; [intros d Hd'; simpl; apply elem_of_cons; right; auto |].
      split.
      * constructor; [| exact Hall].
        unfold renumbered. rewrite Hdec, Nat2Z.id.
        split; [exact Hsign |]. split; [lia |].
        apply lookup_app_l_Some, Hi.
      * split.
        -- cbn [first_occurrence_from]. rewrite Hdec.
           destruct (Z.eqb_spec (Z.of_nat i) dof_counter) as [Heq | _];
             [lia |].
           split; [lia | exact Hord].
        -- cbn [map first_occurrences_from]. rewrite Hmet. exact Hfirsts.
    + (* met for the first time *)
      pose proof Hinv as (Hlen & Hc & Hnd & Hrange & Hpos & Hfree).
      rewrite (Hfree _ Hnew). change (-1 <? 0) with true. cbv iota.
      destruct (marker_of_fresh n seen dof_marker dof_counter
                  (DecodeDof sdof) Hinv Hd Hnew Hmax) as [Hroom Hinv'].
      destruct (written_entry sdof dof_counter) as [Hsign Hdec]; [lia |].
      destruct (IH _ _ _ Hinv' HJ)
        as (later & Hnd' & Hrange' & Hlater & Hall & Hord & Hfirsts).
      rewrite <- app_assoc in Hnd', Hrange', Hall. simpl in Hnd', Hrange', Hall.
      assert (existsb (Z.eqb (DecodeDof sdof)) seen = false) as Hfresh.
      { apply not_true_iff_false. intros Hex.
        apply existsb_exists in Hex as (x & Hx & Heq).
        apply Z.eqb_eq in Heq. subst x.
        apply Hnew, list_elem_of_In, Hx. }
      exists (DecodeDof sdof :: later).
      split; [exact Hnd' |]. split; [exact Hrange' |]. split.
      { intros d Hd'. simpl. apply elem_of_cons in Hd' as [-> | Hd'].
        - apply elem_of_cons. left. reflexivity.
        - apply elem_of_cons. right. auto. }
      split.
      * constructor; [| exact Hall].
        unfold renumbered. rewrite Hdec.
        replace (Z.to_nat dof_counter) with (length seen) by lia.
        split; [exact Hsign |]. split; [lia |].
        rewrite lookup_app_r by lia. rewrite Nat.sub_diag. reflexivity.
      * split.
        -- cbn [first_occurrence_from]. rewrite Hdec, Z.eqb_refl.
           split; [lia |].
           replace (dof_counter + 1) with (int_add dof_counter 1);
             [exact Hord |].
           unfold int_add. apply int_wrap_id.
           unfold int_range, INT_MIN, INT_MAX in *. lia.
        -- cbn [map first_occurrences_from]. rewrite Hfresh, Hfirsts.
           reflexivity.
Qed.

(** The loop leaves a table alone that is numbered by first occurrence
    already. *)
Lemma ReorderLoop_fixed n J :
  n <= INT_MAX ->
  forall dof_marker dof_counter,
  0 <= dof_counter ->
  Z.of_nat (length dof_marker) = n ->
  (forall d, 0 <= d < dof_counter -> array_get (-1) dof_marker d = d) ->
  (forall d, dof_counter <= d -> array_get (-1) dof_marker d = -1) ->
  Forall (fun sdof => - n <= sdof < n) J ->
  first_occurrence_from dof_counter J ->
  ReorderLoop J dof_marker dof_counter = J.
Proof.
  intros Hmax. induction J as [| sdof rest IH];
    intros dof_marker dof_counter Hc Hlen Hused Hfree HJ Hord;
    [reflexivity |].
  apply Forall_cons in HJ as [Hs HJ]. destruct Hord as [Hle Hord].
  pose proof (signed_entry_decode n sdof Hmax Hs) as Hd.
  assert ((if sdof <? 0 then FlipDof (DecodeDof sdof) else DecodeDof sdof)
          = sdof) as Hback.
  { destruct (Z.ltb_spec sdof 0).
    - apply FlipDof_DecodeDof. unfold INT_MIN, INT_MAX in *. lia.
    - apply DecodeDof_nonneg. lia. }
  rewrite ReorderLoop_cons.
  destruct (Z.eqb_spec (DecodeDof sdof) dof_counter) as [Heq | Hne].
  - rewrite Hfree by lia. change (-1 <? 0) with true. cbv iota.
    assert ((if sdof <? 0 then FlipDof dof_counter else dof_counter) = sdof)
      as -> by (rewrite <- Heq; exact Hback).
    f_equal.
    replace (int_add dof_counter 1) with (dof_counter + 1)
      by (unfold int_add; rewrite int_wrap_id;
          [reflexivity | unfold int_range, INT_MIN, INT_MAX in *; lia]).
    apply IH; try assumption; [lia | rewrite array_set_length; exact Hlen | |].
    + intros d Hdr. destruct (decide (d = dof_counter)) as [-> | Hdne].
      * rewrite Heq. apply array_get_set_eq. lia.
      * rewrite array_get_set_ne by lia. apply Hused. lia.
    + intros d Hdr. rewrite array_get_set_ne by lia. apply Hfree. lia.
  - rewrite Hused by lia.
    destruct (Z.ltb_spec (DecodeDof sdof) 0) as [Hneg | _]; [lia |].
    rewrite Hback. f_equal. apply IH; assumption.
Qed.

Lemma renumbered_range n firsts sdof new_sdof :
  n <= INT_MAX -> Z.of_nat (length firsts) <= n ->
  int_range new_sdof ->
  renumbered firsts sdof new_sdof -> - n <= new_sdof < n.
Proof.
  intros Hmax Hlen Hint (_ & Hnonneg & Hpos).
  apply lookup_lt_Some in Hpos.
  destruct (Z.ltb_spec new_sdof 0).
  - rewrite DecodeDof_neg in Hpos, Hnonneg;
      unfold int_range, INT_MIN, INT_MAX in *; lia.
  - rewrite DecodeDof_nonneg in Hpos by lia. lia.
Qed.

Lemma ReorderLoop_int_range J : forall dof_marker dof_counter,
  int_range dof_counter ->
  Forall int_range dof_marker ->
  Forall int_range (ReorderLoop J dof_marker dof_counter).
Proof.
  pose proof int_wrap_range as Hwrap.
  induction J as [| sdof rest IH]; intros dof_marker dof_counter Hc Hm;
    [constructor |].
  rewrite ReorderLoop_cons.
  assert (int_range (array_get (-1) dof_marker (DecodeDof sdof))) as Hget.
  { unfold array_get. destruct (0 <=? DecodeDof sdof);
      [| unfold int_range, INT_MIN, INT_MAX; lia].
    destruct (nth_in_or_default (Z.to_nat (DecodeDof sdof)) dof_marker (-1))
      as [Hin | ->]; [| unfold int_range, INT_MIN, INT_MAX; lia].
    rewrite Forall_forall in Hm. apply Hm, list_elem_of_In, Hin. }
  destruct (_ <? 0).
  - constructor.
    + destruct (sdof <? 0); [apply Hwrap | exact Hc].
    + apply IH; [apply Hwrap |].
      unfold array_set. destruct (_ && _); [| exact Hm].
      apply Forall_insert; assumption.
  - constructor; [| apply IH; assumption].
    destruct (sdof <? 0); [apply Hwrap | exact Hget].
Qed.

Lemma ReorderElementToDofTable_spec (fes : FiniteElementSpace) (J : list Z) :
  0 <= ndofs fes <= INT_MAX ->
  Forall (fun sdof => - ndofs fes <= sdof < ndofs fes) J ->
  exists firsts,
    NoDup firsts /\
    (forall d, d ∈ firsts <-> d ∈ map DecodeDof J) /\
    Forall2 (renumbered firsts) J (ReorderElementToDofTable fes J) /\
    first_occurrence_from 0 (ReorderElementToDofTable fes J) /\
    Forall (fun sdof => - ndofs fes <= sdof < ndofs fes)
      (ReorderElementToDofTable fes J).
Proof.
  intros Hn HJ. unfold ReorderElementToDofTable.
  destruct (ReorderLoop_spec (ndofs fes) J (proj2 Hn) []
              (replicate (Z.to_nat (ndofs fes)) (-1)) 0
              (marker_of_start (ndofs fes) (proj1 Hn)) HJ)
    as (firsts & Hnd & Hrange & Hlater & Hall & Hord & _).
  simpl in Hnd, Hrange, Hall.
  exists firsts. split; [exact Hnd |]. split; [| split; [exact Hall |
    split; [exact Hord |]]].
  - intros d. split; [apply Hlater |].
    intros Hd. apply list_elem_of_fmap in Hd as (sdof & -> & Hs).
    apply list_elem_of_lookup_1 in Hs as [k Hk].
    destruct (Forall2_lookup_l _ _ _ _ _ Hall Hk) as (s' & _ & _ & _ & Hpos).
    eapply list_elem_of_lookup_2, Hpos.
  - pose proof (NoDup_range_length firsts (ndofs fes) ltac:(lia) Hnd Hrange)
      as Hcount.
    assert (Forall int_range
              (ReorderLoop J (replicate (Z.to_nat (ndofs fes)) (-1)) 0))
      as Hint.
    { apply ReorderLoop_int_range.
      - unfold int_range, INT_MIN, INT_MAX. lia.
      - apply Forall_replicate. unfold int_range, INT_MIN, INT_MAX. lia. }
    rewrite Forall_forall in Hint. apply Forall_forall. intros s' Hs'.
    pose proof (Hint s' Hs') as Hs'int.
    apply list_elem_of_lookup_1 in Hs' as [k Hk].
    destruct (Forall2_lookup_r _ _ _ _ _ Hall Hk) as (s & _ & Hrel).
    apply (renumbered_range _ firsts s); try assumption; lia.
Qed.

(** The list of first occurrences is the list the loop numbers by. *)
Lemma ReorderElementToDofTable_firsts (fes : FiniteElementSpace) (J : list Z) :
  0 <= ndofs fes <= INT_MAX ->
  Forall (fun sdof => - ndofs fes <= sdof < ndofs fes) J ->
  NoDup (first_occurrences (map DecodeDof J)) /\
  (forall d, d ∈ first_occurrences (map DecodeDof J) -> 0 <= d < ndofs fes) /\
  (forall d, d ∈ first_occurrences (map DecodeDof J) -> d ∈ map DecodeDof J) /\
  Forall2 (renumbered (first_occurrences (map DecodeDof J))) J
    (ReorderElementToDofTable fes J).
Proof.
  intros Hn HJ. unfold ReorderElementToDofTable, first_occurrences.
  destruct (ReorderLoop_spec (ndofs fes) J (proj2 Hn) []
              (replicate (Z.to_nat (ndofs fes)) (-1)) 0
              (marker_of_start (ndofs fes) (proj1 Hn)) HJ)
    as (firsts & Hnd & Hrange & Hlater & Hall & _ & ->).
  simpl in Hnd, Hrange, Hall. auto.
Qed.

(** X1. [ReorderElementToDofTable] renumbers the DOFs of the table in the
    order of their first occurrence: with [first_occurrences] the list of
    the DOFs of the table in the order in which they first occur, each once,
    every entry keeps its sign and gets the position of its DOF in that list
    as its new number.  Two entries therefore name the same DOF after the
    call exactly when they did before, and the table keeps its size and
    stays within the DOF range. *)
Theorem ReorderElementToDofTable_renumbers (fes : FiniteElementSpace)
  (J : list Z) :
  0 <= ndofs fes <= INT_MAX ->
  Forall (fun sdof => - ndofs fes <= sdof < ndofs fes) J ->
  let firsts := first_occurrences (map DecodeDof J) in
  length (ReorderElementToDofTable fes J) = length J /\
  Forall (fun sdof => - ndofs fes <= sdof < ndofs fes)
    (ReorderElementToDofTable fes J) /\
  NoDup firsts /\
  (forall d, d ∈ firsts <-> d ∈ map DecodeDof J) /\
  Forall2 (renumbered firsts) J (ReorderElementToDofTable fes J) /\
  (forall k l s t s' t',
     J !! k = Some s -> J !! l = Some t ->
     ReorderElementToDofTable fes J !! k = Some s' ->
     ReorderElementToDofTable fes J !! l = Some t' ->
     ((s' < 0 <-> s < 0) /\
      (DecodeDof s = DecodeDof t <-> DecodeDof s' = DecodeDof t'))).
Proof.
  intros Hn HJ. cbv zeta.
  destruct (ReorderElementToDofTable_firsts fes J Hn HJ)
    as (Hnd & Hin & Hsub & Hall).
  destruct (ReorderElementToDofTable_spec fes J Hn HJ)
    as (_ & _ & _ & _ & _ & Hrange).
  split; [symmetry; apply (Forall2_length _ _ _ Hall) |].
  split; [exact Hrange |].
  split; [exact Hnd |].
  split.
  { intros d. split; [apply Hsub |].
    intros Hd. apply list_elem_of_fmap in Hd as (sdof & -> & Hs).
    apply list_elem_of_lookup_1 in Hs as [k Hk].
    destruct (Forall2_lookup_l _ _ _ _ _ Hall Hk) as (s' & _ & _ & _ & Hpos).
    eapply list_elem_of_lookup_2, Hpos. }
  split; [exact Hall |].
  intros k l s t s' t' Hk Hl Hk' Hl'.
  pose proof (Forall2_lookup_lr _ _ _ _ _ _ Hall Hk Hk') as (Hsgn & Hks & Hkp).
  pose proof (Forall2_lookup_lr _ _ _ _ _ _ Hall Hl Hl') as (_ & Hls & Hlp).
  split.
  - destruct (Z.ltb_spec s' 0); destruct (Z.ltb_spec s 0);
      try discriminate; lia.
  - split.
    + intros Heq. rewrite Heq in Hkp.
      pose proof (NoDup_lookup _ _ _ _ Hnd Hkp Hlp). lia.
    + intros Heq. rewrite Heq in Hkp. congruence.
Qed.

(** The table [2; -1; 1; -3; 0] lists the DOFs 2, 0, 1 in this order (the
    entry -1 is DOF 0 flipped, -3 is DOF 2 flipped): DOF 2 becomes 0, DOF 0
    becomes 1 and DOF 1 becomes 2. *)
Lemma ReorderElementToDofTable_renumbers_witness :
  Forall2 (renumbered [2; 0; 1]) [2; -1; 1; -3; 0]
    (ReorderElementToDofTable three_dof_space [2; -1; 1; -3; 0]) /\
  NoDup [2; 0; 1] /\
  length (ReorderElementToDofTable three_dof_space [2; -1; 1; -3; 0]) = 5%nat.
Proof.
  pose proof (ReorderElementToDofTable_renumbers three_dof_space
                [2; -1; 1; -3; 0]) as Hr.
  destruct Hr as (Hlen & _ & Hnd & _ & Hall & _).
  - change (ndofs three_dof_space) with 3. unfold INT_MAX. lia.
  - change (ndofs three_dof_space) with 3. repeat constructor; lia.
  - split; [exact Hall |]. split; [exact Hnd | exact Hlen].
Defined.

(** X2. Renumbering is idempotent: a table that has been put in
    first-occurrence order is left unchanged by a second call. *)
Theorem ReorderElementToDofTable_idempotent (fes : FiniteElementSpace)
  (J : list Z) :
  0 <= ndofs fes <= INT_MAX ->
  Forall (fun sdof => - ndofs fes <= sdof < ndofs fes) J ->
  first_occurrence_from 0 (ReorderElementToDofTable fes J) /\
  ReorderElementToDofTable fes (ReorderElementToDofTable fes J)
  = ReorderElementToDofTable fes J.
Proof.
  intros Hn HJ.
  destruct (ReorderElementToDofTable_spec fes J Hn HJ)
    as (_ & _ & _ & _ & Hord & Hrange).
  split; [exact Hord |].
  unfold ReorderElementToDofTable at 1.
  apply (ReorderLoop_fixed (ndofs fes)); try assumption; try lia.
  - rewrite length_replicate. lia.
  - intros d _. apply (array_get_replicate (-1) (-1)).
Qed.

Lemma ReorderElementToDofTable_idempotent_witness :
  ReorderElementToDofTable three_dof_space
    (ReorderElementToDofTable three_dof_space [2; -1; 1; -3; 0])
  = ReorderElementToDofTable three_dof_space [2; -1; 1; -3; 0].
Proof.
  apply (ReorderElementToDofTable_idempotent three_dof_space
           [2; -1; 1; -3; 0]).
  - change (ndofs three_dof_space) with 3. unfold INT_MAX. lia.
  - change (ndofs three_dof_space) with 3. repeat constructor; lia.
Defined.

(** ** From an index list to a marker and back *)

Lemma filter_iff_in {A} (P1 P2 : A -> Prop)
  `{!forall x, Decision (P1 x), !forall x, Decision (P2 x)} (l : list A) :
  (forall x, x ∈ l -> P1 x <-> P2 x) -> filter P1 l = filter P2 l.
Proof.
  induction l as [| a l IH]; intros Hiff; [reflexivity |].
  rewrite !filter_cons.
  rewrite IH by (intros x Hx; apply Hiff, elem_of_cons; right; exact Hx).
  destruct (decide (P1 a)) as [H1 | H1]; destruct (decide (P2 a)) as [H2 | H2];
    try reflexivity; exfalso;
    [apply H2 | apply H1]; apply (Hiff a); try assumption;
    apply elem_of_cons; left; reflexivity.
Qed.

(** [MarkerToList] lists the indices of the nonzero entries in increasing
    order. *)
Lemma MarkerToList_from_filter marker : forall i,
  MarkerToList_from i marker =
  filter (fun k => array_get 0 marker (k - i) <> 0)
    (seqZ i (Z.of_nat (length marker))).
Proof.
  induction marker as [| m rest IH]; intros i; [reflexivity |].
  cbn [MarkerToList_from length].
  rewrite seqZ_cons by lia. rewrite filter_cons.
  replace (Z.pred (Z.of_nat (S (length rest)))) with (Z.of_nat (length rest))
    by lia.
  replace (Z.succ i) with (i + 1) by lia.
  rewrite Z.sub_diag. change (array_get 0 (m :: rest) 0) with m.
  assert (filter (fun k => array_get 0 (m :: rest) (k - i) <> 0)
            (seqZ (i + 1) (Z.of_nat (length rest)))
          = MarkerToList_from (i + 1) rest) as ->.
  { rewrite IH. apply filter_iff_in. intros k Hk.
    apply elem_of_seqZ in Hk.
    assert (array_get 0 (m :: rest) (k - i) = array_get 0 rest (k - (i + 1)))
      as ->; [| reflexivity].
    unfold array_get.
    destruct (Z.leb_spec 0 (k - i)); destruct (Z.leb_spec 0 (k - (i + 1)));
      try lia.
    replace (Z.to_nat (k - i)) with (S (Z.to_nat (k - (i + 1)))) by lia.
    reflexivity. }
  destruct (Z.eqb_spec m 0) as [-> | Hm].
  - destruct (decide (0 <> 0)); [congruence | reflexivity].
  - destruct (decide (m <> 0)); [reflexivity | contradiction].
Qed.

(** An entry of the marker after the stores of [ListToMarker]. *)
Lemma marker_stores_get (lst : list Z) mark_val : forall marker i,
  0 <= i < Z.of_nat (length marker) ->
  array_get 0 (fold_left (fun marker i => array_set marker i mark_val)
                 lst marker) i =
  if decide (i ∈ lst) then mark_val else array_get 0 marker i.
Proof.
  induction lst as [| a lst IH]; intros marker i Hi; simpl.
  - destruct (decide (i ∈ [])) as [Hin | _]; [| reflexivity].
    apply elem_of_nil in Hin. contradiction.
  - rewrite IH by (rewrite array_set_length; exact Hi).
    destruct (decide (i ∈ lst)) as [Hin | Hnot].
    + rewrite decide_True by (apply elem_of_cons; right; exact Hin).
      reflexivity.
    + destruct (decide (i = a)) as [-> | Hne].
      * rewrite decide_True by (apply elem_of_cons; left; reflexivity).
        apply array_get_set_eq, Hi.
      * rewrite decide_False
          by (intros Hin; apply elem_of_cons in Hin as [? | ?]; auto).
        apply array_get_set_ne. congruence.
Qed.

Lemma marker_stores_length (lst : list Z) mark_val : forall marker : list Z,
  length (fold_left (fun marker i => array_set marker i mark_val) lst marker)
  = length marker.
Proof.
  induction lst as [| a lst IH]; intros marker; simpl; [reflexivity |].
  rewrite IH. apply array_set_length.
Qed.

(** The indices of [[lo, lo + n)] that occur in an increasing list of such
    indices are the list itself. *)
Lemma filter_increasing (n : nat) : forall lo lst,
  increasing_from lo lst ->
  Forall (fun i => i < lo + Z.of_nat n) lst ->
  filter (fun i => i ∈ lst) (seqZ lo (Z.of_nat n)) = lst.
Proof.
  induction n as [| n IH]; intros lo lst Hinc Hlt.
  - destruct lst as [| a rest]; [reflexivity |].
    destruct Hinc as [Hlo _]. apply Forall_cons in Hlt as [Ha _]. lia.
  - rewrite seqZ_cons by lia. rewrite filter_cons.
    replace (Z.pred (Z.of_nat (S n))) with (Z.of_nat n) by lia.
    replace (Z.succ lo) with (lo + 1) by lia.
    destruct lst as [| a rest].
    { rewrite decide_False by apply not_elem_of_nil.
      apply (IH (lo + 1) []); [exact I | constructor]. }
    destruct Hinc as [Hlo Hinc]. apply Forall_cons in Hlt as [Ha Hlt].
    assert (forall lo' l, increasing_from lo' l -> Forall (fun i => lo' <= i) l)
      as Hbelow.
    { intros lo' l. revert lo'. induction l as [| b l IHl]; intros lo' Hl;
        [constructor |].
      destruct Hl as [Hb Hl]. constructor; [exact Hb |].
      apply (Forall_impl _ _ _ (IHl _ Hl)). intros x Hx. lia. }
    pose proof (Hbelow _ _ Hinc) as Hrest. rewrite Forall_forall in Hrest.
    destruct (decide (a = lo)) as [-> | Hne].
    + rewrite decide_True by (apply elem_of_cons; left; reflexivity).
      f_equal.
      rewrite (filter_iff_in _ (fun i => i ∈ rest)).
      * apply IH; [exact Hinc |].
        apply (Forall_impl _ _ _ Hlt). intros x Hx. lia.
      * intros x Hx. apply elem_of_seqZ in Hx. rewrite elem_of_cons.
        split; [intros [-> | Hin]; [lia | exact Hin] | auto].
    + rewrite decide_False.
      * apply (IH (lo + 1) (a :: rest)).
        -- split; [lia | exact Hinc].
        -- constructor; [lia |].
           apply (Forall_impl _ _ _ Hlt). intros x Hx. lia.
      * intros Hin. apply elem_of_cons in Hin as [-> | Hin]; [lia |].
        specialize (Hrest lo Hin). lia.
Qed.

(** X3. The round trip from an index list to a marker and back:
    [MarkerToList] of the marker that [ListToMarker] builds from [lst] with a
    nonzero mark value returns the indices of [lst] in increasing order,
    each once; a strictly increasing list comes back unchanged. *)
Theorem ListToMarker_MarkerToList_roundtrip (lst : list Z)
  (marker_size mark_val : Z) :
  mark_val <> 0 ->
  Forall (fun i => 0 <= i < marker_size) lst ->
  MarkerToList (ListToMarker lst marker_size mark_val)
  = filter (fun i => i ∈ lst) (seqZ 0 marker_size) /\
  (increasing_from 0 lst ->
   MarkerToList (ListToMarker lst marker_size mark_val) = lst).
Proof.
  intros Hval Hrange.
  assert (MarkerToList (ListToMarker lst marker_size mark_val)
          = filter (fun i => i ∈ lst) (seqZ 0 marker_size)) as Hfilter.
  { unfold MarkerToList, ListToMarker. rewrite MarkerToList_from_filter.
    rewrite marker_stores_length, length_replicate.
    destruct (Z.le_gt_cases 0 marker_size) as [Hn | Hn].
    - rewrite Z2Nat.id by exact Hn.
      apply filter_iff_in. intros i Hi. apply elem_of_seqZ in Hi.
      rewrite Z.sub_0_r, marker_stores_get
        by (rewrite length_replicate; lia).
      destruct (decide (i ∈ lst)) as [Hin | Hnot]; [tauto |].
      rewrite (array_get_replicate 0 0). tauto.
    - rewrite Z2Nat.nonpos by lia. rewrite (seqZ_nil 0 marker_size) by lia.
      reflexivity. }
  split; [exact Hfilter |].
  intros Hinc. rewrite Hfilter.
  destruct (Z.le_gt_cases 0 marker_size) as [Hn | Hn].
  - rewrite <- (Z2Nat.id marker_size) at 1 by exact Hn.
    apply filter_increasing; [exact Hinc |].
    apply (Forall_impl _ _ _ Hrange). intros x Hx. lia.
  - destruct lst as [| a rest]; [rewrite seqZ_nil by lia; reflexivity |].
    apply Forall_cons in Hrange as [Ha _]. lia.
Qed.

Lemma ListToMarker_MarkerToList_roundtrip_witness :
  MarkerToList (ListToMarker [1; 3; 4] 6 (-1)) = [1; 3; 4].
Proof.
  apply (ListToMarker_MarkerToList_roundtrip [1; 3; 4] 6 (-1)).
  - discriminate.
  - repeat constructor; lia.
  - simpl. lia.
Defined.

(** ** All components of a DOF array *)

(** One pass of the inner loop fills the block behind [pre] with the images
    of [src], provided every read [dofs[j]] still finds [src[j]]. *)
Lemma fill_block (f : Z -> Z) (idx : Z -> Z) (src pre blk post : list Z) :
  length blk = length src ->
  (forall j, 0 <= j < Z.of_nat (length src) ->
     idx j = Z.of_nat (length pre) + j) ->
  (forall j : nat, (j < length src)%nat ->
     array_get 0 (pre ++ map f (take j src) ++ drop j blk ++ post)
       (Z.of_nat j) = nth j src 0) ->
  fold_left (fun a i => array_set a (idx i) (f (array_get 0 a i)))
    (seqZ 0 (Z.of_nat (length src))) (pre ++ blk ++ post)
  = pre ++ map f src ++ post.
Proof.
  intros Hlen Hidx Hread.
  assert (forall j : nat, (j <= length src)%nat ->
            fold_left (fun a i => array_set a (idx i) (f (array_get 0 a i)))
              (seqZ 0 (Z.of_nat j)) (pre ++ blk ++ post)
            = pre ++ map f (take j src) ++ drop j blk ++ post) as Hstep.
  { induction j as [| j IH]; intros Hj; [reflexivity |].
    rewrite seqZ_S, fold_left_app, IH by lia. simpl fold_left.
    rewrite Z.add_0_l, Hread, Hidx by lia.
    destruct (lookup_lt_is_Some_2 blk j ltac:(lia)) as [b Hb].
    destruct (lookup_lt_is_Some_2 src j ltac:(lia)) as [s Hs].
    rewrite (drop_S _ _ _ Hb), (take_S_r _ _ _ Hs), map_app.
    rewrite (nth_lookup_Some _ _ _ _ Hs). simpl map.
    rewrite <- !app_assoc. simpl.
    rewrite (app_assoc pre (map f (take j src)) (b :: drop (S j) blk ++ post)).
    rewrite (app_assoc pre (map f (take j src)) (f s :: drop (S j) blk ++ post)).
    replace (Z.of_nat (length pre) + Z.of_nat j)
      with (Z.of_nat (length (pre ++ map f (take j src)))).
    - apply array_set_middle.
    - rewrite length_app, length_map, length_take. lia. }
  rewrite Hstep by lia.
  rewrite firstn_all, drop_ge by lia. reflexivity.
Qed.

Section AllComponents.

Variable o : Ordering_Type.
Variables (junk nd : Z) (v : nat) (dofs0 : list Z).

Local Abbreviation sz := (length dofs0).
Local Abbreviation size := (Z.of_nat (length dofs0)).
Local Abbreviation vdimZ := (Z.of_nat v).
Local Abbreviation block vd :=
  (map (fun d => Ordering_Map o nd vdimZ d vd) dofs0).

Hypothesis Hfits : size * vdimZ <= INT_MAX.

Lemma blocks_length (lo : Z) (m : nat) :
  length (flat_map (fun vd => block vd) (seqZ lo (Z.of_nat m))) = (sz * m)%nat.
Proof.
  revert lo. induction m as [| m IH]; intros lo; [simpl; lia |].
  rewrite seqZ_cons by lia. simpl flat_map.
  replace (Z.pred (Z.of_nat (S m))) with (Z.of_nat m) by lia.
  rewrite length_app, length_map, IH. lia.
Qed.

(** One component: the block at [size*vd] is filled. *)
Lemma block_step (vd : nat) (pre blk post : list Z) :
  (vd < v)%nat ->
  length pre = (sz * vd)%nat -> length blk = sz ->
  (forall j : nat, (j < sz)%nat ->
     array_get 0
       (pre ++ map (fun d => Ordering_Map o nd vdimZ d (Z.of_nat vd))
                 (take j dofs0) ++ drop j blk ++ post)
       (Z.of_nat j) = nth j dofs0 0) ->
  DofsToVDofs_block o nd vdimZ size (pre ++ blk ++ post) (Z.of_nat vd)
  = pre ++ block (Z.of_nat vd) ++ post.
Proof.
  intros Hvd Hpre Hblk Hread. unfold DofsToVDofs_block.
  apply (fill_block (fun d => Ordering_Map o nd vdimZ d (Z.of_nat vd))
           (fun i => int_add i (int_mul size (Z.of_nat vd))));
    [exact Hblk | | exact Hread].
  intros j Hj. unfold int_add, int_mul. rewrite Hpre.
  assert (0 <= size * Z.of_nat vd /\ size * Z.of_nat vd + size <= size * vdimZ)
    as [H0 H1] by nia.
  rewrite (int_wrap_id (size * Z.of_nat vd))
    by (unfold int_range, INT_MIN, INT_MAX in *; lia).
  rewrite int_wrap_id by (unfold int_range, INT_MIN, INT_MAX in *; lia).
  lia.
Qed.

(** Reads of [dofs[j]] while a later block is written. *)
Lemma read_untouched (pre' rest : list Z) (j : nat) :
  (j < sz)%nat ->
  array_get 0 ((dofs0 ++ pre') ++ rest) (Z.of_nat j) = nth j dofs0 0.
Proof.
  intros Hj. unfold array_get.
  destruct (Z.leb_spec 0 (Z.of_nat j)); [| lia].
  rewrite Nat2Z.id, <- app_assoc, app_nth1 by lia. reflexivity.
Qed.

(** Reads of [dofs[j]] while block 0 itself is overwritten. *)
Lemma read_in_place (f : Z -> Z) (post : list Z) (j : nat) :
  (j < sz)%nat ->
  array_get 0 ([] ++ map f (take j dofs0) ++ drop j dofs0 ++ post)
    (Z.of_nat j) = nth j dofs0 0.
Proof.
  intros Hj. unfold array_get.
  destruct (Z.leb_spec 0 (Z.of_nat j)); [| lia].
  rewrite Nat2Z.id. simpl.
  rewrite app_nth2 by (rewrite length_map, length_take; lia).
  rewrite length_map, length_take.
  replace (j - min j sz)%nat with 0%nat by lia.
  destruct (lookup_lt_is_Some_2 dofs0 j Hj) as [s Hs].
  rewrite (drop_S _ _ _ Hs). simpl.
  symmetry. apply nth_lookup_Some with (d := 0). exact Hs.
Qed.

Lemma SetSize_all :
  (1 <= v)%nat ->
  Array_SetSize junk dofs0 (int_mul size vdimZ)
  = dofs0 ++ replicate (sz * (v - 1)) junk.
Proof.
  intros Hv. unfold Array_SetSize, int_mul.
  rewrite int_wrap_id by (unfold int_range, INT_MIN, INT_MAX in *; nia).
  rewrite take_ge by nia. f_equal. f_equal. nia.
Qed.

(** [byNODES]: after the components [1 .. m]. *)
Lemma byNODES_upto (m : nat) :
  (m + 1 <= v)%nat ->
  fold_left (DofsToVDofs_block o nd vdimZ size) (seqZ 1 (Z.of_nat m))
    (dofs0 ++ replicate (sz * (v - 1)) junk)
  = dofs0 ++ flat_map (fun vd => block vd) (seqZ 1 (Z.of_nat m))
      ++ replicate (sz * (v - 1 - m)) junk.
Proof.
  induction m as [| m IH]; intros Hm.
  - simpl. rewrite Nat.sub_0_r. reflexivity.
  - rewrite seqZ_S, fold_left_app, IH by lia. simpl fold_left.
    rewrite flat_map_app. simpl flat_map. rewrite app_nil_r.
    replace (sz * (v - 1 - m))%nat with (sz + sz * (v - 1 - S m))%nat by nia.
    rewrite replicate_add.
    replace (1 + Z.of_nat m) with (Z.of_nat (S m)) by lia.
    set (B := flat_map (fun vd => block vd) (seqZ 1 (Z.of_nat m))).
    set (R2 := replicate (sz * (v - 1 - S m)) junk).
    replace (dofs0 ++ B ++ replicate sz junk ++ R2)
      with ((dofs0 ++ B) ++ replicate sz junk ++ R2)
      by (rewrite <- !app_assoc; reflexivity).
    replace (dofs0 ++ (B ++ block (Z.of_nat (S m))) ++ R2)
      with ((dofs0 ++ B) ++ block (Z.of_nat (S m)) ++ R2)
      by (rewrite <- !app_assoc; reflexivity).
    apply block_step; [lia | | apply length_replicate |].
    + unfold B. rewrite length_app, blocks_length. lia.
    + intros j Hj. apply read_untouched, Hj.
Qed.

(** [byVDIM]: the components [k - 1] down to 0, started with the components
    from [k] upwards in place. *)
Lemma byVDIM_downto (a0 : list Z) (k : nat) :
  (k <= v)%nat -> length a0 = (sz * v)%nat -> take sz a0 = dofs0 ->
  fold_left (DofsToVDofs_block o nd vdimZ size) (rev (seqZ 0 (Z.of_nat k)))
    (take (sz * k) a0
     ++ flat_map (fun vd => block vd) (seqZ (Z.of_nat k) (Z.of_nat (v - k))))
  = flat_map (fun vd => block vd) (seqZ 0 vdimZ).
Proof.
  intros Hk Hlen Hhead. induction k as [| k IH].
  - simpl. rewrite Nat.mul_0_r, Nat.sub_0_r. reflexivity.
  - rewrite seqZ_S, rev_app_distr. simpl rev. simpl fold_left.
    rewrite Z.add_0_l.
    replace (sz * S k)%nat with (sz * k + sz)%nat by lia.
    rewrite <- take_take_drop, <- app_assoc.
    rewrite block_step.
    + rewrite <- IH by lia. f_equal. f_equal.
      replace (Z.of_nat (v - k)) with (Z.of_nat (S (v - S k))) by lia.
      rewrite (seqZ_cons (Z.of_nat k)) by lia. simpl flat_map.
      replace (Z.succ (Z.of_nat k)) with (Z.of_nat (S k)) by lia.
      replace (Z.pred (Z.of_nat (S (v - S k)))) with (Z.of_nat (v - S k))
        by lia.
      reflexivity.
    + lia.
    + rewrite length_take. nia.
    + rewrite length_take, length_drop. nia.
    + intros j Hj. destruct k as [| k].
      * rewrite Nat.mul_0_r.
        change (take 0 a0) with (@nil Z). change (drop 0 a0) with a0.
        rewrite Hhead. apply read_in_place, Hj.
      * assert (take (sz * S k) a0 = dofs0 ++ drop sz (take (sz * S k) a0))
          as ->.
        { rewrite <- (take_drop sz (take (sz * S k) a0)) at 1.
          f_equal. rewrite take_take.
          replace (min sz (sz * S k)) with sz by nia. exact Hhead. }
        apply read_untouched, Hj.
Qed.

End AllComponents.

Lemma Ordering_Map_byNODES_zero nd vdim d :
  int_range d -> Ordering_Map byNODES nd vdim d 0 = d.
Proof.
  intros Hd. unfold Ordering_Map, int_mul, int_add, int_sub.
  rewrite Z.mul_0_r. change (int_wrap 0) with 0.
  rewrite Z.add_0_r, Z.sub_0_r, int_wrap_id by exact Hd.
  destruct (0 <=? d); reflexivity.
Qed.

Lemma DofsToVDofs_map fes vd dofs ndofs_arg :
  vdim fes <> 1 ->
  DofsToVDofs fes vd dofs ndofs_arg =
  map (fun d =>
         Ordering_Map (ordering fes)
           (if ndofs_arg <? 0 then ndofs fes else ndofs_arg) (vdim fes) d vd)
    dofs.
Proof.
  intros Hv. unfold DofsToVDofs.
  destruct (Z.eqb_spec (vdim fes) 1); [contradiction |].
  destruct (ordering fes); reflexivity.
Qed.

(** X4. The overload of [DofsToVDofs] that expands an array of DOFs to all
    components returns the per-component arrays one after the other: the
    block of component [vd], at offset [size*vd], is what
    [DofsToVDofs(vd, dofs)] computes, for both orderings and whatever the
    new entries held after the resize. *)
Theorem DofsToVDofs_all_blocks (junk : Z) (fes : FiniteElementSpace)
  (dofs : list Z) (ndofs_arg : Z) :
  1 <= vdim fes ->
  Z.of_nat (length dofs) * vdim fes <= INT_MAX ->
  Forall int_range dofs ->
  DofsToVDofs_all junk fes dofs ndofs_arg
  = flat_map (fun vd => DofsToVDofs fes vd dofs ndofs_arg)
      (seqZ 0 (vdim fes)).
Proof.
  intros Hv Hfits Hint. unfold DofsToVDofs_all.
  destruct (Z.eqb_spec (vdim fes) 1) as [H1 | Hne].
  - rewrite H1. change (seqZ 0 1) with [0]. simpl.
    unfold DofsToVDofs. rewrite H1. simpl. rewrite app_nil_r. reflexivity.
  - set (n := if ndofs_arg <? 0 then ndofs fes else ndofs_arg).
    set (v := Z.to_nat (vdim fes)).
    assert (vdim fes = Z.of_nat v) as Hvz by (unfold v; lia).
    assert (flat_map (fun vd => DofsToVDofs fes vd dofs ndofs_arg)
              (seqZ 0 (vdim fes))
            = flat_map
                (fun vd => map (fun d => Ordering_Map (ordering fes) n
                                           (Z.of_nat v) d vd) dofs)
                (seqZ 0 (Z.of_nat v))) as ->.
    { rewrite <- Hvz. apply flat_map_ext. intros vd.
      apply DofsToVDofs_map, Hne. }
    rewrite Hvz in Hfits.
    destruct (ordering fes).
    + unfold Ordering_DofsToVDofs_byNODES. rewrite Hvz.
      rewrite SetSize_all by (try assumption; lia).
      replace (Z.of_nat v - 1) with (Z.of_nat (v - 1)) by lia.
      rewrite byNODES_upto by (try assumption; lia).
      replace (v - 1 - (v - 1))%nat with 0%nat by lia.
      rewrite Nat.mul_0_r. simpl replicate. rewrite app_nil_r.
      rewrite (seqZ_cons 0 (Z.of_nat v)) by lia. simpl flat_map.
      replace (Z.pred (Z.of_nat v)) with (Z.of_nat (v - 1)) by lia.
      change (Z.succ 0) with 1. f_equal.
      rewrite <- (map_id dofs) at 1. apply map_ext_in. intros d Hd.
      rewrite Forall_forall in Hint.
      symmetry. apply (Ordering_Map_byNODES_zero n (Z.of_nat v) d).
      apply Hint, list_elem_of_In, Hd.
    + unfold Ordering_DofsToVDofs_byVDIM. rewrite Hvz.
      rewrite SetSize_all by (try assumption; lia).
      set (a0 := dofs ++ replicate (length dofs * (v - 1)) junk).
      rewrite <- (byVDIM_downto byVDIM n v dofs Hfits a0 v).
      * f_equal. rewrite Nat.sub_diag. simpl. rewrite app_nil_r.
        symmetry. apply take_ge. unfold a0.
        rewrite length_app, length_replicate. nia.
      * lia.
      * unfold a0. rewrite length_app, length_replicate. nia.
      * unfold a0. apply take_app_length.
Qed.

Lemma DofsToVDofs_all_blocks_witness :
  DofsToVDofs_all 99 (set_layout FiniteElementSpace_default 2 byVDIM 5)
    [3; -2] (-1)
  = DofsToVDofs (set_layout FiniteElementSpace_default 2 byVDIM 5) 0 [3; -2]
      (-1)
    ++ DofsToVDofs (set_layout FiniteElementSpace_default 2 byVDIM 5) 1
         [3; -2] (-1).
Proof.
  rewrite (DofsToVDofs_all_blocks 99
             (set_layout FiniteElementSpace_default 2 byVDIM 5) [3; -2] (-1)).
  - reflexivity.
  - simpl. lia.
  - simpl. unfold INT_MAX. lia.
  - repeat constructor; unfold INT_MIN, INT_MAX; lia.
Defined.

(** ** Dropping the orientation of signed DOFs *)

(** X5. [AdjustVDofs] leaves no negative entry behind: after the call every
    entry is the decoded index of the entry it replaces, a non-negative
    [int]; entries that were non-negative are untouched, and a second call
    changes nothing. *)
Theorem AdjustVDofs_nonneg_idempotent (vdofs : list Z) :
  Forall int_range vdofs ->
  Forall (fun j => 0 <= j <= INT_MAX) (AdjustVDofs vdofs) /\
  Forall2 (fun j j' => j' = DecodeDof j /\ (0 <= j -> j' = j))
    vdofs (AdjustVDofs vdofs) /\
  AdjustVDofs (AdjustVDofs vdofs) = AdjustVDofs vdofs.
Proof.
  intros Hint. induction vdofs as [| j rest IH].
  - split; [constructor | split; [constructor | reflexivity]].
  - apply Forall_cons in Hint as [Hj Hint].
    destruct (IH Hint) as (Hnonneg & Hrel & Hidem).
    pose proof (DecodeDof_range j Hj) as Hdec.
    change (AdjustVDofs (j :: rest))
      with (DecodeDof j :: AdjustVDofs rest) in *.
    split; [constructor; assumption |]. split.
    + constructor; [| exact Hrel].
      split; [reflexivity | apply DecodeDof_nonneg].
    + change (AdjustVDofs (DecodeDof j :: AdjustVDofs rest))
        with (DecodeDof (DecodeDof j) :: AdjustVDofs (AdjustVDofs rest)).
      rewrite Hidem, (DecodeDof_nonneg (DecodeDof j)) by lia. reflexivity.
Qed.

Lemma AdjustVDofs_nonneg_idempotent_witness :
  AdjustVDofs (AdjustVDofs [4; -5; 0; -1]) = AdjustVDofs [4; -5; 0; -1].
Proof.
  apply (AdjustVDofs_nonneg_idempotent [4; -5; 0; -1]).
  repeat constructor; unfold INT_MIN, INT_MAX; lia.
Defined.

(** ** The first element of every DOF *)

Section DofToArrays.

Variable t : Table.
Variables ne n : Z.

Hypothesis Hentries :
  forall i j, table_entry t ne i j -> 0 <= Table_at t i j < n.

Local Abbreviation arrays_ok k m st :=
  (Z.of_nat (length (fst st)) = n /\ Z.of_nat (length (snd st)) = n /\
   forall d, 0 <= d < n -> first_position t ne k m st d).

Lemma DofToArrays_entry_ok k m (st : list Z * list Z) :
  table_entry t ne k m ->
  arrays_ok k m st -> arrays_ok k (m + 1) (DofToArrays_entry t k st m).
Proof.
  intros Hkm (HlenE & HlenL & Hinv).
  pose proof (Hentries k m Hkm) as Hd0.
  unfold DofToArrays_entry.
  destruct (Z.ltb_spec (array_get 0 (fst st) (Table_at t k m)) 0)
    as [Hfree | Hset]; cbn [fst snd].
  - (* the DOF is met for the first time *)
    rewrite !array_set_length. split; [exact HlenE |]. split; [exact HlenL |].
    intros d Hd. unfold first_position. cbn [fst snd].
    destruct (decide (d = Table_at t k m)) as [-> | Hne].
    + rewrite !array_get_set_eq by lia. right.
      split; [exact Hkm |]. split; [right; lia |]. split; [reflexivity |].
      intros i j Hij Hbefore Heq.
      destruct (Hinv _ Hd0) as [[_ Hnone] | (Hel & _)].
      * destruct Hbefore as [Hlt | [-> Hlt]].
        { exfalso. apply (Hnone i j Hij); [left; exact Hlt | exact Heq]. }
        destruct (decide (j = m)) as [-> | Hjm]; [right; lia |].
        exfalso. apply (Hnone k j Hij); [right; lia | exact Heq].
      * destruct Hel as [Hrange _]. lia.
    + rewrite !array_get_set_ne by congruence.
      destruct (Hinv d Hd) as [[He Hnone] | (Hel & Hbef & Hat & Hfirst)].
      * left. split; [exact He |].
        intros i j Hij [Hlt | [-> Hlt]].
        -- apply Hnone; [exact Hij | left; exact Hlt].
        -- destruct (decide (j = m)) as [-> | Hjm]; [congruence |].
           apply Hnone; [exact Hij | right; lia].
      * right. split; [exact Hel |].
        split; [destruct Hbef as [? | [? ?]]; [left | right]; lia |].
        split; [exact Hat |].
        intros i j Hij [Hlt | [-> Hlt]] Heq.
        -- apply Hfirst; [exact Hij | left; exact Hlt | exact Heq].
        -- destruct (decide (j = m)) as [-> | Hjm]; [congruence |].
           apply Hfirst; [exact Hij | right; lia | exact Heq].
  - (* the DOF was met before *)
    split; [exact HlenE |]. split; [exact HlenL |].
    intros d Hd. unfold first_position.
    destruct (Hinv d Hd) as [[He Hnone] | (Hel & Hbef & Hat & Hfirst)].
    + left. split; [exact He |].
      intros i j Hij [Hlt | [-> Hlt]].
      * apply Hnone; [exact Hij | left; exact Hlt].
      * destruct (decide (j = m)) as [-> | Hjm].
        -- intros Heq. rewrite Heq in Hset. lia.
        -- apply Hnone; [exact Hij | right; lia].
    + right. split; [exact Hel |].
      split; [destruct Hbef as [? | [? ?]]; [left | right]; lia |].
      split; [exact Hat |].
      intros i j Hij [Hlt | [-> Hlt]] Heq.
      * apply Hfirst; [exact Hij | left; exact Hlt | exact Heq].
      * destruct (decide (j = m)) as [-> | Hjm].
        -- destruct Hbef as [? | [? ?]]; [left | right]; lia.
        -- apply Hfirst; [exact Hij | right; lia | exact Heq].
Qed.

(** Moving on to the next element. *)
Lemma arrays_ok_next k (st : list Z * list Z) m :
  (Table_RowSize t k <= m) ->
  arrays_ok k m st -> arrays_ok (k + 1) 0 st.
Proof.
  intros Hm (HlenE & HlenL & Hinv).
  assert (forall i j, table_entry t ne i j ->
            (visited_before (k + 1) 0 i j <-> visited_before k m i j))
    as Hsame.
  { intros i j [Hi Hj]. unfold visited_before. split.
    - intros [Hlt | [_ Hlt]]; [| lia].
      destruct (decide (i = k)) as [-> | ?]; [right; lia | left; lia].
    - intros [Hlt | [-> Hlt]]; left; lia. }
  split; [exact HlenE |]. split; [exact HlenL |].
  intros d Hd. unfold first_position.
  destruct (Hinv d Hd) as [[He Hnone] | (Hel & Hbef & Hat & Hfirst)].
  - left. split; [exact He |]. intros i j Hij Hb.
    apply Hnone; [exact Hij | apply Hsame; assumption].
  - right. split; [exact Hel |]. split; [apply Hsame; assumption |].
    split; [exact Hat |]. intros i j Hij Hb.
    apply Hfirst; [exact Hij | apply Hsame; assumption].
Qed.

Lemma DofToArrays_row_ok k (st : list Z * list Z) :
  0 <= k < ne ->
  arrays_ok k 0 st ->
  arrays_ok (k + 1) 0
    (fold_left (DofToArrays_entry t k) (seqZ 0 (Table_RowSize t k)) st).
Proof.
  intros Hk Hst.
  destruct (Z.le_gt_cases 0 (Table_RowSize t k)) as [Hrow | Hrow].
  - apply (arrays_ok_next k _ (Table_RowSize t k)); [lia |].
    apply (fold_left_seqZ_ind (DofToArrays_entry t k)
             (fun m st => arrays_ok k m st)); [exact Hrow | exact Hst |].
    intros m acc Hm Hacc. apply DofToArrays_entry_ok; [| exact Hacc].
    split; lia.
  - rewrite seqZ_nil by lia. simpl.
    apply (arrays_ok_next k st 0); [lia | exact Hst].
Qed.

End DofToArrays.

Lemma array_get_replicate_in {A} (d0 x : A) (m : nat) i :
  0 <= i < Z.of_nat m -> array_get d0 (replicate m x) i = x.
Proof.
  intros Hi. unfold array_get. destruct (Z.leb_spec 0 i); [| lia].
  apply nth_lookup_Some with (d := d0). apply lookup_replicate_2. lia.
Qed.

Lemma Array_SetSize_length {A} (junk : A) (a : list A) n :
  0 <= n -> Z.of_nat (length (Array_SetSize junk a n)) = n.
Proof.
  intros Hn. unfold Array_SetSize.
  rewrite length_app, length_take, length_replicate. lia.
Qed.

(** X6. The loop of [BuildDofToArrays] indexes the two arrays with the raw
    table entry [dofs[j]], so it needs an element-to-DOF table whose entries
    are plain DOF indices in [[0, ndofs)]; a sign-encoded entry [-1-d] would
    index the arrays out of bounds and is excluded here.  For such a table
    the call records for every DOF the first place at which the table lists
    it: [dof_elem_array[d]] is the first element whose row holds [d] and
    [dof_ldof_array[d]] the first position of [d] in that row, so that the
    table read at that place gives [d] back; a DOF that no row lists keeps
    [-1].  Arrays that are built already are returned as they are. *)
Theorem BuildDofToArrays_first_position (junk : Z) (fes : FiniteElementSpace)
  (mesh : Mesh) (t : Table) (st : list Z * list Z) :
  0 <= ndofs fes ->
  (forall i j, table_entry t (GetNE mesh) i j ->
               0 <= Table_at t i j < ndofs fes) ->
  (fst st <> [] -> BuildDofToArrays junk fes mesh t st = st) /\
  (fst st = [] ->
   let r := BuildDofToArrays junk fes mesh t st in
   Z.of_nat (length (fst r)) = ndofs fes /\
   Z.of_nat (length (snd r)) = ndofs fes /\
   forall d, 0 <= d < ndofs fes ->
     let e := array_get 0 (fst r) d in
     let l := array_get 0 (snd r) d in
     (e = -1 /\
      forall i j, table_entry t (GetNE mesh) i j -> Table_at t i j <> d)
     \/ (table_entry t (GetNE mesh) e l /\ Table_at t e l = d /\
         forall i j, table_entry t (GetNE mesh) i j -> Table_at t i j = d ->
                     e < i \/ (e = i /\ l <= j))).
Proof.
  intros Hn Hentries. unfold BuildDofToArrays. split.
  - intros Hbuilt. destruct (fst st) as [| x E]; [contradiction | reflexivity].
  - intros Hempty. rewrite Hempty. simpl negb. cbv iota zeta.
    set (init := (replicate (Z.to_nat (ndofs fes)) (-1),
                  Array_SetSize junk (snd st) (ndofs fes))).
    set (ne := GetNE mesh) in *.
    set (n := ndofs fes) in *.
    assert (Z.of_nat (length (fst init)) = n /\
            Z.of_nat (length (snd init)) = n /\
            forall d, 0 <= d < n -> first_position t ne 0 0 init d) as Hinit.
    { unfold init. cbn [fst snd]. rewrite length_replicate.
      split; [lia |]. split; [apply Array_SetSize_length, Hn |].
      intros d Hd. left. cbn [fst]. split.
      - apply array_get_replicate_in. lia.
      - intros i j [Hi Hj] [Hlt | [-> Hlt]]; lia. }
    assert (forall k final,
              ne <= k ->
              (Z.of_nat (length (fst final)) = n /\
               Z.of_nat (length (snd final)) = n /\
               forall d, 0 <= d < n -> first_position t ne k 0 final d) ->
              Z.of_nat (length (fst final)) = n /\
              Z.of_nat (length (snd final)) = n /\
              forall d, 0 <= d < n ->
                let e := array_get 0 (fst final) d in
                let l := array_get 0 (snd final) d in
                (e = -1 /\
                 forall i j, table_entry t ne i j -> Table_at t i j <> d)
                \/ (table_entry t ne e l /\ Table_at t e l = d /\
                    forall i j, table_entry t ne i j -> Table_at t i j = d ->
                                e < i \/ (e = i /\ l <= j))) as Hend.
    { intros k final Hk (HlenE & HlenL & Hinv).
      split; [exact HlenE |]. split; [exact HlenL |].
      intros d Hd.
      destruct (Hinv d Hd) as [[He Hnone] | (Hel & _ & Hat & Hfirst)].
      - left. split; [exact He |]. intros i j Hij.
        apply Hnone; [exact Hij |]. destruct Hij as [Hi _]. left. lia.
      - right. split; [exact Hel |]. split; [exact Hat |].
        intros i j Hij. apply Hfirst; [exact Hij |].
        destruct Hij as [Hi _]. left. lia. }
    destruct (Z.le_gt_cases 0 ne) as [Hne | Hne].
    + apply (Hend ne); [lia |].
      apply (fold_left_seqZ_ind
               (fun st i => fold_left (DofToArrays_entry t i)
                              (seqZ 0 (Table_RowSize t i)) st)
               (fun k st =>
                  Z.of_nat (length (fst st)) = n /\
                  Z.of_nat (length (snd st)) = n /\
                  forall d, 0 <= d < n -> first_position t ne k 0 st d));
        [exact Hne | exact Hinit |].
      intros k acc Hk Hacc.
      apply (DofToArrays_row_ok t ne n Hentries); assumption.
    + rewrite seqZ_nil by lia. cbn [fold_left].
      apply (Hend 0 init); [lia | exact Hinit].
Qed.

Lemma BuildDofToArrays_first_position_witness :
  Z.of_nat
    (length
       (fst (BuildDofToArrays 7 three_dof_space two_children_mesh
               {| Size := 2; tab_I := [0; 2; 4]; tab_J := [0; 2; 2; 1] |}
               ([], [])))) = 3 /\
  let r :=
    BuildDofToArrays 7 three_dof_space two_children_mesh
      {| Size := 2; tab_I := [0; 2; 4]; tab_J := [0; 2; 2; 1] |} ([], []) in
  let t := {| Size := 2; tab_I := [0; 2; 4]; tab_J := [0; 2; 2; 1] |} in
  let e := array_get 0 (fst r) 2 in
  let l := array_get 0 (snd r) 2 in
  (e = -1 /\
   forall i j, table_entry t (GetNE two_children_mesh) i j ->
               Table_at t i j <> 2)
  \/ (table_entry t (GetNE two_children_mesh) e l /\ Table_at t e l = 2 /\
      forall i j, table_entry t (GetNE two_children_mesh) i j ->
                  Table_at t i j = 2 -> e < i \/ (e = i /\ l <= j)).
Proof.
  pose proof (BuildDofToArrays_first_position 7 three_dof_space
                two_children_mesh
                {| Size := 2; tab_I := [0; 2; 4]; tab_J := [0; 2; 2; 1] |}
                ([], [])) as Hb.
  destruct Hb as [_ Hb].
  - change (ndofs three_dof_space) with 3. lia.
  - intros i j [Hi Hj]. change (GetNE two_children_mesh) with 2 in Hi.
    change (ndofs three_dof_space) with 3.
    assert (i = 0 \/ i = 1) as [-> | ->] by lia.
    + change (Table_RowSize _ 0) with 2 in Hj.
      assert (j = 0 \/ j = 1) as [-> | ->] by lia;
        vm_compute; split; congruence.
    + change (Table_RowSize _ 1) with 2 in Hj.
      assert (j = 0 \/ j = 1) as [-> | ->] by lia;
        vm_compute; split; congruence.
  - destruct (Hb eq_refl) as (Hlen & _ & Hdofs).
    split; [exact Hlen |].
    apply (Hdofs 2). change (ndofs three_dof_space) with 3. lia.
Defined.

(** ** Element orders *)

Lemma char_wrap_id p : -128 <= p <= 127 -> char_wrap p = p.
Proof. intros Hp. unfold char_wrap. rewrite Z.mod_small; lia. Qed.

(** X7. [SetElementOrder] aborts exactly when the space is out of date, the
    element index is invalid or the order is outside [[0, CHAR_MAX)].
    Otherwise the space it leaves is a variable-order space with one order
    per element, in which [GetElementOrder] returns [p] for element [i] and,
    for every other element, the order it returned before (the default
    order, for a space that had fixed order). *)
Theorem SetElementOrder_GetElementOrder (mesh : Mesh)
  (fec : FiniteElementCollection) (fes : FiniteElementSpace) (i p : Z) :
  (IsVariableOrder fes = true ->
   Z.of_nat (length (elem_order fes)) = GetNE mesh) ->
  -128 <= DefaultOrder fec <= 127 ->
  (SetElementOrder mesh fec fes i p = Aborted <->
   ~ (sequence fes = GetSequence mesh /\ 0 <= i < GetNE mesh /\
      0 <= p < CHAR_MAX)) /\
  SetElementOrder mesh fec fes i p <> Thrown /\
  forall fes', SetElementOrder mesh fec fes i p = Normal fes' ->
    IsVariableOrder fes' = true /\
    Z.of_nat (length (elem_order fes')) = GetNE mesh /\
    sequence fes' = sequence fes /\
    GetElementOrder mesh fec fes' i = Normal p /\
    forall j, j <> i ->
      GetElementOrder mesh fec fes' j = GetElementOrder mesh fec fes j.
Proof.
  intros Hsize Hdef. unfold SetElementOrder, IsVariableOrder in *.
  destruct (Z.eqb_spec (sequence fes) (GetSequence mesh)) as [Hseq | Hseq];
    cbn [negb].
  2: { split; [split; [intros _ [? _]; contradiction | reflexivity] |].
       split; [discriminate | intros fes' Hrun; discriminate Hrun]. }
  destruct (Z.leb_spec 0 i) as [Hi0 | Hi0]; cbn [andb negb].
  2: { split; [split; [intros _ (_ & ? & _); lia | reflexivity] |].
       split; [discriminate | intros fes' Hrun; discriminate Hrun]. }
  destruct (Z.ltb_spec i (GetNE mesh)) as [Hi1 | Hi1]; cbn [negb].
  2: { split; [split; [intros _ (_ & ? & _); lia | reflexivity] |].
       split; [discriminate | intros fes' Hrun; discriminate Hrun]. }
  destruct (Z.leb_spec 0 p) as [Hp0 | Hp0]; cbn [andb negb].
  2: { split; [split; [intros _ (_ & _ & ?); lia | reflexivity] |].
       split; [discriminate | intros fes' Hrun; discriminate Hrun]. }
  destruct (Z.ltb_spec p CHAR_MAX) as [Hp1 | Hp1]; cbn [negb].
  2: { split; [split; [intros _ (_ & _ & ?); lia | reflexivity] |].
       split; [discriminate | intros fes' Hrun; discriminate Hrun]. }
  assert (char_wrap p = p) as Hp
    by (apply char_wrap_id; unfold CHAR_MAX in *; lia).
  rewrite Hp.
  assert (forall r : result FiniteElementSpace,
            (exists s, r = Normal s) ->
            (r = Aborted <->
             ~ (sequence fes = GetSequence mesh /\ 0 <= i < GetNE mesh /\
                0 <= p < CHAR_MAX)) /\ r <> Thrown) as Hnormal.
  { intros r [s ->]. split; [| discriminate].
    split; [discriminate | intros Hnot; exfalso; apply Hnot; lia]. }
  assert (forall fes',
            Z.of_nat (length (elem_order fes')) = GetNE mesh ->
            sequence fes' = sequence fes ->
            GetElementOrder mesh fec fes' i
            = Normal (array_get 0 (elem_order fes') i)) as Hget.
  { intros fes' Hlen Hs. unfold GetElementOrder, GetElementOrderImpl.
    rewrite Hs, Hseq, Z.eqb_refl. cbn [negb].
    destruct (Z.leb_spec 0 i); [| lia].
    destruct (Z.ltb_spec i (GetNE mesh)); [| lia]. cbn [andb negb].
    destruct (Z.ltb_spec 0 (Z.of_nat (length (elem_order fes')))); [| lia].
    reflexivity. }
  destruct (Z.ltb_spec 0 (Z.of_nat (length (elem_order fes)))) as [Hvar | Hfix].
  - (* already a variable-order space *)
    specialize (Hsize eq_refl).
    destruct (Z.eqb_spec (array_get 0 (elem_order fes) i) p) as [Hsame | Hnew];
      cbn [negb].
    + destruct (Hnormal (Normal fes)) as [Habort Hthrown]; [eauto |].
      split; [exact Habort |]. split; [exact Hthrown |].
      intros fes' Hrun. injection Hrun as <-.
      split; [apply Z.ltb_lt; lia |]. split; [exact Hsize |].
      split; [reflexivity |].
      split; [rewrite Hget by auto; rewrite Hsame; reflexivity | reflexivity].
    + destruct (Hnormal (Normal (set_elem_order fes
                                   (array_set (elem_order fes) i p) true)))
        as [Habort Hthrown]; [eauto |].
      split; [exact Habort |]. split; [exact Hthrown |].
      intros fes' Hrun. injection Hrun as <-. cbn [elem_order set_elem_order
        sequence].
      rewrite array_set_length.
      split; [apply Z.ltb_lt; lia |]. split; [exact Hsize |].
      split; [reflexivity |]. split.
      * rewrite Hget by (cbn; rewrite ?array_set_length; auto).
        cbn [elem_order set_elem_order].
        rewrite array_get_set_eq by lia. reflexivity.
      * intros j Hj. unfold GetElementOrder, GetElementOrderImpl.
        cbn [elem_order set_elem_order sequence].
        rewrite array_set_length, array_get_set_ne by congruence.
        reflexivity.
  - (* a fixed-order space is converted *)
    destruct (Hnormal
                (Normal (set_elem_order fes
                           (array_set
                              (replicate (Z.to_nat (GetNE mesh))
                                 (char_wrap (DefaultOrder fec))) i p) true)))
      as [Habort Hthrown]; [eauto |].
    split; [exact Habort |]. split; [exact Hthrown |].
    intros fes' Hrun. injection Hrun as <-.
    cbn [elem_order set_elem_order sequence].
    rewrite array_set_length, length_replicate.
    split; [apply Z.ltb_lt; lia |]. split; [lia |].
    split; [reflexivity |]. split.
    + rewrite Hget
        by (cbn; rewrite ?array_set_length, ?length_replicate; auto; lia).
      cbn [elem_order set_elem_order].
      rewrite array_get_set_eq by (rewrite length_replicate; lia).
      reflexivity.
    + intros j Hj. unfold GetElementOrder, GetElementOrderImpl.
      cbn [elem_order set_elem_order sequence].
      rewrite array_set_length, length_replicate.
      rewrite array_get_set_ne by congruence.
      destruct (sequence fes =? GetSequence mesh); cbn [negb];
        [| reflexivity].
      destruct (Z.leb_spec 0 j); cbn [andb negb]; [| reflexivity].
      destruct (Z.ltb_spec j (GetNE mesh)); cbn [negb]; [| reflexivity].
      destruct (Z.ltb_spec 0 (Z.of_nat (Z.to_nat (GetNE mesh)))); [| lia].
      destruct (Z.ltb_spec 0 (Z.of_nat (length (elem_order fes)))); [lia |].
      rewrite array_get_replicate_in by lia.
      rewrite char_wrap_id by exact Hdef. reflexivity.
Qed.

Lemma SetElementOrder_GetElementOrder_witness :
  (fes ← SetElementOrder two_children_mesh h1_collection
           (set_sequence three_dof_space 1) 1 3;
   GetElementOrder two_children_mesh h1_collection fes 1)
  = Normal 3.
Proof.
  pose proof (SetElementOrder_GetElementOrder two_children_mesh h1_collection
                (set_sequence three_dof_space 1) 1 3) as Hs.
  destruct Hs as (_ & _ & Hs).
  - intros Hvar. discriminate Hvar.
  - simpl. lia.
  - destruct (Hs _ eq_refl) as (_ & _ & _ & Hget & _). exact Hget.
Defined.

Lemma int_add_one_ne z : int_add z 1 <> z \/ ~ int_range z.
Proof.
  destruct (decide (int_range z)) as [Hz | Hz]; [left | right; exact Hz].
  unfold int_add, int_wrap, int_range, INT_MIN, INT_MAX in *.
  destruct (decide (z = 2147483647)) as [-> | Hne].
  - vm_compute. discriminate.
  - rewrite Z.mod_small by lia. lia.
Qed.

(** X8. A successful [SetElementOrder] either changes nothing (the element
    of a variable-order space had the order already) or leaves a change of
    orders pending.  With a change pending, [Update(want_transform = true)]
    aborts whatever the rebuilding methods would do: a transformation cannot
    be asked for after a change of orders; without one it is the no-op. *)
Theorem SetElementOrder_then_Update
  (UpdateNURBS UpdateElementOrders' :
     FiniteElementSpace -> result FiniteElementSpace)
  (Destroy : FiniteElementSpace -> FiniteElementSpace)
  (Construct : FiniteElementSpace -> result FiniteElementSpace)
  (BuildElementToDofTable : FiniteElementSpace -> FiniteElementSpace)
  (build_transformation :
     FiniteElementSpace -> option Table -> Z -> result FiniteElementSpace)
  (mesh : Mesh) (fec : FiniteElementCollection)
  (fes fes' : FiniteElementSpace) (i p : Z) :
  int_range (GetSequence mesh) ->
  SetElementOrder mesh fec fes i p = Normal fes' ->
  (orders_changed fes' = true \/
   (fes' = fes /\ IsVariableOrder fes = true /\
    array_get 0 (elem_order fes) i = p)) /\
  Update UpdateNURBS UpdateElementOrders' Destroy Construct
    BuildElementToDofTable build_transformation mesh true fes'
  = if orders_changed fes' then Aborted else Normal fes'.
Proof.
  intros Hint Hrun.
  assert (sequence fes' = GetSequence mesh /\
          (orders_changed fes' = true \/
           (fes' = fes /\ IsVariableOrder fes = true /\
            array_get 0 (elem_order fes) i = p))) as [Hseq Hcases].
  { unfold SetElementOrder, IsVariableOrder in *.
    destruct (Z.eqb_spec (sequence fes) (GetSequence mesh)) as [Hseq | ?];
      cbn [negb] in Hrun; [| discriminate].
    destruct ((0 <=? i) && (i <? GetNE mesh)); cbn [negb] in Hrun;
      [| discriminate].
    destruct ((0 <=? p) && (p <? CHAR_MAX)); cbn [negb] in Hrun;
      [| discriminate].
    destruct (0 <? Z.of_nat (length (elem_order fes))).
    - destruct (Z.eqb_spec (array_get 0 (elem_order fes) i) p);
        cbn [negb] in Hrun; injection Hrun as <-.
      + split; [exact Hseq | right; auto].
      + split; [exact Hseq | left; reflexivity].
    - injection Hrun as <-. split; [exact Hseq | left; reflexivity]. }
  split; [exact Hcases |].
  unfold Update. rewrite Hseq, Z.eqb_refl.
  destruct (orders_changed fes'); cbn [negb andb]; [| reflexivity].
  destruct (Z.eqb_spec (GetSequence mesh) (int_add (GetSequence mesh) 1))
    as [Heq | _]; [| reflexivity].
  destruct (int_add_one_ne (GetSequence mesh)) as [Hne | Hout];
    [congruence | contradiction].
Qed.

Lemma SetElementOrder_then_Update_witness :
  Update Normal Normal (fun fes => fes) Normal (fun fes => fes)
    (fun fes _ _ => Normal fes) two_children_mesh true
    (set_elem_order (set_sequence three_dof_space 1) [2; 3] true)
  = Aborted.
Proof.
  destruct (SetElementOrder_then_Update Normal Normal (fun fes => fes) Normal
              (fun fes => fes) (fun fes _ _ => Normal fes) two_children_mesh
              h1_collection (set_sequence three_dof_space 1)
              (set_elem_order (set_sequence three_dof_space 1) [2; 3] true)
              1 3)
    as [_ Hupdate].
  - vm_compute. split; discriminate.
  - reflexivity.
  - exact Hupdate.
Defined.

(** X9. What a normal return of [Update] tells: the space is in sync with
    the mesh afterwards; a pending change of orders was only accepted
    without transformation and with the mesh unchanged; and with
    [want_transform] the call was either the no-op or the mesh was exactly
    one modification ahead. *)
Theorem Update_normal_return
  (UpdateNURBS UpdateElementOrders' :
     FiniteElementSpace -> result FiniteElementSpace)
  (Destroy : FiniteElementSpace -> FiniteElementSpace)
  (Construct : FiniteElementSpace -> result FiniteElementSpace)
  (BuildElementToDofTable : FiniteElementSpace -> FiniteElementSpace)
  (build_transformation :
     FiniteElementSpace -> option Table -> Z -> result FiniteElementSpace)
  (mesh : Mesh) (want_transform : bool) (fes fes' : FiniteElementSpace) :
  Update UpdateNURBS UpdateElementOrders' Destroy Construct
    BuildElementToDofTable build_transformation mesh want_transform fes
  = Normal fes' ->
  sequence fes' = GetSequence mesh /\
  (orders_changed fes = true ->
   want_transform = false /\ GetSequence mesh = sequence fes) /\
  (want_transform = true ->
   (fes' = fes /\ GetSequence mesh = sequence fes /\
    orders_changed fes = false)
   \/ GetSequence mesh = int_add (sequence fes) 1).
Proof.
  unfold Update. intros Hrun.
  destruct (Z.eqb_spec (GetSequence mesh) (sequence fes)) as [Hseq | Hseq];
    destruct (orders_changed fes) eqn:Hord; cbn [negb andb] in Hrun.
  - (* in sync, orders changed *)
    destruct want_transform; cbn [andb] in Hrun.
    + destruct (Z.eqb_spec (GetSequence mesh) (int_add (sequence fes) 1))
        as [Hnext | Hnext]; cbn [negb] in Hrun; [| discriminate].
      split; [| split; [intros _ | intros _; right; exact Hnext]].
      * destruct (NURBSext fes).
        -- destruct (UpdateNURBS fes); try discriminate.
           injection Hrun as <-. reflexivity.
        -- repeat match type of Hrun with
                  | context [mbind _ ?r] =>
                      destruct r eqn:?; cbn [mbind result_bind] in Hrun;
                      try discriminate
                  end.
           injection Hrun as <-. reflexivity.
      * exfalso. destruct (int_add_one_ne (sequence fes)) as [Hne | Hout];
          [congruence |].
        apply Hout. rewrite <- Hseq, Hnext. apply int_wrap_range.
    + split; [| split; [auto | discriminate]].
      destruct (NURBSext fes).
      * destruct (UpdateNURBS fes); try discriminate.
        injection Hrun as <-. reflexivity.
      * repeat match type of Hrun with
               | context [mbind _ ?r] =>
                   destruct r eqn:?; cbn [mbind result_bind] in Hrun;
                   try discriminate
               end.
        injection Hrun as <-. reflexivity.
  - (* in sync, nothing pending: the no-op *)
    injection Hrun as <-.
    split; [congruence |]. split; [discriminate | intros _; left; auto].
  - (* mesh changed and orders changed *)
    destruct (want_transform
              && negb (GetSequence mesh =? int_add (sequence fes) 1));
      discriminate.
  - (* mesh changed *)
    destruct want_transform; cbn [andb] in Hrun.
    + destruct (Z.eqb_spec (GetSequence mesh) (int_add (sequence fes) 1))
        as [Hnext | Hnext]; cbn [negb] in Hrun; [| discriminate].
      split; [| split; [discriminate | intros _; right; exact Hnext]].
      destruct (NURBSext fes).
      * destruct (UpdateNURBS fes); try discriminate.
        injection Hrun as <-. reflexivity.
      * repeat match type of Hrun with
               | context [mbind _ ?r] =>
                   destruct r eqn:?; cbn [mbind result_bind] in Hrun;
                   try discriminate
               end.
        injection Hrun as <-. reflexivity.
    + split; [| split; [discriminate | discriminate]].
      destruct (NURBSext fes).
      * destruct (UpdateNURBS fes); try discriminate.
        injection Hrun as <-. reflexivity.
      * repeat match type of Hrun with
               | context [mbind _ ?r] =>
                   destruct r eqn:?; cbn [mbind result_bind] in Hrun;
                   try discriminate
               end.
        injection Hrun as <-. reflexivity.
Qed.

Lemma Update_normal_return_witness :
  sequence
    (set_sequence three_dof_space 1) = GetSequence (empty_mesh 1).
Proof.
  apply (Update_normal_return Normal Normal (fun fes => fes) Normal
           (fun fes => fes) (fun fes _ _ => Normal fes) (empty_mesh 1) false
           three_dof_space (set_sequence three_dof_space 1)).
  reflexivity.
Defined.

(** ** The lowest order of a mask *)

Lemma land_one_bit0 bits :
  (Z.land bits 1 =? 0) = negb (Z.testbit bits 0).
Proof.
  change 1 with (Z.ones 1). rewrite Z.land_ones by lia.
  change (2 ^ 1) with 2. rewrite Zmod_odd, Z.bit0_odd.
  destruct (Z.odd bits); reflexivity.
Qed.

Lemma MinOrder_from_lowest (fuel : nat) : forall order bits,
  0 < bits < 2 ^ Z.of_nat fuel ->
  let r := MinOrder_from fuel order bits in
  order <= r < order + Z.of_nat fuel /\
  Z.testbit bits (r - order) = true /\
  forall j, 0 <= j < r - order -> Z.testbit bits j = false.
Proof.
  induction fuel as [| fuel IH]; intros order bits Hbits.
  - change (2 ^ Z.of_nat 0) with 1 in Hbits. lia.
  - cbn [MinOrder_from]. cbv zeta.
    destruct (Z.eqb_spec bits 0) as [-> | _]; [lia |].
    rewrite land_one_bit0, negb_involutive.
    destruct (Z.testbit bits 0) eqn:Hbit0.
    + rewrite Z.sub_diag. split; [lia |]. split; [exact Hbit0 |].
      intros j Hj. lia.
    + assert (0 < Z.shiftr bits 1 < 2 ^ Z.of_nat fuel) as Hhalf.
      { rewrite Z.shiftr_div_pow2 by lia. change (2 ^ 1) with 2.
        rewrite Z.bit0_odd in Hbit0.
        assert (Z.even bits = true) as Heven
          by (rewrite <- Z.negb_odd, Hbit0; reflexivity).
        apply Z.even_spec in Heven as [h ->].
        replace (2 * h / 2) with h
          by (rewrite Z.mul_comm, Z.div_mul; lia).
        rewrite Nat2Z.inj_succ, Z.pow_succ_r in Hbits by lia. lia. }
      destruct (IH (order + 1) (Z.shiftr bits 1) Hhalf)
        as (Hrange & Hset & Hlow).
      set (r := MinOrder_from fuel (order + 1) (Z.shiftr bits 1)) in *.
      split; [lia |]. split.
      * rewrite Z.shiftr_spec in Hset by lia.
        replace (r - order) with (r - (order + 1) + 1) by lia. exact Hset.
      * intros j Hj. destruct (decide (j = 0)) as [-> | Hj0]; [exact Hbit0 |].
        specialize (Hlow (j - 1) ltac:(lia)).
        rewrite Z.shiftr_spec in Hlow by lia.
        replace (j - 1 + 1) with j in Hlow by lia. exact Hlow.
Qed.

(** X10. [MinOrder] returns the position of the lowest bit of the mask: for
    a nonzero mask of [width] bits the order returned is one the mask holds,
    and no lower order is in the mask.  For the empty mask, which the
    assertion excludes, the value returned is 0. *)
Theorem MinOrder_lowest_bit (width bits : Z) :
  0 < bits < 2 ^ width ->
  0 <= MinOrder width bits < width /\
  Z.testbit bits (MinOrder width bits) = true /\
  (forall j, 0 <= j < MinOrder width bits -> Z.testbit bits j = false) /\
  MinOrder width 0 = 0.
Proof.
  intros Hbits.
  assert (0 <= width) as Hw.
  { destruct (Z.le_gt_cases 0 width); [assumption |].
    rewrite Z.pow_neg_r in Hbits by lia. lia. }
  unfold MinOrder.
  destruct (MinOrder_from_lowest (Z.to_nat width) 0 bits)
    as (Hrange & Hset & Hlow); [rewrite Z2Nat.id by exact Hw; exact Hbits |].
  rewrite Z.sub_0_r in Hset, Hlow.
  split; [lia |]. split; [exact Hset |]. split; [exact Hlow |].
  destruct (Z.to_nat width); reflexivity.
Qed.

Lemma MinOrder_lowest_bit_witness :
  Z.testbit 12 (MinOrder 8 12) = true.
Proof.
  apply (MinOrder_lowest_bit 8 12). simpl. lia.
Defined.

(** ** Looking up a block by its size *)

Lemma FindDofs_from_spec t row ndof (remaining : nat) : forall beg,
  match FindDofs_from t row ndof remaining beg with
  | Normal b =>
      exists v, first_variant_of_size t row ndof beg
                  (beg + Z.of_nat remaining) v /\ b = Table_at t row v
  | Aborted =>
      forall v, beg <= v < beg + Z.of_nat remaining ->
                variant_size t row v <> ndof
  | Thrown => False
  end.
Proof.
  induction remaining as [| remaining IH]; intros beg.
  - simpl. intros v Hv. lia.
  - cbn [FindDofs_from].
    destruct (Z.eqb_spec
                (int_sub (Table_at t row (beg + 1)) (Table_at t row beg)) ndof)
      as [Heq | Hne].
    + exists beg. split; [| reflexivity].
      split; [lia |]. split; [exact Heq | intros u Hu; lia].
    + specialize (IH (beg + 1)).
      destruct (FindDofs_from t row ndof remaining (beg + 1)) as [b | |].
      * destruct IH as (v & (Hv & Hsize & Hfirst) & ->).
        exists v. split; [| reflexivity].
        split; [lia |]. split; [exact Hsize |].
        intros u Hu. destruct (decide (u = beg)) as [-> | Hub];
          [exact Hne | apply Hfirst; lia].
      * intros v Hv. destruct (decide (v = beg)) as [-> | Hvb];
          [exact Hne | apply IH; lia].
      * exact IH.
Qed.

(** X11. [FindDofs] returns the start of the first variant of the row whose
    block has [ndof] DOFs, and it aborts exactly when the row has no such
    variant (in particular for a row without variants); it never throws. *)
Theorem FindDofs_first_block (t : Table) (row ndof : Z) :
  (forall b,
     FindDofs t row ndof = Normal b <->
     exists v, first_variant_of_size t row ndof 0 (Table_RowSize t row) v /\
               b = Table_at t row v) /\
  (FindDofs t row ndof = Aborted <->
   forall v, 0 <= v < Table_RowSize t row -> variant_size t row v <> ndof) /\
  FindDofs t row ndof <> Thrown.
Proof.
  unfold FindDofs.
  pose proof (FindDofs_from_spec t row ndof
                (Z.to_nat (Table_RowSize t row)) 0) as Hspec.
  assert (forall v, 0 <= v < 0 + Z.of_nat (Z.to_nat (Table_RowSize t row))
                    <-> 0 <= v < Table_RowSize t row) as Hbound
    by (intros v; lia).
  destruct (FindDofs_from t row ndof (Z.to_nat (Table_RowSize t row)) 0)
    as [b0 | |].
  - destruct Hspec as (v0 & (Hv0 & Hsize0 & Hfirst0) & ->).
    split; [| split; [| discriminate]].
    + intros b. split.
      * intros Hb. injection Hb as <-. exists v0. split; [| reflexivity].
        split; [apply Hbound, Hv0 | split; assumption].
      * intros (v & (Hv & Hsize & Hfirst) & ->). f_equal. f_equal.
        destruct (Z.lt_trichotomy v v0) as [Hlt | [Heq | Hgt]];
          [| congruence |].
        -- exfalso. apply (Hfirst0 v); [lia | exact Hsize].
        -- exfalso. apply (Hfirst v0); [lia | exact Hsize0].
    + split; [discriminate |]. intros Hnone. exfalso.
      apply (Hnone v0); [apply Hbound, Hv0 | exact Hsize0].
  - split; [| split; [| discriminate]].
    + intros b. split; [discriminate |].
      intros (v & (Hv & Hsize & _) & _). exfalso.
      apply (Hspec v); [apply Hbound, Hv | exact Hsize].
    + split; [| reflexivity]. intros _ v Hv.
      apply Hspec, Hbound, Hv.
  - contradiction.
Qed.

(** ** The offsets of a QuadratureSpace *)

Lemma sum_snoc (l : list Z) a :
  foldr Z.add 0 (l ++ [a]) = foldr Z.add 0 l + a.
Proof. induction l as [| b l IH]; simpl; [lia | rewrite IH; lia]. Qed.

Section QuadratureSpace_facts.

Variable mesh : Mesh.
Variable GetElementBaseGeometry : Z -> Geometry.
Variable IntegrationRule : Type.
Variable IntRules_Get : Geometry -> Z -> IntegrationRule.
Variable GetNPoints : IntegrationRule -> Z.
Variable order : Z.

Local Abbreviation np k :=
  (GetNPoints (IntRules_Get (GetElementBaseGeometry k) order)).
Local Abbreviation before :=
  (points_before GetElementBaseGeometry IntegrationRule IntRules_Get
     GetNPoints order).

Lemma points_before_succ k : 0 <= k -> before (k + 1) = before k + np k.
Proof.
  intros Hk. unfold points_before. rewrite seqZ_snoc, map_app by exact Hk.
  apply sum_snoc.
Qed.

Lemma points_before_mono ne :
  (forall k, 0 <= k < ne -> 0 <= np k) ->
  forall i j, 0 <= i <= j -> j <= ne -> before i <= before j.
Proof.
  intros Hnonneg i j Hij Hj.
  replace j with (i + Z.of_nat (Z.to_nat (j - i))) in * by lia.
  induction (Z.to_nat (j - i)) as [| m IH]; [rewrite Z.add_0_r; lia |].
  replace (i + Z.of_nat (S m)) with (i + Z.of_nat m + 1) in * by lia.
  rewrite points_before_succ by lia.
  specialize (Hnonneg (i + Z.of_nat m) ltac:(lia)).
  specialize (IH ltac:(lia) ltac:(lia)). lia.
Qed.

Lemma Construct_element_ok ne (st : QuadratureOffsets IntegrationRule) k :
  (forall i, 0 <= i < ne -> 0 <= np i) -> before ne <= INT_MAX ->
  0 <= k < ne ->
  Z.of_nat (length (element_offsets _ st)) = ne + 1 ->
  qs_offset _ st = before k ->
  (forall g r, int_rule _ st g = Some r -> r = IntRules_Get g order) ->
  let st' :=
    Construct_element GetElementBaseGeometry IntegrationRule IntRules_Get
      GetNPoints order st k in
  Z.of_nat (length (element_offsets _ st')) = ne + 1 /\
  qs_offset _ st' = before (k + 1) /\
  array_get 0 (element_offsets _ st') k = before k /\
  (forall i, i <> k ->
     array_get 0 (element_offsets _ st') i
     = array_get 0 (element_offsets _ st) i) /\
  (forall g r, int_rule _ st' g = Some r -> r = IntRules_Get g order).
Proof.
  intros Hnonneg Htotal Hk Hlen Hoff Hrules. cbv zeta.
  unfold Construct_element. cbn [element_offsets int_rule qs_offset].
  rewrite array_set_length. split; [exact Hlen |].
  set (geom := GetElementBaseGeometry k).
  set (rules := match int_rule _ st geom with
                | None => fun g => if decide (g = geom)
                                   then Some (IntRules_Get geom order)
                                   else int_rule _ st g
                | Some _ => int_rule _ st
                end).
  assert (rules geom = Some (IntRules_Get geom order)) as Hgeom.
  { unfold rules. destruct (int_rule _ st geom) as [r |] eqn:Hr.
    - rewrite Hr. f_equal. apply Hrules, Hr.
    - rewrite decide_True by reflexivity. reflexivity. }
  assert (forall g r, rules g = Some r -> r = IntRules_Get g order) as Hrules'.
  { intros g r. unfold rules. destruct (int_rule _ st geom); [apply Hrules |].
    destruct (decide (g = geom)) as [-> | _]; [congruence | apply Hrules]. }
  rewrite Hgeom, Hoff, points_before_succ by lia.
  pose proof (points_before_mono ne Hnonneg 0 k ltac:(lia) ltac:(lia)) as H0.
  pose proof (points_before_mono ne Hnonneg (k + 1) ne ltac:(lia) ltac:(lia))
    as H1.
  rewrite points_before_succ in H1 by lia.
  change (before 0) with 0 in H0.
  split.
  { unfold int_add. apply int_wrap_id.
    unfold int_range, INT_MIN, INT_MAX in *. unfold geom in H1.
    specialize (Hnonneg k Hk). lia. }
  split; [apply array_get_set_eq; lia |].
  split; [intros i Hi; apply array_get_set_ne; congruence | exact Hrules'].
Qed.

(** X12. [QuadratureSpace::Construct] lays the quadrature points of the
    elements out one element after the other: [element_offsets[i]] is the
    number of points of the elements before [i], the offsets never decrease,
    the last one is [size], and the rule cached for a geometry is the rule
    of that geometry and the space's order.  The counts are assumed
    non-negative and their total to fit in [int]. *)
Theorem QuadratureSpace_offsets (junk : Z) :
  0 <= GetNE mesh < INT_MAX ->
  (forall i, 0 <= i < GetNE mesh -> 0 <= np i) ->
  before (GetNE mesh) <= INT_MAX ->
  let r :=
    QuadratureSpace_Construct mesh GetElementBaseGeometry IntegrationRule
      IntRules_Get GetNPoints junk order in
  Z.of_nat (length (fst (fst r))) = GetNE mesh + 1 /\
  (forall i, 0 <= i <= GetNE mesh -> array_get 0 (fst (fst r)) i = before i) /\
  snd r = before (GetNE mesh) /\
  (forall i j, 0 <= i <= j -> j <= GetNE mesh ->
     array_get 0 (fst (fst r)) i <= array_get 0 (fst (fst r)) j) /\
  (forall g rule, snd (fst r) g = Some rule -> rule = IntRules_Get g order).
Proof.
  intros Hne Hnonneg Htotal. cbv zeta. unfold QuadratureSpace_Construct.
  set (ne := GetNE mesh) in *.
  set (st0 := {| element_offsets :=
                   replicate (Z.to_nat (int_add ne 1)) junk;
                 int_rule := fun _ : Geometry => @None IntegrationRule;
                 qs_offset := 0 |}).
  assert (int_add ne 1 = ne + 1) as Hsize.
  { unfold int_add. apply int_wrap_id.
    unfold int_range, INT_MIN, INT_MAX in *. lia. }
  pose proof
    (fold_left_seqZ_ind
       (Construct_element GetElementBaseGeometry IntegrationRule IntRules_Get
          GetNPoints order)
       (fun k st =>
          Z.of_nat (length (element_offsets _ st)) = ne + 1 /\
          qs_offset _ st = before k /\
          (forall i, 0 <= i < k ->
             array_get 0 (element_offsets _ st) i = before i) /\
          (forall g r, int_rule _ st g = Some r -> r = IntRules_Get g order))
       ne st0 ltac:(lia)) as Hloop.
  cbv beta in Hloop.
  destruct Hloop as (Hlen & Hoff & Hprefix & Hrules).
  - unfold st0. cbn [element_offsets int_rule qs_offset].
    rewrite length_replicate, Hsize.
    split; [lia |]. split; [reflexivity |].
    split; [intros i Hi; lia | intros g r Hr; discriminate Hr].
  - intros k acc Hk (Hlen & Hoff & Hprefix & Hrules).
    destruct (Construct_element_ok ne acc k Hnonneg Htotal Hk Hlen Hoff Hrules)
      as (Hlen' & Hoff' & Hk' & Hother & Hrules').
    split; [exact Hlen' |]. split; [exact Hoff' |].
    split; [| exact Hrules'].
    intros i Hi. destruct (decide (i = k)) as [-> | Hik]; [exact Hk' |].
    rewrite Hother by exact Hik. apply Hprefix. lia.
  - cbn [fst snd]. rewrite array_set_length.
    assert (forall i, 0 <= i <= ne ->
              array_get 0
                (array_set
                   (element_offsets _
                      (fold_left
                         (Construct_element GetElementBaseGeometry
                            IntegrationRule IntRules_Get GetNPoints order)
                         (seqZ 0 ne) st0)) ne
                   (qs_offset _
                      (fold_left
                         (Construct_element GetElementBaseGeometry
                            IntegrationRule IntRules_Get GetNPoints order)
                         (seqZ 0 ne) st0))) i = before i) as Hall.
    { intros i Hi. destruct (decide (i = ne)) as [-> | Hine].
      - rewrite array_get_set_eq by lia. exact Hoff.
      - rewrite array_get_set_ne by congruence. apply Hprefix. lia. }
    split; [exact Hlen |]. split; [exact Hall |]. split; [exact Hoff |].
    split; [| exact Hrules].
    intros i j Hij Hj. rewrite !Hall by lia.
    apply (points_before_mono ne Hnonneg); lia.
Qed.

End QuadratureSpace_facts.

Lemma QuadratureSpace_offsets_witness :
  snd (QuadratureSpace_Construct two_children_mesh (fun _ => SEGMENT)
         (Geometry * Z) (fun g p => (g, p)) (fun r => snd r + 1) 99 2)
  = points_before (fun _ => SEGMENT) (Geometry * Z) (fun g p => (g, p))
      (fun r => snd r + 1) 2 (GetNE two_children_mesh).
Proof.
  pose proof (QuadratureSpace_offsets two_children_mesh (fun _ => SEGMENT)
                (Geometry * Z) (fun g p => (g, p)) (fun r => snd r + 1) 2 99)
    as Hq.
  destruct Hq as (_ & _ & Hsize & _).
  - change (GetNE two_children_mesh) with 2. unfold INT_MAX. lia.
  - intros i _. simpl. lia.
  - vm_compute. discriminate.
  - exact Hsize.
Defined.

(** ** The restriction is a left inverse of the prolongation *)

Lemma empty_rows_mono deps k k' :
  0 <= k <= k' -> empty_rows deps k <= empty_rows deps k'.
Proof.
  intros Hk.
  replace k' with (k + Z.of_nat (Z.to_nat (k' - k))) by lia.
  induction (Z.to_nat (k' - k)) as [| m IH]; [rewrite Z.add_0_r; lia |].
  replace (k + Z.of_nat (S m)) with (k + Z.of_nat m + 1) by lia.
  rewrite empty_rows_succ by lia.
  destruct (SpRowSize deps (k + Z.of_nat m) =? 0); lia.
Qed.

(** What the loop over the DOFs has stored for the true DOFs below [k]:
    [cR_J[t]] is the [t]-th DOF with an empty dependency row, and its row of
    [cP] is the unit row of column [t]. *)
Lemma init_true_dofs_unit_rows variable_order deps sped n :
  0 <= n <= INT_MAX ->
  let td := init_true_dofs variable_order deps sped n (empty_rows deps n) in
  Z.of_nat (length (td_cR_J td)) = empty_rows deps n /\
  forall t, 0 <= t < empty_rows deps n ->
    let i := array_get 0 (td_cR_J td) t in
    0 <= i < n /\ SpGetRow deps i = [] /\ empty_rows deps i = t /\
    SpGetRow (td_cP td) i = [(t, 1%Q)].
Proof.
  intros Hn. cbv zeta. unfold init_true_dofs.
  pose proof (empty_rows_bound deps n ltac:(lia)) as Hcount.
  pose proof
    (fold_left_seqZ_ind (init_true_dof deps sped)
       (fun k td =>
          Z.of_nat (length (td_cP td)) = n /\
          Z.of_nat (length (td_cR_J td)) = empty_rows deps n /\
          td_true_dof td = empty_rows deps k /\
          (forall dof, k <= dof < n -> SpGetRow (td_cP td) dof = []) /\
          (forall t, 0 <= t < empty_rows deps k ->
             let i := array_get 0 (td_cR_J td) t in
             0 <= i < k /\ SpGetRow deps i = [] /\ empty_rows deps i = t /\
             SpGetRow (td_cP td) i = [(t, 1%Q)]))
       n
       {| td_cP := SpEmpty n;
          td_cR_J := replicate (Z.to_nat (empty_rows deps n)) 0;
          td_cQ := if variable_order
                   then Some (SpEmpty (empty_rows deps n)) else None;
          td_finalized := replicate (Z.to_nat n) false;
          td_true_dof := 0 |} ltac:(lia)) as Hloop.
  cbv beta in Hloop.
  destruct Hloop as (_ & Hlen & _ & _ & Hrows).
  - cbn [td_cP td_cR_J td_true_dof]. unfold SpEmpty.
    rewrite !length_replicate.
    split; [lia |]. split; [lia |]. split; [reflexivity |]. split.
    + intros dof Hdof. unfold SpGetRow.
      apply array_get_replicate_in. lia.
    + intros t Ht. change (empty_rows deps 0) with 0 in Ht. lia.
  - intros k td Hk (HlenP & HlenJ & Htrue & Hfree & Hrows).
    unfold init_true_dof. rewrite empty_rows_succ by lia.
    pose proof (empty_rows_mono deps (k + 1) n ltac:(lia)) as Hroom.
    rewrite empty_rows_succ in Hroom by lia.
    pose proof (empty_rows_bound deps k ltac:(lia)) as Hbelow.
    destruct (Z.eqb_spec (SpRowSize deps k) 0) as [H0 | Hn0].
    + cbn [td_cP td_cR_J td_true_dof]. rewrite Htrue.
      rewrite SpAdd_length, array_set_length.
      split; [exact HlenP |]. split; [exact HlenJ |]. split.
      { unfold int_add. apply int_wrap_id.
        unfold int_range, INT_MIN, INT_MAX in *. lia. }
      split.
      { intros dof Hdof. rewrite SpAdd_row_ne by lia. apply Hfree. lia. }
      intros t Ht. cbv zeta.
      destruct (decide (t = empty_rows deps k)) as [-> | Hne].
      * rewrite array_get_set_eq by lia.
        split; [lia |]. split; [apply SpRowSize_zero, H0 |].
        split; [reflexivity |].
        rewrite SpAdd_row_eq by lia. rewrite Hfree by lia. reflexivity.
      * rewrite array_get_set_ne by congruence.
        destruct (Hrows t ltac:(lia)) as (Hi & Hempty & Hpos & Hrow).
        split; [lia |]. split; [exact Hempty |]. split; [exact Hpos |].
        rewrite SpAdd_row_ne by lia. exact Hrow.
    + rewrite Z.add_0_r.
      split; [exact HlenP |]. split; [exact HlenJ |].
      split; [exact Htrue |]. split; [intros dof Hdof; apply Hfree; lia |].
      intros t Ht. destruct (Hrows t Ht) as (Hi & Hrest).
      split; [lia | exact Hrest].
  - split; [exact Hlen | exact Hrows].
Qed.

(** The finalization loop never touches the row of a DOF that is finalized
    already. *)
Lemma finalize_dof_keeps deps st dof i :
  array_get false (res_finalized st) i = true ->
  SpGetRow (res_cP (finalize_dof deps st dof)) i = SpGetRow (res_cP st) i /\
  array_get false (res_finalized (finalize_dof deps st dof)) i = true.
Proof.
  intros Hi. rewrite finalize_dof_unfold.
  destruct (array_get false (res_finalized st) dof) eqn:Hdof; cbn [negb andb];
    [split; [reflexivity | exact Hi] |].
  destruct (DofFinalizable dof (res_finalized st) deps);
    [| split; [reflexivity | exact Hi]].
  cbn [res_cP res_finalized].
  assert (dof <> i) as Hne by congruence.
  split; [apply combine_masters_row_ne, Hne |].
  rewrite array_get_set_ne by exact Hne. exact Hi.
Qed.

Lemma finalize_dofs_keep deps (dofs : list Z) i : forall st,
  array_get false (res_finalized st) i = true ->
  SpGetRow (res_cP (fold_left (finalize_dof deps) dofs st)) i
  = SpGetRow (res_cP st) i /\
  array_get false (res_finalized (fold_left (finalize_dof deps) dofs st)) i
  = true.
Proof.
  induction dofs as [| dof dofs IH]; intros st Hi; [split; auto |].
  simpl. destruct (finalize_dof_keeps deps st dof i Hi) as [Hrow Hfin].
  destruct (IH _ Hfin) as [Hrow' Hfin'].
  split; [rewrite Hrow'; exact Hrow | exact Hfin'].
Qed.

Lemma finalize_loop_keeps deps n i (fuel : nat) : forall st st',
  finalize_loop fuel deps n st = Some st' ->
  array_get false (res_finalized st) i = true ->
  SpGetRow (res_cP st') i = SpGetRow (res_cP st) i.
Proof.
  induction fuel as [| fuel IH]; intros st st' Hrun Hi; [discriminate |].
  cbn [finalize_loop] in Hrun.
  assert (SpGetRow (res_cP (finalize_pass deps n st)) i
          = SpGetRow (res_cP st) i /\
          array_get false (res_finalized (finalize_pass deps n st)) i = true)
    as [Hrow Hfin].
  { unfold finalize_pass.
    apply (finalize_dofs_keep deps (seqZ 0 n) i
             {| res_cP := res_cP st; res_finalized := res_finalized st;
                res_n_finalized := res_n_finalized st;
                res_finished := true |}).
    exact Hi. }
  destruct (res_finished (finalize_pass deps n st)).
  - injection Hrun as <-. exact Hrow.
  - rewrite (IH _ _ Hrun Hfin). exact Hrow.
Qed.

(** X13. The restriction built by [BuildConformingInterpolation] is a left
    inverse of the prolongation: when the finalization loop ends, [cR_J]
    lists the true DOFs (the DOFs with an empty dependency row) in
    increasing order, and the row of [cP] of the [t]-th true DOF is the unit
    row of column [t], so row [t] of [cR * cP] is the unit row. *)
Theorem restriction_inverts_prolongation (variable_order : bool)
  (deps sped : SparseMatrix) (n : Z) (fuel : nat) (st' : Resolution) :
  0 <= n <= INT_MAX ->
  finalize_loop fuel deps n (resolution_start variable_order deps sped n)
  = Some st' ->
  let td :=
    init_true_dofs variable_order deps sped n (count_true_dofs deps n) in
  Z.of_nat (length (td_cR_J td)) = count_true_dofs deps n /\
  forall t, 0 <= t < count_true_dofs deps n ->
    let i := array_get 0 (td_cR_J td) t in
    0 <= i < n /\
    SpGetRow deps i = [] /\
    SpGetRow (res_cP st') i = [(t, 1%Q)] /\
    forall t', t < t' < count_true_dofs deps n ->
               i < array_get 0 (td_cR_J td) t'.
Proof.
  intros Hn Hrun. cbv zeta.
  rewrite (count_true_dofs_spec deps n Hn).
  destruct (init_true_dofs_unit_rows variable_order deps sped n Hn)
    as [Hlen Hrows].
  split; [exact Hlen |].
  intros t Ht. destruct (Hrows t Ht) as (Hi & Hempty & Hpos & Hrow).
  split; [exact Hi |]. split; [exact Hempty |]. split.
  - rewrite (finalize_loop_keeps deps n _ fuel _ _ Hrun).
    + unfold resolution_start. cbn [res_cP].
      rewrite (count_true_dofs_spec deps n Hn). exact Hrow.
    + unfold resolution_start. cbn [res_finalized].
      rewrite (count_true_dofs_spec deps n Hn).
      destruct (init_true_dofs_spec variable_order deps sped n
                  (empty_rows deps n) Hn) as (_ & _ & _ & Hfin & _).
      apply Hfin; [exact Hi | exact Hempty].
  - intros t' Ht'. destruct (Hrows t' ltac:(lia)) as (Hi' & _ & Hpos' & _).
    destruct (Z.lt_ge_cases
                (array_get 0
                   (td_cR_J (init_true_dofs variable_order deps sped n
                               (empty_rows deps n))) t)
                (array_get 0
                   (td_cR_J (init_true_dofs variable_order deps sped n
                               (empty_rows deps n))) t'))
      as [Hlt | Hge]; [exact Hlt |].
    pose proof (empty_rows_mono deps _ _ (conj (proj1 Hi') Hge)) as Hmono.
    rewrite Hpos, Hpos' in Hmono. lia.
Qed.

Lemma restriction_inverts_prolongation_witness :
  Z.of_nat
    (length (td_cR_J (init_true_dofs false chain_deps [] 3
                        (count_true_dofs chain_deps 3))))
  = count_true_dofs chain_deps 3.
Proof.
  apply (restriction_inverts_prolongation false chain_deps [] 3 4
           (finalize_pass chain_deps 3
              (finalize_pass chain_deps 3
                 (finalize_pass chain_deps 3
                    (resolution_start false chain_deps [] 3))))).
  - unfold INT_MAX. lia.
  - vm_compute. reflexivity.
Defined.

(** ** The tables of a variable-order space *)

(** The loop over the bits of a mask visits the orders of the mask, lowest
    first. *)
Lemma for_each_order_from {A} (body : A -> Z -> A) (fuel : nat) :
  forall order bits acc,
  0 <= bits < 2 ^ Z.of_nat fuel ->
  for_each_order fuel order bits body acc
  = fold_left body
      (filter (fun k => Z.testbit bits (k - order) = true)
         (seqZ order (Z.of_nat fuel))) acc.
Proof.
  induction fuel as [| fuel IH]; intros order bits acc Hbits.
  - reflexivity.
  - cbn [for_each_order].
    rewrite seqZ_cons by lia. rewrite filter_cons.
    replace (order - order) with 0 by lia.
    replace (Z.succ order) with (order + 1) by lia.
    replace (Z.pred (Z.of_nat (S fuel))) with (Z.of_nat fuel) by lia.
    destruct (bits =? 0) eqn:Hz.
    + apply Z.eqb_eq in Hz. subst bits.
      rewrite Z.bits_0.
      destruct (decide (false = true)) as [Hf | _]; [discriminate Hf |].
      rewrite (filter_iff_in _ (fun _ => False)).
      * clear. induction (seqZ (order + 1) (Z.of_nat fuel)) as [| a l IHl];
          [reflexivity |].
        rewrite filter_cons.
        destruct (decide False) as [[] | _]. exact IHl.
      * intros x _. rewrite Z.bits_0. split; [discriminate | intros []].
    + rewrite IH.
      * rewrite land_one_bit0, negb_involutive.
        rewrite (filter_iff_in
                   (fun k => Z.testbit (Z.shiftr bits 1) (k - (order + 1)) = true)
                   (fun k => Z.testbit bits (k - order) = true)).
        -- destruct (decide (Z.testbit bits 0 = true)) as [Hb | Hb].
           ++ rewrite Hb. reflexivity.
           ++ apply not_true_is_false in Hb. rewrite Hb. reflexivity.
        -- intros x Hx. apply elem_of_seqZ in Hx.
           rewrite Z.shiftr_spec by lia.
           replace (x - (order + 1) + 1) with (x - order) by lia.
           reflexivity.
      * rewrite Z.shiftr_div_pow2 by lia. change (2 ^ 1) with 2.
        replace (Z.of_nat (S fuel)) with (Z.succ (Z.of_nat fuel)) in Hbits
          by lia.
        rewrite Z.pow_succ_r in Hbits by lia.
        split; [apply Z.div_pos; lia |].
        apply Z.div_lt_upper_bound; lia.
Qed.

Lemma for_each_order_orders {A} (body : A -> Z -> A) width bits acc :
  0 <= width -> 0 <= bits < 2 ^ width ->
  for_each_order (Z.to_nat width) 0 bits body acc
  = fold_left body (orders_of width bits) acc.
Proof.
  intros Hw Hbits.
  rewrite for_each_order_from by (rewrite Z2Nat.id by lia; exact Hbits).
  rewrite Z2Nat.id by lia. unfold orders_of.
  f_equal. apply filter_iff_in.
  intros x _. rewrite Z.sub_0_r. reflexivity.
Qed.

Lemma orders_of_spec width bits o :
  o ∈ orders_of width bits <-> 0 <= o < width /\ Z.testbit bits o = true.
Proof.
  unfold orders_of. rewrite list_elem_of_filter, elem_of_seqZ.
  intuition lia.
Qed.

Lemma lor_bound w a b :
  0 <= w -> 0 <= a < 2 ^ w -> 0 <= b < 2 ^ w -> 0 <= Z.lor a b < 2 ^ w.
Proof.
  intros Hw Ha Hb.
  assert (0 <= Z.lor a b) as Hnn by (apply Z.lor_nonneg; lia).
  split; [exact Hnn |].
  destruct (Z.eq_dec (Z.lor a b) 0) as [-> | Hne]; [lia |].
  apply Z.log2_lt_pow2; [lia |].
  rewrite Z.log2_lor by lia.
  destruct (Z.eq_dec a 0) as [-> | Ha0], (Z.eq_dec b 0) as [-> | Hb0].
  - exfalso. apply Hne. reflexivity.
  - change (Z.log2 0) with 0.
    pose proof (proj1 (Z.log2_lt_pow2 b w ltac:(lia)) ltac:(lia)).
    pose proof (Z.log2_nonneg b). lia.
  - change (Z.log2 0) with 0.
    pose proof (proj1 (Z.log2_lt_pow2 a w ltac:(lia)) ltac:(lia)).
    pose proof (Z.log2_nonneg a). lia.
  - pose proof (proj1 (Z.log2_lt_pow2 a w ltac:(lia)) ltac:(lia)).
    pose proof (proj1 (Z.log2_lt_pow2 b w ltac:(lia)) ltac:(lia)). lia.
Qed.

(** The mask accumulated by [mask |= orders[i]] over the selected entities
    holds the orders in use, and fits the register. *)
Lemma lor_selected w (entity_orders : list Z) (pick : Z -> bool) :
  0 <= w ->
  Forall (fun b => 0 <= b < 2 ^ w) entity_orders ->
  let mask :=
    fold_left (fun m i => if pick i then Z.lor m (array_get 0 entity_orders i)
                          else m)
      (seqZ 0 (Z.of_nat (length entity_orders))) 0 in
  0 <= mask < 2 ^ w /\
  forall o, Z.testbit mask o = true
            <-> order_used entity_orders (fun i => pick i = true) o.
Proof.
  intros Hw Hall. cbv zeta.
  pose proof (fold_left_seqZ_ind
    (fun m i => if pick i then Z.lor m (array_get 0 entity_orders i) else m)
    (fun k m => 0 <= m < 2 ^ w /\
       forall o, Z.testbit m o = true
         <-> exists i, 0 <= i < k /\ pick i = true /\
                       Z.testbit (array_get 0 entity_orders i) o = true)
    (Z.of_nat (length entity_orders)) 0) as Hind.
  cbv beta in Hind. apply Hind; clear Hind.
  - lia.
  - split; [split; [lia | apply Z.pow_pos_nonneg; lia] |].
    intros o. rewrite Z.bits_0. split; [discriminate |].
    intros (i & Hi & _). lia.
  - intros k m Hk [Hm Hbits].
    assert (0 <= array_get 0 entity_orders k < 2 ^ w) as Hb.
    { rewrite Forall_forall in Hall. apply Hall.
      unfold array_get. destruct (Z.leb_spec 0 k); [| lia].
      apply list_elem_of_In, nth_In. lia. }
    destruct (pick k) eqn:Hp.
    + split; [apply lor_bound; assumption |].
      intros o. rewrite Z.lor_spec, orb_true_iff, Hbits.
      split.
      * intros [(i & Hi & Hpi & Ht) | Ht].
        -- exists i. split; [lia | split; assumption].
        -- exists k. split; [lia | split; assumption].
      * intros (i & Hi & Hpi & Ht).
        destruct (Z.eq_dec i k) as [-> | Hne]; [right; exact Ht |].
        left. exists i. split; [lia | split; assumption].
    + split; [exact Hm |].
      intros o. rewrite Hbits. split.
      * intros (i & Hi & Hpi & Ht). exists i. split; [lia | split; assumption].
      * intros (i & Hi & Hpi & Ht).
        destruct (Z.eq_dec i k) as [-> | Hne]; [congruence |].
        exists i. split; [lia | split; assumption].
Qed.

(** The map built by [init_map] holds, for every DOF count, the largest
    order of the mask that has this count. *)
Lemma init_map_upto (fec : FiniteElementCollection) geom mask (w : nat) :
  forall n o,
  fold_left (fun m order => <[GetNumDof fec geom order := order]> m)
    (filter (fun k => Z.testbit mask k = true) (seqZ 0 (Z.of_nat w)))
    (∅ : gmap Z Z) !! n = Some o
  <-> 0 <= o < Z.of_nat w /\ Z.testbit mask o = true /\
      GetNumDof fec geom o = n /\
      forall o2, o < o2 < Z.of_nat w -> Z.testbit mask o2 = true ->
                 GetNumDof fec geom o2 <> n.
Proof.
  induction w as [| w IH]; intros n o.
  - change (seqZ 0 (Z.of_nat 0)) with (@nil Z).
    rewrite filter_nil. cbn [fold_left].
    rewrite lookup_empty. split; [discriminate | lia].
  - rewrite seqZ_S. rewrite filter_app, fold_left_app.
    replace (Z.of_nat (S w)) with (Z.succ (Z.of_nat w)) by lia.
    rewrite Z.add_0_l.
    rewrite filter_cons, filter_nil.
    destruct (decide (Z.testbit mask (Z.of_nat w) = true)) as [Hw | Hw].
    + cbn [fold_left].
      destruct (Z.eq_dec (GetNumDof fec geom (Z.of_nat w)) n) as [Heq | Hne].
      * rewrite Heq, lookup_insert_eq. split.
        -- intros [= <-]. repeat split; try lia; try assumption.
        -- intros (Ho & Hbit & Hn & Hmax).
           destruct (Z.eq_dec o (Z.of_nat w)) as [-> | Hlt]; [reflexivity |].
           exfalso. apply (Hmax (Z.of_nat w)); [lia | exact Hw | exact Heq].
      * rewrite lookup_insert_ne by exact Hne. rewrite IH. split.
        -- intros (Ho & Hbit & Hn & Hmax).
           repeat split; try lia; try assumption.
           intros o2 Ho2 Hb2.
           destruct (Z.eq_dec o2 (Z.of_nat w)) as [-> | Hlt]; [exact Hne |].
           apply Hmax; [lia | exact Hb2].
        -- intros (Ho & Hbit & Hn & Hmax).
           assert (o <> Z.of_nat w) by congruence.
           repeat split; try lia; try assumption.
           intros o2 Ho2 Hb2. apply Hmax; [lia | exact Hb2].
    + cbn [fold_left]. rewrite IH. split.
      * intros (Ho & Hbit & Hn & Hmax).
        repeat split; try lia; try assumption.
        intros o2 Ho2 Hb2.
        destruct (Z.eq_dec o2 (Z.of_nat w)) as [-> | Hlt]; [contradiction |].
        apply Hmax; [lia | exact Hb2].
      * intros (Ho & Hbit & Hn & Hmax).
        assert (o <> Z.of_nat w) by congruence.
        repeat split; try lia; try assumption.
        intros o2 Ho2 Hb2. apply Hmax; [lia | exact Hb2].
Qed.

Lemma init_map_spec width fec geom mask (used : Z -> Prop) n o :
  0 <= width -> 0 <= mask < 2 ^ width ->
  (forall k, Z.testbit mask k = true <-> used k) ->
  init_map width fec geom mask !! n = Some o
  <-> largest_order_with width fec geom used n o.
Proof.
  intros Hw Hmask Hused. unfold init_map, largest_order_with.
  rewrite for_each_order_orders by assumption.
  unfold orders_of.
  rewrite <- (Z2Nat.id width) at 1 by lia.
  rewrite init_map_upto. rewrite Z2Nat.id by lia.
  rewrite Hused. split.
  - intros (Ho & Hbit & Hn & Hmax). repeat split; try lia; try assumption.
    intros o2 Ho2 Hu. apply Hmax; [lia | apply Hused; exact Hu].
  - intros (Ho & Hbit & Hn & Hmax). repeat split; try lia; try assumption.
    intros o2 Ho2 Hu. apply Hmax; [lia | apply Hused; exact Hu].
Qed.

Lemma face_masks_split (mesh : Mesh) (face_orders : list Z) (l : list Z) :
  forall q t,
  fold_left
    (fun '(quad_mask, tri_mask) i =>
       if decide (GetFaceGeometry mesh i = SQUARE)
       then (Z.lor quad_mask (array_get 0 face_orders i), tri_mask)
       else (quad_mask, Z.lor tri_mask (array_get 0 face_orders i)))
    l (q, t)
  = (fold_left
       (fun m i => if bool_decide (GetFaceGeometry mesh i = SQUARE)
                   then Z.lor m (array_get 0 face_orders i) else m) l q,
     fold_left
       (fun m i => if negb (bool_decide (GetFaceGeometry mesh i = SQUARE))
                   then Z.lor m (array_get 0 face_orders i) else m) l t).
Proof.
  induction l as [| i l IH]; intros q t; [reflexivity |].
  cbn [fold_left].
  destruct (decide (GetFaceGeometry mesh i = SQUARE)) as [Hsq | Hsq].
  - rewrite (bool_decide_true _ Hsq). cbn [negb]. apply IH.
  - rewrite (bool_decide_false _ Hsq). cbn [negb]. apply IH.
Qed.

(** X14 ([FiniteElementSpace::InitNDofToOrders]): after the call the map of
    a geometry sends a DOF count [n] to an order [o] exactly when [o] is the
    largest order, among those in the masks of the entities of that
    geometry, whose basis has [n] DOFs: the edges feed the segment map, the
    faces of geometry [SQUARE] the quadrilateral map and all other faces the
    triangle map.  Counts that no such order has are not keys. *)
Theorem InitNDofToOrders_largest_orders (width : Z) (mesh : Mesh)
  (fec : FiniteElementCollection) (fes : FiniteElementSpace)
  (edge_orders face_orders : list Z) :
  0 <= width ->
  Forall (fun b => 0 <= b < 2 ^ width) edge_orders ->
  Forall (fun b => 0 <= b < 2 ^ width) face_orders ->
  let fes' := InitNDofToOrders width mesh fec fes edge_orders face_orders in
  (forall n o,
     ndof_to_geom_order fes' SEGMENT !! n = Some o
     <-> largest_order_with width fec SEGMENT
           (order_used edge_orders (fun _ => True)) n o) /\
  (forall n o,
     ndof_to_geom_order fes' SQUARE !! n = Some o
     <-> largest_order_with width fec SQUARE
           (order_used face_orders
              (fun i => GetFaceGeometry mesh i = SQUARE)) n o) /\
  (forall n o,
     ndof_to_geom_order fes' TRIANGLE !! n = Some o
     <-> largest_order_with width fec TRIANGLE
           (order_used face_orders
              (fun i => GetFaceGeometry mesh i <> SQUARE)) n o).
Proof.
  intros Hw Hedges Hfaces. cbv zeta.
  unfold InitNDofToOrders, set_ndof_to_geom_order. cbn [ndof_to_geom_order].
  rewrite face_masks_split. cbn [fst snd].
  split; [| split]; intros n o.
  - destruct (lor_selected width edge_orders (fun _ => true) Hw Hedges)
      as [Hmask Hbits].
    apply init_map_spec; [exact Hw | exact Hmask |].
    intros k. rewrite (Hbits k). unfold order_used.
    split; intros (i & Hi & _ & Ht); exists i; split; [| split | | split];
      trivial.
  - destruct (lor_selected width face_orders
                (fun i => bool_decide (GetFaceGeometry mesh i = SQUARE))
                Hw Hfaces) as [Hmask Hbits].
    apply init_map_spec; [exact Hw | exact Hmask |].
    intros k. rewrite (Hbits k). unfold order_used.
    split; intros (i & Hi & Hg & Ht); exists i; (split; [exact Hi |]);
      (split; [| exact Ht]).
    + apply bool_decide_eq_true in Hg. exact Hg.
    + apply bool_decide_eq_true. exact Hg.
  - destruct (lor_selected width face_orders
                (fun i => negb (bool_decide (GetFaceGeometry mesh i = SQUARE)))
                Hw Hfaces) as [Hmask Hbits].
    apply init_map_spec; [exact Hw | exact Hmask |].
    intros k. rewrite (Hbits k). unfold order_used.
    split; intros (i & Hi & Hg & Ht); exists i; (split; [exact Hi |]);
      (split; [| exact Ht]).
    + apply negb_true_iff, bool_decide_eq_false in Hg. exact Hg.
    + apply negb_true_iff, bool_decide_eq_false. exact Hg.
Qed.

Lemma InitNDofToOrders_largest_orders_witness :
  ndof_to_geom_order
    (InitNDofToOrders 8 two_edge_mesh h1_collection two_edge_space [12; 4] [])
    SEGMENT !! 2 = Some 3
  <-> largest_order_with 8 h1_collection SEGMENT
        (order_used [12; 4] (fun _ => True)) 2 3.
Proof.
  destruct (InitNDofToOrders_largest_orders 8 two_edge_mesh h1_collection
              two_edge_space [12; 4] []) as [Hsegment _].
  - lia.
  - repeat constructor; vm_compute; congruence.
  - constructor.
  - apply Hsegment.
Defined.

(** *** Tables made from sorted lists of connections *)

Lemma row_run_block (j : Z) (c : nat) : forall rest others,
  map fst rest = replicate c j ++ others ->
  (forall x, x ∈ others -> x <> j) ->
  row_run j rest = c /\ map fst (drop c rest) = others.
Proof.
  induction c as [| c IH]; intros rest others Hfst Hothers.
  - cbn [replicate app] in Hfst. rewrite drop_0. split; [| exact Hfst].
    destruct rest as [| [from to] rest]; [reflexivity |].
    cbn [row_run]. cbn in Hfst.
    assert (from <> j) as Hne
      by (apply Hothers; rewrite <- Hfst; apply elem_of_cons; left; reflexivity).
    apply Z.eqb_neq in Hne. rewrite Hne. reflexivity.
  - destruct rest as [| [from to] rest]; [discriminate Hfst |].
    cbn in Hfst. injection Hfst as -> Hfst.
    cbn [row_run drop]. rewrite Z.eqb_refl.
    destruct (IH rest others Hfst Hothers) as [Hrun Hdrop].
    rewrite Hrun. split; [reflexivity | exact Hdrop].
Qed.

Lemma flat_map_length_ext {A B} (f : Z -> list A) (g : Z -> list B) l :
  (forall x, x ∈ l -> length (f x) = length (g x)) ->
  length (flat_map f l) = length (flat_map g l).
Proof.
  induction l as [| a l IH]; intros Hext; [reflexivity |].
  cbn [flat_map]. rewrite !length_app.
  rewrite (Hext a) by (apply elem_of_cons; left; reflexivity).
  rewrite IH; [reflexivity |].
  intros x Hx. apply Hext, elem_of_cons. right. exact Hx.
Qed.

Lemma row_offset_succ c j :
  0 <= j -> row_offset c (j + 1) = row_offset c j + Z.of_nat (c j).
Proof.
  intros Hj. unfold row_offset.
  rewrite seqZ_snoc by exact Hj.
  rewrite flat_map_app, length_app. cbn [flat_map].
  rewrite app_nil_r, length_replicate. lia.
Qed.

(** For connections sorted by row, [c r] of them in row [r], the table has
    the rows start at the offsets of their runs. *)
Lemma MakeFromList_offsets (c : Z -> nat) nrows connections :
  0 <= nrows ->
  map fst connections
  = flat_map (fun r => replicate (c r) r) (seqZ 0 (nrows + 1)) ->
  tab_I (Table_MakeFromList nrows connections)
  = map (row_offset c) (seqZ 0 (nrows + 1)).
Proof.
  intros Hn Hfst. unfold Table_MakeFromList. cbn [tab_I].
  pose proof (fold_left_seqZ_ind MakeFromList_row
    (fun j st =>
       fst (fst st) = map (row_offset c) (seqZ 0 j) /\
       snd (fst st) = row_offset c j /\
       map fst (snd st)
       = flat_map (fun r => replicate (c r) r) (seqZ j (nrows + 1 - j)))
    (nrows + 1) ([], 0, connections)) as Hind.
  cbv beta in Hind. apply Hind; clear Hind.
  - lia.
  - cbn [fst snd]. rewrite Z.sub_0_r. split; [reflexivity |].
    split; [reflexivity | exact Hfst].
  - intros j [[starts k] rest] Hj (Hstarts & Hk & Hrest). cbn [fst snd] in *.
    rewrite seqZ_cons in Hrest by lia. cbn [flat_map] in Hrest.
    destruct (row_run_block j (c j) rest _ Hrest) as [Hrun Hdrop].
    { intros x Hx. apply list_elem_of_In, in_flat_map in Hx.
      destruct Hx as (r & Hr & Hx).
      apply list_elem_of_In, elem_of_seqZ in Hr.
      apply list_elem_of_In, elem_of_replicate in Hx as [-> _]. lia. }
    cbn [MakeFromList_row]. rewrite Hrun. cbn [fst snd].
    split; [| split].
    + rewrite seqZ_snoc by lia. rewrite map_app, Hstarts, Hk. reflexivity.
    + rewrite row_offset_succ by lia. rewrite Hk. reflexivity.
    + rewrite Hdrop. f_equal. f_equal; lia.
Qed.

(** *** Blocks laid one after another *)

Lemma starts_of_length sizes : forall a,
  length (starts_of a sizes) = S (length sizes).
Proof.
  induction sizes as [| s sizes IH]; intros a; [reflexivity |].
  cbn [starts_of length]. rewrite IH. reflexivity.
Qed.

Lemma starts_of_snoc s sizes : forall a pre t,
  starts_of a sizes = pre ++ [t] ->
  starts_of a (sizes ++ [s]) = pre ++ [t; int_add t s].
Proof.
  induction sizes as [| s0 sizes IH]; intros a pre t Heq.
  - cbn [starts_of] in Heq.
    destruct pre as [| b pre].
    + injection Heq as ->. reflexivity.
    + destruct pre; discriminate Heq.
  - cbn [starts_of app] in *.
    destruct pre as [| b pre].
    + pose proof (f_equal (@length Z) Heq) as Hlen.
      cbn in Hlen. rewrite starts_of_length in Hlen. lia.
    + injection Heq as -> Heq. cbn [app]. f_equal. apply IH. exact Heq.
Qed.

Lemma starts_of_next sizes : forall a p,
  (p < length sizes)%nat ->
  nth (S p) (starts_of a sizes) 0
  = int_add (nth p (starts_of a sizes) 0) (nth p sizes 0).
Proof.
  induction sizes as [| s sizes IH]; intros a p Hp; [cbn in Hp; lia |].
  destruct p as [| p].
  - cbn [starts_of nth]. destruct sizes; reflexivity.
  - cbn [starts_of nth]. cbn [length] in Hp.
    rewrite <- IH by lia. reflexivity.
Qed.

Lemma nth_flat_map_block {A} (g : Z -> list A) (d : A) n i v :
  0 <= i < n -> (v < length (g i))%nat ->
  nth (length (flat_map g (seqZ 0 i)) + v) (flat_map g (seqZ 0 n)) d
  = nth v (g i) d.
Proof.
  intros Hi Hv.
  rewrite (seqZ_split 0 n i) by lia.
  replace (i - 0) with i by lia.
  rewrite flat_map_app. cbn [flat_map].
  rewrite app_nth2 by lia.
  replace (length (flat_map g (seqZ 0 i)) + v - length (flat_map g (seqZ 0 i)))%nat
    with v by lia.
  apply app_nth1. exact Hv.
Qed.

(** *** The loop of [MakeDofTable] *)

Section MakeDofTable_facts.

Variable width : Z.
Variable mesh : Mesh.
Variable fec : FiniteElementCollection.
Variable ent_dim : Z.
Variable entity_orders : list Z.

Hypothesis width_nonneg : 0 <= width.
Hypothesis orders_fit : Forall (fun b => 0 <= b < 2 ^ width) entity_orders.

Local Abbreviation num_ent := (Z.of_nat (length entity_orders)).
Local Abbreviation orders i := (orders_of width (array_get 0 entity_orders i)).
Local Abbreviation block_sizes i :=
  (map (GetNumDof fec (entity_geometry mesh ent_dim i)) (orders i)).

Lemma entity_loop (i : Z) (l : list Z) : forall connections total_dofs,
  let st :=
    fold_left
      (fun '(connections, total_dofs) order =>
         (connections ++ [(i, total_dofs)],
          int_add total_dofs
            (GetNumDof fec (entity_geometry mesh ent_dim i) order)))
      l (connections, total_dofs) in
  map fst (fst st) = map fst connections ++ replicate (length l) i /\
  forall sizes,
    map snd connections ++ [total_dofs] = starts_of 0 sizes ->
    map snd (fst st) ++ [snd st]
    = starts_of 0
        (sizes ++ map (GetNumDof fec (entity_geometry mesh ent_dim i)) l).
Proof.
  induction l as [| o l IH]; intros connections total_dofs; cbv zeta.
  - cbn [fold_left fst snd length replicate map]. rewrite !app_nil_r.
    split; [reflexivity | intros sizes Hs; rewrite app_nil_r; exact Hs].
  - cbn [fold_left].
    destruct (IH (connections ++ [(i, total_dofs)])
                (int_add total_dofs
                   (GetNumDof fec (entity_geometry mesh ent_dim i) o)))
      as [Hfst Hsnd].
    split.
    + rewrite Hfst. rewrite map_app, <- app_assoc. reflexivity.
    + intros sizes Hs.
      rewrite (Hsnd (sizes
                     ++ [GetNumDof fec (entity_geometry mesh ent_dim i) o])).
      * cbn [map]. rewrite <- app_assoc. reflexivity.
      * rewrite map_app, <- app_assoc. cbn [map snd app].
        symmetry. apply starts_of_snoc. symmetry. exact Hs.
Qed.

Lemma entity_orders_fit i :
  0 <= i < num_ent -> 0 <= array_get 0 entity_orders i < 2 ^ width.
Proof.
  intros Hi. rewrite Forall_forall in orders_fit.
  apply orders_fit, array_get_elem. exact Hi.
Qed.

Lemma MakeDofTable_loop :
  let st :=
    fold_left (MakeDofTable_entity width mesh fec ent_dim entity_orders)
      (seqZ 0 num_ent) ([], 0) in
  map fst (fst st)
  = flat_map (fun r => replicate (length (orders r)) r) (seqZ 0 num_ent) /\
  map snd (fst st) ++ [snd st]
  = starts_of 0 (flat_map (fun r => block_sizes r) (seqZ 0 num_ent)).
Proof.
  cbv zeta.
  pose proof (fold_left_seqZ_ind
    (MakeDofTable_entity width mesh fec ent_dim entity_orders)
    (fun k st =>
       map fst (fst st)
       = flat_map (fun r => replicate (length (orders r)) r) (seqZ 0 k) /\
       map snd (fst st) ++ [snd st]
       = starts_of 0 (flat_map (fun r => block_sizes r) (seqZ 0 k)))
    num_ent ([], 0)) as Hind.
  cbv beta in Hind. apply Hind; clear Hind.
  - lia.
  - split; reflexivity.
  - intros k [connections total_dofs] Hk [Hfst Hsnd]. cbn [fst snd] in *.
    unfold MakeDofTable_entity.
    rewrite for_each_order_orders
      by (exact width_nonneg || apply entity_orders_fit; exact Hk).
    destruct (entity_loop k (orders k) connections total_dofs)
      as [Hfst' Hsnd'].
    rewrite seqZ_snoc by lia. rewrite !flat_map_app. cbn [flat_map].
    rewrite !app_nil_r.
    split.
    + rewrite Hfst', Hfst. reflexivity.
    + apply Hsnd'. exact Hsnd.
Qed.

End MakeDofTable_facts.

Lemma flat_map_ext_elem {A B} (f g : A -> list B) (l : list A) :
  (forall x, x ∈ l -> f x = g x) -> flat_map f l = flat_map g l.
Proof.
  induction l as [| a l IH]; intros Hext; [reflexivity |].
  cbn [flat_map].
  rewrite (Hext a) by (apply elem_of_cons; left; reflexivity).
  rewrite IH; [reflexivity |].
  intros x Hx. apply Hext, elem_of_cons. right. exact Hx.
Qed.

Lemma flat_map_block_bound {A} (g : Z -> list A) n i :
  0 <= i < n ->
  (length (flat_map g (seqZ 0 i)) + length (g i)
   <= length (flat_map g (seqZ 0 n)))%nat.
Proof.
  intros Hi. rewrite (seqZ_split 0 n i) by lia.
  replace (i - 0) with i by lia.
  rewrite flat_map_app. cbn [flat_map]. rewrite !length_app. lia.
Qed.

Lemma int_sub_add_cancel a s : int_range s -> int_sub (int_add a s) a = s.
Proof.
  intros Hs. unfold int_sub, int_add, int_wrap, int_range, INT_MIN, INT_MAX in *.
  pose proof (Z.div_mod (a + s + 2147483648) 4294967296 ltac:(lia)) as Hdm.
  replace ((a + s + 2147483648) mod 4294967296 - 2147483648 - a + 2147483648)
    with (s + 2147483648
          + (- ((a + s + 2147483648) / 4294967296)) * 4294967296) by lia.
  rewrite Z.mod_add by lia.
  rewrite Z.mod_small by lia. lia.
Qed.

(** The arrays of the table [MakeDofTable] builds: the rows start where
    the blocks of the preceding entities end, the entries are the start
    offsets of all blocks followed by the total. *)
Lemma MakeDofTable_arrays (width : Z) (mesh : Mesh)
  (fec : FiniteElementCollection) (ent_dim : Z) (entity_orders : list Z) :
  0 <= width ->
  Z.of_nat (length entity_orders) < INT_MAX ->
  Forall (fun b => 0 <= b < 2 ^ width) entity_orders ->
  let num_ent := Z.of_nat (length entity_orders) in
  let total_dofs := fst (MakeDofTable width mesh fec ent_dim entity_orders) in
  let entity_dofs := snd (MakeDofTable width mesh fec ent_dim entity_orders) in
  let g := fun r =>
    map (GetNumDof fec (entity_geometry mesh ent_dim r))
      (orders_of width (array_get 0 entity_orders r)) in
  Size entity_dofs = num_ent + 1 /\
  tab_J entity_dofs = starts_of 0 (flat_map g (seqZ 0 num_ent)) /\
  array_get 0 (tab_J entity_dofs)
    (Z.of_nat (length (flat_map g (seqZ 0 num_ent)))) = total_dofs /\
  forall i, 0 <= i <= num_ent ->
    array_get 0 (tab_I entity_dofs) i
    = Z.of_nat (length (flat_map g (seqZ 0 i))).
Proof.
  intros Hw Hlen Hfit. cbv zeta.
  set (num_ent := Z.of_nat (length entity_orders)).
  unfold MakeDofTable. cbn [fst snd]. fold num_ent.
  destruct (MakeDofTable_loop width mesh fec ent_dim entity_orders Hw Hfit)
    as [Hfst Hsnd].
  fold num_ent in Hfst, Hsnd.
  set (st := fold_left (MakeDofTable_entity width mesh fec ent_dim entity_orders)
               (seqZ 0 num_ent) ([], 0)) in *.
  set (g := fun r =>
              map (GetNumDof fec (entity_geometry mesh ent_dim r))
                (orders_of width (array_get 0 entity_orders r))) in *.
  set (sizes := flat_map g (seqZ 0 num_ent)) in *.
  set (c := fun r =>
              if r <? num_ent
              then length (orders_of width (array_get 0 entity_orders r))
              else if r =? num_ent then 1%nat else 0%nat).
  assert (int_add num_ent 1 = num_ent + 1) as Hrows
    by (apply int_wrap_id; unfold int_range, INT_MIN, INT_MAX in *; lia).
  rewrite Hrows.
  assert (forall r, 0 <= r < num_ent ->
            c r = length (orders_of width (array_get 0 entity_orders r)))
    as Hc.
  { intros r Hr. unfold c. destruct (Z.ltb_spec r num_ent); [reflexivity | lia]. }
  assert (tab_I (Table_MakeFromList (num_ent + 1)
                   (fst st ++ [(num_ent, snd st)]))
          = map (row_offset c) (seqZ 0 (num_ent + 1 + 1))) as HI.
  { apply MakeFromList_offsets; [lia |].
    rewrite map_app, Hfst. cbn [map fst].
    rewrite (seqZ_snoc (num_ent + 1)) by lia.
    rewrite (seqZ_snoc num_ent) by lia.
    rewrite !flat_map_app. cbn [flat_map]. rewrite !app_nil_r.
    assert (c num_ent = 1%nat) as ->.
    { unfold c. rewrite Z.ltb_irrefl, Z.eqb_refl. reflexivity. }
    assert (c (num_ent + 1) = 0%nat) as ->.
    { unfold c. destruct (Z.ltb_spec (num_ent + 1) num_ent); [lia |].
      destruct (Z.eqb_spec (num_ent + 1) num_ent); [lia | reflexivity]. }
    cbn [replicate]. rewrite app_nil_r. f_equal.
    apply flat_map_ext_elem. intros r Hr. apply elem_of_seqZ in Hr.
    rewrite Hc by lia. reflexivity. }
  assert (tab_J (Table_MakeFromList (num_ent + 1)
                   (fst st ++ [(num_ent, snd st)]))
          = starts_of 0 sizes) as HJ.
  { cbn [Table_MakeFromList tab_J]. rewrite map_app. exact Hsnd. }
  split; [reflexivity |]. split; [exact HJ |]. split.
  - rewrite HJ, <- Hsnd.
    unfold array_get. destruct (Z.leb_spec 0 (Z.of_nat (length sizes))); [| lia].
    rewrite Nat2Z.id.
    assert (length (map snd (fst st)) = length sizes) as <-.
    { pose proof (f_equal (@length Z) Hsnd) as Hl.
      rewrite length_app, starts_of_length in Hl. cbn in Hl. lia. }
    apply nth_middle.
  - intros i Hi. rewrite HI. rewrite array_get_map_seqZ by lia.
    unfold row_offset. f_equal.
    apply flat_map_length_ext. intros r Hr. apply elem_of_seqZ in Hr.
    rewrite length_replicate, Hc by lia. unfold g.
    rewrite length_map. reflexivity.
Qed.

(** The row of an entity in the table [MakeDofTable] builds: the number of
    variants and the size of the block of each. *)
Lemma MakeDofTable_blocks (width : Z) (mesh : Mesh)
  (fec : FiniteElementCollection) (ent_dim : Z) (entity_orders : list Z) i :
  0 <= width ->
  Z.of_nat (length entity_orders) < INT_MAX ->
  Forall (fun b => 0 <= b < 2 ^ width) entity_orders ->
  (forall i o, 0 <= i < Z.of_nat (length entity_orders) -> 0 <= o < width ->
     int_range (GetNumDof fec (entity_geometry mesh ent_dim i) o)) ->
  0 <= i < Z.of_nat (length entity_orders) ->
  let entity_dofs := snd (MakeDofTable width mesh fec ent_dim entity_orders) in
  let bits := array_get 0 entity_orders i in
  Table_RowSize entity_dofs i = popcount width bits /\
  forall v, 0 <= v < popcount width bits ->
    variant_size entity_dofs i v
    = GetNumDof fec (entity_geometry mesh ent_dim i)
        (array_get 0 (orders_of width bits) v).
Proof.
  intros Hw Hlen Hfit Hnd Hi. cbv zeta.
  destruct (MakeDofTable_arrays width mesh fec ent_dim entity_orders
              Hw Hlen Hfit) as (_ & HJ & _ & Hrow).
  set (num_ent := Z.of_nat (length entity_orders)) in *.
  set (t := snd (MakeDofTable width mesh fec ent_dim entity_orders)) in *.
  set (g := fun r =>
              map (GetNumDof fec (entity_geometry mesh ent_dim r))
                (orders_of width (array_get 0 entity_orders r))) in *.
  set (sizes := flat_map g (seqZ 0 num_ent)) in *.
  assert (length (g i)
          = length (orders_of width (array_get 0 entity_orders i))) as Hgi
    by (unfold g; apply length_map).
  assert (Table_RowSize t i = popcount width (array_get 0 entity_orders i))
    as Hsize.
  { unfold Table_RowSize. rewrite !Hrow by lia.
    rewrite seqZ_snoc by lia. rewrite flat_map_app, length_app.
    cbn [flat_map]. rewrite app_nil_r, Hgi.
    unfold popcount, orders_of. lia. }
  split; [exact Hsize |].
  intros v Hv. unfold variant_size, Table_at.
  rewrite Hrow by lia. rewrite HJ.
  unfold popcount in Hv.
  fold (orders_of width (array_get 0 entity_orders i)) in Hv.
  pose proof (flat_map_block_bound g num_ent i Hi) as Hbound.
  fold sizes in Hbound.
  unfold array_get.
  destruct (Z.leb_spec 0 (Z.of_nat (length (flat_map g (seqZ 0 i))) + (v + 1)));
    [| lia].
  destruct (Z.leb_spec 0 (Z.of_nat (length (flat_map g (seqZ 0 i))) + v));
    [| lia].
  destruct (Z.leb_spec 0 v); [| lia].
  replace (Z.to_nat (Z.of_nat (length (flat_map g (seqZ 0 i))) + (v + 1)))
    with (S (length (flat_map g (seqZ 0 i)) + Z.to_nat v)) by lia.
  replace (Z.to_nat (Z.of_nat (length (flat_map g (seqZ 0 i))) + v))
    with (length (flat_map g (seqZ 0 i)) + Z.to_nat v)%nat by lia.
  rewrite starts_of_next by lia.
  unfold sizes at 2. rewrite nth_flat_map_block by lia.
  rewrite int_sub_add_cancel.
  - unfold g.
    rewrite (nth_indep _ 0 (GetNumDof fec (entity_geometry mesh ent_dim i) 0))
      by (rewrite length_map; lia).
    apply map_nth.
  - unfold g.
    rewrite (nth_indep _ 0 (GetNumDof fec (entity_geometry mesh ent_dim i) 0))
      by (rewrite length_map; lia).
    rewrite map_nth. apply Hnd; [exact Hi |].
    apply (orders_of_spec width (array_get 0 entity_orders i)).
    apply list_elem_of_In, nth_In. lia.
Qed.

(** X15 ([FiniteElementSpace::MakeDofTable]): the table built for the
    entities has one row per entity and a terminator row; row [i] has as
    many variants as the mask of entity [i] has orders; the block of variant
    [v] has the DOF count of the [v]-th order of the mask, lowest order
    first, on the geometry of the entity; the blocks start at offset 0 and
    the terminator row holds the total that is returned. *)
Theorem MakeDofTable_layout (width : Z) (mesh : Mesh)
  (fec : FiniteElementCollection) (ent_dim : Z) (entity_orders : list Z) :
  0 <= width ->
  Z.of_nat (length entity_orders) < INT_MAX ->
  Forall (fun b => 0 <= b < 2 ^ width) entity_orders ->
  (forall i o, 0 <= i < Z.of_nat (length entity_orders) -> 0 <= o < width ->
     int_range (GetNumDof fec (entity_geometry mesh ent_dim i) o)) ->
  let num_ent := Z.of_nat (length entity_orders) in
  let total_dofs := fst (MakeDofTable width mesh fec ent_dim entity_orders) in
  let entity_dofs := snd (MakeDofTable width mesh fec ent_dim entity_orders) in
  Size entity_dofs = num_ent + 1 /\
  Table_at entity_dofs 0 0 = 0 /\
  Table_at entity_dofs num_ent 0 = total_dofs /\
  forall i, 0 <= i < num_ent ->
    let bits := array_get 0 entity_orders i in
    Table_RowSize entity_dofs i = popcount width bits /\
    forall v, 0 <= v < popcount width bits ->
      variant_size entity_dofs i v
      = GetNumDof fec (entity_geometry mesh ent_dim i)
          (array_get 0 (orders_of width bits) v).
Proof.
  intros Hw Hlen Hfit Hnd. cbv zeta.
  destruct (MakeDofTable_arrays width mesh fec ent_dim entity_orders
              Hw Hlen Hfit) as (Hsize & HJ & Htotal & Hrow).
  split; [exact Hsize |]. split; [| split].
  - unfold Table_at. rewrite Hrow by lia. rewrite HJ.
    change (seqZ 0 0) with (@nil Z). cbn [flat_map length].
    destruct (flat_map _ _); reflexivity.
  - unfold Table_at. rewrite Hrow by lia. rewrite Z.add_0_r. exact Htotal.
  - intros i Hi.
    exact (MakeDofTable_blocks width mesh fec ent_dim entity_orders i
             Hw Hlen Hfit Hnd Hi).
Qed.

Lemma MakeDofTable_layout_witness :
  Table_RowSize (snd (MakeDofTable 8 two_edge_mesh h1_collection 1 [12; 4])) 0
  = popcount 8 12 /\
  variant_size (snd (MakeDofTable 8 two_edge_mesh h1_collection 1 [12; 4])) 0 1
  = GetNumDof h1_collection SEGMENT (array_get 0 (orders_of 8 12) 1).
Proof.
  destruct (MakeDofTable_layout 8 two_edge_mesh h1_collection 1 [12; 4])
    as (_ & _ & _ & Hrows).
  - lia.
  - vm_compute. reflexivity.
  - repeat constructor; vm_compute; congruence.
  - intros i o Hi Ho. unfold int_range, INT_MIN, INT_MAX. cbn. lia.
  - destruct (Hrows 0) as [Hsize Hblocks]; [cbn; lia |].
    split; [exact Hsize |].
    apply Hblocks. vm_compute. split; congruence.
Defined.

(** *** Looking up the order of a variant *)

Lemma init_map_upto_has (fec : FiniteElementCollection) geom mask (w : nat) o :
  0 <= o < Z.of_nat w -> Z.testbit mask o = true ->
  is_Some
    (fold_left (fun m order => <[GetNumDof fec geom order := order]> m)
       (filter (fun k => Z.testbit mask k = true) (seqZ 0 (Z.of_nat w)))
       (∅ : gmap Z Z) !! GetNumDof fec geom o).
Proof.
  induction w as [| w IH]; intros Ho Hbit; [lia |].
  rewrite seqZ_S. rewrite filter_app, fold_left_app.
  rewrite Z.add_0_l. rewrite filter_cons, filter_nil.
  destruct (decide (Z.testbit mask (Z.of_nat w) = true)) as [Hw | Hw];
    cbn [fold_left].
  - destruct (Z.eq_dec (GetNumDof fec geom (Z.of_nat w))
                (GetNumDof fec geom o)) as [Heq | Hne].
    + rewrite Heq, lookup_insert_eq. eexists. reflexivity.
    + rewrite lookup_insert_ne by exact Hne.
      apply IH; [| exact Hbit].
      destruct (Z.eq_dec o (Z.of_nat w)) as [-> | Hlt]; [contradiction | lia].
  - apply IH; [| exact Hbit].
    destruct (Z.eq_dec o (Z.of_nat w)) as [-> | Hlt]; [contradiction | lia].
Qed.

(** An order of the mask finds, under its DOF count, an order of the mask
    with the same count that is not smaller. *)
Lemma init_map_has width fec geom mask o :
  0 <= width -> 0 <= mask < 2 ^ width ->
  0 <= o < width -> Z.testbit mask o = true ->
  exists o',
    init_map width fec geom mask !! GetNumDof fec geom o = Some o' /\
    GetNumDof fec geom o' = GetNumDof fec geom o /\ o <= o' < width /\
    Z.testbit mask o' = true.
Proof.
  intros Hw Hmask Ho Hbit.
  destruct (init_map_upto_has fec geom mask (Z.to_nat width) o) as [o' Ho'];
    [lia | exact Hbit |].
  exists o'.
  unfold init_map. rewrite for_each_order_orders by assumption.
  unfold orders_of. rewrite <- (Z2Nat.id width) at 1 by lia.
  split; [exact Ho' |].
  apply init_map_upto in Ho' as (Hrange & Hbit' & Hn & Hmax).
  split; [exact Hn |]. split; [| exact Hbit'].
  split; [| lia].
  destruct (Z_lt_le_dec o' o) as [Hlt | Hle]; [| exact Hle].
  exfalso. apply (Hmax o); [lia | exact Hbit | reflexivity].
Qed.

(** The block of a variant in the table [MakeDofTable] builds finds its
    order in a map [init_map] builds from a mask that holds the orders of
    the entity. *)
Lemma built_variant_order (width : Z) (mesh : Mesh)
  (fec : FiniteElementCollection) (ent_dim : Z) (entity_orders : list Z)
  (mask i v : Z) :
  0 <= width ->
  Z.of_nat (length entity_orders) < INT_MAX ->
  Forall (fun b => 0 <= b < 2 ^ width) entity_orders ->
  (forall i o, 0 <= i < Z.of_nat (length entity_orders) -> 0 <= o < width ->
     int_range (GetNumDof fec (entity_geometry mesh ent_dim i) o)) ->
  0 <= mask < 2 ^ width ->
  (forall o, Z.testbit (array_get 0 entity_orders i) o = true ->
             Z.testbit mask o = true) ->
  0 <= i < Z.of_nat (length entity_orders) ->
  let t := snd (MakeDofTable width mesh fec ent_dim entity_orders) in
  let bits := array_get 0 entity_orders i in
  let geom := entity_geometry mesh ent_dim i in
  Table_RowSize t i = popcount width bits /\
  (0 <= v < popcount width bits ->
   exists o,
     init_map width fec geom mask
       !! int_sub (Table_at t i (v + 1)) (Table_at t i v) = Some o /\
     GetNumDof fec geom o
     = GetNumDof fec geom (array_get 0 (orders_of width bits) v) /\
     array_get 0 (orders_of width bits) v <= o < width).
Proof.
  intros Hw Hlen Hfit Hnd Hmask Hsub Hi. cbv zeta.
  destruct (MakeDofTable_blocks width mesh fec ent_dim entity_orders i
              Hw Hlen Hfit Hnd Hi) as [Hsize Hblocks].
  split; [exact Hsize |].
  intros Hv. specialize (Hblocks v Hv). unfold variant_size in Hblocks.
  rewrite Hblocks.
  assert (array_get 0 (orders_of width (array_get 0 entity_orders i)) v
          ∈ orders_of width (array_get 0 entity_orders i)) as Hin
    by (apply array_get_elem; unfold popcount, orders_of in *; lia).
  apply orders_of_spec in Hin as [Hrange Hbit].
  destruct (init_map_has width fec (entity_geometry mesh ent_dim i) mask
              _ Hw Hmask Hrange (Hsub _ Hbit)) as (o & Hlook & Hn & Ho & _).
  exists o. split; [exact Hlook |]. split; [exact Hn | exact Ho].
Qed.

(** X16 ([FiniteElementSpace::GetEdgeOrder] after
    [FiniteElementSpace::MakeDofTable] and
    [FiniteElementSpace::InitNDofToOrders]): on a variable-order space whose
    edge table and segment map were built from the same edge masks, the
    look-up of an edge order never fails: past the last variant of the edge
    the answer is -1, and for a variant of the edge it is an order that has
    the DOF count of the order the variant was made for and is not smaller
    than it. *)
Theorem GetEdgeOrder_of_built_tables (width : Z) (mesh : Mesh)
  (fec : FiniteElementCollection) (fes0 fes : FiniteElementSpace)
  (edge_orders face_orders : list Z) :
  0 <= width ->
  Z.of_nat (length edge_orders) < INT_MAX ->
  Forall (fun b => 0 <= b < 2 ^ width) edge_orders ->
  (forall o, 0 <= o < width -> int_range (GetNumDof fec SEGMENT o)) ->
  IsVariableOrder fes = true ->
  var_edge_dofs fes = snd (MakeDofTable width mesh fec 1 edge_orders) ->
  ndof_to_geom_order fes SEGMENT
  = ndof_to_geom_order
      (InitNDofToOrders width mesh fec fes0 edge_orders face_orders) SEGMENT ->
  forall edge variant,
    0 <= edge < Z.of_nat (length edge_orders) ->
    let bits := array_get 0 edge_orders edge in
    (popcount width bits <= variant ->
     GetEdgeOrder fec fes edge variant = Normal (-1)) /\
    (0 <= variant < popcount width bits ->
     exists o,
       GetEdgeOrder fec fes edge variant = Normal o /\
       GetNumDof fec SEGMENT o
       = GetNumDof fec SEGMENT (array_get 0 (orders_of width bits) variant) /\
       array_get 0 (orders_of width bits) variant <= o < width).
Proof.
  intros Hw Hlen Hfit Hnd Hvar Htable Hmap edge variant He. cbv zeta.
  unfold GetEdgeOrder. rewrite Hvar. cbn [negb].
  rewrite Htable, Hmap.
  unfold InitNDofToOrders, set_ndof_to_geom_order. cbn [ndof_to_geom_order].
  destruct (lor_selected width edge_orders (fun _ => true) Hw Hfit)
    as [Hmask Hbits]. cbv beta iota in Hmask, Hbits.
  destruct (built_variant_order width mesh fec 1 edge_orders _ edge variant
              Hw Hlen Hfit (fun i o _ Ho => Hnd o Ho) Hmask) as [Hsize Horder].
  { intros o Ho. apply Hbits. exists edge. split; [exact He |].
    split; [reflexivity | exact Ho]. }
  { exact He. }
  rewrite Hsize. split.
  - intros Hpast. destruct (Z.leb_spec (popcount width (array_get 0 edge_orders edge)) variant);
      [reflexivity | lia].
  - intros Hv. destruct (Z.leb_spec (popcount width (array_get 0 edge_orders edge)) variant);
      [lia |].
    destruct (Horder Hv) as (o & Hlook & Hn & Ho).
    exists o. change (entity_geometry mesh 1 edge) with SEGMENT in Hlook, Hn.
    rewrite Hlook. split; [reflexivity |]. split; [exact Hn | exact Ho].
Qed.

Lemma GetEdgeOrder_of_built_tables_witness :
  GetEdgeOrder h1_collection two_edge_space 0 2 = Normal (-1) /\
  exists o,
    GetEdgeOrder h1_collection two_edge_space 0 1 = Normal o /\
    GetNumDof h1_collection SEGMENT o
    = GetNumDof h1_collection SEGMENT (array_get 0 (orders_of 8 12) 1) /\
    array_get 0 (orders_of 8 12) 1 <= o < 8.
Proof.
  destruct (GetEdgeOrder_of_built_tables 8 two_edge_mesh h1_collection
              two_edge_space two_edge_space [12; 4] []) with (edge := 0)
    (variant := 2) as [Hpast _].
  - lia.
  - vm_compute. reflexivity.
  - repeat constructor; vm_compute; congruence.
  - intros o Ho. unfold int_range, INT_MIN, INT_MAX. cbn. lia.
  - reflexivity.
  - vm_compute. reflexivity.
  - vm_compute. reflexivity.
  - cbn. lia.
  - destruct (GetEdgeOrder_of_built_tables 8 two_edge_mesh h1_collection
                two_edge_space two_edge_space [12; 4] []) with (edge := 0)
      (variant := 1) as [_ Hvariant].
    + lia.
    + vm_compute. reflexivity.
    + repeat constructor; vm_compute; congruence.
    + intros o Ho. unfold int_range, INT_MIN, INT_MAX. cbn. lia.
    + reflexivity.
    + vm_compute. reflexivity.
    + vm_compute. reflexivity.
    + cbn. lia.
    + split.
      * apply Hpast. vm_compute. congruence.
      * apply Hvariant. vm_compute. split; congruence.
Defined.

(** X17 ([FiniteElementSpace::GetFaceOrder] after
    [FiniteElementSpace::MakeDofTable] and
    [FiniteElementSpace::InitNDofToOrders]): on a variable-order space whose
    face table and maps were built from the same face masks, the look-up of
    the order of a quadrilateral or triangular face never fails: past the
    last variant of the face the answer is -1, and for a variant of the face
    it is an order that has, on the geometry of the face, the DOF count of
    the order the variant was made for and is not smaller than it. *)
Theorem GetFaceOrder_of_built_tables (width : Z) (mesh : Mesh)
  (fec : FiniteElementCollection) (fes0 fes : FiniteElementSpace)
  (edge_orders face_orders : list Z) :
  0 <= width ->
  Z.of_nat (length face_orders) < INT_MAX ->
  Forall (fun b => 0 <= b < 2 ^ width) face_orders ->
  (forall i o, 0 <= i < Z.of_nat (length face_orders) -> 0 <= o < width ->
     int_range (GetNumDof fec (GetFaceGeometry mesh i) o)) ->
  IsVariableOrder fes = true ->
  var_face_dofs fes = snd (MakeDofTable width mesh fec 2 face_orders) ->
  ndof_to_geom_order fes
  = ndof_to_geom_order
      (InitNDofToOrders width mesh fec fes0 edge_orders face_orders) ->
  forall face variant,
    0 <= face < Z.of_nat (length face_orders) ->
    GetFaceGeometry mesh face = SQUARE \/
    GetFaceGeometry mesh face = TRIANGLE ->
    let bits := array_get 0 face_orders face in
    let fgeom := GetFaceGeometry mesh face in
    (popcount width bits <= variant ->
     GetFaceOrder mesh fec fes face variant = Normal (-1)) /\
    (0 <= variant < popcount width bits ->
     exists o,
       GetFaceOrder mesh fec fes face variant = Normal o /\
       GetNumDof fec fgeom o
       = GetNumDof fec fgeom (array_get 0 (orders_of width bits) variant) /\
       array_get 0 (orders_of width bits) variant <= o < width).
Proof.
  intros Hw Hlen Hfit Hnd Hvar Htable Hmap face variant Hf Hgeom. cbv zeta.
  unfold GetFaceOrder. rewrite Hvar. cbn [negb].
  rewrite Htable, Hmap.
  unfold InitNDofToOrders, set_ndof_to_geom_order. cbn [ndof_to_geom_order].
  rewrite face_masks_split. cbn [fst snd].
  destruct (lor_selected width face_orders
              (fun i => bool_decide (GetFaceGeometry mesh i = SQUARE))
              Hw Hfit) as [Hquad Hquad_bits].
  destruct (lor_selected width face_orders
              (fun i => negb (bool_decide (GetFaceGeometry mesh i = SQUARE)))
              Hw Hfit) as [Htri Htri_bits].
  cbv beta in Hquad, Hquad_bits, Htri, Htri_bits.
  assert (forall mask,
            0 <= mask < 2 ^ width ->
            (forall o, Z.testbit (array_get 0 face_orders face) o = true ->
                       Z.testbit mask o = true) ->
            Table_RowSize (snd (MakeDofTable width mesh fec 2 face_orders)) face
            = popcount width (array_get 0 face_orders face) /\
            (0 <= variant < popcount width (array_get 0 face_orders face) ->
             exists o,
               init_map width fec (GetFaceGeometry mesh face) mask
                 !! int_sub
                      (Table_at (snd (MakeDofTable width mesh fec 2 face_orders))
                         face (variant + 1))
                      (Table_at (snd (MakeDofTable width mesh fec 2 face_orders))
                         face variant) = Some o /\
               GetNumDof fec (GetFaceGeometry mesh face) o
               = GetNumDof fec (GetFaceGeometry mesh face)
                   (array_get 0
                      (orders_of width (array_get 0 face_orders face)) variant) /\
               array_get 0 (orders_of width (array_get 0 face_orders face))
                 variant <= o < width)) as Hbuilt.
  { intros mask Hmask Hsub.
    exact (built_variant_order width mesh fec 2 face_orders mask face variant
             Hw Hlen Hfit Hnd Hmask Hsub Hf). }
  destruct Hgeom as [Hsq | Htr].
  - destruct (Hbuilt _ Hquad) as [Hsize Horder].
    { intros o Ho. apply Hquad_bits. exists face. split; [exact Hf |].
      split; [apply bool_decide_eq_true; exact Hsq | exact Ho]. }
    rewrite Hsize. rewrite Hsq in *. split.
    + intros Hpast.
      destruct (Z.leb_spec (popcount width (array_get 0 face_orders face))
                  variant); [reflexivity | lia].
    + intros Hv.
      destruct (Z.leb_spec (popcount width (array_get 0 face_orders face))
                  variant); [lia |].
      destruct (Horder Hv) as (o & Hlook & Hn & Ho).
      exists o. rewrite Hlook.
      split; [reflexivity |]. split; [exact Hn | exact Ho].
  - destruct (Hbuilt _ Htri) as [Hsize Horder].
    { intros o Ho. apply Htri_bits. exists face. split; [exact Hf |].
      split; [| exact Ho].
      apply negb_true_iff, bool_decide_eq_false. rewrite Htr. discriminate. }
    rewrite Hsize. rewrite Htr in *. split.
    + intros Hpast.
      destruct (Z.leb_spec (popcount width (array_get 0 face_orders face))
                  variant); [reflexivity | lia].
    + intros Hv.
      destruct (Z.leb_spec (popcount width (array_get 0 face_orders face))
                  variant); [lia |].
      destruct (Horder Hv) as (o & Hlook & Hn & Ho).
      exists o. rewrite Hlook.
      split; [reflexivity |]. split; [exact Hn | exact Ho].
Qed.

Lemma GetFaceOrder_of_built_tables_witness :
  exists o,
    GetFaceOrder two_face_mesh h1_collection (two_face_space [12; 4]) 0 1
    = Normal o /\
    GetNumDof h1_collection (GetFaceGeometry two_face_mesh 0) o
    = GetNumDof h1_collection (GetFaceGeometry two_face_mesh 0)
        (array_get 0 (orders_of 8 (array_get 0 [12; 4] 0)) 1) /\
    array_get 0 (orders_of 8 (array_get 0 [12; 4] 0)) 1 <= o < 8.
Proof.
  destruct (GetFaceOrder_of_built_tables 8 two_face_mesh h1_collection
              nurbs_space (two_face_space [12; 4]) [] [12; 4])
    with (face := 0) (variant := 1) as [_ Hvariant].
  - lia.
  - vm_compute. reflexivity.
  - repeat constructor; vm_compute; congruence.
  - intros i o Hi Ho. unfold int_range, INT_MIN, INT_MAX.
    assert (i = 0 \/ i = 1) as [-> | ->] by (cbn in Hi; lia); cbn; nia.
  - reflexivity.
  - reflexivity.
  - reflexivity.
  - cbn. lia.
  - left. reflexivity.
  - apply Hvariant. vm_compute. split; congruence.
Defined.

(** ** The numbering of the DOFs after Construct *)

Lemma sum_before_succ s k :
  0 <= k -> sum_before s (k + 1) = sum_before s k + s k.
Proof.
  intros Hk. unfold sum_before. rewrite seqZ_snoc, map_app by exact Hk.
  apply sum_snoc.
Qed.

Lemma sum_before_mono s n :
  (forall k, 0 <= k < n -> 0 <= s k) ->
  forall i j, 0 <= i <= j -> j <= n -> sum_before s i <= sum_before s j.
Proof.
  intros Hnonneg i j Hij Hj.
  replace j with (i + Z.of_nat (Z.to_nat (j - i))) in * by lia.
  induction (Z.to_nat (j - i)) as [| m IH]; [rewrite Z.add_0_r; lia |].
  replace (i + Z.of_nat (S m)) with (i + Z.of_nat m + 1) in * by lia.
  rewrite sum_before_succ by lia.
  specialize (Hnonneg (i + Z.of_nat m) ltac:(lia)).
  specialize (IH ltac:(lia) ltac:(lia)). lia.
Qed.

Lemma sum_before_const s n c :
  0 <= n -> (forall k, 0 <= k < n -> s k = c) -> sum_before s n = n * c.
Proof.
  intros Hn Hconst.
  replace n with (Z.of_nat (Z.to_nat n)) in * by lia.
  induction (Z.to_nat n) as [| m IH]; [reflexivity |].
  replace (Z.of_nat (S m)) with (Z.of_nat m + 1) in * by lia.
  rewrite sum_before_succ by lia.
  rewrite IH by (try lia; intros k Hk; apply Hconst; lia).
  rewrite Hconst by lia. lia.
Qed.

(** Blocks of the sizes [s i] laid one after another from [b] enumerate the
    numbers from [b] on. *)
Lemma blocks_enumerate (s : Z -> Z) b n :
  0 <= n -> (forall i, 0 <= i < n -> 0 <= s i) ->
  flat_map (fun i => map (fun j => b + sum_before s i + j) (seqZ 0 (s i)))
    (seqZ 0 n)
  = seqZ b (sum_before s n).
Proof.
  intros Hn Hs.
  replace n with (Z.of_nat (Z.to_nat n)) in * by lia.
  induction (Z.to_nat n) as [| m IH].
  - reflexivity.
  - replace (Z.of_nat (S m)) with (Z.of_nat m + 1) in * by lia.
    rewrite seqZ_snoc by lia. rewrite flat_map_app.
    rewrite IH by (try lia; intros i Hi; apply Hs; lia).
    cbn [flat_map]. rewrite app_nil_r.
    rewrite sum_before_succ by lia.
    pose proof (sum_before_mono s (Z.of_nat m)
                  (fun k Hk => Hs k ltac:(lia)) 0 (Z.of_nat m)
                  ltac:(lia) ltac:(lia)) as Hpos.
    change (sum_before s 0) with 0 in Hpos.
    rewrite seqZ_app by (try exact Hpos; apply Hs; lia).
    f_equal.
    pose proof (fmap_add_seqZ (b + sum_before s (Z.of_nat m)) 0
                  (s (Z.of_nat m))) as Hshift.
    rewrite Z.add_0_r in Hshift. exact Hshift.
Qed.

(** The loop of the interior DOFs of an edge writes consecutive numbers. *)
Lemma consecutive_dofs (m : nat) : forall a acc k0,
  int_range k0 -> k0 + Z.of_nat m <= INT_MAX + 1 ->
  fst (fold_left (fun '(dofs, k) (_ : Z) => (dofs ++ [k], int_add k 1))
         (seqZ a (Z.of_nat m)) (acc, k0))
  = acc ++ seqZ k0 (Z.of_nat m).
Proof.
  induction m as [| m IH]; intros a acc k0 Hk Hm.
  - cbn. rewrite app_nil_r. reflexivity.
  - rewrite (seqZ_cons a) by lia. rewrite (seqZ_cons k0) by lia.
    replace (Z.pred (Z.of_nat (S m))) with (Z.of_nat m) by lia.
    cbn [fold_left].
    destruct m as [| m'].
    + cbn. reflexivity.
    + rewrite IH.
      * rewrite <- app_assoc. cbn [app]. do 3 f_equal.
        unfold int_add. rewrite int_wrap_id; [lia |].
        unfold int_range, INT_MIN, INT_MAX in *. lia.
      * unfold int_add. apply int_wrap_range.
      * unfold int_add. rewrite int_wrap_id;
          unfold int_range, INT_MIN, INT_MAX in *; lia.
Qed.

Lemma blocks_cover (s : Z -> Z) (f : Z -> list Z) b n :
  0 <= n -> (forall i, 0 <= i < n -> 0 <= s i) ->
  (forall i, 0 <= i < n -> f i = seqZ (b + sum_before s i) (s i)) ->
  flat_map f (seqZ 0 n) = seqZ b (sum_before s n).
Proof.
  intros Hn Hs Hf. rewrite <- blocks_enumerate by assumption.
  apply flat_map_ext_elem. intros i Hi. apply elem_of_seqZ in Hi.
  rewrite Hf by lia.
  pose proof (fmap_add_seqZ (b + sum_before s i) 0 (s i)) as Hshift.
  rewrite Z.add_0_r in Hshift. symmetry. exact Hshift.
Qed.

Lemma uniform_blocks_cover (f : Z -> list Z) b c n :
  0 <= n -> 0 <= c ->
  (forall i, 0 <= i < n -> f i = seqZ (b + i * c) c) ->
  flat_map f (seqZ 0 n) = seqZ b (n * c).
Proof.
  intros Hn Hc Hf.
  rewrite <- (sum_before_const (fun _ => c) n c) by (try lia; reflexivity).
  apply blocks_cover; [lia | intros; lia |].
  intros i Hi. rewrite (sum_before_const (fun _ => c) i c)
    by (try lia; reflexivity).
  apply Hf. exact Hi.
Qed.

Lemma map_int_add_seqZ c n :
  int_range c -> c + n <= INT_MAX + 1 ->
  map (fun j => int_add c j) (seqZ 0 n) = seqZ c n.
Proof.
  intros Hc Hn.
  pose proof (fmap_add_seqZ c 0 n) as Hshift. rewrite Z.add_0_r in Hshift.
  rewrite <- Hshift. apply map_ext_in. intros j Hj.
  apply list_elem_of_In, elem_of_seqZ in Hj.
  apply int_wrap_id. unfold int_range, INT_MIN, INT_MAX in *. lia.
Qed.

Section Construct_fixed_order.

Variable width : Z.
Variable fuel : nat.
Variable mesh : Mesh.
Variable fec : FiniteElementCollection.
Variable GetNV : Z.
Variable GetNumGeometries : Z -> Z.
Variable GetElementGeometry : Z -> Geometry.
Variable DofForGeometry : Geometry -> Z.
Variable junk : Z.
Variable fes : FiniteElementSpace.
Variable layout : InteriorLayout.

Local Abbreviation order := (DefaultOrder fec).
Local Abbreviation nP := (GetNumDof fec POINT (DefaultOrder fec)).
Local Abbreviation nS := (GetNumDof fec SEGMENT (DefaultOrder fec)).
Local Abbreviation nF :=
  (GetNumDof fec (GetFaceGeometry mesh 0) (DefaultOrder fec)).
Local Abbreviation nB :=
  (fun i => GetNumDof fec (GetElementGeometry i) (DefaultOrder fec)).

Hypothesis not_NURBS : NURBSext fes = false.
Hypothesis fixed_order : IsVariableOrder fes = false.
Hypothesis counts_nonneg :
  0 <= GetNV /\ 0 <= GetNEdges mesh /\ 0 <= GetNFaces mesh /\
  0 <= GetNE mesh < INT_MAX.
Hypothesis sizes_nonneg :
  0 <= nP /\ 0 <= nS /\ 0 <= nF /\
  forall i, 0 <= i < GetNE mesh -> 0 <= nB i.
Hypothesis same_elements :
  GetNumGeometries (Dimension mesh) <= 1 ->
  forall i, 0 <= i < GetNE mesh ->
    GetElementGeometry i = GetElementGeometry 0.
Hypothesis total_fits :
  GetNV * nP + GetNEdges mesh * nS + GetNFaces mesh * nF
  + sum_before nB (GetNE mesh) <= INT_MAX.
Hypothesis faces_not_mixed : GetNumGeometries 2 <= 1.
Hypothesis no_face_table : Size (var_face_dofs fes) <= 0.
Hypothesis default_dofs :
  DofForGeometry POINT = nP /\ DofForGeometry SEGMENT = nS.

Local Abbreviation constructed :=
  (set_constructed fes (ndof_to_geom_order fes) (var_edge_dofs fes)
     (var_face_dofs fes) (GetNV * nP) (GetNEdges mesh * nS)
     (GetNFaces mesh * nF) (sum_before nB (GetNE mesh))).

Lemma interior_sum_nonneg i :
  0 <= i <= GetNE mesh ->
  0 <= sum_before nB i <= sum_before nB (GetNE mesh).
Proof.
  intros Hi. destruct sizes_nonneg as (_ & _ & _ & HnB).
  pose proof (sum_before_mono nB (GetNE mesh) HnB 0 i ltac:(lia) ltac:(lia)).
  pose proof (sum_before_mono nB (GetNE mesh) HnB i (GetNE mesh)
                ltac:(lia) ltac:(lia)).
  change (sum_before nB 0) with 0 in *. lia.
Qed.

Lemma GetElementOrderImpl_fixed i : GetElementOrderImpl fec fes i = order.
Proof.
  unfold GetElementOrderImpl. unfold IsVariableOrder in fixed_order.
  rewrite fixed_order. reflexivity.
Qed.

(** The loop that fills [bdofs] stores the running sums. *)
Lemma Construct_bdofs_loop :
  let st :=
    fold_left (Construct_bdofs fec GetElementGeometry fes)
      (seqZ 0 (GetNE mesh))
      (array_set (replicate (Z.to_nat (int_add (GetNE mesh) 1)) junk) 0 0,
       0) in
  snd st = sum_before nB (GetNE mesh) /\
  forall i, 0 <= i <= GetNE mesh ->
    array_get 0 (fst st) i = sum_before nB i.
Proof.
  cbv zeta.
  destruct counts_nonneg as (_ & _ & _ & Hne).
  assert (int_add (GetNE mesh) 1 = GetNE mesh + 1) as Hsize
    by (apply int_wrap_id; unfold int_range, INT_MIN, INT_MAX in *; lia).
  pose proof (fold_left_seqZ_ind
    (Construct_bdofs fec GetElementGeometry fes)
    (fun k st =>
       Z.of_nat (length (fst st)) = GetNE mesh + 1 /\
       snd st = sum_before nB k /\
       forall i, 0 <= i <= k -> array_get 0 (fst st) i = sum_before nB i)
    (GetNE mesh)
    (array_set (replicate (Z.to_nat (int_add (GetNE mesh) 1)) junk) 0 0, 0))
    as Hind.
  cbv beta in Hind.
  destruct Hind as (_ & Hsum & Hget); [lia | | | split; assumption].
  - cbn [fst snd]. rewrite array_set_length, length_replicate, Hsize.
    split; [lia |]. split; [reflexivity |].
    intros i Hi. assert (i = 0) as -> by lia.
    rewrite array_get_set_eq by (rewrite length_replicate; lia).
    reflexivity.
  - intros k [bd nb] Hk (Hlen & Hnb & Hget). cbn [fst snd] in *.
    unfold Construct_bdofs. cbn [fst snd].
    rewrite GetElementOrderImpl_fixed.
    pose proof (interior_sum_nonneg (k + 1) ltac:(lia)) as Hrange.
    rewrite sum_before_succ in Hrange by lia.
    pose proof (interior_sum_nonneg (GetNE mesh) ltac:(lia)) as Htot.
    destruct sizes_nonneg as (HnP & HnS & HnF & _).
    assert (0 <= GetNV * nP) by nia.
    assert (0 <= GetNEdges mesh * nS) by nia.
    assert (0 <= GetNFaces mesh * nF) by nia.
    assert (int_add nb (nB k) = sum_before nB k + nB k) as Hadd.
    { rewrite Hnb. apply int_wrap_id.
      unfold int_range, INT_MIN, INT_MAX in *. lia. }
    assert (int_add k 1 = k + 1) as Hk1
      by (apply int_wrap_id; unfold int_range, INT_MIN, INT_MAX in *; lia).
    rewrite Hadd, Hk1, array_set_length.
    split; [exact Hlen |]. split; [rewrite sum_before_succ by lia; reflexivity |].
    intros i Hi. destruct (Z.eq_dec i (k + 1)) as [-> | Hne'].
    + rewrite array_get_set_eq by lia.
      rewrite sum_before_succ by lia. reflexivity.
    + rewrite array_get_set_ne by lia. apply Hget. lia.
Qed.

Lemma totals_range :
  0 <= GetNV * nP /\ 0 <= GetNEdges mesh * nS /\ 0 <= GetNFaces mesh * nF /\
  0 <= sum_before nB (GetNE mesh).
Proof.
  destruct counts_nonneg as (? & ? & ? & ?).
  destruct sizes_nonneg as (? & ? & ? & _).
  pose proof (interior_sum_nonneg (GetNE mesh) ltac:(lia)).
  repeat split; try nia; lia.
Qed.

(** The outcome of [Construct] on a space of fixed order whose faces are
    all alike. *)
Lemma Construct_fixed_outcome :
  exists layout',
    Construct width fuel mesh fec GetNV GetNumGeometries GetElementGeometry
      junk fes layout = Some (Normal (constructed, layout')) /\
    forall i, 0 <= i < GetNE mesh ->
      match bdofs layout' with
      | Some offsets => array_get 0 offsets i
      | None => int_mul i (nB i)
      end = sum_before nB i.
Proof.
  destruct totals_range as (HtP & HtS & HtF & HtB).
  destruct counts_nonneg as (HNV & HNEd & HNF & HNE).
  unfold Construct. rewrite not_NURBS, fixed_order. cbn [negb orb].
  destruct (Z.ltb_spec 1 (GetNumGeometries 2)) as [Hmixed | _]; [lia |].
  cbn [mbind option_bind fst snd].
  assert ((if negb (GetNV =? 0) then int_mul GetNV nP else 0) = GetNV * nP)
    as ->.
  { destruct (Z.eqb_spec GetNV 0) as [-> | _]; cbn [negb]; [lia |].
    apply int_wrap_id. unfold int_range, INT_MIN, INT_MAX in *. lia. }
  assert ((if negb (GetNEdges mesh =? 0)
           then (int_mul (GetNEdges mesh) nS, var_edge_dofs fes)
           else (0, var_edge_dofs fes))
          = (GetNEdges mesh * nS, var_edge_dofs fes)) as ->.
  { destruct (Z.eqb_spec (GetNEdges mesh) 0) as [-> | _]; cbn [negb];
      [f_equal; lia |].
    f_equal. apply int_wrap_id. unfold int_range, INT_MIN, INT_MAX in *. lia. }
  assert (int_mul (GetNFaces mesh) nF = GetNFaces mesh * nF) as HmF
    by (apply int_wrap_id; unfold int_range, INT_MIN, INT_MAX in *; lia).
  rewrite HmF.
  assert ((if negb (GetNFaces mesh =? 0)
           then ((GetNFaces mesh * nF, var_face_dofs fes), nF)
           else ((0, var_face_dofs fes), uni_fdof layout))
          = ((GetNFaces mesh * nF, var_face_dofs fes),
             if GetNFaces mesh =? 0 then uni_fdof layout else nF)) as ->.
  { destruct (Z.eqb_spec (GetNFaces mesh) 0) as [-> | _]; reflexivity. }
  cbn [fst snd].
  destruct (Z.eqb_spec (GetNE mesh) 0) as [Hzero | Hsome]; cbn [negb].
  { eexists. split; [| intros i Hi; lia].
    rewrite Hzero. reflexivity. }
  destruct (Z.ltb_spec 1 (GetNumGeometries (Dimension mesh)))
    as [Hmixed | Hsame]; cbn [fst snd].
  - destruct Construct_bdofs_loop as [Hsum Hget]. rewrite Hsum.
    eexists. split; [reflexivity |].
    cbn [bdofs]. intros i Hi. apply Hget. lia.
  - assert (forall i, 0 <= i < GetNE mesh -> nB i = nB 0) as Hconst
      by (intros i Hi; rewrite (same_elements Hsame i Hi); reflexivity).
    assert (sum_before nB (GetNE mesh) = GetNE mesh * nB 0) as Htotal
      by (apply sum_before_const; [lia | exact Hconst]).
    assert (int_mul (GetNE mesh) (nB 0) = sum_before nB (GetNE mesh)) as ->.
    { rewrite Htotal. apply int_wrap_id.
      unfold int_range, INT_MIN, INT_MAX in *. lia. }
    eexists. split; [reflexivity |].
    cbn [bdofs]. intros i Hi.
    rewrite (sum_before_const nB i (nB 0))
      by (try lia; intros k Hk; apply Hconst; lia).
    rewrite Hconst by exact Hi.
    pose proof (interior_sum_nonneg i ltac:(lia)) as Hle.
    rewrite (sum_before_const nB i (nB 0)) in Hle
      by (try lia; intros k Hk; apply Hconst; lia).
    apply int_wrap_id. unfold int_range, INT_MIN, INT_MAX in *. lia.
Qed.

Lemma GetVertexDofs_all :
  flat_map (GetVertexDofs DofForGeometry) (seqZ 0 GetNV)
  = seqZ 0 (GetNV * nP).
Proof.
  destruct totals_range as (HtP & HtS & HtF & HtB).
  destruct counts_nonneg as (HNV & _). destruct sizes_nonneg as (HnP & _).
  destruct default_dofs as [HdP _].
  apply uniform_blocks_cover; [lia | lia |].
  intros i Hi. unfold GetVertexDofs. rewrite HdP.
  assert (0 <= i * nP /\ i * nP + nP <= GetNV * nP) as Hblock by nia.
  assert (int_mul i nP = i * nP) as ->
    by (apply int_wrap_id; unfold int_range, INT_MIN, INT_MAX in *; lia).
  apply map_int_add_seqZ; unfold int_range, INT_MIN, INT_MAX in *; lia.
Qed.

Lemma GetEdgeInteriorDofs_all :
  flat_map (GetEdgeInteriorDofs DofForGeometry constructed)
    (seqZ 0 (GetNEdges mesh))
  = seqZ (GetNV * nP) (GetNEdges mesh * nS).
Proof.
  destruct totals_range as (HtP & HtS & HtF & HtB).
  destruct counts_nonneg as (_ & HNEd & _).
  destruct sizes_nonneg as (_ & HnS & _).
  destruct default_dofs as [_ HdS].
  apply uniform_blocks_cover; [lia | lia |].
  intros i Hi. unfold GetEdgeInteriorDofs. rewrite HdS.
  cbn [nvdofs set_constructed].
  assert (0 <= i * nS /\ i * nS + nS <= GetNEdges mesh * nS) as Hblock by nia.
  assert (int_mul i nS = i * nS) as ->
    by (apply int_wrap_id; unfold int_range, INT_MIN, INT_MAX in *; lia).
  assert (int_add (GetNV * nP) (i * nS) = GetNV * nP + i * nS) as ->
    by (apply int_wrap_id; unfold int_range, INT_MIN, INT_MAX in *; lia).
  replace (seqZ 0 nS) with (seqZ 0 (Z.of_nat (Z.to_nat nS)))
    by (rewrite Z2Nat.id by lia; reflexivity).
  rewrite consecutive_dofs;
    [rewrite Z2Nat.id by lia; reflexivity
    | unfold int_range, INT_MIN, INT_MAX in *; lia | lia].
Qed.

Lemma GetFaceInteriorDofs_all :
  flat_map (GetFaceInteriorDofs mesh fec constructed)
    (seqZ 0 (GetNFaces mesh))
  = seqZ (GetNV * nP + GetNEdges mesh * nS) (GetNFaces mesh * nF).
Proof.
  destruct totals_range as (HtP & HtS & HtF & HtB).
  destruct counts_nonneg as (_ & _ & HNF & _).
  destruct sizes_nonneg as (_ & _ & HnF & _).
  apply uniform_blocks_cover; [lia | lia |].
  intros i Hi. unfold GetFaceInteriorDofs.
  cbn [nvdofs nedofs var_face_dofs set_constructed].
  destruct (Z.ltb_spec 0 (Size (var_face_dofs fes))) as [Htable | _]; [lia |].
  assert (0 <= i * nF /\ i * nF + nF <= GetNFaces mesh * nF) as Hblock by nia.
  assert (int_mul i nF = i * nF) as ->
    by (apply int_wrap_id; unfold int_range, INT_MIN, INT_MAX in *; lia).
  assert (int_add (GetNV * nP) (GetNEdges mesh * nS)
          = GetNV * nP + GetNEdges mesh * nS) as ->
    by (apply int_wrap_id; unfold int_range, INT_MIN, INT_MAX in *; lia).
  assert (int_add (GetNV * nP + GetNEdges mesh * nS) (i * nF)
          = GetNV * nP + GetNEdges mesh * nS + i * nF) as ->
    by (apply int_wrap_id; unfold int_range, INT_MIN, INT_MAX in *; lia).
  apply map_int_add_seqZ; unfold int_range, INT_MIN, INT_MAX in *; lia.
Qed.

Lemma GetElementInteriorDofs_all layout' :
  (forall i, 0 <= i < GetNE mesh ->
     match bdofs layout' with
     | Some offsets => array_get 0 offsets i
     | None => int_mul i (nB i)
     end = sum_before nB i) ->
  flat_map (GetElementInteriorDofs fec GetElementGeometry constructed layout')
    (seqZ 0 (GetNE mesh))
  = seqZ (GetNV * nP + GetNEdges mesh * nS + GetNFaces mesh * nF)
      (sum_before nB (GetNE mesh)).
Proof.
  intros Hbase.
  destruct totals_range as (HtP & HtS & HtF & HtB).
  destruct counts_nonneg as (_ & _ & _ & HNE).
  destruct sizes_nonneg as (_ & _ & _ & HnB).
  apply blocks_cover; [lia | exact HnB |].
  intros i Hi. unfold GetElementInteriorDofs.
  assert (GetElementOrderImpl fec constructed i = order) as ->
    by (exact (GetElementOrderImpl_fixed i)).
  cbn [nvdofs nedofs nfdofs set_constructed].
  specialize (Hbase i Hi).
  assert (match bdofs layout' with
          | Some offsets => array_get 0 offsets i
          | None => int_mul i (nB i)
          end = sum_before nB i) as -> by exact Hbase.
  pose proof (interior_sum_nonneg i ltac:(lia)) as Hbefore.
  pose proof (interior_sum_nonneg (i + 1) ltac:(lia)) as Hafter.
  rewrite sum_before_succ in Hafter by lia.
  assert (int_add (GetNV * nP) (GetNEdges mesh * nS)
          = GetNV * nP + GetNEdges mesh * nS) as ->
    by (apply int_wrap_id; unfold int_range, INT_MIN, INT_MAX in *; lia).
  assert (int_add (GetNV * nP + GetNEdges mesh * nS) (GetNFaces mesh * nF)
          = GetNV * nP + GetNEdges mesh * nS + GetNFaces mesh * nF) as ->
    by (apply int_wrap_id; unfold int_range, INT_MIN, INT_MAX in *; lia).
  assert (int_add (sum_before nB i)
            (GetNV * nP + GetNEdges mesh * nS + GetNFaces mesh * nF)
          = GetNV * nP + GetNEdges mesh * nS + GetNFaces mesh * nF
            + sum_before nB i) as ->
    by (unfold int_add; rewrite int_wrap_id;
        unfold int_range, INT_MIN, INT_MAX in *; lia).
  apply map_int_add_seqZ; unfold int_range, INT_MIN, INT_MAX in *; lia.
Qed.

(** X18 ([FiniteElementSpace::Construct] with
    [FiniteElementSpace::GetVertexDofs], [GetEdgeInteriorDofs],
    [GetFaceInteriorDofs] and [GetElementInteriorDofs]): on a space of fixed
    order that is not a NURBS space and has no face table, over a mesh whose
    faces are all alike, [Construct] returns normally, the number of DOFs
    is the sum of the DOFs of the vertices, edges, faces and elements, and
    the interior DOFs of the vertices, then the edges, then the faces, then
    the elements are exactly 0, 1, ..., [ndofs - 1] in this order: every DOF
    belongs to one entity and to no other. *)
Theorem Construct_numbers_all_dofs :
  exists fes' layout',
    Construct width fuel mesh fec GetNV GetNumGeometries GetElementGeometry
      junk fes layout = Some (Normal (fes', layout')) /\
    ndofs fes'
    = GetNV * nP + GetNEdges mesh * nS + GetNFaces mesh * nF
      + sum_before nB (GetNE mesh) /\
    all_interior_dofs mesh fec GetNV GetElementGeometry DofForGeometry
      fes' layout'
    = seqZ 0 (ndofs fes').
Proof.
  destruct Construct_fixed_outcome as (layout' & Hrun & Hbase).
  destruct totals_range as (HtP & HtS & HtF & HtB).
  exists constructed, layout'.
  assert (ndofs constructed
          = GetNV * nP + GetNEdges mesh * nS + GetNFaces mesh * nF
            + sum_before nB (GetNE mesh)) as Hndofs.
  { cbn [ndofs set_constructed]. unfold int_add.
    rewrite (int_wrap_id (GetNV * nP + GetNEdges mesh * nS))
      by (unfold int_range, INT_MIN, INT_MAX in *; lia).
    rewrite (int_wrap_id
               (GetNV * nP + GetNEdges mesh * nS + GetNFaces mesh * nF))
      by (unfold int_range, INT_MIN, INT_MAX in *; lia).
    apply int_wrap_id. unfold int_range, INT_MIN, INT_MAX in *. lia. }
  split; [exact Hrun |]. split; [exact Hndofs |].
  rewrite Hndofs. unfold all_interior_dofs.
  rewrite GetVertexDofs_all, GetEdgeInteriorDofs_all, GetFaceInteriorDofs_all.
  rewrite (GetElementInteriorDofs_all layout' Hbase).
  rewrite !seqZ_app by lia. rewrite !Z.add_0_l, <- !app_assoc. reflexivity.
Qed.

End Construct_fixed_order.

Lemma Construct_numbers_all_dofs_witness :
  exists fes' layout',
    Construct 8 0 two_children_mesh h1_collection 3 (fun _ => 1)
      (fun _ => SEGMENT) 0 FiniteElementSpace_default
      {| bdofs := None; uni_fdof := 0 |} = Some (Normal (fes', layout')) /\
    ndofs fes' = 5 /\
    all_interior_dofs two_children_mesh h1_collection 3 (fun _ => SEGMENT)
      (fun g => GetNumDof h1_collection g 2) fes' layout'
    = seqZ 0 (ndofs fes').
Proof.
  apply (Construct_numbers_all_dofs 8 0 two_children_mesh h1_collection 3
           (fun _ => 1) (fun _ => SEGMENT)
           (fun g => GetNumDof h1_collection g 2) 0 FiniteElementSpace_default
           {| bdofs := None; uni_fdof := 0 |}).
  - reflexivity.
  - reflexivity.
  - vm_compute. repeat split; congruence.
  - repeat split; vm_compute; congruence.
  - intros _ i Hi. reflexivity.
  - vm_compute. congruence.
  - lia.
  - vm_compute. congruence.
  - split; reflexivity.
Defined.

(** ** Essential DOFs of a conforming space *)

Lemma mark_dofs_stores dofs : forall mark_array,
  mark_dofs dofs mark_array
  = fold_left (fun marker i => array_set marker i (-1)) (map DecodeDof dofs)
      mark_array.
Proof.
  induction dofs as [| k dofs IH]; intros mark_array; [reflexivity |].
  cbn [map fold_left]. rewrite <- IH. reflexivity.
Qed.

Lemma filter_seqZ_increasing (P : Z -> Prop) `{!forall x, Decision (P x)}
  (n : nat) : forall lo lo',
  lo' <= lo -> increasing_from lo' (filter P (seqZ lo (Z.of_nat n))).
Proof.
  induction n as [| n IH]; intros lo lo' Hlo; [exact I |].
  rewrite seqZ_cons by lia. rewrite filter_cons.
  replace (Z.pred (Z.of_nat (S n))) with (Z.of_nat n) by lia.
  destruct (decide (P lo)).
  - split; [exact Hlo |]. apply IH. lia.
  - apply IH. lia.
Qed.

Section Essential_facts.

Variable mesh : Mesh.
Variable fec : FiniteElementCollection.
Variable collect_dependencies :
  FiniteElementSpace -> SparseMatrix * SparseMatrix.
Variable Finalize : SparseMatrix -> SparseMatrix.
Variable fuel : nat.
Variable GetNBE : Z.
Variable GetBdrAttribute : Z -> Z.
Variable GetBdrElementDofs : Z -> list Z.
Variable GetBoundaryClosure : list Z -> list Z * list Z.
Variable DofForGeometry : Geometry -> Z.
Variable BooleanMult : SparseMatrix -> list Z -> list Z.
Variable junk : Z.
Variable fes : FiniteElementSpace.
Variable bdr_attr_is_ess : list Z.
Variable component : Z.

Local Abbreviation marked_by i :=
  (if negb (array_get 0 bdr_attr_is_ess (int_sub (GetBdrAttribute i) 1) =? 0)
   then map DecodeDof
          (bdr_element_vdofs GetBdrElementDofs junk fes component i)
   else []).

Lemma mark_bdr_elements_stores (l : list Z) : forall st,
  fst (fst (fold_left
              (mark_bdr_element GetBdrAttribute GetBdrElementDofs junk fes
                 bdr_attr_is_ess component) l st))
  = fold_left (fun marker i => array_set marker i (-1))
      (flat_map (fun i => marked_by i) l) (fst (fst st)).
Proof.
  induction l as [| i l IH]; intros [[ess_vdofs vdofs] dofs]; [reflexivity |].
  cbn [fold_left flat_map]. rewrite fold_left_app. rewrite IH.
  unfold mark_bdr_element, bdr_element_vdofs.
  destruct (negb (array_get 0 bdr_attr_is_ess
                    (int_sub (GetBdrAttribute i) 1) =? 0)).
  - destruct (component <? 0); cbn [fst snd];
      rewrite mark_dofs_stores; reflexivity.
  - reflexivity.
Qed.

Hypothesis conforming : mesh_Conforming mesh = true.
Hypothesis vdofs_in_range :
  forall i v,
    essential_bdr_element GetNBE GetBdrAttribute bdr_attr_is_ess i ->
    v ∈ bdr_element_vdofs GetBdrElementDofs junk fes component i ->
    0 <= DecodeDof v < GetVSize fes.

Lemma marked_spec k :
  k ∈ flat_map (fun i => marked_by i) (seqZ 0 GetNBE)
  <-> exists i v,
        essential_bdr_element GetNBE GetBdrAttribute bdr_attr_is_ess i /\
        v ∈ bdr_element_vdofs GetBdrElementDofs junk fes component i /\
        DecodeDof v = k.
Proof.
  rewrite list_elem_of_In, in_flat_map. unfold essential_bdr_element. split.
  - intros (i & Hi & Hk). apply list_elem_of_In, elem_of_seqZ in Hi.
    destruct (Z.eqb_spec (array_get 0 bdr_attr_is_ess
                            (int_sub (GetBdrAttribute i) 1)) 0)
      as [Hz | Hnz]; cbn [negb] in Hk; [destruct Hk |].
    apply list_elem_of_In, list_elem_of_fmap in Hk as (v & -> & Hv).
    exists i, v. split; [split; [lia | exact Hnz] |].
    split; [exact Hv | reflexivity].
  - intros (i & v & [Hi Hnz] & Hv & Hk). exists i.
    split; [apply list_elem_of_In, elem_of_seqZ; lia |].
    apply Z.eqb_neq in Hnz. rewrite Hnz. cbn [negb].
    apply list_elem_of_In, list_elem_of_fmap. exists v.
    split; [symmetry; exact Hk | exact Hv].
Qed.

(** X19 ([FiniteElementSpace::GetEssentialTrueDofs] with
    [FiniteElementSpace::GetEssentialVDofs], [mark_dofs] and
    [FiniteElementSpace::MarkerToList]): on a conforming mesh the list of
    essential true DOFs is returned with the space unchanged; it is strictly
    increasing and holds exactly the vdofs, decoded from their signed form,
    of the boundary elements whose attribute is marked essential: all
    components for a negative [component], the given component
    otherwise. *)
Theorem GetEssentialTrueDofs_conforming :
  exists ess_tdof_list,
    GetEssentialTrueDofs mesh fec collect_dependencies Finalize fuel GetNBE
      GetBdrAttribute GetBdrElementDofs GetBoundaryClosure DofForGeometry
      BooleanMult junk fes bdr_attr_is_ess component
    = Some (Normal (fes, ess_tdof_list)) /\
    increasing_from 0 ess_tdof_list /\
    forall k,
      k ∈ ess_tdof_list
      <-> exists i v,
            essential_bdr_element GetNBE GetBdrAttribute bdr_attr_is_ess i /\
            v ∈ bdr_element_vdofs GetBdrElementDofs junk fes component i /\
            DecodeDof v = k.
Proof.
  unfold GetEssentialTrueDofs, GetConformingRestriction, Conforming.
  rewrite conforming. cbn [mbind option_bind result_bind].
  eexists. split; [reflexivity |].
  unfold GetEssentialVDofs, Nonconforming. rewrite conforming. cbn [negb].
  rewrite mark_bdr_elements_stores. cbn [fst].
  unfold MarkerToList. rewrite MarkerToList_from_filter.
  rewrite marker_stores_length, length_replicate.
  split; [apply filter_seqZ_increasing; lia |].
  intros k. rewrite list_elem_of_filter, elem_of_seqZ, Z.sub_0_r.
  rewrite <- marked_spec. split.
  - intros [Hnz Hk].
    rewrite marker_stores_get in Hnz by (rewrite length_replicate; lia).
    destruct (decide (k ∈ flat_map (fun i => marked_by i) (seqZ 0 GetNBE)))
      as [Hin | _]; [exact Hin |].
    rewrite array_get_replicate in Hnz by exact 0. contradiction.
  - intros Hin.
    assert (0 <= k < GetVSize fes) as Hk.
    { apply marked_spec in Hin as (i & v & Hi & Hv & <-).
      exact (vdofs_in_range i v Hi Hv). }
    split; [| lia].
    rewrite marker_stores_get by (rewrite length_replicate; lia).
    rewrite decide_True by exact Hin. discriminate.
Qed.

End Essential_facts.

Lemma GetEssentialTrueDofs_conforming_witness :
  exists ess_tdof_list,
    GetEssentialTrueDofs two_children_mesh h1_collection
      (fun _ => ([], [])) (fun m => m) 0 2 (fun i => i + 1)
      (fun i => if i =? 0 then [0] else [-3]) (fun _ => ([], []))
      (fun _ => 0) (fun _ x => x) 0 three_dof_space [1; 1] (-1)
    = Some (Normal (three_dof_space, ess_tdof_list)) /\
    increasing_from 0 ess_tdof_list /\
    forall k,
      k ∈ ess_tdof_list
      <-> exists i v,
            essential_bdr_element 2 (fun i => i + 1) [1; 1] i /\
            v ∈ bdr_element_vdofs (fun i => if i =? 0 then [0] else [-3]) 0
                  three_dof_space (-1) i /\
            DecodeDof v = k.
Proof.
  apply (GetEssentialTrueDofs_conforming two_children_mesh h1_collection
           (fun _ => ([], [])) (fun m => m) 0 2 (fun i => i + 1)
           (fun i => if i =? 0 then [0] else [-3]) (fun _ => ([], []))
           (fun _ => 0) (fun _ x => x) 0 three_dof_space [1; 1] (-1)).
  - reflexivity.
  - intros i v [Hi _] Hv.
    assert (i = 0 \/ i = 1) as [-> | ->] by lia;
      vm_compute in Hv; apply list_elem_of_singleton in Hv; subst v;
      vm_compute; split; congruence.
Defined.

(** ** Entity DOF look-up on the tables of a constructed space *)






(** Edge 0 of the two-edge space holds the variants of order 2 and 3; a
    third variant does not exist. *)
Example GetEdgeDofs_variants :
  GetEdgeDofs two_edge_mesh h1_collection two_edge_space 0 [] 0
    = (2, [0; 1; 3]) /\
  GetEdgeDofs two_edge_mesh h1_collection two_edge_space 0 [] 1
    = (3, [0; 1; 4; 5]) /\
  GetEdgeDofs two_edge_mesh h1_collection two_edge_space 0 [9] 2
    = (-1, [9]) /\
  GetEdgeDofs two_edge_mesh h1_collection two_edge_space 1 [] 1
    = (-1, []).
Proof. repeat split; vm_compute; reflexivity. Qed.



(** An existing variant can still end in the fatal error of the edge-block
    search on the tables [Construct] builds.  On [two_triangle_mesh] with
    the element orders 1 and 2, face 0 has one variant, made for order 1;
    the orders 1 and 2 both have no DOF inside a triangle, so the map gives
    order 2 for the empty block, and edge 0, which carries order 1 only,
    has no block of the one DOF that order 2 asks for. *)
Lemma GetFaceDofs_aborts_on_constructed_space :
  Table_RowSize (var_face_dofs (constructed_on_two_triangles [1; 2])) 0 = 1 /\
  GetFaceDofs two_triangle_mesh h1_simplex_collection Aborted
    (constructed_on_two_triangles [1; 2]) 0 [] 0 = Aborted.
Proof. split; vm_compute; reflexivity. Qed.


Example GetFaceDofs_NURBS_variant :
  GetFaceDofs (empty_mesh 0) h1_collection Aborted nurbs_space 0 [] 1
  = Normal (2, [0; 1; 2]).
Proof. vm_compute. reflexivity. Qed.
